(** * MojoShader preprocessor (mojoshader_preprocessor.c)

    A shallow embedding of the preprocessor front end: the allocator
    wrappers, the conditional pool, the define hash table, the filename
    cache, the include stack, the directive handlers, the token dispatcher
    and the chunked output buffer, followed by the properties of the
    specification that are settled on them.

    Conventions.
    - A [string] that stands for a [char *] argument holds the bytes of the
      NUL-terminated array without the terminator.  Raw source bytes are
      [string]s too; [cstr] reads the C string that starts a byte sequence.
    - Pointers into a source buffer are byte offsets ([Z]) from
      [source_base]; a pointer returned by the allocator is the [bool]
      "is not NULL".
    - [unsigned int] values are [Z] reduced with [uint32]; [size_t] values are
      [Z] reduced with [size_t_wrap]. *)

From Stdlib Require Import ZArith List String Ascii Bool Lia.
From stdpp Require Import base list.
Import ListNotations.
Local Open Scope string_scope.
Local Open Scope list_scope.
Local Open Scope Z_scope.

(** ** Machine integers, bytes and C strings *)

Definition uint32 (z : Z) : Z := z mod 2 ^ 32.

Definition SIZE_T_MODULUS : Z := 2 ^ 64.
Definition size_t_wrap (z : Z) : Z := z mod SIZE_T_MODULUS.

Definition NUL : ascii := "000"%char.
Definition NEWLINE : ascii := "010"%char.
Definition CR : ascii := "013"%char.
Definition DQUOTE : ascii := "034"%char.

(** The C string stored at the start of [bytes]: everything before the first
    NUL. *)
Fixpoint cstr (bytes : string) : string :=
  match bytes with
  | EmptyString => EmptyString
  | String c rest => if Ascii.eqb c NUL then EmptyString else String c (cstr rest)
  end.

Definition strlen (s : string) : Z := Z.of_nat (String.length (cstr s)).

(** [len] bytes of [base] starting at offset [start]. *)
Definition slice (base : string) (start len : Z) : string :=
  substring (Z.to_nat start) (Z.to_nat len) base.

(** [*(base + off)]. *)
Definition byte_at (base : string) (off : Z) : ascii :=
  match String.get (Z.to_nat off) base with
  | Some c => c
  | None => NUL
  end.

(** ** Tokens (the [Token] enum of mojoshader_internal.h; a single byte used
    as its own tag is [TOKEN_CHAR]) *)

Inductive Token : Type :=
  | TOKEN_UNKNOWN
  | TOKEN_IDENTIFIER
  | TOKEN_INT_LITERAL
  | TOKEN_FLOAT_LITERAL
  | TOKEN_STRING_LITERAL
  | TOKEN_ADDASSIGN
  | TOKEN_SUBASSIGN
  | TOKEN_MULTASSIGN
  | TOKEN_DIVASSIGN
  | TOKEN_MODASSIGN
  | TOKEN_XORASSIGN
  | TOKEN_ANDASSIGN
  | TOKEN_ORASSIGN
  | TOKEN_INCREMENT
  | TOKEN_DECREMENT
  | TOKEN_RSHIFT
  | TOKEN_LSHIFT
  | TOKEN_ANDAND
  | TOKEN_OROR
  | TOKEN_LEQ
  | TOKEN_GEQ
  | TOKEN_EQL
  | TOKEN_NEQ
  | TOKEN_HASHHASH
  | TOKEN_PP_INCLUDE
  | TOKEN_PP_LINE
  | TOKEN_PP_DEFINE
  | TOKEN_PP_UNDEF
  | TOKEN_PP_IF
  | TOKEN_PP_IFDEF
  | TOKEN_PP_IFNDEF
  | TOKEN_PP_ELSE
  | TOKEN_PP_ELIF
  | TOKEN_PP_ENDIF
  | TOKEN_PP_ERROR
  | TOKEN_INCOMPLETE_COMMENT
  | TOKEN_BAD_CHARS
  | TOKEN_EOI
  | TOKEN_PREPROCESSING_ERROR
  | TOKEN_CHAR (c : ascii).

Definition Token_eq_dec (a b : Token) : {a = b} + {a <> b}.
Proof. decide equality. apply ascii_dec. Defined.

Definition Token_eqb (a b : Token) : bool :=
  if Token_eq_dec a b then true else false.

Definition TOKEN_NEWLINE : Token := TOKEN_CHAR NEWLINE.

(** ** The allocator capability

    [ctx->malloc (len, ctx->malloc_data)] is the caller's function.  Its
    answers are modelled by a script held in the allocator data: each call
    consumes one entry ([false] = NULL is returned); an exhausted script
    always succeeds.  [live] counts the blocks handed out and not yet
    given back. *)

Record Heap : Type := mkHeap { script : list bool; live : Z }.

Definition heap_malloc (len : Z) (d : Heap) : bool * Heap :=
  match script d with
  | [] => (true, mkHeap [] (live d + 1))
  | ok :: rest => (ok, mkHeap rest (if ok then live d + 1 else live d))
  end.

Definition heap_free (d : Heap) : Heap := mkHeap (script d) (live d - 1).

(** ** Data model *)

Record MOJOSHADER_preprocessorDefine : Type := mkDefine {
  identifier : string;
  definition : string
}.

Inductive MOJOSHADER_includeType : Type :=
  | MOJOSHADER_INCLUDETYPE_LOCAL
  | MOJOSHADER_INCLUDETYPE_SYSTEM.

(** [Conditional] (declared in mojoshader_internal.h), with the fields this
    file reads and writes; the [next] link is the tail of the list holding
    it. *)
Record Conditional : Type := mkConditional {
  type : Token;
  linenum : Z;
  skipping : bool;
  chosen : bool
}.

(** [memset (retval, 0, sizeof (Conditional))]: the enum value 0 is no
    declared token; it is the single byte 0 used as a tag. *)
Definition zeroed_conditional : Conditional :=
  mkConditional (TOKEN_CHAR NUL) 0 false false.

(** [IncludeState] (declared in mojoshader_internal.h), with the fields this
    file reads and writes; [source] and [token] are offsets from
    [source_base], and [next] is the tail of the include stack. *)
Record IncludeState : Type := mkIncludeState {
  filename : option string;
  included : bool;
  source_base : string;
  source : Z;
  token : Z;
  bytes_left : Z;
  line : Z;
  conditional_stack : list Conditional
}.

(** The include-open callback: kind, file name and parent buffer to the new
    buffer and its length, or failure. *)
Definition MOJOSHADER_includeOpen : Type :=
  MOJOSHADER_includeType -> string -> string -> option (string * Z).

(** [Context].  [define_hashtable] is the array of 256 chains.
    [close_callback] is the log of the buffers handed to the caller's
    include-close callback, most recent first. *)
Record Context : Type := mkContext {
  isfail : bool;
  out_of_memory : bool;
  failstr : string;
  conditional_pool : list Conditional;
  include_stack : list IncludeState;
  define_hashtable : list (list MOJOSHADER_preprocessorDefine);
  filename_cache : list string;
  open_callback : MOJOSHADER_includeOpen;
  close_callback : list string;
  malloc_data : Heap
}.

Definition FAILSTR_SIZE : Z := 256.

(** Field updates. *)

Definition set_isfail (v : bool) (c : Context) : Context :=
  mkContext v (out_of_memory c) (failstr c) (conditional_pool c)
    (include_stack c) (define_hashtable c) (filename_cache c)
    (open_callback c) (close_callback c) (malloc_data c).

Definition set_out_of_memory (v : bool) (c : Context) : Context :=
  mkContext (isfail c) v (failstr c) (conditional_pool c)
    (include_stack c) (define_hashtable c) (filename_cache c)
    (open_callback c) (close_callback c) (malloc_data c).

Definition set_failstr (v : string) (c : Context) : Context :=
  mkContext (isfail c) (out_of_memory c) v (conditional_pool c)
    (include_stack c) (define_hashtable c) (filename_cache c)
    (open_callback c) (close_callback c) (malloc_data c).

Definition set_conditional_pool (v : list Conditional) (c : Context) : Context :=
  mkContext (isfail c) (out_of_memory c) (failstr c) v
    (include_stack c) (define_hashtable c) (filename_cache c)
    (open_callback c) (close_callback c) (malloc_data c).

Definition set_include_stack (v : list IncludeState) (c : Context) : Context :=
  mkContext (isfail c) (out_of_memory c) (failstr c) (conditional_pool c)
    v (define_hashtable c) (filename_cache c)
    (open_callback c) (close_callback c) (malloc_data c).

Definition set_define_hashtable
    (v : list (list MOJOSHADER_preprocessorDefine)) (c : Context) : Context :=
  mkContext (isfail c) (out_of_memory c) (failstr c) (conditional_pool c)
    (include_stack c) v (filename_cache c)
    (open_callback c) (close_callback c) (malloc_data c).

Definition set_filename_cache (v : list string) (c : Context) : Context :=
  mkContext (isfail c) (out_of_memory c) (failstr c) (conditional_pool c)
    (include_stack c) (define_hashtable c) v
    (open_callback c) (close_callback c) (malloc_data c).

Definition set_close_callback (v : list string) (c : Context) : Context :=
  mkContext (isfail c) (out_of_memory c) (failstr c) (conditional_pool c)
    (include_stack c) (define_hashtable c) (filename_cache c)
    (open_callback c) v (malloc_data c).

Definition set_malloc_data (v : Heap) (c : Context) : Context :=
  mkContext (isfail c) (out_of_memory c) (failstr c) (conditional_pool c)
    (include_stack c) (define_hashtable c) (filename_cache c)
    (open_callback c) (close_callback c) v.

Definition set_filename (v : option string) (s : IncludeState) : IncludeState :=
  mkIncludeState v (included s) (source_base s) (source s) (token s)
    (bytes_left s) (line s) (conditional_stack s).

Definition set_source (v : Z) (s : IncludeState) : IncludeState :=
  mkIncludeState (filename s) (included s) (source_base s) v (token s)
    (bytes_left s) (line s) (conditional_stack s).

Definition set_token (v : Z) (s : IncludeState) : IncludeState :=
  mkIncludeState (filename s) (included s) (source_base s) (source s) v
    (bytes_left s) (line s) (conditional_stack s).

Definition set_bytes_left (v : Z) (s : IncludeState) : IncludeState :=
  mkIncludeState (filename s) (included s) (source_base s) (source s) (token s)
    v (line s) (conditional_stack s).

Definition set_line (v : Z) (s : IncludeState) : IncludeState :=
  mkIncludeState (filename s) (included s) (source_base s) (source s) (token s)
    (bytes_left s) v (conditional_stack s).

Definition set_conditional_stack (v : list Conditional) (s : IncludeState)
    : IncludeState :=
  mkIncludeState (filename s) (included s) (source_base s) (source s) (token s)
    (bytes_left s) (line s) v.

(** [ctx->include_stack] with its top frame replaced (writes through the
    [state] pointer). *)
Definition set_state (s : IncludeState) (c : Context) : Context :=
  match include_stack c with
  | [] => c
  | _ :: rest => set_include_stack (s :: rest) c
  end.

(** ** Convenience functions for allocators *)

Definition Malloc (ctx : Context) (len : Z) : bool * Context :=
  let (retval, d) := heap_malloc len (malloc_data ctx) in
  let ctx := set_malloc_data d ctx in
  if retval then (true, ctx) else (false, set_out_of_memory true ctx).

Definition Free (ctx : Context) (ptr : bool) : Context :=
  if ptr then set_malloc_data (heap_free (malloc_data ctx)) ctx else ctx.

(** [vsnprintf (ctx->failstr, sizeof (ctx->failstr), fmt, ap)] with the
    format already expanded to [msg]: at most 255 bytes are kept. *)
Definition failf (ctx : Context) (msg : string) : Context :=
  set_failstr (substring 0 (Z.to_nat (FAILSTR_SIZE - 1)) msg)
    (set_isfail true ctx).

Definition fail (ctx : Context) (reason : string) : Context := failf ctx reason.

(** ** Conditional pool *)

Definition free_conditional_pool (ctx : Context) : Context :=
  fold_left (fun c _ => Free c true) (conditional_pool ctx) ctx.

Definition get_conditional (ctx : Context) : option Conditional * Context :=
  match conditional_pool ctx with
  | _ :: rest => (Some zeroed_conditional, set_conditional_pool rest ctx)
  | [] =>
      let (retval, ctx) := Malloc ctx 0 in
      if retval then (Some zeroed_conditional, ctx) else (None, ctx)
  end.

Fixpoint put_conditionals (ctx : Context) (item : list Conditional) : Context :=
  match item with
  | [] => ctx
  | c :: next =>
      put_conditionals (set_conditional_pool (c :: conditional_pool ctx) ctx) next
  end.

(** ** Preprocessor define hashtable *)

Definition DEFINE_BUCKETS : nat := 256.

(** [unsigned char retval = 0; while ( *sym) retval += *(sym++);] *)
Fixpoint hash_define_from (retval : Z) (sym : string) : Z :=
  match sym with
  | EmptyString => retval
  | String c rest =>
      hash_define_from ((retval + Z.of_nat (nat_of_ascii c)) mod 256) rest
  end.

Definition hash_define (sym : string) : nat := Z.to_nat (hash_define_from 0 sym).

(** [ctx->define_hashtable[hash]]. *)
Definition define_bucket (ctx : Context) (hash : nat)
    : list MOJOSHADER_preprocessorDefine :=
  default [] (define_hashtable ctx !! hash).

(** The walk [while (bucket) { if (strcmp (...) == 0) ...; bucket = bucket->next; }]
    shared by [add_define] and [find_define]. *)
Fixpoint find_in_chain (bucket : list MOJOSHADER_preprocessorDefine)
    (sym : string) : option string :=
  match bucket with
  | [] => None
  | d :: next =>
      if String.eqb (identifier d) sym then Some (definition d)
      else find_in_chain next sym
  end.

(** The walk of [remove_define]: the chain with its first match unlinked, or
    [None] on a miss. *)
Fixpoint remove_from_chain (bucket : list MOJOSHADER_preprocessorDefine)
    (sym : string) : option (list MOJOSHADER_preprocessorDefine) :=
  match bucket with
  | [] => None
  | d :: next =>
      if String.eqb (identifier d) sym then Some next
      else match remove_from_chain next sym with
           | Some next' => Some (d :: next')
           | None => None
           end
  end.

Definition add_define (ctx : Context) (sym val : string) : bool * Context :=
  let hash := hash_define sym in
  let chain := define_bucket ctx hash in
  match find_in_chain chain sym with
  | Some _ => (false, failf ctx ("'" ++ sym ++ "' already defined")%string)
  | None =>
      let (bucket, ctx) := Malloc ctx 0 in
      if negb bucket then (false, ctx)
      else
        let (identifier, ctx) := Malloc ctx (Z.of_nat (String.length sym) + 1) in
        let (definition, ctx) := Malloc ctx (Z.of_nat (String.length val) + 1) in
        if negb identifier || negb definition then
          (false, Free (Free (Free ctx identifier) definition) bucket)
        else
          (true,
           set_define_hashtable
             (<[hash := mkDefine sym val :: chain]> (define_hashtable ctx)) ctx)
  end.

Definition remove_define (ctx : Context) (sym : string) : bool * Context :=
  let hash := hash_define sym in
  match remove_from_chain (define_bucket ctx hash) sym with
  | Some chain =>
      let ctx :=
        set_define_hashtable (<[hash := chain]> (define_hashtable ctx)) ctx in
      (true, Free (Free (Free ctx true) true) true)
  | None => (false, ctx)
  end.

Definition find_define (ctx : Context) (sym : string) : option string :=
  find_in_chain (define_bucket ctx (hash_define sym)) sym.

Definition free_all_defines (ctx : Context) : Context :=
  fold_left
    (fun ctx i =>
       let bucket := define_bucket ctx i in
       let ctx :=
         set_define_hashtable (<[i := []]> (define_hashtable ctx)) ctx in
       fold_left (fun c _ => Free (Free (Free c true) true) true) bucket ctx)
    (seq 0 DEFINE_BUCKETS) ctx.

(** ** Filename cache *)

Fixpoint find_filename (item : list string) (fname : string) : option string :=
  match item with
  | [] => None
  | f :: next => if String.eqb f fname then Some f else find_filename next fname
  end.

Definition cache_filename (ctx : Context) (fname : option string)
    : option string * Context :=
  match fname with
  | None => (None, ctx)
  | Some fname =>
      match find_filename (filename_cache ctx) fname with
      | Some f => (Some f, ctx)
      | None =>
          let (item, ctx) := Malloc ctx 0 in
          if negb item then (None, ctx)
          else
            (* StrDup *)
            let (dup, ctx) := Malloc ctx (Z.of_nat (String.length fname) + 1) in
            if negb dup then (None, Free ctx item)
            else (Some fname, set_filename_cache (fname :: filename_cache ctx) ctx)
      end
  end.

Definition free_filename_cache (ctx : Context) : Context :=
  fold_left (fun c _ => Free (Free c true) true) (filename_cache ctx) ctx.

(** ** Include stack *)

Definition push_source (ctx : Context) (fname : option string) (src : string)
    (srclen : Z) (incl : bool) : bool * Context :=
  let (state, ctx) := Malloc ctx 0 in
  if negb state then (false, ctx)
  else
    let (cached, ctx) := cache_filename ctx fname in
    match fname, cached with
    | Some _, None => (false, Free ctx state)
    | _, _ =>
        (true,
         set_include_stack
           (mkIncludeState cached incl src 0 0 srclen 1 [] :: include_stack ctx)
           ctx)
    end.

Definition pop_source (ctx : Context) : Context :=
  match include_stack ctx with
  | [] => ctx
  | state :: next =>
      let ctx :=
        if included state
        then set_close_callback (source_base state :: close_callback ctx) ctx
        else ctx in
      let ctx := put_conditionals ctx (conditional_stack state) in
      Free (set_include_stack next ctx) true
  end.

(** [memset (ctx, 0, sizeof (Context))] followed by the five assignments. *)
Definition fresh_context (open : MOJOSHADER_includeOpen) (closed : list string)
    (d : Heap) : Context :=
  mkContext false false EmptyString [] [] (replicate DEFINE_BUCKETS []) []
    open closed d.

(** [while (ctx->include_stack != NULL) pop_source (ctx);] *)
Fixpoint pop_all_sources (n : nat) (ctx : Context) : Context :=
  match n with
  | O => ctx
  | S n => pop_all_sources n (pop_source ctx)
  end.

(** [preprocessor_end]: what is left of the caller's world once the context
    block itself has been given back. *)
Definition preprocessor_end (ctx : Context) : Heap * list string :=
  let ctx := pop_all_sources (length (include_stack ctx)) ctx in
  let ctx := free_all_defines ctx in
  let ctx := free_filename_cache ctx in
  let ctx := free_conditional_pool ctx in
  let ctx := Free ctx true in
  (malloc_data ctx, close_callback ctx).

(** The loop [for (i = 0; i < define_count; i++)] over the predefines. *)
Fixpoint add_defines (ctx : Context)
    (defines : list MOJOSHADER_preprocessorDefine) : bool * Context :=
  match defines with
  | [] => (true, ctx)
  | d :: rest =>
      let (ok, ctx) := add_define ctx (identifier d) (definition d) in
      if ok then add_defines ctx rest else (false, ctx)
  end.

(** [preprocessor_start]: the handle ([None] is NULL) and the allocator data
    it leaves behind. *)
Definition preprocessor_start (fname : option string) (src : string)
    (sourcelen : Z) (open : MOJOSHADER_includeOpen)
    (defines : list MOJOSHADER_preprocessorDefine) (d : Heap)
    : option Context * Heap :=
  let (ctx, d) := heap_malloc 0 d in
  if negb ctx then (None, d)
  else
    let ctx := fresh_context open [] d in
    let (okay, ctx) := add_defines ctx defines in
    let (okay, ctx) :=
      if okay then push_source ctx fname src sourcelen false
      else (false, ctx) in
    if okay then (Some ctx, malloc_data ctx)
    else (None, fst (preprocessor_end ctx)).

Definition preprocessor_outofmemory (ctx : Context) : bool := out_of_memory ctx.

(** ** The lexer

    [preprocessor_internal_lexer] lives in the generated lexer unit, which is
    not part of this file's source.  The directive handlers and the
    dispatcher below take the lexer as a parameter; the definition given here
    follows the lexing rules of the specification and is the instance used
    to run them on concrete inputs.  The definitions from [is_space] to
    [lex_at] are its parts. *)

Definition is_space (c : ascii) : bool :=
  let n := nat_of_ascii c in
  (n =? 32)%nat || (n =? 9)%nat || (n =? 13)%nat || (n =? 11)%nat || (n =? 12)%nat.

Definition is_digit (c : ascii) : bool :=
  let n := nat_of_ascii c in (48 <=? n)%nat && (n <=? 57)%nat.

Definition is_ident_start (c : ascii) : bool :=
  let n := nat_of_ascii c in
  ((65 <=? n)%nat && (n <=? 90)%nat) || ((97 <=? n)%nat && (n <=? 122)%nat)
  || (n =? 95)%nat.

Definition is_ident_char (c : ascii) : bool := is_ident_start c || is_digit c.

Definition is_hex (c : ascii) : bool :=
  let n := nat_of_ascii c in
  is_digit c || ((65 <=? n)%nat && (n <=? 70)%nat)
  || ((97 <=? n)%nat && (n <=? 102)%nat).

Definition is_int_suffix (c : ascii) : bool :=
  Ascii.eqb c "u" || Ascii.eqb c "U" || Ascii.eqb c "l" || Ascii.eqb c "L".

(** Length of the longest prefix of [s] whose bytes satisfy [p]. *)
Fixpoint span (p : ascii -> bool) (s : string) : nat :=
  match s with
  | EmptyString => O
  | String c rest => if p c then S (span p rest) else O
  end.

Fixpoint string_drop (n : nat) (s : string) : string :=
  match n, s with
  | O, _ => s
  | S n, String _ rest => string_drop n rest
  | S _, EmptyString => EmptyString
  end.

Inductive Blank : Type := InCode | InLineComment | InBlockComment.

(** Skips whitespace other than newline, line comments up to their newline
    and block comments.  Returns the number of bytes skipped, the newlines
    met inside block comments, and the offset of a block comment that is
    still open when the bytes run out. *)
Fixpoint skip_blank (mode : Blank) (s : string) (pos lines start : nat)
    : nat * nat * option nat :=
  match s with
  | EmptyString =>
      match mode with
      | InBlockComment => (pos, lines, Some start)
      | _ => (pos, lines, None)
      end
  | String c rest =>
      match mode with
      | InCode =>
          if is_space c then skip_blank InCode rest (S pos) lines start
          else if Ascii.eqb c "/" then
            match rest with
            | String c2 rest2 =>
                if Ascii.eqb c2 "/" then
                  skip_blank InLineComment rest2 (S (S pos)) lines start
                else if Ascii.eqb c2 "*" then
                  skip_blank InBlockComment rest2 (S (S pos)) lines pos
                else (pos, lines, None)
            | EmptyString => (pos, lines, None)
            end
          else (pos, lines, None)
      | InLineComment =>
          if Ascii.eqb c NEWLINE then (pos, lines, None)
          else skip_blank InLineComment rest (S pos) lines start
      | InBlockComment =>
          if Ascii.eqb c "*" then
            match rest with
            | String c2 rest2 =>
                if Ascii.eqb c2 "/" then
                  skip_blank InCode rest2 (S (S pos)) lines start
                else skip_blank InBlockComment rest (S pos) lines start
            | EmptyString => skip_blank InBlockComment rest (S pos) lines start
            end
          else if Ascii.eqb c NEWLINE then
            skip_blank InBlockComment rest (S pos) (S lines) start
          else skip_blank InBlockComment rest (S pos) lines start
      end
  end.

(** Body of a string literal after the opening quote: whether the closing
    quote was found, and the bytes consumed. *)
Fixpoint scan_string (s : string) (n : nat) : bool * nat :=
  match s with
  | EmptyString => (false, n)
  | String c rest =>
      if Ascii.eqb c DQUOTE then (true, S n)
      else if Ascii.eqb c NEWLINE then (false, n)
      else if Ascii.eqb c "\" then
        match rest with
        | String c2 rest2 =>
            if Ascii.eqb c2 NEWLINE then (false, S n)
            else scan_string rest2 (S (S n))
        | EmptyString => (false, S n)
        end
      else scan_string rest (S n)
  end.

(** [[eE][+-]?\d+] at the start of [r]: its length, 0 when absent. *)
Definition exponent_len (r : string) : nat :=
  match r with
  | String c r1 =>
      if Ascii.eqb c "e" || Ascii.eqb c "E" then
        let '(sign, r2) :=
          match r1 with
          | String s r2 =>
              if Ascii.eqb s "+" || Ascii.eqb s "-" then (1%nat, r2) else (O, r1)
          | EmptyString => (O, r1)
          end in
        let d := span is_digit r2 in
        if (0 <? d)%nat then (1 + sign + d)%nat else O
      else O
  | EmptyString => O
  end.

Definition float_suffix_len (r : string) : nat :=
  match r with
  | String c _ => if Ascii.eqb c "f" || Ascii.eqb c "F" then 1%nat else O
  | EmptyString => O
  end.

(** Decimal (and octal) integers and floats; [t] starts with a digit or with
    a dot followed by a digit. *)
Definition lex_decimal (t : string) : Token * nat :=
  let d := span is_digit t in
  let r := string_drop d t in
  match r with
  | String c r1 =>
      if Ascii.eqb c "." then
        let f := span is_digit r1 in
        let r2 := string_drop f r1 in
        let e := exponent_len r2 in
        (TOKEN_FLOAT_LITERAL,
         (d + 1 + f + e + float_suffix_len (string_drop e r2))%nat)
      else
        let e := exponent_len r in
        if (0 <? e)%nat then
          (TOKEN_FLOAT_LITERAL, (d + e + float_suffix_len (string_drop e r))%nat)
        else (TOKEN_INT_LITERAL, (d + span is_int_suffix r)%nat)
  | EmptyString => (TOKEN_INT_LITERAL, d)
  end.

Definition lex_number (t : string) : Token * nat :=
  match t with
  | String c0 (String x rest) =>
      if Ascii.eqb c0 "0" && (Ascii.eqb x "x" || Ascii.eqb x "X")
         && (0 <? span is_hex rest)%nat then
        let h := span is_hex rest in
        (TOKEN_INT_LITERAL, (2 + h + span is_int_suffix (string_drop h rest))%nat)
      else lex_decimal t
  | _ => lex_decimal t
  end.

Definition two_char_operator (c1 c2 : ascii) : option Token :=
  if Ascii.eqb c2 "=" then
    if Ascii.eqb c1 "+" then Some TOKEN_ADDASSIGN
    else if Ascii.eqb c1 "-" then Some TOKEN_SUBASSIGN
    else if Ascii.eqb c1 "*" then Some TOKEN_MULTASSIGN
    else if Ascii.eqb c1 "/" then Some TOKEN_DIVASSIGN
    else if Ascii.eqb c1 "%" then Some TOKEN_MODASSIGN
    else if Ascii.eqb c1 "^" then Some TOKEN_XORASSIGN
    else if Ascii.eqb c1 "&" then Some TOKEN_ANDASSIGN
    else if Ascii.eqb c1 "|" then Some TOKEN_ORASSIGN
    else if Ascii.eqb c1 "<" then Some TOKEN_LEQ
    else if Ascii.eqb c1 ">" then Some TOKEN_GEQ
    else if Ascii.eqb c1 "=" then Some TOKEN_EQL
    else if Ascii.eqb c1 "!" then Some TOKEN_NEQ
    else None
  else if Ascii.eqb c1 c2 then
    if Ascii.eqb c1 "+" then Some TOKEN_INCREMENT
    else if Ascii.eqb c1 "-" then Some TOKEN_DECREMENT
    else if Ascii.eqb c1 ">" then Some TOKEN_RSHIFT
    else if Ascii.eqb c1 "<" then Some TOKEN_LSHIFT
    else if Ascii.eqb c1 "&" then Some TOKEN_ANDAND
    else if Ascii.eqb c1 "|" then Some TOKEN_OROR
    else if Ascii.eqb c1 "#" then Some TOKEN_HASHHASH
    else None
  else None.

Definition directive_token (name : string) : Token :=
  if String.eqb name "include" then TOKEN_PP_INCLUDE
  else if String.eqb name "line" then TOKEN_PP_LINE
  else if String.eqb name "define" then TOKEN_PP_DEFINE
  else if String.eqb name "undef" then TOKEN_PP_UNDEF
  else if String.eqb name "if" then TOKEN_PP_IF
  else if String.eqb name "ifdef" then TOKEN_PP_IFDEF
  else if String.eqb name "ifndef" then TOKEN_PP_IFNDEF
  else if String.eqb name "else" then TOKEN_PP_ELSE
  else if String.eqb name "elif" then TOKEN_PP_ELIF
  else if String.eqb name "endif" then TOKEN_PP_ENDIF
  else if String.eqb name "error" then TOKEN_PP_ERROR
  else TOKEN_UNKNOWN.

(** Whether only whitespace lies between the last newline of [s] (or its
    start) and its end. *)
Fixpoint blank_since_newline (s : string) (blank : bool) : bool :=
  match s with
  | EmptyString => blank
  | String c rest =>
      if Ascii.eqb c NEWLINE then blank_since_newline rest true
      else if is_space c then blank_since_newline rest blank
      else blank_since_newline rest false
  end.

Definition starts_line (base : string) (pos : Z) : bool :=
  blank_since_newline (substring 0 (Z.to_nat pos) base) true.

(** The lexeme at the head of [t], with its length. *)
Definition lex_at (line_start : bool) (t : string) : Token * nat :=
  match t with
  | EmptyString => (TOKEN_EOI, O)
  | String c rest =>
      if Ascii.eqb c NEWLINE then (TOKEN_NEWLINE, 1%nat)
      else if is_ident_start c then (TOKEN_IDENTIFIER, span is_ident_char t)
      else if is_digit c then lex_number t
      else if Ascii.eqb c "." && (0 <? span is_digit rest)%nat then lex_decimal t
      else if Ascii.eqb c DQUOTE then
        let '(closed, n) := scan_string rest 1 in
        (if closed then TOKEN_STRING_LITERAL else TOKEN_BAD_CHARS, n)
      else
        let ws := span is_space rest in
        let name := span is_ident_char (string_drop ws rest) in
        if Ascii.eqb c "#" && line_start && (0 <? name)%nat then
          (directive_token (substring ws name rest), (1 + ws + name)%nat)
        else
          match rest with
          | String c2 _ =>
              match two_char_operator c c2 with
              | Some tok => (tok, 2%nat)
              | None => (TOKEN_CHAR c, 1%nat)
              end
          | EmptyString => (TOKEN_CHAR c, 1%nat)
          end
  end.

(** Modelled from the spec: [preprocessor_internal_lexer], the generated
    lexer.  It scans the [bytes_left] bytes at the cursor, skips whitespace
    and comments, returns the tag of the next lexeme, moves [source] just
    past it, sets [token] to its first byte, counts every newline it
    consumes in [line], and returns [TOKEN_EOI] once no byte is left. *)
Definition preprocessor_internal_lexer (s : IncludeState) : Token * IncludeState :=
  let w := slice (source_base s) (source s) (bytes_left s) in
  let '(pos, lines, unclosed) := skip_blank InCode w O O O in
  let advance (tok_at used newlines : nat) :=
    set_line (uint32 (line s + Z.of_nat newlines))
      (set_bytes_left (bytes_left s - Z.of_nat used)
         (set_token (source s + Z.of_nat tok_at)
            (set_source (source s + Z.of_nat used) s))) in
  match unclosed with
  | Some start => (TOKEN_INCOMPLETE_COMMENT, advance start pos lines)
  | None =>
      let '(tok, len) :=
        lex_at (starts_line (source_base s) (source s + Z.of_nat pos))
          (string_drop pos w) in
      let nl := if Token_eqb tok TOKEN_NEWLINE then 1%nat else O in
      (tok, advance pos (pos + len)%nat (lines + nl)%nat)
  end.

(** ** Results of code that can loop or leave defined behaviour *)

Inductive Outcome (A : Type) : Type :=
  | Done (a : A)
  | OutOfFuel
  | Undefined.
Arguments Done {A} a.
Arguments OutOfFuel {A}.
Arguments Undefined {A}.

Definition bind {A B : Type} (o : Outcome A) (k : A -> Outcome B) : Outcome B :=
  match o with
  | Done a => k a
  | OutOfFuel => OutOfFuel
  | Undefined => Undefined
  end.

(** What [preprocessor_nexttoken] hands back: the returned pointer (the bytes
    it points to, [None] for NULL), [*_len] and [*_token]. *)
Record TokenResult : Type := mkTokenResult {
  tr_bytes : option string;
  tr_len : Z;
  tr_token : Token
}.

(** One turn of the [while (1)] loop of [_preprocessor_nexttoken]. *)
Inductive Step : Type :=
  | Return (r : TokenResult) (ctx : Context)
  | Continue (ctx : Context).

(** Modelled from the spec: [Min], a helper of mojoshader_internal.h that is
    not part of this file; the smaller of its two arguments, by which the
    message of [#error] is "truncated to the failure buffer". *)
Definition Min (a b : Z) : Z := if a <? b then a else b.

(** [atoi] on the bytes of an integer literal: the value of the leading
    decimal digits. *)
Fixpoint atoi_from (acc : Z) (s : string) : Z :=
  match s with
  | EmptyString => acc
  | String c rest =>
      if is_digit c then atoi_from (acc * 10 + (Z.of_nat (nat_of_ascii c) - 48)) rest
      else acc
  end.

Definition atoi (s : string) : Z := atoi_from 0 s.

(** [len = source - token; sym = alloca (len); memcpy (sym, token, len - 1);
    sym[len - 1] = 0]: the C string in the copy, [None] when [len] is 0 and
    [len - 1] wraps. *)
Definition copy_token_but_last (state : IncludeState) : option string :=
  let len := uint32 (source state - token state) in
  if len =? 0 then None
  else Some (cstr (slice (source_base state) (token state) (len - 1))).

Definition top_skipping (conds : list Conditional) : bool :=
  match conds with
  | cond :: _ => skipping cond
  | [] => false
  end.

Section Dispatcher.

(** The lexer the preprocessor is linked with. *)
Variable lexer : IncludeState -> Token * IncludeState.

Definition require_newline (state : IncludeState) : bool * IncludeState :=
  let src := source state in
  let linenum := line state in
  let (tok, state) := lexer state in
  let state := set_line linenum (set_source src state) in  (* rewind no matter what. *)
  match tok with
  | TOKEN_INCOMPLETE_COMMENT => (true, state)  (* call it an eol. *)
  | _ => (Token_eqb tok TOKEN_NEWLINE || Token_eqb tok TOKEN_EOI, state)
  end.

(** The loop of [handle_pp_include] that reads a [<...>] name byte by byte;
    [n] bounds the turns by the bytes left.  Returns [bogus]. *)
Fixpoint system_filename_loop (n : nat) (state : IncludeState)
    : bool * IncludeState :=
  if bytes_left state =? 0 then (true, state)
  else
    match n with
    | O => (true, state)
    | S n =>
        let ch := byte_at (source_base state) (source state) in
        if Ascii.eqb ch CR || Ascii.eqb ch NEWLINE then (true, state)
        else
          let state :=
            set_bytes_left (uint32 (bytes_left state - 1))
              (set_source (source state + 1) state) in
          if Ascii.eqb ch ">" then (false, state)
          else system_filename_loop n state
    end.

Definition handle_pp_include (ctx : Context) : Outcome Context :=
  match include_stack ctx with
  | [] => Undefined
  | state :: _ =>
      let (tok, state) := lexer state in
      let '(incltype, bogus, state) :=
        match tok with
        | TOKEN_STRING_LITERAL => (MOJOSHADER_INCLUDETYPE_LOCAL, false, state)
        | TOKEN_CHAR c =>
            if Ascii.eqb c "<" then
              let (bogus, state) :=
                system_filename_loop (Z.to_nat (bytes_left state)) state in
              (MOJOSHADER_INCLUDETYPE_SYSTEM, bogus, state)
            else (MOJOSHADER_INCLUDETYPE_LOCAL, true, state)
        | _ => (MOJOSHADER_INCLUDETYPE_LOCAL, true, state)
        end in
      if bogus then Done (fail (set_state state ctx) "Invalid #include directive")
      else
        let state := set_token (token state + 1) state in  (* skip the opening delimiter *)
        match copy_token_but_last state with
        | None => Undefined
        | Some fname =>
            let (eol, state) := require_newline state in
            let ctx := set_state state ctx in
            if negb eol then Done (fail ctx "Invalid #include directive")
            else
              match open_callback ctx incltype fname (source_base state) with
              | None => Done (fail ctx "Include callback failed")
              | Some (newdata, newbytes) =>
                  let (pushed, ctx) :=
                    push_source ctx (Some fname) newdata newbytes true in
                  if pushed then Done ctx
                  else Done (set_close_callback (newdata :: close_callback ctx) ctx)
              end
        end
  end.

Definition handle_pp_line (ctx : Context) : Outcome Context :=
  match include_stack ctx with
  | [] => Undefined
  | state :: _ =>
      let (tok, state) := lexer state in
      match tok with
      | TOKEN_INT_LITERAL =>
          let len := uint32 (source state - token state) in
          let linenum := atoi (cstr (slice (source_base state) (token state) len)) in
          let (tok, state) := lexer state in
          match tok with
          | TOKEN_STRING_LITERAL =>
              let state := set_token (token state + 1) state in  (* skip the opening quote *)
              match copy_token_but_last state with
              | None => Undefined
              | Some fname =>
                  let (eol, state) := require_newline state in
                  if negb eol then
                    Done (fail (set_state state ctx) "Invalid #line directive")
                  else
                    let (cached, ctx) := cache_filename ctx (Some fname) in
                    let state := set_line (uint32 linenum) (set_filename cached state) in
                    Done (set_state state ctx)
              end
          | _ => Done (fail (set_state state ctx) "Invalid #line directive")
          end
      | _ => Done (fail (set_state state ctx) "Invalid #line directive")
      end
  end.

(** The [while (!done)] loop of [handle_pp_error]: the state after the last
    lexer call, the cursor saved before that call, and [data]. *)
Fixpoint pp_error_scan (fuel : nat) (state : IncludeState) (data : option Z)
    : Outcome (IncludeState * Z * option Z) :=
  match fuel with
  | O => OutOfFuel
  | S fuel =>
      let src := source state in
      let (tok, state) := lexer state in
      if Token_eqb tok TOKEN_NEWLINE then
        (* make sure error is on the right line. *)
        Done (set_line (uint32 (line state - 1)) state, src, data)
      else if Token_eqb tok TOKEN_INCOMPLETE_COMMENT || Token_eqb tok TOKEN_EOI then
        Done (state, src, data)
      else
        pp_error_scan fuel state
          (match data with
           | None => Some (token state)  (* skip #error token. *)
           | Some _ => data
           end)
  end.

Definition ERROR_PREFIX : string := "#error ".

Definition handle_pp_error (fuel : nat) (ctx : Context) : Outcome Context :=
  match include_stack ctx with
  | [] => Undefined
  | state :: _ =>
      bind (pp_error_scan fuel state None) (fun '(state, src, data) =>
        let state := set_source src state in  (* move back so we catch this later. *)
        let ctx := set_state state ctx in
        let prefixlen := Z.of_nat (String.length ERROR_PREFIX) in
        match data with
        | None => Undefined  (* state->source - NULL *)
        | Some data =>
            let len := source state - data in
            let cpy := Min len (FAILSTR_SIZE - prefixlen) in
            if (cpy + prefixlen <? 0) || (FAILSTR_SIZE <=? cpy + prefixlen) then
              Undefined  (* ctx->failstr[cpy + prefixlen] lies outside failstr *)
            else
              let text :=
                if 0 <? cpy then (ERROR_PREFIX ++ slice (source_base state) data cpy)%string
                else substring 0 (Z.to_nat (cpy + prefixlen)) ERROR_PREFIX in
              Done (set_isfail true (set_failstr text ctx))
        end)
  end.

Definition handle_pp_undef (ctx : Context) : Outcome Context :=
  match include_stack ctx with
  | [] => Undefined
  | state :: _ =>
      let (tok, state) := lexer state in
      match tok with
      | TOKEN_IDENTIFIER =>
          match copy_token_but_last state with
          | None => Undefined
          | Some sym =>
              let (eol, state) := require_newline state in
              let ctx := set_state state ctx in
              if negb eol then Done (fail ctx "Invalid #undef directive")
              else Done (snd (remove_define ctx sym))
          end
      | _ => Done (fail (set_state state ctx) "Macro names must be indentifiers")
      end
  end.

(** [_handle_pp_ifdef]; [ifdef_type] is [TOKEN_PP_IFDEF] or
    [TOKEN_PP_IFNDEF].  Returns the pushed frame, [None] for NULL. *)
Definition _handle_pp_ifdef (ctx : Context) (ifdef_type : Token)
    : Outcome (option Conditional * Context) :=
  match include_stack ctx with
  | [] => Undefined
  | state :: _ =>
      let (tok, state) := lexer state in
      match tok with
      | TOKEN_IDENTIFIER =>
          match copy_token_but_last state with
          | None => Undefined
          | Some sym =>
              let (eol, state) := require_newline state in
              let ctx := set_state state ctx in
              if negb eol then
                Done (None,
                      match ifdef_type with
                      | TOKEN_PP_IFDEF => fail ctx "Invalid #ifdef directive"
                      | _ => fail ctx "Invalid #ifndef directive"
                      end)
              else
                let (conditional, ctx) := get_conditional ctx in
                match conditional with
                | None => Done (None, ctx)
                | Some _ =>
                    let prev := conditional_stack state in
                    let skip :=
                      if top_skipping prev then true
                      else
                        let found :=
                          match find_define ctx sym with
                          | Some _ => true
                          | None => false
                          end in
                        match ifdef_type with
                        | TOKEN_PP_IFDEF => negb found
                        | _ => found
                        end in
                    let conditional :=
                      mkConditional ifdef_type (uint32 (line state - 1)) skip
                        (negb skip) in
                    Done (Some conditional,
                          set_state
                            (set_conditional_stack (conditional :: prev) state)
                            ctx)
                end
          end
      | _ =>
          Done (None, fail (set_state state ctx) "Macro names must be indentifiers")
      end
  end.

Definition handle_pp_ifdef (ctx : Context) : Outcome Context :=
  bind (_handle_pp_ifdef ctx TOKEN_PP_IFDEF) (fun r => Done (snd r)).

Definition handle_pp_ifndef (ctx : Context) : Outcome Context :=
  bind (_handle_pp_ifdef ctx TOKEN_PP_IFNDEF) (fun r => Done (snd r)).

Definition handle_pp_else (ctx : Context) : Outcome Context :=
  match include_stack ctx with
  | [] => Undefined
  | state :: _ =>
      let cond := conditional_stack state in
      let (eol, state) := require_newline state in
      let ctx := set_state state ctx in
      if negb eol then Done (fail ctx "Invalid #else directive")
      else
        match cond with
        | [] => Done (fail ctx "#else without #if")
        | c :: next =>
            match type c with
            | TOKEN_PP_ELSE => Done (fail ctx "#else after #else")
            | _ =>
                let c :=
                  mkConditional TOKEN_PP_ELSE (linenum c) (chosen c)
                    (if negb (chosen c) then true else chosen c) in
                Done (set_state (set_conditional_stack (c :: next) state) ctx)
            end
        end
  end.

Definition handle_pp_endif (ctx : Context) : Outcome Context :=
  match include_stack ctx with
  | [] => Undefined
  | state :: _ =>
      let cond := conditional_stack state in
      let (eol, state) := require_newline state in
      let ctx := set_state state ctx in
      if negb eol then Done (fail ctx "Invalid #endif directive")
      else
        match cond with
        | [] => Done (fail ctx "Unmatched #endif")
        | c :: next =>
            (* pop it. *)
            let ctx := set_state (set_conditional_stack next state) ctx in
            Done (put_conditionals ctx [c])
        end
  end.

Definition unterminated_pp_condition (ctx : Context) : Outcome Context :=
  match include_stack ctx with
  | [] => Undefined
  | state :: _ =>
      match conditional_stack state with
      | [] => Undefined
      | cond :: next =>
          let ctx :=
            match type cond with
            | TOKEN_PP_IF => fail ctx "Unterminated #if"
            | TOKEN_PP_IFDEF => fail ctx "Unterminated #ifdef"
            | TOKEN_PP_IFNDEF => fail ctx "Unterminated #ifndef"
            | TOKEN_PP_ELSE => fail ctx "Unterminated #else"
            | TOKEN_PP_ELIF => fail ctx "Unterminated #elif"
            | _ => ctx  (* default: assert (0) *)
            end in
          (* pop this conditional, we'll report the next error next time... *)
          let ctx := set_state (set_conditional_stack next state) ctx in
          Done (put_conditionals ctx [cond])
      end
  end.

Definition continue (o : Outcome Context) : Outcome Step :=
  bind o (fun ctx => Done (Continue ctx)).

(** The body of the [while (1)] loop of [_preprocessor_nexttoken]; [fuel]
    only bounds the scan of [handle_pp_error]. *)
Definition nexttoken_step (fuel : nat) (ctx : Context) : Outcome Step :=
  if isfail ctx then
    Done (Return
            (mkTokenResult (Some (failstr ctx)) (strlen (failstr ctx))
               TOKEN_PREPROCESSING_ERROR)
            (set_isfail false ctx))
  else
    match include_stack ctx with
    | [] => Done (Return (mkTokenResult None 0 TOKEN_EOI) ctx)  (* we're done! *)
    | state :: _ =>
        let skip := top_skipping (conditional_stack state) in
        let (tok, state) := lexer state in
        let ctx := set_state state ctx in
        match tok with
        | TOKEN_EOI =>
            match conditional_stack state with
            | _ :: _ => continue (unterminated_pp_condition ctx)
            | [] => Done (Continue (pop_source ctx))
            end
        | TOKEN_INCOMPLETE_COMMENT =>
            Done (Continue (fail ctx "Incomplete multiline comment"))
        | TOKEN_PP_IFDEF => continue (handle_pp_ifdef ctx)
        | TOKEN_PP_IFNDEF => continue (handle_pp_ifndef ctx)
        | TOKEN_PP_ENDIF => continue (handle_pp_endif ctx)
        | TOKEN_PP_ELSE => continue (handle_pp_else ctx)
        | _ =>
            (* NOTE: Conditionals must be above (skipping) test. *)
            if skip then Done (Continue ctx)
            else
              match tok with
              | TOKEN_PP_INCLUDE => continue (handle_pp_include ctx)
              | TOKEN_PP_LINE => continue (handle_pp_line ctx)
              | TOKEN_PP_ERROR => continue (handle_pp_error fuel ctx)
              | TOKEN_PP_UNDEF => continue (handle_pp_undef ctx)
              | _ =>
                  let len := uint32 (source state - token state) in
                  Done (Return
                          (mkTokenResult
                             (Some (slice (source_base state) (token state) len))
                             len tok)
                          ctx)
              end
        end
    end.

Fixpoint _preprocessor_nexttoken (fuel : nat) (ctx : Context)
    : Outcome (TokenResult * Context) :=
  match fuel with
  | O => OutOfFuel
  | S fuel =>
      match nexttoken_step fuel ctx with
      | Done (Return r ctx) => Done (r, ctx)
      | Done (Continue ctx) => _preprocessor_nexttoken fuel ctx
      | OutOfFuel => OutOfFuel
      | Undefined => Undefined
      end
  end.

Definition preprocessor_nexttoken := _preprocessor_nexttoken.

Definition preprocessor_sourcepos (ctx : Context) : option string * Z :=
  match include_stack ctx with
  | [] => (None, 0)
  | state :: _ => (filename state, line state)
  end.

End Dispatcher.

(** The pull loop [while ((tokstr = preprocessor_nexttoken (...)) != NULL)] of
    [MOJOSHADER_preprocess], kept to the tokens it sees: [calls] bounds the
    number of pulls and [fuel] the turns of each one.  A pull that does not
    come back ends the list with [None]. *)
Fixpoint pull_tokens (lexer : IncludeState -> Token * IncludeState)
    (fuel calls : nat) (ctx : Context) : list (option TokenResult) :=
  match calls with
  | O => []
  | S calls =>
      match preprocessor_nexttoken lexer fuel ctx with
      | Done (r, ctx) =>
          Some r ::
            match tr_bytes r with
            | None => []
            | Some _ => pull_tokens lexer fuel calls ctx
            end
      | _ => [None]
      end
  end.

(** ** The chunked output buffer *)

Definition BUFFER_LEN : Z := 64 * 1024.

(** [Buffer].  The chain that starts at [head] is [full ++ [tail]]: [tail]
    holds the [bytes] used bytes of the chunk [buffer->tail] points to, and
    [full] the used bytes of the chunks before it. *)
Record Buffer : Type := mkBuffer {
  total_bytes : Z;
  full : list (list ascii);
  tail : list ascii
}.

Definition chunks (buffer : Buffer) : list (list ascii) :=
  full buffer ++ [tail buffer].

Definition buffer_init : Buffer := mkBuffer 0 [] [].

(** The [while (len > 0)] loop of [add_to_buffer]; [data] holds the [len]
    bytes still to copy. *)
Fixpoint add_to_buffer_loop (fuel : nat) (buffer : Buffer) (data : list ascii)
    (d : Heap) : Outcome (bool * Buffer * Heap) :=
  match data with
  | [] => Done (true, buffer, d)
  | _ :: _ =>
      match fuel with
      | O => OutOfFuel
      | S fuel =>
          let len := Z.of_nat (length data) in
          let avail := size_t_wrap (BUFFER_LEN - Z.of_nat (length (tail buffer))) in
          let cpy := if avail >? len then len else avail in
          let filled := tail buffer ++ firstn (Z.to_nat cpy) data in
          let data := skipn (Z.to_nat cpy) data in
          if Z.of_nat (length filled) =? BUFFER_LEN then
            let (item, d) := heap_malloc 0 d in
            if negb item then
              Done (false, mkBuffer (total_bytes buffer) (full buffer) filled, d)
            else
              add_to_buffer_loop fuel
                (mkBuffer (total_bytes buffer) (full buffer ++ [filled]) []) data d
          else
            add_to_buffer_loop fuel
              (mkBuffer (total_bytes buffer) (full buffer) filled) data d
      end
  end.

Definition add_to_buffer (buffer : Buffer) (data : list ascii) (d : Heap)
    : Outcome (bool * Buffer * Heap) :=
  let len := Z.of_nat (length data) in
  add_to_buffer_loop (S (length data))
    (mkBuffer (size_t_wrap (total_bytes buffer + len)) (full buffer) (tail buffer))
    data d.

(** The block [flatten_buffer] returns: its allocated size and the bytes
    written to it from its start. *)
Record Flat : Type := mkFlat {
  flat_size : Z;
  flat_bytes : list ascii
}.

(** [flatten_buffer]: NULL ([None]) when the allocation fails; writing past
    the allocated block is undefined. *)
Definition flatten_buffer (buffer : Buffer) (d : Heap)
    : Outcome (option Flat) * Heap :=
  let size := size_t_wrap (total_bytes buffer + 1) in
  let (retval, d) := heap_malloc size d in
  if negb retval then (Done None, d)
  else
    let written := fold_left (fun ptr item => ptr ++ item) (chunks buffer) [] in
    let written := written ++ [NUL] in
    if Z.of_nat (length written) <=? size then (Done (Some (mkFlat size written)), d)
    else (Undefined, d).

(** Buffers built by successful [add_to_buffer] calls. *)
Inductive buffer_built : Buffer -> Prop :=
  | built_init : buffer_built buffer_init
  | built_add (buffer buffer' : Buffer) (data : list ascii) (d d' : Heap) :
      buffer_built buffer ->
      add_to_buffer buffer data d = Done (true, buffer', d') ->
      buffer_built buffer'.

(** ** Inputs and lexer contract used in the statements below *)

Definition LF : string := String NEWLINE EmptyString.

(** An include resolver that finds nothing. *)
Definition no_includes : MOJOSHADER_includeOpen := fun _ _ _ => None.

(** An allocator that never fails, with nothing handed out yet. *)
Definition heap0 : Heap := mkHeap [] 0.

(** [preprocessor_start] on an unnamed root buffer [src] with the predefines
    [defines] and the allocator script [answers]. *)
Definition start_on (src : string) (defines : list MOJOSHADER_preprocessorDefine)
    (answers : list bool) : option Context :=
  fst (preprocessor_start None src (Z.of_nat (String.length src)) no_includes
         defines (mkHeap answers 0)).

(** The tags and bytes of a pulled token list. *)
Definition tags_and_bytes (l : list (option TokenResult))
    : list (option (Token * option string)) :=
  map (option_map (fun r => (tr_token r, tr_bytes r))) l.

(** The lexer writes the cursor fields only. *)
Definition lexer_frame (lexer : IncludeState -> Token * IncludeState) : Prop :=
  forall s,
    conditional_stack (snd (lexer s)) = conditional_stack s /\
    source_base (snd (lexer s)) = source_base s /\
    filename (snd (lexer s)) = filename s /\
    included (snd (lexer s)) = included s.

(** The top frame of the include stack. *)
Definition top_state (ctx : Context) : option IncludeState :=
  match include_stack ctx with
  | state :: _ => Some state
  | [] => None
  end.

(** A context in the middle of a skipped group: [B] is defined, the open
    conditional is skipping, and the cursor is just past an [#ifdef]
    keyword. *)
Definition inside_skipped_group : Context :=
  set_include_stack
    [mkIncludeState None false ("#ifdef BB" ++ LF)%string 6 0 4 2
       [mkConditional TOKEN_PP_IFDEF 0 true false]]
    (snd (add_define (fresh_context no_includes [] heap0) "B" "1")).

(** [#else] of a conditional nested in a skipped group. *)
Definition else_in_skipped_group : string :=
  ("#ifdef A" ++ LF ++ "#ifdef B" ++ LF ++ "X" ++ LF ++ "#else" ++ LF ++
   "Y" ++ LF ++ "#endif" ++ LF ++ "#endif" ++ LF)%string.

(** The error [unterminated_pp_condition] reports for a frame of type [ty]. *)
Definition unterminated_message (ty : Token) : option string :=
  match ty with
  | TOKEN_PP_IF => Some "Unterminated #if"
  | TOKEN_PP_IFDEF => Some "Unterminated #ifdef"
  | TOKEN_PP_IFNDEF => Some "Unterminated #ifndef"
  | TOKEN_PP_ELSE => Some "Unterminated #else"
  | TOKEN_PP_ELIF => Some "Unterminated #elif"
  | _ => None
  end.

(** The frame types the handlers ever store. *)
Definition conditional_type_ok (cond : Conditional) : Prop :=
  is_Some (unterminated_message (type cond)).

(** The include frame is at its end: whatever conditionals are open, the
    lexer answers [TOKEN_EOI] and leaves the frame as it is. *)
Definition at_eoi (lexer : IncludeState -> Token * IncludeState)
    (state : IncludeState) : Prop :=
  forall conds,
    lexer (set_conditional_stack conds state)
    = (TOKEN_EOI, set_conditional_stack conds state).

(** An include frame at its end with [conds] still open, no error latched. *)
Definition unterminated_at (lexer : IncludeState -> Token * IncludeState)
    (ctx : Context) (state : IncludeState) (rest : list IncludeState)
    (conds : list Conditional) : Prop :=
  isfail ctx = false /\
  include_stack ctx = set_conditional_stack conds state :: rest /\
  at_eoi lexer state /\
  Forall conditional_type_ok conds.

(** The token that reports the open frame [cond] at end of input. *)
Definition unterminated_token (cond : Conditional) : option (Token * option string) :=
  Some (TOKEN_PREPROCESSING_ERROR, unterminated_message (type cond)).

(** Two nested conditionals, each closed by its [#endif]. *)
Definition matched_nested_ifdefs : string :=
  ("#ifdef A" ++ LF ++ "#ifdef B" ++ LF ++ "#endif" ++ LF ++ "#endif" ++ LF)%string.

(** An include frame at its end with an [#ifndef] inside an [#else] group
    still open. *)
Definition two_open_at_end : Context :=
  set_include_stack
    [mkIncludeState None false EmptyString 0 0 0 1
       [mkConditional TOKEN_PP_IFNDEF 3 false true;
        mkConditional TOKEN_PP_ELSE 0 true true]]
    (fresh_context no_includes [] heap0).

(** ** Cursor bookkeeping *)

(** The relation between the fields of an include frame over a buffer of
    [srclen] bytes. *)
Definition cursor_inv (srclen : Z) (s : IncludeState) : Prop :=
  token s <= source s <= srclen /\ bytes_left s = srclen - source s.

(** A stray [#endif], a blank before its newline, then an identifier. *)
Definition endif_then_identifier : string := ("#endif " ++ LF ++ "X")%string.

(** ** The text of [#error] *)

(** The tokens that end the scan of [handle_pp_error]. *)
Definition ends_message (tok : Token) : bool :=
  Token_eqb tok TOKEN_NEWLINE || Token_eqb tok TOKEN_INCOMPLETE_COMMENT
  || Token_eqb tok TOKEN_EOI.

(** From frame [s] the lexer yields [n] more lexemes of the message, the last
    of which leaves the frame [last], and then a token that ends it. *)
Inductive message_lexemes (lexer : IncludeState -> Token * IncludeState)
    : nat -> IncludeState -> IncludeState -> Prop :=
  | message_end (s : IncludeState) :
      ends_message (fst (lexer s)) = true -> message_lexemes lexer O s s
  | message_more (n : nat) (s last : IncludeState) :
      ends_message (fst (lexer s)) = false ->
      message_lexemes lexer n (snd (lexer s)) last ->
      message_lexemes lexer (S n) s last.

Definition error_bad_thing : string := ("#error bad thing" ++ LF)%string.

(** The context the dispatcher hands to a handler: [ctx] once the lexer has
    read the directive keyword at the cursor. *)
Definition after_keyword (ctx : option Context) : Context :=
  match ctx with
  | Some ctx =>
      match include_stack ctx with
      | state :: _ => set_state (snd (preprocessor_internal_lexer state)) ctx
      | [] => ctx
      end
  | None => fresh_context no_includes [] heap0
  end.

Fixpoint repeat_byte (n : nat) (c : ascii) : string :=
  match n with
  | O => EmptyString
  | S n => String c (repeat_byte n c)
  end.

(** [#error] with no text, and with 249 bytes of text. *)
Definition error_without_text : string := ("#error" ++ LF)%string.
Definition error_with_249_bytes : string :=
  ("#error " ++ repeat_byte 249 "a" ++ LF)%string.

(** ** Out of memory *)

(** An [#ifndef] whose frame cannot be allocated: the allocator serves the
    context and the include frame, then fails once. *)
Definition ifndef_then_identifier : string := ("#ifndef A" ++ LF ++ "X" ++ LF)%string.
Definition fails_third : list bool := [true; true; false].

(** The context after [calls] successive pulls. *)
Fixpoint after_pulls (lexer : IncludeState -> Token * IncludeState)
    (fuel calls : nat) (ctx : Context) : Outcome Context :=
  match calls with
  | O => Done ctx
  | S calls =>
      bind (preprocessor_nexttoken lexer fuel ctx)
        (fun r => after_pulls lexer fuel calls (snd r))
  end.

(** The context of [ifndef_then_identifier] after the pull in which the
    allocation of the conditional frame failed. *)
Definition after_failed_allocation : Context :=
  match start_on ifndef_then_identifier [] fails_third with
  | Some ctx =>
      match after_pulls preprocessor_internal_lexer 10 1 ctx with
      | Done ctx => ctx
      | _ => ctx
      end
  | None => fresh_context no_includes [] heap0
  end.

(** ** The chunked buffer *)

(** The bytes the chain holds, in order. *)
Definition stored (buffer : Buffer) : list ascii := concat (chunks buffer).

(** Every chunk before the tail is full and the tail has room. *)
Definition buffer_wf (buffer : Buffer) : Prop :=
  Forall (fun chunk => Z.of_nat (length chunk) = BUFFER_LEN) (full buffer) /\
  Z.of_nat (length (tail buffer)) < BUFFER_LEN.

(** The buffer after [add_to_buffer] of [data], when the call succeeds. *)
Definition added (buffer : Buffer) (data : list ascii) : Buffer :=
  match add_to_buffer buffer data heap0 with
  | Done (true, buffer', _) => buffer'
  | _ => buffer
  end.

Definition two_adds : Buffer :=
  added (added buffer_init (list_ascii_of_string "float4 ")) (list_ascii_of_string "pos;").

(** ** Start-up *)

(** Number of defines the table holds. *)
Definition entries (tbl : list (list MOJOSHADER_preprocessorDefine)) : Z :=
  Z.of_nat (length (concat tbl)).

(** A context under construction in [preprocessor_start], [before] being the
    blocks live before the call: nothing but the context block and three
    blocks per define is allocated. *)
Definition start_inv (before : Z) (ctx : Context) : Prop :=
  include_stack ctx = [] /\ filename_cache ctx = [] /\
  conditional_pool ctx = [] /\
  length (define_hashtable ctx) = DEFINE_BUCKETS /\
  live (malloc_data ctx) = before + 1 + 3 * entries (define_hashtable ctx).

(** Predefines that name [FOO] twice. *)
Definition duplicate_predefines : list MOJOSHADER_preprocessorDefine :=
  [mkDefine "FOO" "1"; mkDefine "BAR" "2"; mkDefine "FOO" "3"].

(** ** Define table: well-formed tables *)

(** The table has its 256 chains and no chain names an identifier twice. *)
Definition defines_wf (ctx : Context) : Prop :=
  length (define_hashtable ctx) = DEFINE_BUCKETS /\
  forall (h : nat) (chain : list MOJOSHADER_preprocessorDefine),
    define_hashtable ctx !! h = Some chain -> NoDup (map identifier chain).

Definition already_defined (sym : string) : string :=
  ("'" ++ sym ++ "' already defined")%string.

Definition define_round_trip_ctx : Context :=
  fresh_context (fun _ _ _ => None) [] (mkHeap [] 0).


(** ** Auxiliary definitions for the properties of the tables and stacks *)

(** Sum of the bytes of [s]. *)
Fixpoint byte_sum (s : string) : Z :=
  match s with
  | EmptyString => 0
  | String c rest => Z.of_nat (nat_of_ascii c) + byte_sum rest
  end.

(** Blocks the allocator has handed to the context and not got back. *)
Definition live_blocks (ctx : Context) : Z := live (malloc_data ctx).

(** A table holding [FOO] and [BAR]. *)
Definition two_defines : Context :=
  snd (add_define (snd (add_define (fresh_context no_includes [] heap0) "FOO" "1"))
         "BAR" "2").

(** A context that has cached the name [a.h]. *)
Definition cached_a_h : Context :=
  snd (cache_filename (fresh_context no_includes [] heap0) (Some "a.h")).

(** Two frames as an [#endif] and an end of file would return them. *)
Definition used_frames : list Conditional :=
  [mkConditional TOKEN_PP_ELSE 7 true true; mkConditional TOKEN_PP_IFDEF 3 false true].

(** Predefines with distinct names. *)
Definition good_predefines : list MOJOSHADER_preprocessorDefine :=
  [mkDefine "FOO" "1"; mkDefine "BAR" "2"].

(** [preprocessor_start] on the root buffer [src] named [name]. *)
Definition start_on_named (name src : string)
    (defines : list MOJOSHADER_preprocessorDefine) : option Context :=
  fst (preprocessor_start (Some name) src (Z.of_nat (String.length src))
         no_includes defines heap0).

(** ** Block accounting *)

(** Blocks the frames of an include stack hold: one per frame and one per
    conditional open in it. *)
Fixpoint frames_blocks (stack : list IncludeState) : Z :=
  match stack with
  | [] => 0
  | state :: next =>
      1 + Z.of_nat (length (conditional_stack state)) + frames_blocks next
  end.

(** Blocks a context answers for: itself, three per define, two per cached
    file name, one per pooled conditional, and those of the include stack. *)
Definition owned_blocks (ctx : Context) : Z :=
  1 + 3 * entries (define_hashtable ctx)
  + 2 * Z.of_nat (length (filename_cache ctx))
  + Z.of_nat (length (conditional_pool ctx))
  + frames_blocks (include_stack ctx).

(** Every block taken since [before] blocks were live is reachable from the
    context. *)
Definition accounted (before : Z) (ctx : Context) : Prop :=
  length (define_hashtable ctx) = DEFINE_BUCKETS /\
  live_blocks ctx = before + owned_blocks ctx.

(** An include callback that serves one header. *)
Definition one_header : MOJOSHADER_includeOpen :=
  fun _ fname _ =>
    if String.eqb fname "a.h" then Some (("#ifdef A" ++ LF ++ "x" ++ LF)%string, 11)
    else None.

(** A root buffer that includes the header, undefines a predefine and opens a
    conditional it never closes. *)
Definition includes_header : string :=
  ("#include " ++ String DQUOTE "a.h" ++ String DQUOTE LF
   ++ "#undef FOO " ++ LF ++ "#ifndef B" ++ LF ++ "y")%string.

(** The context [preprocessor_start] returns for [includes_header]. *)
Definition header_root : Context :=
  default (fresh_context no_includes [] heap0)
    (fst (preprocessor_start (Some "main.hlsl") includes_header
            (Z.of_nat (String.length includes_header)) one_header
            good_predefines heap0)).

(** The first pull on [header_root]. *)
Definition header_first_pull : TokenResult * Context :=
  match preprocessor_nexttoken preprocessor_internal_lexer 30 header_root with
  | Done p => p
  | _ => (mkTokenResult None 0 TOKEN_UNKNOWN, header_root)
  end.

(** [header_root] three pulls later: the header has been opened, read and
    closed. *)
Definition header_session : Context :=
  match after_pulls preprocessor_internal_lexer 30 3 header_root with
  | Done ctx => ctx
  | _ => header_root
  end.

(** ** Invariants of the dispatcher *)

(** What a property of contexts has to survive in order to be an invariant of
    [preprocessor_nexttoken]: the operations on the context the dispatcher
    and its handlers are made of. *)
Record Preserved (Inv : Context -> Prop) : Prop := mkPreserved {
  inv_isfail : forall ctx v, Inv ctx -> Inv (set_isfail v ctx);
  inv_failstr : forall ctx v, Inv ctx -> Inv (set_failstr v ctx);
  inv_close : forall ctx v, Inv ctx -> Inv (set_close_callback v ctx);
  (* the cursor, line or file name of the top frame changes *)
  inv_cursor : forall ctx state rest s,
    include_stack ctx = state :: rest ->
    conditional_stack s = conditional_stack state ->
    Inv ctx -> Inv (set_state s ctx);
  (* [#ifdef] and [#ifndef] push a frame *)
  inv_push_cond : forall ctx state rest z c1 s cond,
    include_stack ctx = state :: rest ->
    get_conditional ctx = (Some z, c1) ->
    conditional_stack s = cond :: conditional_stack state ->
    type cond = TOKEN_PP_IFDEF \/ type cond = TOKEN_PP_IFNDEF ->
    chosen cond = negb (skipping cond) ->
    Inv ctx -> Inv (set_state s c1);
  inv_no_cond : forall ctx c1,
    get_conditional ctx = (None, c1) -> Inv ctx -> Inv c1;
  (* [#endif] and the end of input pop a frame into the pool *)
  inv_pop_cond : forall ctx state rest s c,
    include_stack ctx = state :: rest ->
    conditional_stack state = c :: conditional_stack s ->
    Inv ctx -> Inv (put_conditionals (set_state s ctx) [c]);
  (* [#else] rewrites the open frame *)
  inv_else : forall ctx state rest s c next,
    include_stack ctx = state :: rest ->
    conditional_stack state = c :: next ->
    conditional_stack s =
      mkConditional TOKEN_PP_ELSE (linenum c) (chosen c) true :: next ->
    Inv ctx -> Inv (set_state s ctx);
  inv_pop_source : forall ctx, Inv ctx -> Inv (pop_source ctx);
  inv_push_source : forall ctx fname src srclen incl,
    Inv ctx -> Inv (snd (push_source ctx fname src srclen incl));
  inv_cache_filename : forall ctx fname,
    Inv ctx -> Inv (snd (cache_filename ctx fname));
  inv_remove_define : forall ctx sym,
    Inv ctx -> Inv (snd (remove_define ctx sym))
}.

(** The second pull on [header_root]. *)
Definition header_second_pull : TokenResult * Context :=
  match preprocessor_nexttoken preprocessor_internal_lexer 30
          (snd header_first_pull) with
  | Done p => p
  | _ => header_first_pull
  end.

(** ** Contexts handed to the directive handlers *)

(** The context [handle_pp_ifdef] gets for [#ifdef FOOX] with [FOO] and [BAR]
    predefined. *)
Definition at_ifdef : Context :=
  after_keyword (start_on ("#ifdef FOOX" ++ LF ++ "a" ++ LF) good_predefines []).

(** The context [handle_pp_undef] gets for [#undef FOOX] with [FOO] and [BAR]
    predefined. *)
Definition at_undef : Context :=
  after_keyword (start_on ("#undef FOOX" ++ LF ++ "a" ++ LF) good_predefines []).

(** The context [handle_pp_else] gets when the frame [cond] is open and the
    cursor is just past an [#else] keyword. *)
Definition at_else (cond : Conditional) : Context :=
  set_include_stack
    [mkIncludeState None false ("#else" ++ LF ++ "b" ++ LF)%string 5 0 3 2 [cond]]
    (fresh_context no_includes [] heap0).

(** ** Shape of the open conditionals *)

(** A frame as the handlers leave it: pushed by [#ifdef] or [#ifndef] or
    rewritten by [#else], and chosen whenever it is not skipping. *)
Definition cond_ok (cond : Conditional) : Prop :=
  (type cond = TOKEN_PP_IFDEF \/ type cond = TOKEN_PP_IFNDEF \/
   type cond = TOKEN_PP_ELSE) /\
  (skipping cond = false -> chosen cond = true).

Definition conds_ok (ctx : Context) : Prop :=
  Forall (fun state => Forall cond_ok (conditional_stack state)) (include_stack ctx).

(** Every define of [ctx] is a define of [ctx0], with the same text. *)
Definition defines_within (ctx0 ctx : Context) : Prop :=
  defines_wf ctx /\
  forall sym val, find_define ctx sym = Some val -> find_define ctx0 sym = Some val.

(** A root buffer that undefines [FOO] (written with one more byte, which the
    handler drops) and then opens a conditional. *)
Definition undef_then_ifdef : string :=
  ("#undef FOOX" ++ LF ++ "#ifdef BARX" ++ LF ++ "a" ++ LF)%string.

Definition undef_root : Context :=
  default (fresh_context no_includes [] heap0)
    (start_on undef_then_ifdef good_predefines []).

Definition undef_session : Context :=
  match after_pulls preprocessor_internal_lexer 30 2 undef_root with
  | Done ctx => ctx
  | _ => undef_root
  end.

(** The context [handle_pp_include] gets for the first line of
    [includes_header]. *)
Definition at_include : Context := after_keyword (Some header_root).

Definition after_include : Context :=
  match handle_pp_include preprocessor_internal_lexer at_include with
  | Done ctx => ctx
  | _ => at_include
  end.

Definition after_undef : Context :=
  match handle_pp_undef preprocessor_internal_lexer at_undef with
  | Done ctx => ctx
  | _ => at_undef
  end.

(** The open frame of [#ifdef] outside a skipped group when the identifier
    is not defined. *)
Definition skipping_ifdef_frame : Conditional :=
  mkConditional TOKEN_PP_IFDEF 0 true false.

(** The tokens the dispatcher consumes itself: it acts on them and goes on to
    the next lexeme instead of returning them. *)
Definition handled_by_dispatcher (tok : Token) : bool :=
  match tok with
  | TOKEN_EOI | TOKEN_INCOMPLETE_COMMENT
  | TOKEN_PP_IFDEF | TOKEN_PP_IFNDEF | TOKEN_PP_ENDIF | TOKEN_PP_ELSE
  | TOKEN_PP_INCLUDE | TOKEN_PP_LINE | TOKEN_PP_ERROR | TOKEN_PP_UNDEF => true
  | _ => false
  end.

(** The buffers of the frames pushed by [#include], top of the stack
    first. *)
Definition included_buffers (stack : list IncludeState) : list string :=
  map source_base (List.filter included stack).

(** ** The rest of the chunked buffer *)

Definition INT_MIN : Z := - 2 ^ 31.
Definition INT_MAX : Z := 2 ^ 31 - 1.

(** [static char spaces[4]]. *)
Definition spaces : list ascii := [" "; " "; " "; " "]%char.

(** The loop [while (n--)] of [indent_buffer]: [n] is an [int], and
    decrementing [INT_MIN] is undefined. *)
Fixpoint indent_buffer_loop (fuel : nat) (buffer : Buffer) (n : Z) (d : Heap)
    : Outcome (bool * Buffer * Heap) :=
  match fuel with
  | O => OutOfFuel
  | S fuel =>
      if n =? 0 then Done (true, buffer, d)
      else if n =? INT_MIN then Undefined
      else
        bind (add_to_buffer buffer spaces d) (fun '(ok, buffer, d) =>
          if negb ok then Done (false, buffer, d)
          else indent_buffer_loop fuel buffer (n - 1) d)
  end.

Definition indent_buffer (fuel : nat) (buffer : Buffer) (n : Z) (newline : bool)
    (d : Heap) : Outcome (bool * Buffer * Heap) :=
  if newline then indent_buffer_loop fuel buffer n d
  else
    bind (add_to_buffer buffer (firstn 1 spaces) d) (fun '(ok, buffer, d) =>
      if negb ok then Done (false, buffer, d) else Done (true, buffer, d)).

(** [free_buffer]: every chunk after the head goes back to the allocator,
    then [buffer_init]. *)
Definition free_buffer (buffer : Buffer) (d : Heap) : Buffer * Heap :=
  (buffer_init, fold_left (fun d _ => heap_free d) (full buffer) d).

(** The bytes [n] turns of the indentation loop add. *)
Definition indentation (n : nat) : list ascii := concat (replicate n spaces).

(** ** The public entry point

    [MOJOSHADER_preprocess] pulls tokens until NULL comes back, writes them
    to a chunked buffer, collects the error reports in a list, and builds
    the result.  The allocator data [d] it is given is the one it hands to
    [preprocessor_start], so while the preprocessor lives the heap is the
    [malloc_data] of the context. *)

(** [MOJOSHADER_error]. *)
Record MOJOSHADER_error : Type := mkError {
  error_error : string;            (* [error] *)
  error_filename : option string;  (* [filename]; [None] is NULL *)
  error_position : Z
}.

(** What [MOJOSHADER_preprocess] returns: the address of the static
    [out_of_mem_data_preprocessor], or an allocated
    [MOJOSHADER_preprocessData]. *)
Inductive MOJOSHADER_preprocessData : Type :=
  | out_of_mem_data_preprocessor
  | preprocessData (error_count : Z) (errors : list MOJOSHADER_error)
      (output : Flat) (output_len : Z).

(** [m (len, d)] and [f (ptr, d)] called by [MOJOSHADER_preprocess] itself
    on the allocator data the context shares. *)
Definition m_call (ctx : Context) (len : Z) : bool * Context :=
  let (retval, d) := heap_malloc len (malloc_data ctx) in
  (retval, set_malloc_data d ctx).

Definition f_call (ctx : Context) : Context :=
  set_malloc_data (heap_free (malloc_data ctx)) ctx.

(** [free_error_list]: three calls of [f] per item.  The error text of a
    listed item is never NULL; its file name may be, and is handed to [f]
    all the same: the second component counts these calls. *)
Definition free_error_item (acc : Heap * Z) (e : MOJOSHADER_error) : Heap * Z :=
  let (d, nulls) := acc in
  let d := heap_free d in  (* item->error.error *)
  let (d, nulls) :=
    match error_filename e with
    | Some _ => (heap_free d, nulls)
    | None => (d, nulls + 1)  (* f (NULL, d) *)
    end in
  (heap_free d, nulls).  (* item *)

Definition free_error_list (item : list MOJOSHADER_error) (d : Heap) : Heap * Z :=
  fold_left free_error_item item (d, 0).

Definition SIZEOF_MOJOSHADER_error : Z := 24.

(** [build_errors]: the array of [count] errors ([None] is NULL); the list
    nodes are given back and the strings are reused.  Writing item [total]
    of the array with [total >= count] is undefined; for a list of [count]
    items [total == count] at the end, as asserted. *)
Definition build_errors (errors : list MOJOSHADER_error) (count : Z) (d : Heap)
    : Outcome (option (list MOJOSHADER_error)) * Heap :=
  let (retval, d) :=
    heap_malloc (size_t_wrap (SIZEOF_MOJOSHADER_error * count)) d in
  if negb retval then (Done None, d)
  else if count <? Z.of_nat (length errors) then (Undefined, d)
  else (Done (Some errors), fold_left (fun d _ => heap_free d) errors d).

(** The local variables of [MOJOSHADER_preprocess] that live across the
    turns of its loop. *)
Record PreprocessState : Type := mkPreprocessState {
  st_buffer : Buffer;                 (* [buffer] *)
  st_errors : list MOJOSHADER_error;  (* [errors] *)
  st_error_count : Z;                 (* [error_count] *)
  st_nl : bool;                       (* [nl] *)
  st_indent : Z                       (* [indent] *)
}.

(** One operand of an [out_of_memory = (!a) || (!b) || ...] chain: [b] runs
    only when [a] succeeded. *)
Definition and_then (o : Outcome (bool * Buffer * Heap))
    (k : Buffer -> Heap -> Outcome (bool * Buffer * Heap))
    : Outcome (bool * Buffer * Heap) :=
  bind o (fun '(ok, buffer, d) => if ok then k buffer d else Done (false, buffer, d)).

(** The [len] bytes at [tokstr]; reading past the bytes the token string
    has is undefined. *)
Definition token_data (tokstr : string) (len : Z) : option (list ascii) :=
  if Z.of_nat (String.length tokstr) =? len then Some (list_ascii_of_string tokstr)
  else None.

(** [add_to_buffer (&buffer, tokstr, len, m, d)]. *)
Definition add_token (buffer : Buffer) (tokstr : string) (len : Z) (d : Heap)
    : Outcome (bool * Buffer * Heap) :=
  match token_data tokstr len with
  | None => Undefined
  | Some data => add_to_buffer buffer data d
  end.

(** The result of a buffer chain, stored back. *)
Definition with_buffer (ctx : Context) (st : PreprocessState) (indent : Z)
    (isnewline : bool) (o : Outcome (bool * Buffer * Heap))
    : Outcome (bool * Context * PreprocessState) :=
  bind o (fun '(ok, buffer, d) =>
    Done (negb ok, set_malloc_data d ctx,
          mkPreprocessState buffer (st_errors st) (st_error_count st) isnewline
            indent)).

(** The body of the [while] loop for a token that is not NULL, up to
    [nl = isnewline]: the local [out_of_memory], the context and the
    locals. *)
Definition preprocess_token (endline : list ascii) (r : TokenResult)
    (tokstr : string) (ctx : Context) (st : PreprocessState)
    : Outcome (bool * Context * PreprocessState) :=
  let token := tr_token r in
  let len := tr_len r in
  let out_of_memory := preprocessor_outofmemory ctx in
  let skipped isnewline :=
    Done (true, ctx,
          mkPreprocessState (st_buffer st) (st_errors st) (st_error_count st)
            isnewline (st_indent st)) in
  let d := malloc_data ctx in
  if Token_eqb token (TOKEN_CHAR NEWLINE) then
    (* this doesn't actually care about a newline ... *)
    Done (out_of_memory, ctx, st)
  else if Token_eqb token (TOKEN_CHAR "}") || Token_eqb token (TOKEN_CHAR ";") then
    if out_of_memory then skipped false
    else
      let indent :=
        if Token_eqb token (TOKEN_CHAR "}") && (0 <? st_indent st)
        then st_indent st - 1 else st_indent st in
      with_buffer ctx st indent true
        (and_then
           (indent_buffer (S (Z.to_nat indent)) (st_buffer st) indent (st_nl st) d)
           (fun buffer d =>
              and_then (add_token buffer tokstr len d)
                (fun buffer d => add_to_buffer buffer endline d)))
  else if Token_eqb token (TOKEN_CHAR "{") then
    if out_of_memory then skipped false
    else if st_indent st =? INT_MAX then Undefined  (* indent++ *)
    else
      with_buffer ctx st (st_indent st + 1) true
        (and_then (add_to_buffer (st_buffer st) endline d)
           (fun buffer d =>
              and_then
                (indent_buffer (S (Z.to_nat (st_indent st))) buffer (st_indent st)
                   true d)
                (fun buffer d =>
                   and_then (add_to_buffer buffer ["{"%char] d)
                     (fun buffer d => add_to_buffer buffer endline d))))
  else if Token_eqb token TOKEN_PREPROCESSING_ERROR then
    if out_of_memory then skipped false
    else
      let (error, ctx) := m_call ctx 0 in
      let (str, pos) := preprocessor_sourcepos ctx in
      let (fname, ctx) :=
        match str with
        | Some str => m_call ctx (strlen str + 1)
        | None => (false, ctx)
        end in
      let (errstr, ctx) := m_call ctx (len + 1) in
      (* [strcpy (errstr, tokstr)] reads [tokstr] up to a zero byte and
         writes as much: the report in [failstr] ends in one after [len]
         bytes; of any other pointer only the [len] bytes of the lexeme are
         known. *)
      if errstr
         && negb (String.eqb tokstr (failstr ctx) && (len =? strlen (failstr ctx)))
      then Undefined
      else
      let out_of_memory :=
        negb error
        || (negb fname && match str with Some _ => true | None => false end)
        || negb errstr in
      if out_of_memory then
        let ctx := if errstr then f_call ctx else ctx in
        let ctx := if fname then f_call ctx else ctx in
        let ctx := if error then f_call ctx else ctx in
        Done (true, ctx,
              mkPreprocessState (st_buffer st) (st_errors st) (st_error_count st) false
                (st_indent st))
      else if st_error_count st =? INT_MAX then Undefined  (* error_count++ *)
      else
        let item :=
          mkError (cstr tokstr)
            (match str with Some str => Some (cstr str) | None => None end) pos in
        Done (false, ctx,
              mkPreprocessState (st_buffer st) (st_errors st ++ [item])
                (st_error_count st + 1) false (st_indent st))
  else
    if out_of_memory then skipped false
    else
      with_buffer ctx st (st_indent st) false
        (and_then
           (indent_buffer (S (Z.to_nat (st_indent st))) (st_buffer st)
              (st_indent st) (st_nl st) d)
           (fun buffer d => add_token buffer tokstr len d)).

(** The three calls every way out through [out_of_mem_data_preprocessor]
    makes once the preprocessor has been started: the allocator data, the
    buffers closed and the NULL pointers handed to [f]. *)
Definition preprocess_bail (ctx : Context) (st : PreprocessState)
    : Heap * list string * Z :=
  let (d, closed) := preprocessor_end ctx in
  let d := snd (free_buffer (st_buffer st) d) in
  let (d, nulls) := free_error_list (st_errors st) d in
  (d, closed, nulls).

(** The code after the loop. *)
Definition preprocess_finish (ctx : Context) (st : PreprocessState)
    : Outcome (MOJOSHADER_preprocessData * Heap * list string * Z) :=
  let (d, closed) := preprocessor_end ctx in
  let total_bytes := total_bytes (st_buffer st) in
  let (output, d) := flatten_buffer (st_buffer st) d in
  let d := snd (free_buffer (st_buffer st) d) in
  bind output (fun output =>
    match output with
    | None =>
        let (d, nulls) := free_error_list (st_errors st) d in
        Done (out_of_mem_data_preprocessor, d, closed, nulls)
    | Some output =>
        let (retval, d) := heap_malloc 0 d in
        if negb retval then
          let (d, nulls) := free_error_list (st_errors st) d in
          Done (out_of_mem_data_preprocessor, heap_free d, closed, nulls)
        else
          let (built, d) := build_errors (st_errors st) (st_error_count st) d in
          bind built (fun built =>
            match built with
            | None =>
                let (d, nulls) := free_error_list (st_errors st) d in
                Done (out_of_mem_data_preprocessor, heap_free (heap_free d),
                      closed, nulls)
            | Some array =>
                Done (preprocessData (st_error_count st) array output total_bytes,
                      d, closed, 0)
            end)
    end).

(** The [while] loop: [calls] bounds its turns and [fuel] those of each
    pull. *)
Fixpoint preprocess_loop (lexer : IncludeState -> Token * IncludeState)
    (fuel calls : nat) (endline : list ascii) (ctx : Context)
    (st : PreprocessState)
    : Outcome (MOJOSHADER_preprocessData * Heap * list string * Z) :=
  match calls with
  | O => OutOfFuel
  | S calls =>
      bind (preprocessor_nexttoken lexer fuel ctx) (fun '(r, ctx) =>
        match tr_bytes r with
        | None => preprocess_finish ctx st
        | Some tokstr =>
            if Token_eqb (tr_token r) TOKEN_EOI then Undefined  (* assert *)
            else
              bind (preprocess_token endline r tokstr ctx st)
                (fun '(out_of_memory, ctx, st) =>
                   if out_of_memory then
                     let '(d, closed, nulls) := preprocess_bail ctx st in
                     Done (out_of_mem_data_preprocessor, d, closed, nulls)
                   else preprocess_loop lexer fuel calls endline ctx st)
        end)
  end.

(** [MOJOSHADER_preprocess] for the line ending [endline] the build selects.
    The result comes with the allocator data, the buffers handed to the
    close callback and the number of NULL pointers handed to [f]. *)
Definition MOJOSHADER_preprocess (lexer : IncludeState -> Token * IncludeState)
    (fuel calls : nat) (endline : list ascii)
    (filename : option string) (source : string) (sourcelen : Z)
    (defines : list MOJOSHADER_preprocessorDefine)
    (include_open : MOJOSHADER_includeOpen) (d : Heap)
    : Outcome (MOJOSHADER_preprocessData * Heap * list string * Z) :=
  let (pp, d) := preprocessor_start filename source sourcelen include_open defines d in
  match pp with
  | None => Done (out_of_mem_data_preprocessor, d, [], 0)
  | Some ctx =>
      preprocess_loop lexer fuel calls endline ctx
        (mkPreprocessState buffer_init [] 0 true 0)
  end.

(** [MOJOSHADER_freePreprocessData] on the allocator data stored in the
    result. *)
Definition MOJOSHADER_freePreprocessData (data : MOJOSHADER_preprocessData)
    (d : Heap) : Heap :=
  match data with
  | out_of_mem_data_preprocessor => d
  | preprocessData error_count errors output output_len =>
      let d := heap_free d in  (* output *)
      let d :=
        fold_left
          (fun d e =>
             let d := heap_free d in  (* errors[i].error *)
             match error_filename e with
             | Some _ => heap_free d
             | None => d
             end)
          (firstn (Z.to_nat error_count) errors) d in
      let d := heap_free d in  (* errors *)
      heap_free d
  end.

(** ** Inputs for the entry point *)

Definition unix_endline : list ascii := [NEWLINE].

(** A root buffer with a block, an error directive and statements. *)
Definition shader_source : string :=
  ("void f() { a; }" ++ LF ++ "#error no" ++ LF ++ "b;")%string.

(** The blocks a result holds besides the result itself, the output and the
    array: the text of each error and its file name if it has one. *)
Definition error_blocks (errors : list MOJOSHADER_error) : Z :=
  fold_right
    (fun e acc =>
       1 + match error_filename e with Some _ => 1 | None => 0 end + acc)
    0 errors.

(** The errors of a list that have no file name. *)
Definition without_filename (errors : list MOJOSHADER_error) : Z :=
  fold_right
    (fun e acc => match error_filename e with Some _ => acc | None => acc + 1 end)
    0 errors.

(** The blocks held on behalf of [MOJOSHADER_preprocess] while its loop
    runs: the chunks of the buffer after the first, and for each collected
    error its list node, its text and its file name if it has one. *)
Definition driver_blocks (st : PreprocessState) : Z :=
  Z.of_nat (length (full (st_buffer st)))
  + error_blocks (st_errors st) + Z.of_nat (length (st_errors st)).

(** The locals of [MOJOSHADER_preprocess] at the head of its loop. *)
Definition driver_wf (st : PreprocessState) : Prop :=
  buffer_built (st_buffer st) /\ 0 <= st_indent st /\
  st_error_count st = Z.of_nat (length (st_errors st)).

(** Every block taken since [before] blocks were live is held by the
    context or on behalf of the loop of [MOJOSHADER_preprocess]. *)
Definition driver_inv (before : Z) (ctx : Context) (st : PreprocessState) : Prop :=
  accounted (before + driver_blocks st) ctx.

(** What is known of a result of [MOJOSHADER_preprocess] that left [d']
    behind, [before] blocks having been live at the call. *)
Definition preprocess_post (before : Z) (data : MOJOSHADER_preprocessData)
    (d' : Heap) (nulls : Z) : Prop :=
  match data with
  | out_of_mem_data_preprocessor => live d' = before
  | preprocessData error_count errors output output_len =>
      live d' = before + 3 + error_blocks errors /\
      error_count = Z.of_nat (length errors) /\
      nulls = 0 /\
      exists bytes,
        flat_bytes output = bytes ++ [NUL] /\
        output_len = Z.of_nat (length bytes) /\
        flat_size output = output_len + 1
  end.

(** [MOJOSHADER_preprocess] on [shader_source] with an allocator that never
    fails. *)
Definition shader_result : MOJOSHADER_preprocessData * Heap * list string * Z :=
  match
    MOJOSHADER_preprocess preprocessor_internal_lexer 30 40 unix_endline
      (Some "main.hlsl") shader_source (Z.of_nat (String.length shader_source))
      good_predefines no_includes heap0
  with
  | Done r => r
  | _ => (out_of_mem_data_preprocessor, heap0, [], 0)
  end.

Definition shader_data : MOJOSHADER_preprocessData := fst (fst (fst shader_result)).
Definition shader_heap : Heap := snd (fst (fst shader_result)).

Definition shader_output : Flat :=
  match shader_data with
  | preprocessData _ _ output _ => output
  | out_of_mem_data_preprocessor => mkFlat 0 []
  end.

Definition shader_errors : list MOJOSHADER_error :=
  match shader_data with
  | preprocessData _ errors _ _ => errors
  | out_of_mem_data_preprocessor => []
  end.

(** The context [handle_pp_line] gets for a [#line] directive. *)
Definition line_directive : string :=
  ("#line 42 " ++ String DQUOTE "b.h" ++ String DQUOTE LF ++ "a" ++ LF)%string.

Definition at_line : Context := after_keyword (start_on line_directive [] []).

Definition after_line : Context :=
  match handle_pp_line preprocessor_internal_lexer at_line with
  | Done ctx => ctx
  | _ => at_line
  end.

(** ** Termination of a pull *)

(** The lexer eats into the bytes left: never more than there are, and at
    least one for every lexeme other than the end of input and an
    incomplete comment. *)
Definition lexer_progress (lexer : IncludeState -> Token * IncludeState) : Prop :=
  forall s,
    0 <= bytes_left s ->
    0 <= bytes_left (snd (lexer s)) <= bytes_left s /\
    (fst (lexer s) <> TOKEN_EOI -> fst (lexer s) <> TOKEN_INCOMPLETE_COMMENT ->
     bytes_left (snd (lexer s)) < bytes_left s).

(** What reading a directive does to a frame: the conditionals stay and the
    bytes left do not grow. *)
Definition cursor_moved (state s : IncludeState) : Prop :=
  conditional_stack s = conditional_stack state /\
  (0 <= bytes_left state -> 0 <= bytes_left s <= bytes_left state).

(** Two contexts with the same include stack and include callback. *)
Definition same_frames (c1 c2 : Context) : Prop :=
  include_stack c2 = include_stack c1 /\ open_callback c2 = open_callback c1.

(** What a directive handler does to the include stack: the frames below the
    top and the include callback stay, the top frame keeps its bytes left
    within what it had and gains at most [extra] conditionals. *)
Definition top_moved (extra : nat) (ctx ctx' : Context) : Prop :=
  open_callback ctx' = open_callback ctx /\
  exists s s' rest,
    include_stack ctx = s :: rest /\ include_stack ctx' = s' :: rest /\
    (0 <= bytes_left s -> 0 <= bytes_left s' <= bytes_left s) /\
    (length (conditional_stack s') <= extra + length (conditional_stack s))%nat.

(** The run ends, and where it comes back with a result, [Q] holds of it. *)
Definition ends_with {A : Type} (Q : A -> Prop) (o : Outcome A) : Prop :=
  match o with
  | Done a => Q a
  | OutOfFuel => False
  | Undefined => True
  end.

(** Turns of the dispatcher loop a frame can still cause: two for each byte
    left, one for each open conditional, one for popping the frame. *)
Definition frame_fuel (state : IncludeState) : nat :=
  (2 * Z.to_nat (bytes_left state) + length (conditional_stack state) + 1)%nat.

Fixpoint stack_fuel (stack : list IncludeState) : nat :=
  match stack with
  | [] => O
  | state :: next => (frame_fuel state + stack_fuel next)%nat
  end.

Definition pull_fuel (ctx : Context) : nat :=
  (stack_fuel (include_stack ctx) + 2)%nat.

(** The include callback finds nothing. *)
Definition never_includes (ctx : Context) : Prop :=
  forall incltype fname parent, open_callback ctx incltype fname parent = None.

Definition frames_nonneg (ctx : Context) : Prop :=
  Forall (fun state => 0 <= bytes_left state) (include_stack ctx).

(** What is left for the loop to do: the turns the stack can cause, and one
    for flushing a latched error. *)
Definition turn_measure (ctx : Context) : nat :=
  (2 * stack_fuel (include_stack ctx) + (if isfail ctx then 1 else 0))%nat.

(** What a turn of the loop leaves.  A lexeme or an error report handed back
    has cost something; a turn that goes on has made the stack smaller, or
    has latched the error of an incomplete comment. *)
Definition next_turn (lexer : IncludeState -> Token * IncludeState)
    (ctx : Context) (s : Step) : Prop :=
  match s with
  | Return r ctx' =>
      frames_nonneg ctx' /\ never_includes ctx' /\
      (tr_bytes r = None \/ (turn_measure ctx' < turn_measure ctx)%nat)
  | Continue ctx' =>
      frames_nonneg ctx' /\ never_includes ctx' /\
      ((stack_fuel (include_stack ctx') < stack_fuel (include_stack ctx))%nat \/
       (isfail ctx' = true /\
        exists state rest,
          include_stack ctx = state :: rest /\
          fst (lexer state) = TOKEN_INCOMPLETE_COMMENT /\
          include_stack ctx' = snd (lexer state) :: rest))
  end.

(** ** Termination of the entry point *)

(** The lexer takes at least one byte for every lexeme but the end of
    input. *)
Definition lexer_consumes (lexer : IncludeState -> Token * IncludeState) : Prop :=
  forall s,
    0 <= bytes_left s ->
    0 <= bytes_left (snd (lexer s)) <= bytes_left s /\
    (fst (lexer s) <> TOKEN_EOI -> bytes_left (snd (lexer s)) < bytes_left s).

(** What a pull leaves: NULL, or less to do. *)
Definition next_pull (ctx : Context) (p : TokenResult * Context) : Prop :=
  frames_nonneg (snd p) /\ never_includes (snd p) /\
  (tr_bytes (fst p) = None \/ (turn_measure (snd p) < turn_measure ctx)%nat).

(** A buffer operation that succeeded left a buffer built by successful
    [add_to_buffer] calls. *)
Definition built_if_ok (x : bool * Buffer * Heap) : Prop :=
  fst (fst x) = true -> buffer_built (snd (fst x)).

(** Two contexts with the same include stack, include callback and error
    latch. *)
Definition same_latch (c1 c2 : Context) : Prop :=
  same_frames c1 c2 /\ isfail c2 = isfail c1.

(** What [preprocess_token] leaves: the locals in order unless memory ran
    out, and a context with the include stack, the include callback and the
    latch of the one it got. *)
Definition token_written (ctx : Context)
    (x : bool * Context * PreprocessState) : Prop :=
  (fst (fst x) = false -> driver_wf (snd x)) /\ same_latch ctx (snd (fst x)).

(** * Properties *)

(** ** Field updates and the allocator wrappers *)

Lemma include_stack_set_state (s state : IncludeState) (rest : list IncludeState)
    (ctx : Context) :
  include_stack ctx = state :: rest ->
  include_stack (set_state s ctx) = s :: rest.
Proof. unfold set_state. intros ->. reflexivity. Qed.

Lemma preprocessor_internal_lexer_frame : lexer_frame preprocessor_internal_lexer.
Proof.
  intros s. unfold preprocessor_internal_lexer.
  destruct (skip_blank InCode _ 0 0 0) as [[pos lines] [start|]].
  - repeat split.
  - destruct (lex_at _ _) as [tok len]. repeat split.
Qed.

Lemma substring_length_le (n m : nat) (s : string) :
  (String.length (substring n m s) <= m)%nat.
Proof.
  revert n m. induction s as [|c s IH]; intros n m.
  - destruct n, m; simpl; lia.
  - destruct n as [|n].
    + destruct m as [|m]; simpl; [lia|]. specialize (IH O m). lia.
    + simpl. apply IH.
Qed.

Lemma cstr_length_le (s : string) :
  (String.length (cstr s) <= String.length s)%nat.
Proof.
  induction s as [|c s IH]; simpl; [lia|].
  destruct (Ascii.eqb c NUL); simpl; lia.
Qed.

Lemma failf_fits (ctx : Context) (msg : string) :
  strlen (failstr (failf ctx msg)) <= FAILSTR_SIZE - 1.
Proof.
  unfold strlen, failf, FAILSTR_SIZE. simpl failstr.
  pose proof (cstr_length_le (substring 0 (Z.to_nat (256 - 1)) msg)).
  pose proof (substring_length_le 0 (Z.to_nat (256 - 1)) msg). lia.
Qed.

Lemma string_length_append (a b : string) :
  String.length (a ++ b)%string = (String.length a + String.length b)%nat.
Proof. induction a as [|c a IH]; simpl; [reflexivity | now rewrite IH]. Qed.

Lemma substring_zero (n : nat) (s : string) : substring n 0 s = EmptyString.
Proof.
  revert n. induction s as [|c s IH]; intros [|n]; simpl; auto.
Qed.

(** ** The lexer instance *)

Lemma span_le (p : ascii -> bool) (s : string) : (span p s <= String.length s)%nat.
Proof.
  induction s as [|c s IH]; simpl; [lia|]. destruct (p c); simpl; lia.
Qed.

Lemma string_drop_length (n : nat) (s : string) :
  String.length (string_drop n s) = (String.length s - n)%nat.
Proof.
  revert s. induction n as [|n IH]; intros s; simpl; [lia|].
  destruct s as [|c s]; simpl; [reflexivity | apply IH].
Qed.

Lemma skip_blank_bounds_within (n : nat) (s : string) (mode : Blank)
    (pos lines start : nat) :
  (String.length s <= n)%nat ->
  (mode = InBlockComment -> start <= pos)%nat ->
  (pos <= fst (fst (skip_blank mode s pos lines start))
   <= pos + String.length s)%nat /\
  forall at_, snd (skip_blank mode s pos lines start) = Some at_ ->
    (at_ <= fst (fst (skip_blank mode s pos lines start)))%nat.
Proof.
  revert s mode pos lines start.
  induction n as [|n IH]; intros s mode pos lines start Hn Hstart;
    destruct s as [|c s]; try (simpl in Hn; lia).
  - destruct mode; simpl; split; try lia; try discriminate.
    intros at_ H. injection H as <-. auto.
  - destruct mode; simpl; split; try lia; try discriminate.
    intros at_ H. injection H as <-. auto.
  - assert (IH1 : forall mode pos lines start,
               (mode = InBlockComment -> start <= pos)%nat ->
               (pos <= fst (fst (skip_blank mode s pos lines start))
                <= pos + String.length s)%nat /\
               forall at_, snd (skip_blank mode s pos lines start) = Some at_ ->
                 (at_ <= fst (fst (skip_blank mode s pos lines start)))%nat).
    { intros. apply IH; [simpl in Hn; lia | assumption]. }
    assert (IH2 : forall c2 s2, s = String c2 s2 ->
               forall mode pos lines start,
               (mode = InBlockComment -> start <= pos)%nat ->
               (pos <= fst (fst (skip_blank mode s2 pos lines start))
                <= pos + String.length s2)%nat /\
               forall at_, snd (skip_blank mode s2 pos lines start) = Some at_ ->
                 (at_ <= fst (fst (skip_blank mode s2 pos lines start)))%nat).
    { intros c2 s2 -> ? ? ? ? ?. apply IH; [simpl in Hn; lia | assumption]. }
    destruct mode; cbn [skip_blank].
    + destruct (is_space c).
      { destruct (IH1 InCode (S pos) lines start ltac:(discriminate)) as [Hb Ho].
        split; [simpl; lia | exact Ho]. }
      destruct (Ascii.eqb c "/").
      2:{ simpl. split; [lia | discriminate]. }
      destruct s as [|c2 s2]; [simpl; split; [lia | discriminate]|].
      destruct (Ascii.eqb c2 "/").
      { destruct (IH2 c2 s2 eq_refl InLineComment (S (S pos)) lines start
                    ltac:(discriminate)) as [Hb Ho].
        split; [simpl; lia | exact Ho]. }
      destruct (Ascii.eqb c2 "*").
      { destruct (IH2 c2 s2 eq_refl InBlockComment (S (S pos)) lines pos
                    ltac:(lia)) as [Hb Ho].
        split; [simpl; lia | exact Ho]. }
      simpl. split; [lia | discriminate].
    + destruct (Ascii.eqb c NEWLINE); [simpl; split; [lia | discriminate]|].
      destruct (IH1 InLineComment (S pos) lines start ltac:(discriminate))
        as [Hb Ho].
      split; [simpl; lia | exact Ho].
    + specialize (Hstart eq_refl).
      destruct (Ascii.eqb c "*").
      { destruct s as [|c2 s2].
        - destruct (IH1 InBlockComment (S pos) lines start ltac:(lia)) as [Hb Ho].
          split; [simpl in *; lia | exact Ho].
        - destruct (Ascii.eqb c2 "/").
          + destruct (IH2 c2 s2 eq_refl InCode (S (S pos)) lines start
                        ltac:(discriminate)) as [Hb Ho].
            split; [simpl; lia | exact Ho].
          + destruct (IH1 InBlockComment (S pos) lines start ltac:(lia))
              as [Hb Ho].
            split; [simpl in *; lia | exact Ho]. }
      destruct (Ascii.eqb c NEWLINE).
      * destruct (IH1 InBlockComment (S pos) (S lines) start ltac:(lia))
          as [Hb Ho].
        split; [simpl; lia | exact Ho].
      * destruct (IH1 InBlockComment (S pos) lines start ltac:(lia)) as [Hb Ho].
        split; [simpl; lia | exact Ho].
Qed.

Lemma skip_blank_bounds (s : string) (mode : Blank) (pos lines start : nat) :
  (mode = InBlockComment -> start <= pos)%nat ->
  (pos <= fst (fst (skip_blank mode s pos lines start))
   <= pos + String.length s)%nat /\
  forall at_, snd (skip_blank mode s pos lines start) = Some at_ ->
    (at_ <= fst (fst (skip_blank mode s pos lines start)))%nat.
Proof. apply (skip_blank_bounds_within (String.length s)). lia. Qed.

Lemma scan_string_bound_within (k : nat) (s : string) (n : nat) :
  (String.length s <= k)%nat ->
  (snd (scan_string s n) <= n + String.length s)%nat.
Proof.
  revert s n. induction k as [|k IH]; intros s n Hk;
    destruct s as [|c s]; try (simpl in Hk; lia); simpl; try lia.
  destruct (Ascii.eqb c DQUOTE); [simpl; lia|].
  destruct (Ascii.eqb c NEWLINE); [simpl; lia|].
  destruct (Ascii.eqb c "\").
  - destruct s as [|c2 s2]; [simpl; lia|].
    destruct (Ascii.eqb c2 NEWLINE); [simpl; lia|].
    specialize (IH s2 (S (S n)) ltac:(simpl in Hk; lia)). simpl. lia.
  - specialize (IH s (S n) ltac:(simpl in Hk; lia)). lia.
Qed.

Lemma exponent_len_le (r : string) : (exponent_len r <= String.length r)%nat.
Proof.
  unfold exponent_len. destruct r as [|c r1]; [simpl; lia|].
  destruct (Ascii.eqb c "e" || Ascii.eqb c "E"); [|simpl; lia].
  destruct r1 as [|s r2].
  - simpl. lia.
  - destruct (Ascii.eqb s "+" || Ascii.eqb s "-").
    + pose proof (span_le is_digit r2).
      destruct (0 <? span is_digit r2)%nat; simpl; lia.
    + pose proof (span_le is_digit (String s r2)).
      destruct (0 <? span is_digit (String s r2))%nat; simpl in *; lia.
Qed.

Lemma float_suffix_len_le (r : string) :
  (float_suffix_len r <= String.length r)%nat.
Proof.
  unfold float_suffix_len. destruct r as [|c r]; simpl; [lia|].
  destruct (Ascii.eqb c "f" || Ascii.eqb c "F"); lia.
Qed.

Lemma lex_decimal_le (t : string) : (snd (lex_decimal t) <= String.length t)%nat.
Proof.
  unfold lex_decimal.
  pose proof (span_le is_digit t) as Hd.
  pose proof (string_drop_length (span is_digit t) t) as Hr.
  destruct (string_drop (span is_digit t) t) as [|c r1]; [simpl; lia|].
  simpl in Hr. destruct (Ascii.eqb c ".").
  - pose proof (span_le is_digit r1) as Hf.
    pose proof (string_drop_length (span is_digit r1) r1) as Hr2.
    set (r2 := string_drop (span is_digit r1) r1) in *.
    pose proof (exponent_len_le r2) as He.
    pose proof (string_drop_length (exponent_len r2) r2) as Hr3.
    pose proof (float_suffix_len_le (string_drop (exponent_len r2) r2)) as Hs.
    simpl. lia.
  - pose proof (exponent_len_le (String c r1)) as He.
    pose proof (string_drop_length (exponent_len (String c r1)) (String c r1)) as Hr3.
    pose proof (float_suffix_len_le
                  (string_drop (exponent_len (String c r1)) (String c r1))) as Hs.
    pose proof (span_le is_int_suffix (String c r1)) as Hi.
    destruct (0 <? exponent_len (String c r1))%nat; simpl in *; lia.
Qed.

Lemma lex_number_le (t : string) : (snd (lex_number t) <= String.length t)%nat.
Proof.
  unfold lex_number. destruct t as [|c0 [|x rest]]; try apply lex_decimal_le.
  destruct (Ascii.eqb c0 "0" && (Ascii.eqb x "x" || Ascii.eqb x "X")
            && (0 <? span is_hex rest)%nat); [|apply lex_decimal_le].
  pose proof (span_le is_hex rest).
  pose proof (string_drop_length (span is_hex rest) rest).
  pose proof (span_le is_int_suffix (string_drop (span is_hex rest) rest)).
  simpl. lia.
Qed.

Lemma lex_at_le (line_start : bool) (t : string) :
  (snd (lex_at line_start t) <= String.length t)%nat.
Proof.
  unfold lex_at. destruct t as [|c rest]; [simpl; lia|].
  destruct (Ascii.eqb c NEWLINE); [simpl; lia|].
  destruct (is_ident_start c); [apply (span_le is_ident_char (String c rest))|].
  destruct (is_digit c); [apply lex_number_le|].
  destruct (Ascii.eqb c "." && (0 <? span is_digit rest)%nat);
    [apply lex_decimal_le|].
  destruct (Ascii.eqb c DQUOTE).
  { pose proof (scan_string_bound_within (String.length rest) rest 1 (le_n _)).
    destruct (scan_string rest 1) as [closed n]. simpl in *. lia. }
  pose proof (span_le is_space rest).
  pose proof (string_drop_length (span is_space rest) rest).
  pose proof (span_le is_ident_char (string_drop (span is_space rest) rest)).
  destruct (Ascii.eqb c "#" && line_start
            && (0 <? span is_ident_char (string_drop (span is_space rest) rest))%nat);
    [simpl; lia|].
  destruct rest as [|c2 rest2]; [simpl; lia|].
  destruct (two_char_operator c c2); simpl; lia.
Qed.

(** What a call of the lexer does to the cursor fields: it moves [source]
    forward by the bytes it used, takes as many off [bytes_left], never more
    than were left, and leaves [token] between the old and the new cursor. *)
Lemma preprocessor_internal_lexer_cursor (s : IncludeState) :
  0 <= bytes_left s ->
  exists used : Z,
    0 <= used <= bytes_left s /\
    source (snd (preprocessor_internal_lexer s)) = source s + used /\
    bytes_left (snd (preprocessor_internal_lexer s)) = bytes_left s - used /\
    source s <= token (snd (preprocessor_internal_lexer s)) <= source s + used.
Proof.
  intros Hleft. unfold preprocessor_internal_lexer.
  set (w := slice (source_base s) (source s) (bytes_left s)).
  assert (Hw : Z.of_nat (String.length w) <= bytes_left s).
  { unfold w, slice.
    pose proof (substring_length_le (Z.to_nat (source s)) (Z.to_nat (bytes_left s))
                  (source_base s)). lia. }
  destruct (skip_blank_bounds w InCode 0 0 0 ltac:(discriminate)) as [Hpos Hopen].
  destruct (skip_blank InCode w 0 0 0) as [[pos lines] unclosed].
  cbn [fst snd] in Hpos, Hopen.
  destruct unclosed as [start|].
  - specialize (Hopen start eq_refl). exists (Z.of_nat pos).
    cbn [snd source bytes_left token set_line set_bytes_left set_token set_source].
    lia.
  - pose proof (lex_at_le (starts_line (source_base s) (source s + Z.of_nat pos))
                  (string_drop pos w)) as Hlen.
    pose proof (string_drop_length pos w) as Hdrop.
    destruct (lex_at _ (string_drop pos w)) as [tok len]. cbn [snd] in Hlen.
    exists (Z.of_nat (pos + len)).
    cbn [snd source bytes_left token set_line set_bytes_left set_token set_source].
    lia.
Qed.

(** The lexer keeps the cursor fields of a frame in step. *)
Lemma preprocessor_internal_lexer_cursor_inv (srclen : Z) (s : IncludeState) :
  0 <= source s ->
  cursor_inv srclen s ->
  cursor_inv srclen (snd (preprocessor_internal_lexer s)).
Proof.
  intros Hsrc [Hord Hleft].
  destruct (preprocessor_internal_lexer_cursor s ltac:(lia))
    as (used & Hused & Hs & Hb & Ht).
  unfold cursor_inv. rewrite Hs, Hb. lia.
Qed.

(** At the end of a frame the lexer answers [TOKEN_EOI] and changes
    nothing. *)
Lemma preprocessor_internal_lexer_at_eoi (s : IncludeState) :
  bytes_left s = 0 -> token s = source s -> 0 <= line s < 2 ^ 32 ->
  at_eoi preprocessor_internal_lexer s.
Proof.
  intros Hleft Htok Hline conds. unfold preprocessor_internal_lexer.
  destruct s as [fn inc base src tok left ln cs]. cbn in Hleft, Htok, Hline.
  subst left tok.
  cbn [set_conditional_stack source_base source bytes_left line token filename
       included conditional_stack].
  unfold slice. change (Z.to_nat 0) with 0%nat. rewrite substring_zero.
  cbn [skip_blank string_drop lex_at Token_eqb].
  cbn [set_line set_bytes_left set_token set_source source_base source
       bytes_left line token filename included conditional_stack].
  change (Z.of_nat 0) with 0. unfold uint32.
  rewrite !Z.add_0_r, Z.sub_0_r, Z.mod_small by lia.
  destruct (Token_eqb TOKEN_EOI TOKEN_NEWLINE) eqn:E; [discriminate E|].
  cbn [Nat.add]. change (Z.of_nat 0) with 0. rewrite ?Z.add_0_r.
  rewrite ?Z.mod_small by lia. reflexivity.
Qed.

(** ** Skipping *)

Lemma continue_not_Return (o : Outcome Context) (r : TokenResult) (ctx : Context) :
  continue o <> Done (Return r ctx).
Proof. destruct o; simpl; congruence. Qed.

(** While the open conditional of the top include frame is skipping and no
    error is latched, a turn of the dispatcher loop never hands the lexeme it
    pulled to the caller. *)
Lemma skipping_step_discards (lexer : IncludeState -> Token * IncludeState)
    (fuel : nat) (ctx : Context) (state : IncludeState)
    (rest : list IncludeState) (r : TokenResult) (ctx' : Context) :
  isfail ctx = false ->
  include_stack ctx = state :: rest ->
  top_skipping (conditional_stack state) = true ->
  nexttoken_step lexer fuel ctx <> Done (Return r ctx').
Proof.
  intros Hfail Hstack Hskip. unfold nexttoken_step.
  rewrite Hfail, Hstack, Hskip.
  destruct (lexer state) as [tok s1].
  destruct tok; try apply continue_not_Return; try congruence.
  destruct (conditional_stack s1); [congruence | apply continue_not_Return].
Qed.

(** [handle_pp_else] looks at the frame it rewrites only: when that frame was
    opened inside a skipped group (so its [chosen] is clear), the [#else]
    clears its [skipping] although the frame below is still skipping. *)
Lemma else_ignores_skipping_outer (lexer : IncludeState -> Token * IncludeState)
    (ctx : Context) (state : IncludeState) (rest : list IncludeState)
    (cond outer : Conditional) (next : list Conditional) :
  include_stack ctx = state :: rest ->
  conditional_stack state = cond :: outer :: next ->
  skipping outer = true -> chosen cond = false ->
  type cond <> TOKEN_PP_ELSE ->
  fst (require_newline lexer state) = true ->
  exists ctx' state',
    handle_pp_else lexer ctx = Done ctx' /\
    include_stack ctx' = state' :: rest /\
    conditional_stack state' =
      mkConditional TOKEN_PP_ELSE (linenum cond) false true :: outer :: next /\
    top_skipping (conditional_stack state') = false.
Proof.
  intros Hstack Hconds Houter Hchosen Htype Heol.
  unfold handle_pp_else. rewrite Hstack, Hconds.
  destruct (require_newline lexer state) as [eol s2]. cbn [fst] in Heol. subst eol.
  cbn [negb]. rewrite Hchosen. cbn [negb].
  assert (Hinc : include_stack (set_state s2 ctx) = s2 :: rest)
    by (eapply include_stack_set_state; eauto).
  destruct (type cond); try contradiction;
    (eexists; eexists; split; [reflexivity|];
     split; [eapply include_stack_set_state; exact Hinc|];
     split; reflexivity).
Qed.

(** C1 (skip containment), evaluated on the input
    [#ifdef A / #ifdef B / X / #else / Y / #endif / #endif] with nothing
    defined: the group of [#ifdef A] is skipped, yet after the inner [#else]
    the dispatcher hands the newline and the identifier [Y] to the caller.
    After the first pull the frame of [#ifdef A] is still open and skipping,
    but the frame on top of it, rewritten by [handle_pp_else], is not. *)
Theorem else_inside_skipped_group_emits :
  exists ctx r1 ctx1,
    start_on else_in_skipped_group [] [] = Some ctx /\
    _preprocessor_nexttoken preprocessor_internal_lexer 10 ctx = Done (r1, ctx1) /\
    option_map conditional_stack (top_state ctx1) =
      Some [mkConditional TOKEN_PP_ELSE 1 false true;
            mkConditional TOKEN_PP_IFDEF 0 true false] /\
    tags_and_bytes (pull_tokens preprocessor_internal_lexer 10 3 ctx) =
      [Some (TOKEN_NEWLINE, Some LF);
       Some (TOKEN_IDENTIFIER, Some "Y");
       Some (TOKEN_NEWLINE, Some LF)].
Proof.
  eexists. eexists. eexists.
  split; [vm_compute; reflexivity|].
  split; [vm_compute; reflexivity|].
  split; vm_compute; reflexivity.
Qed.

(** ** The out-of-memory flag *)

Section OutOfMemoryLatch.

Variable lexer : IncludeState -> Token * IncludeState.

Lemma oom_set_isfail v c : out_of_memory c = true -> out_of_memory (set_isfail v c) = true.
Proof. auto. Qed.
Lemma oom_set_failstr v c : out_of_memory c = true -> out_of_memory (set_failstr v c) = true.
Proof. auto. Qed.
Lemma oom_set_conditional_pool v c :
  out_of_memory c = true -> out_of_memory (set_conditional_pool v c) = true.
Proof. auto. Qed.
Lemma oom_set_include_stack v c :
  out_of_memory c = true -> out_of_memory (set_include_stack v c) = true.
Proof. auto. Qed.
Lemma oom_set_define_hashtable v c :
  out_of_memory c = true -> out_of_memory (set_define_hashtable v c) = true.
Proof. auto. Qed.
Lemma oom_set_filename_cache v c :
  out_of_memory c = true -> out_of_memory (set_filename_cache v c) = true.
Proof. auto. Qed.
Lemma oom_set_close_callback v c :
  out_of_memory c = true -> out_of_memory (set_close_callback v c) = true.
Proof. auto. Qed.
Lemma oom_set_malloc_data v c :
  out_of_memory c = true -> out_of_memory (set_malloc_data v c) = true.
Proof. auto. Qed.
Lemma oom_set_state s c : out_of_memory c = true -> out_of_memory (set_state s c) = true.
Proof. unfold set_state. destruct (include_stack c); auto. Qed.
Lemma oom_fail c msg : out_of_memory c = true -> out_of_memory (fail c msg) = true.
Proof. auto. Qed.
Lemma oom_Free c ptr : out_of_memory c = true -> out_of_memory (Free c ptr) = true.
Proof. destruct ptr; auto. Qed.

Lemma oom_Malloc c len b c' :
  Malloc c len = (b, c') -> out_of_memory c = true -> out_of_memory c' = true.
Proof.
  unfold Malloc. destruct (heap_malloc len (malloc_data c)) as [[|] d];
    intros H; injection H as <- <-; auto.
Qed.

Lemma oom_put_conditionals item c :
  out_of_memory c = true -> out_of_memory (put_conditionals c item) = true.
Proof. revert c. induction item as [|x item IH]; simpl; auto. Qed.

Ltac break_match :=
  match goal with
  | |- context [match ?x with _ => _ end] => destruct x eqn:?
  end.

(** One syntax-directed step towards [out_of_memory _ = true]. *)
Ltac oom_step :=
  match goal with
  | H : out_of_memory ?c = true |- out_of_memory ?c = true => exact H
  | |- out_of_memory (set_isfail _ _) = true => apply oom_set_isfail
  | |- out_of_memory (set_failstr _ _) = true => apply oom_set_failstr
  | |- out_of_memory (set_conditional_pool _ _) = true =>
      apply oom_set_conditional_pool
  | |- out_of_memory (set_include_stack _ _) = true => apply oom_set_include_stack
  | |- out_of_memory (set_define_hashtable _ _) = true =>
      apply oom_set_define_hashtable
  | |- out_of_memory (set_filename_cache _ _) = true => apply oom_set_filename_cache
  | |- out_of_memory (set_close_callback _ _) = true => apply oom_set_close_callback
  | |- out_of_memory (set_malloc_data _ _) = true => apply oom_set_malloc_data
  | |- out_of_memory (set_out_of_memory true _) = true => reflexivity
  | |- out_of_memory (set_state _ _) = true => apply oom_set_state
  | |- out_of_memory (fail _ _) = true => apply oom_fail
  | |- out_of_memory (failf _ _) = true => apply oom_fail
  | |- out_of_memory (Free _ _) = true => apply oom_Free
  | |- out_of_memory (put_conditionals _ _) = true => apply oom_put_conditionals
  | H : Malloc _ _ = (_, ?c) |- out_of_memory ?c = true =>
      apply (oom_Malloc _ _ _ _ H)
  end.

Ltac oom_cases :=
  repeat break_match; intros;
  repeat match goal with
         | H : (_, _) = (_, _) |- _ => injection H as ? ?
         | H : Done _ = Done _ |- _ => injection H as ?
         end;
  subst; try discriminate; repeat oom_step.

Lemma oom_get_conditional c r c' :
  get_conditional c = (r, c') -> out_of_memory c = true -> out_of_memory c' = true.
Proof. unfold get_conditional. oom_cases. Qed.

Lemma oom_remove_define c sym b c' :
  remove_define c sym = (b, c') -> out_of_memory c = true -> out_of_memory c' = true.
Proof. unfold remove_define. oom_cases. Qed.

Lemma oom_cache_filename c fname r c' :
  cache_filename c fname = (r, c') -> out_of_memory c = true ->
  out_of_memory c' = true.
Proof. unfold cache_filename. oom_cases. Qed.

Ltac oom_step2 :=
  match goal with
  | H : get_conditional _ = (_, ?c) |- out_of_memory ?c = true =>
      apply (oom_get_conditional _ _ _ H)
  | H : remove_define _ _ = (_, ?c) |- out_of_memory ?c = true =>
      apply (oom_remove_define _ _ _ _ H)
  | H : cache_filename _ _ = (_, ?c) |- out_of_memory ?c = true =>
      apply (oom_cache_filename _ _ _ _ H)
  | _ => oom_step
  end.

Ltac oom_cases2 := oom_cases; repeat oom_step2.

Lemma oom_push_source c fname src srclen incl b c' :
  push_source c fname src srclen incl = (b, c') ->
  out_of_memory c = true -> out_of_memory c' = true.
Proof. unfold push_source. oom_cases2. Qed.

Lemma oom_pop_source c : out_of_memory c = true -> out_of_memory (pop_source c) = true.
Proof. unfold pop_source. oom_cases2. Qed.

Ltac oom_step3 :=
  match goal with
  | H : push_source _ _ _ _ _ = (_, ?c) |- out_of_memory ?c = true =>
      apply (oom_push_source _ _ _ _ _ _ _ H)
  | |- out_of_memory (pop_source _) = true => apply oom_pop_source
  | _ => oom_step2
  end.

Ltac oom_cases3 := oom_cases; repeat oom_step3.

Lemma oom_handle_pp_include c c' :
  handle_pp_include lexer c = Done c' ->
  out_of_memory c = true -> out_of_memory c' = true.
Proof. unfold handle_pp_include. oom_cases3. Qed.

Lemma oom_handle_pp_line c c' :
  handle_pp_line lexer c = Done c' ->
  out_of_memory c = true -> out_of_memory c' = true.
Proof. unfold handle_pp_line. oom_cases3. Qed.

Lemma oom_handle_pp_error fuel c c' :
  handle_pp_error lexer fuel c = Done c' ->
  out_of_memory c = true -> out_of_memory c' = true.
Proof.
  unfold handle_pp_error. destruct (include_stack c); [discriminate|].
  destruct (pp_error_scan lexer fuel i None) as [[[s src] data]| |];
    try discriminate.
  cbn [bind]. oom_cases3.
Qed.

Lemma oom_handle_pp_undef c c' :
  handle_pp_undef lexer c = Done c' ->
  out_of_memory c = true -> out_of_memory c' = true.
Proof.
  unfold handle_pp_undef. oom_cases3.
  match goal with
  | |- out_of_memory (snd ?p) = true => destruct p eqn:?
  end. simpl. repeat oom_step3.
Qed.

Lemma oom__handle_pp_ifdef c ty r c' :
  _handle_pp_ifdef lexer c ty = Done (r, c') ->
  out_of_memory c = true -> out_of_memory c' = true.
Proof. unfold _handle_pp_ifdef. oom_cases3. Qed.

Lemma oom_handle_pp_else c c' :
  handle_pp_else lexer c = Done c' ->
  out_of_memory c = true -> out_of_memory c' = true.
Proof. unfold handle_pp_else. oom_cases3. Qed.

Lemma oom_handle_pp_endif c c' :
  handle_pp_endif lexer c = Done c' ->
  out_of_memory c = true -> out_of_memory c' = true.
Proof. unfold handle_pp_endif. oom_cases3. Qed.

Lemma oom_unterminated_pp_condition c c' :
  unterminated_pp_condition c = Done c' ->
  out_of_memory c = true -> out_of_memory c' = true.
Proof. unfold unterminated_pp_condition. oom_cases3. Qed.

Lemma continue_Done o s :
  continue o = Done s -> exists c, o = Done c /\ s = Continue c.
Proof. destruct o; simpl; try discriminate. intros H. injection H as <-. eauto. Qed.

(** A turn of the dispatcher loop never clears the flag. *)
Lemma oom_nexttoken_step fuel c s :
  nexttoken_step lexer fuel c = Done s ->
  out_of_memory c = true ->
  match s with
  | Return _ c' => out_of_memory c' = true
  | Continue c' => out_of_memory c' = true
  end.
Proof.
  unfold nexttoken_step, handle_pp_ifdef, handle_pp_ifndef.
  intros H Hoom.
  destruct (isfail c); [injection H as <-; exact Hoom|].
  destruct (include_stack c) as [|state rest]; [injection H as <-; exact Hoom|].
  destruct (lexer state) as [tok s1].
  assert (Hs : out_of_memory (set_state s1 c) = true) by now apply oom_set_state.
  set (c1 := set_state s1 c) in *. clearbody c1.
  destruct (top_skipping (conditional_stack state));
    destruct tok;
    try (injection H as <-; repeat oom_step3; fail);
    try (destruct (conditional_stack s1);
         [injection H as <-; repeat oom_step3; fail|]);
    apply continue_Done in H as (c2 & H & ->);
    eauto using oom_handle_pp_include, oom_handle_pp_line,
      oom_handle_pp_error, oom_handle_pp_undef, oom_handle_pp_else,
      oom_handle_pp_endif, oom_unterminated_pp_condition;
    destruct (_handle_pp_ifdef lexer c1 _) as [[r c3]| |] eqn:Hif;
    try discriminate; injection H as <-;
    eapply oom__handle_pp_ifdef; eauto.
Qed.

End OutOfMemoryLatch.

Lemma oom_nexttoken (lexer : IncludeState -> Token * IncludeState)
    (fuel : nat) (ctx : Context) (r : TokenResult) (ctx' : Context) :
  _preprocessor_nexttoken lexer fuel ctx = Done (r, ctx') ->
  out_of_memory ctx = true -> out_of_memory ctx' = true.
Proof.
  revert ctx. induction fuel as [|fuel IH]; intros ctx H Hoom; [discriminate|].
  cbn [_preprocessor_nexttoken] in H.
  destruct (nexttoken_step lexer fuel ctx) as [[r1 c1|c1]| |] eqn:Hstep;
    try discriminate;
    pose proof (oom_nexttoken_step lexer fuel ctx _ Hstep Hoom) as Hc1;
    cbn in Hc1.
  - injection H as <- <-. exact Hc1.
  - eapply IH; eauto.
Qed.

(** C2 as amended (the out-of-memory latch).  Once [out_of_memory] is set it
    stays set through any number of [preprocessor_nexttoken] calls, so
    [preprocessor_outofmemory] keeps reporting it.  The dispatcher never
    reads the flag: a pull returns the end of input when no error is latched
    and the include stack is empty, as it does without the flag. *)
Theorem out_of_memory_latched (lexer : IncludeState -> Token * IncludeState)
    (ctx : Context) :
  out_of_memory ctx = true ->
  (forall fuel calls ctx',
     after_pulls lexer fuel calls ctx = Done ctx' ->
     preprocessor_outofmemory ctx' = true) /\
  (isfail ctx = false -> include_stack ctx = [] ->
   forall fuel,
     preprocessor_nexttoken lexer (S fuel) ctx =
       Done (mkTokenResult None 0 TOKEN_EOI, ctx)).
Proof.
  intros Hoom. split.
  - intros fuel calls. revert ctx Hoom.
    induction calls as [|calls IH]; intros ctx Hoom ctx' H.
    + injection H as <-. exact Hoom.
    + cbn [after_pulls] in H. unfold preprocessor_nexttoken in H.
      destruct (_preprocessor_nexttoken lexer fuel ctx) as [[r c1]| |] eqn:Hpull;
        try discriminate.
      cbn [bind snd] in H. eapply IH; [|exact H].
      eapply oom_nexttoken; eauto.
  - intros Hfail Hstack fuel. unfold preprocessor_nexttoken.
    cbn [_preprocessor_nexttoken]. unfold nexttoken_step.
    rewrite Hfail, Hstack. reflexivity.
Qed.

Lemma out_of_memory_latched_witness :
  out_of_memory after_failed_allocation = true /\
  exists ctx',
    after_pulls preprocessor_internal_lexer 10 2 after_failed_allocation
      = Done ctx' /\
    preprocessor_outofmemory ctx' = true.
Proof.
  split; [reflexivity|].
  eexists. split; [vm_compute; reflexivity|].
  eapply (proj1 (out_of_memory_latched preprocessor_internal_lexer
                   after_failed_allocation eq_refl) 10%nat 2%nat).
  vm_compute. reflexivity.
Defined.

(** C2 as stated, refuted on [#ifndef A / X] when the allocation of the
    conditional frame fails: the pull that sets the flag returns the
    newline, and the pull after it returns the identifier [X], not the end
    of input. *)
Lemma out_of_memory_counterexample :
  exists r ctx',
    out_of_memory after_failed_allocation = true /\
    preprocessor_nexttoken preprocessor_internal_lexer 10 after_failed_allocation
      = Done (r, ctx') /\
    tr_bytes r = Some "X" /\
    tr_token r = TOKEN_IDENTIFIER /\
    tr_token r <> TOKEN_EOI.
Proof.
  eexists. eexists. split; [reflexivity|].
  split; [vm_compute; reflexivity|].
  split; [reflexivity|]. split; [reflexivity|]. discriminate.
Qed.
(** ** Define table *)

Lemma hash_define_from_range (sym : string) (acc : Z) :
  0 <= acc < 256 -> 0 <= hash_define_from acc sym < 256.
Proof.
  revert acc. induction sym as [|c rest IH]; intros acc Hacc; simpl.
  - exact Hacc.
  - apply IH. apply Z.mod_pos_bound. lia.
Qed.

Lemma hash_define_lt (sym : string) : (hash_define sym < DEFINE_BUCKETS)%nat.
Proof.
  unfold hash_define, DEFINE_BUCKETS.
  pose proof (hash_define_from_range sym 0 ltac:(lia)). lia.
Qed.

Lemma find_in_chain_None (chain : list MOJOSHADER_preprocessorDefine) (sym : string) :
  find_in_chain chain sym = None <-> sym ∉ map identifier chain.
Proof.
  induction chain as [|d next IH]; simpl.
  - rewrite elem_of_nil. tauto.
  - rewrite elem_of_cons.
    destruct (String.eqb_spec (identifier d) sym) as [Heq|Hne].
    + split; [discriminate | intros H; exfalso; apply H; now left].
    + rewrite IH. intuition congruence.
Qed.

Lemma remove_from_chain_None (chain : list MOJOSHADER_preprocessorDefine) (sym : string) :
  remove_from_chain chain sym = None -> find_in_chain chain sym = None.
Proof.
  induction chain as [|d next IH]; simpl; [reflexivity|].
  destruct (String.eqb (identifier d) sym); [discriminate|].
  destruct (remove_from_chain next sym); [discriminate | auto].
Qed.

Lemma remove_from_chain_Some (chain chain' : list MOJOSHADER_preprocessorDefine)
    (sym : string) :
  remove_from_chain chain sym = Some chain' ->
  (forall id, id ∈ map identifier chain' -> id ∈ map identifier chain) /\
  (NoDup (map identifier chain) ->
   NoDup (map identifier chain') /\ find_in_chain chain' sym = None).
Proof.
  revert chain'. induction chain as [|d next IH]; simpl; intros chain' H.
  - discriminate.
  - destruct (String.eqb_spec (identifier d) sym) as [Heq|Hne].
    + injection H as <-. split; [intros id Hin; apply elem_of_cons; now right|].
      intros Hnd. apply NoDup_cons in Hnd as [Hnotin Hnd].
      split; [exact Hnd|]. apply find_in_chain_None. now rewrite <- Heq.
    + destruct (remove_from_chain next sym) as [next'|] eqn:Hrec; [|discriminate].
      injection H as <-. destruct (IH next' eq_refl) as [Hsub Hkeep].
      split.
      * simpl. intros id Hid. apply elem_of_cons in Hid as [Hid|Hid];
          apply elem_of_cons; [now left | right; auto].
      * intros Hnd. apply NoDup_cons in Hnd as [Hnotin Hnd].
        destruct (Hkeep Hnd) as [Hnd' Hfind]. split.
        -- simpl. apply NoDup_cons. split; [|exact Hnd'].
           intros Hin. apply Hnotin. auto.
        -- simpl. destruct (String.eqb_spec (identifier d) sym); [contradiction|].
           exact Hfind.
Qed.

Lemma define_hashtable_Malloc (ctx : Context) (len : Z) :
  define_hashtable (snd (Malloc ctx len)) = define_hashtable ctx.
Proof.
  unfold Malloc. destruct (heap_malloc len (malloc_data ctx)) as [[|] d]; reflexivity.
Qed.

Lemma define_hashtable_Free (ctx : Context) (ptr : bool) :
  define_hashtable (Free ctx ptr) = define_hashtable ctx.
Proof. destruct ptr; reflexivity. Qed.

Lemma define_bucket_insert (ctx : Context) (h : nat)
    (chain : list MOJOSHADER_preprocessorDefine) :
  (h < length (define_hashtable ctx))%nat ->
  define_bucket (set_define_hashtable (<[h := chain]> (define_hashtable ctx)) ctx) h
  = chain.
Proof.
  intros Hlt. unfold define_bucket. simpl.
  now rewrite list_lookup_insert_eq.
Qed.

(** What a successful [add_define] does to the table. *)
Lemma add_define_true (ctx ctx1 : Context) (sym val : string) :
  add_define ctx sym val = (true, ctx1) ->
  find_in_chain (define_bucket ctx (hash_define sym)) sym = None /\
  define_hashtable ctx1 =
    <[hash_define sym := mkDefine sym val :: define_bucket ctx (hash_define sym)]>
      (define_hashtable ctx).
Proof.
  unfold add_define.
  destruct (find_in_chain (define_bucket ctx (hash_define sym)) sym) eqn:Hfind;
    [discriminate|].
  pose proof (define_hashtable_Malloc ctx 0) as H1.
  destruct (Malloc ctx 0) as [[|] c1]; simpl in *; [|discriminate].
  pose proof (define_hashtable_Malloc c1 (Z.of_nat (String.length sym) + 1)) as H2.
  destruct (Malloc c1 (Z.of_nat (String.length sym) + 1)) as [i c2]; simpl in *.
  pose proof (define_hashtable_Malloc c2 (Z.of_nat (String.length val) + 1)) as H3.
  destruct (Malloc c2 (Z.of_nat (String.length val) + 1)) as [dd c3]; simpl in *.
  destruct i, dd; simpl; try discriminate.
  intros H. injection H as <-. split; [reflexivity|].
  simpl. congruence.
Qed.

(** [add_define] on an identifier the table holds: the error is latched and
    nothing else changes. *)
Lemma add_define_present (ctx : Context) (sym val v : string) :
  find_define ctx sym = Some v ->
  add_define ctx sym val = (false, failf ctx (already_defined sym)).
Proof.
  unfold find_define, add_define. intros ->. reflexivity.
Qed.

Lemma defines_wf_fresh (open : MOJOSHADER_includeOpen) (closed : list string)
    (d : Heap) :
  defines_wf (fresh_context open closed d).
Proof.
  split; unfold fresh_context; cbn [define_hashtable].
  - apply length_replicate.
  - intros h chain H. apply lookup_replicate in H as [-> _]. apply NoDup_nil_2.
Qed.

Lemma defines_wf_add (ctx ctx1 : Context) (sym val : string) :
  defines_wf ctx -> add_define ctx sym val = (true, ctx1) -> defines_wf ctx1.
Proof.
  intros [Hlen Hnd] Hadd. apply add_define_true in Hadd as [Hfind Htbl].
  split; rewrite Htbl.
  - now rewrite length_insert.
  - intros h chain Hlook.
    destruct (decide (h = hash_define sym)) as [->|Hne].
    + rewrite list_lookup_insert_eq in Hlook
        by (rewrite Hlen; apply hash_define_lt).
      injection Hlook as <-. simpl. apply NoDup_cons. split.
      * now apply find_in_chain_None.
      * unfold define_bucket.
        destruct (define_hashtable ctx !! hash_define sym) as [c|] eqn:Hc; simpl.
        -- eapply Hnd; eauto.
        -- apply NoDup_nil_2.
    + rewrite list_lookup_insert_ne in Hlook by congruence. eapply Hnd; eauto.
Qed.

Lemma remove_define_table (ctx : Context) (sym : string) :
  define_hashtable (snd (remove_define ctx sym)) =
    match remove_from_chain (define_bucket ctx (hash_define sym)) sym with
    | Some chain => <[hash_define sym := chain]> (define_hashtable ctx)
    | None => define_hashtable ctx
    end.
Proof.
  unfold remove_define.
  destruct (remove_from_chain (define_bucket ctx (hash_define sym)) sym);
    reflexivity.
Qed.

Lemma defines_wf_remove (ctx : Context) (sym : string) :
  defines_wf ctx -> defines_wf (snd (remove_define ctx sym)).
Proof.
  intros [Hlen Hnd]. split; rewrite remove_define_table;
    destruct (remove_from_chain (define_bucket ctx (hash_define sym)) sym)
      as [chain|] eqn:Hrm; auto.
  - now rewrite length_insert.
  - intros h c Hlook.
    destruct (decide (h = hash_define sym)) as [->|Hne].
    + rewrite list_lookup_insert_eq in Hlook
        by (rewrite Hlen; apply hash_define_lt).
      injection Hlook as <-.
      apply remove_from_chain_Some in Hrm as [_ Hkeep].
      apply Hkeep. unfold define_bucket.
      destruct (define_hashtable ctx !! hash_define sym) as [c|] eqn:Hc; simpl.
      * eapply Hnd; eauto.
      * apply NoDup_nil_2.
    + rewrite list_lookup_insert_ne in Hlook by congruence. eapply Hnd; eauto.
Qed.

Lemma find_define_remove (ctx : Context) (sym : string) :
  defines_wf ctx -> find_define (snd (remove_define ctx sym)) sym = None.
Proof.
  intros [Hlen Hnd]. unfold find_define, define_bucket at 1.
  rewrite remove_define_table.
  destruct (remove_from_chain (define_bucket ctx (hash_define sym)) sym)
    as [chain|] eqn:Hrm.
  - rewrite list_lookup_insert_eq by (rewrite Hlen; apply hash_define_lt).
    simpl. apply remove_from_chain_Some in Hrm as [_ Hkeep].
    apply Hkeep. unfold define_bucket.
    destruct (define_hashtable ctx !! hash_define sym) as [c|] eqn:Hc; simpl.
    + eapply Hnd; eauto.
    + apply NoDup_nil_2.
  - now apply remove_from_chain_None.
Qed.

Lemma find_define_added (ctx ctx1 : Context) (sym val : string) :
  defines_wf ctx -> add_define ctx sym val = (true, ctx1) ->
  find_define ctx1 sym = Some val.
Proof.
  intros [Hlen _] Hadd. apply add_define_true in Hadd as [_ Htbl].
  unfold find_define, define_bucket. rewrite Htbl.
  rewrite list_lookup_insert_eq by (rewrite Hlen; apply hash_define_lt).
  simpl. now rewrite String.eqb_refl.
Qed.

(** C3 (define round-trip).  In every well-formed define table: after a
    successful [add_define ctx id text], [find_define] returns [text] for
    [id]; adding an identifier the table already holds returns 0, latches
    the "already defined" error and leaves the table as it was; and after
    [remove_define ctx id], [find_define] finds nothing for [id]. *)
Theorem define_round_trip (ctx : Context) (id text : string) :
  defines_wf ctx ->
  (forall ctx1, add_define ctx id text = (true, ctx1) ->
     find_define ctx1 id = Some text /\
     forall other,
       add_define ctx1 id other = (false, failf ctx1 (already_defined id)) /\
       define_hashtable (failf ctx1 (already_defined id)) = define_hashtable ctx1) /\
  (forall v other, find_define ctx id = Some v ->
     add_define ctx id other = (false, failf ctx (already_defined id)) /\
     define_hashtable (failf ctx (already_defined id)) = define_hashtable ctx) /\
  find_define (snd (remove_define ctx id)) id = None.
Proof.
  intros Hwf. split; [|split].
  - intros ctx1 Hadd.
    assert (Hfind : find_define ctx1 id = Some text)
      by (eapply find_define_added; eauto).
    split; [exact Hfind|]. intros other. split; [|reflexivity].
    eapply add_define_present; eauto.
  - intros v other Hfind. split; [|reflexivity].
    eapply add_define_present; eauto.
  - now apply find_define_remove.
Qed.

Lemma define_round_trip_witness :
  defines_wf define_round_trip_ctx /\
  add_define define_round_trip_ctx "FOO" "1"
    = (true, snd (add_define define_round_trip_ctx "FOO" "1")) /\
  find_define (snd (add_define define_round_trip_ctx "FOO" "1")) "FOO" = Some "1" /\
  find_define (snd (remove_define define_round_trip_ctx "FOO")) "FOO" = None.
Proof.
  assert (Hwf : defines_wf define_round_trip_ctx) by apply defines_wf_fresh.
  destruct (define_round_trip define_round_trip_ctx "FOO" "1" Hwf)
    as [Hadd [_ Hrm]].
  split; [exact Hwf|]. split; [reflexivity|]. split; [|exact Hrm].
  exact (proj1 (Hadd _ eq_refl)).
Defined.

(** ** The latched error *)

(** C4 (one latched error, flushed by the next call).  The context holds one
    failure slot: [failf] sets the latch and keeps at most 255 bytes, so the
    string and its terminator fit the 256-byte buffer.  When the latch is
    set, the next [_preprocessor_nexttoken] call returns, before the lexer or
    any handler runs, a [TOKEN_PREPROCESSING_ERROR] whose bytes are
    [failstr] and whose length is [strlen failstr]; the context it leaves
    has the latch cleared and is otherwise the one it was given, so the
    following call tokenizes from the same include stack. *)
Theorem latched_error_flush (lexer : IncludeState -> Token * IncludeState)
    (fuel : nat) (ctx : Context) :
  isfail ctx = true ->
  _preprocessor_nexttoken lexer (S fuel) ctx =
    Done (mkTokenResult (Some (failstr ctx)) (strlen (failstr ctx))
            TOKEN_PREPROCESSING_ERROR,
          set_isfail false ctx) /\
  isfail (set_isfail false ctx) = false /\
  include_stack (set_isfail false ctx) = include_stack ctx /\
  define_hashtable (set_isfail false ctx) = define_hashtable ctx /\
  conditional_pool (set_isfail false ctx) = conditional_pool ctx /\
  out_of_memory (set_isfail false ctx) = out_of_memory ctx /\
  (forall msg, isfail (failf ctx msg) = true /\
               strlen (failstr (failf ctx msg)) <= FAILSTR_SIZE - 1).
Proof.
  intros Hfail. split.
  - simpl. unfold nexttoken_step. rewrite Hfail. reflexivity.
  - repeat split. apply failf_fits.
Qed.

Lemma latched_error_flush_witness :
  isfail (fail (fresh_context no_includes [] heap0) "Unmatched #endif") = true /\
  _preprocessor_nexttoken preprocessor_internal_lexer 1
    (fail (fresh_context no_includes [] heap0) "Unmatched #endif") =
    Done (mkTokenResult (Some "Unmatched #endif") 16 TOKEN_PREPROCESSING_ERROR,
          set_isfail false
            (fail (fresh_context no_includes [] heap0) "Unmatched #endif")).
Proof.
  split; [reflexivity|].
  exact (proj1 (latched_error_flush preprocessor_internal_lexer 0
                  (fail (fresh_context no_includes [] heap0) "Unmatched #endif")
                  eq_refl)).
Defined.

(** ** Unterminated conditionals *)

Lemma set_conditional_stack_idem (c1 c2 : list Conditional) (s : IncludeState) :
  set_conditional_stack c1 (set_conditional_stack c2 s) = set_conditional_stack c1 s.
Proof. reflexivity. Qed.

Lemma fail_short (ctx : Context) (msg : string) :
  (String.length msg <= 255)%nat ->
  fail ctx msg = set_failstr msg (set_isfail true ctx).
Proof.
  intros Hlen. unfold fail, failf, FAILSTR_SIZE. f_equal.
  change (Z.to_nat (256 - 1)) with 255%nat.
  generalize dependent 255%nat. induction msg as [|c msg IH]; intros n Hn.
  - destruct n; reflexivity.
  - destruct n as [|n]; simpl in *; [lia|]. f_equal. apply IH. lia.
Qed.

Lemma unterminated_message_short (ty : Token) (msg : string) :
  unterminated_message ty = Some msg ->
  (String.length msg <= 255)%nat /\ cstr msg = msg.
Proof.
  destruct ty; simpl; try discriminate; intros H; injection H as <-;
    split; simpl; try lia; reflexivity.
Qed.

(** One pull at the end of an include frame with a conditional still open:
    the error for the top frame is returned, that frame goes back to the
    pool, and the include frame stays on the stack with the frames below. *)
Lemma unterminated_pull (lexer : IncludeState -> Token * IncludeState)
    (fuel : nat) (ctx : Context) (state : IncludeState)
    (rest : list IncludeState) (cond : Conditional) (next : list Conditional) :
  unterminated_at lexer ctx state rest (cond :: next) ->
  exists r ctx',
    _preprocessor_nexttoken lexer (S (S fuel)) ctx = Done (r, ctx') /\
    Some (tr_token r, tr_bytes r) = unterminated_token cond /\
    conditional_pool ctx' = cond :: conditional_pool ctx /\
    unterminated_at lexer ctx' state rest next.
Proof.
  intros (Hfail & Hstack & Heoi & Hok).
  apply Forall_cons in Hok as [[msg Hmsg] Hok].
  destruct ctx as [f oom fs pool stack tbl fc op cl md].
  cbn [isfail include_stack] in Hfail, Hstack. subst f stack.
  cbn [_preprocessor_nexttoken]. unfold nexttoken_step at 1.
  cbn [isfail include_stack]. rewrite Heoi.
  cbn [conditional_stack set_conditional_stack].
  unfold unterminated_token. rewrite Hmsg.
  destruct cond as [ty ln sk ch]. cbn [type] in Hmsg.
  destruct ty; try discriminate Hmsg; injection Hmsg as <-;
    (eexists; eexists; split; [reflexivity|]);
    (split; [reflexivity|]); (split; [reflexivity|]);
    (split; [reflexivity|]); (split; [reflexivity|]); (split; [exact Heoi | exact Hok]).
Qed.

(** Once the conditionals are drained, the next turn pops the include
    frame. *)
Lemma drained_then_pop (lexer : IncludeState -> Token * IncludeState)
    (fuel : nat) (ctx : Context) (state : IncludeState)
    (rest : list IncludeState) :
  unterminated_at lexer ctx state rest [] ->
  nexttoken_step lexer fuel ctx = Done (Continue (pop_source ctx)) /\
  include_stack (pop_source ctx) = rest.
Proof.
  intros (Hfail & Hstack & Heoi & _). unfold nexttoken_step.
  rewrite Hfail, Hstack, Heoi. cbn [conditional_stack set_conditional_stack].
  assert (Hset : set_state (set_conditional_stack [] state) ctx = ctx).
  { unfold set_state. rewrite Hstack. destruct ctx; simpl in *. now subst. }
  rewrite Hset. split; [reflexivity|].
  unfold pop_source. rewrite Hstack.
  cbn [conditional_stack set_conditional_stack put_conditionals].
  destruct (included _); reflexivity.
Qed.

(** An include frame that reaches its end with [k] conditionals open yields
    exactly [k] errors, one per frame from the innermost outwards, each named
    after its frame's type. *)
Lemma unterminated_drain (lexer : IncludeState -> Token * IncludeState)
    (fuel : nat) (conds : list Conditional) (ctx : Context)
    (state : IncludeState) (rest : list IncludeState) :
  unterminated_at lexer ctx state rest conds ->
  tags_and_bytes (pull_tokens lexer (S (S fuel)) (length conds) ctx)
  = map unterminated_token conds.
Proof.
  revert ctx. induction conds as [|cond next IH]; intros ctx H; [reflexivity|].
  destruct (unterminated_pull lexer fuel ctx state rest cond next H)
    as (r & ctx' & Hpull & Htok & _ & H').
  cbn [length pull_tokens]. unfold preprocessor_nexttoken. rewrite Hpull.
  unfold unterminated_token in Htok. injection Htok as Htag Hbytes.
  rewrite Hbytes.
  destruct (proj1 (Forall_cons _ _ _) (proj2 (proj2 (proj2 H)))) as [[msg Hmsg] _].
  rewrite Hmsg. cbn [tags_and_bytes map option_map].
  rewrite Htag, Hbytes, Hmsg. unfold unterminated_token at 1. rewrite Hmsg.
  f_equal. apply (IH ctx' H').
Qed.

Lemma two_open_at_end_unterminated :
  unterminated_at preprocessor_internal_lexer two_open_at_end
    (mkIncludeState None false EmptyString 0 0 0 1 []) []
    [mkConditional TOKEN_PP_IFNDEF 3 false true;
     mkConditional TOKEN_PP_ELSE 0 true true].
Proof.
  repeat split.
  repeat constructor; eexists; reflexivity.
Qed.

Example unterminated_drain_two :
  tags_and_bytes (pull_tokens preprocessor_internal_lexer 2 2 two_open_at_end)
  = [Some (TOKEN_PREPROCESSING_ERROR, Some "Unterminated #ifndef");
     Some (TOKEN_PREPROCESSING_ERROR, Some "Unterminated #else")].
Proof.
  exact (unterminated_drain preprocessor_internal_lexer 0 _ _ _ _
           two_open_at_end_unterminated).
Qed.

(** C5 (conditional balance), evaluated on the matched input
    [#ifdef A / #ifdef B / #endif / #endif]: the dispatcher reports
    "Unterminated #ifdef" and then the end of input.  Each of the three
    directives handled before the last [#endif] leaves [bytes_left] one byte
    short (see [require_newline_desync]), so the lexer stops three bytes
    early and never sees the last [#endif]. *)
Theorem matched_ifdefs_reported_unterminated :
  exists ctx,
    start_on matched_nested_ifdefs [] [] = Some ctx /\
    tags_and_bytes (pull_tokens preprocessor_internal_lexer 20 5 ctx) =
      [Some (TOKEN_PREPROCESSING_ERROR, Some "Unterminated #ifdef");
       Some (TOKEN_EOI, None)].
Proof.
  eexists. split; [vm_compute; reflexivity|].
  vm_compute. reflexivity.
Qed.

(** ** The text of [#error] *)

Lemma ends_message_false (tok : Token) :
  ends_message tok = false ->
  Token_eqb tok TOKEN_NEWLINE = false /\
  (Token_eqb tok TOKEN_INCOMPLETE_COMMENT || Token_eqb tok TOKEN_EOI) = false.
Proof.
  unfold ends_message. rewrite <- orb_assoc.
  intros H. apply orb_false_elim in H. exact H.
Qed.

(** The scan of [handle_pp_error] over the lexemes of a message: it stops at
    the token that ends the message and reports the cursor as it was before
    that token. *)
Lemma pp_error_scan_message (lexer : IncludeState -> Token * IncludeState)
    (n : nat) (s last : IncludeState) :
  lexer_frame lexer ->
  message_lexemes lexer n s last ->
  forall (data : Z) (fuel : nat), (n < fuel)%nat ->
  exists fin,
    pp_error_scan lexer fuel s (Some data) = Done (fin, source last, Some data) /\
    source_base fin = source_base s.
Proof.
  intros Hframe Hrun. induction Hrun as [s Hend | n s last Hmore Hrun IH];
    intros data fuel Hfuel.
  - destruct fuel as [|fuel]; [lia|]. cbn [pp_error_scan].
    destruct (Hframe s) as (_ & Hbase & _).
    destruct (lexer s) as [tok s1]. cbn [fst snd] in *.
    destruct (Token_eqb tok TOKEN_NEWLINE) eqn:Hnl.
    + eexists. split; [reflexivity | exact Hbase].
    + unfold ends_message in Hend. rewrite Hnl in Hend. simpl in Hend.
      rewrite Hend. eexists. split; [reflexivity | exact Hbase].
  - destruct fuel as [|fuel]; [lia|]. cbn [pp_error_scan].
    destruct (Hframe s) as (_ & Hbase & _).
    destruct (lexer s) as [tok s1]. cbn [fst snd] in *.
    destruct (ends_message_false tok Hmore) as [-> ->].
    destruct (IH data fuel ltac:(lia)) as (fin & Hscan & Hfin).
    exists fin. split; [exact Hscan | congruence].
Qed.

(** C6 as amended (the text of [#error]).  When at least one lexeme follows
    the [#error] keyword before the newline, end of input or incomplete
    comment that ends the directive, and the bytes from the start of the
    first of those lexemes to the end of the last are at most 248, then
    [handle_pp_error] latches ["#error "] followed by exactly those bytes;
    the string and its terminator fit the 256-byte buffer, and the cursor is
    left at the end of the last lexeme. *)
Theorem error_directive_text (lexer : IncludeState -> Token * IncludeState)
    (ctx : Context) (state : IncludeState) (rest : list IncludeState)
    (n : nat) (last : IncludeState) (fuel : nat) :
  lexer_frame lexer ->
  include_stack ctx = state :: rest ->
  ends_message (fst (lexer state)) = false ->
  message_lexemes lexer n (snd (lexer state)) last ->
  0 <= source last - token (snd (lexer state)) <= 248 ->
  (n + 2 <= fuel)%nat ->
  exists ctx' state',
    handle_pp_error lexer fuel ctx = Done ctx' /\
    isfail ctx' = true /\
    failstr ctx' =
      (ERROR_PREFIX ++
       slice (source_base state) (token (snd (lexer state)))
         (source last - token (snd (lexer state))))%string /\
    Z.of_nat (String.length (failstr ctx')) + 1 <= FAILSTR_SIZE /\
    include_stack ctx' = state' :: rest /\
    source state' = source last.
Proof.
  intros Hframe Hstack Hfirst Hrun Hlen Hfuel.
  unfold handle_pp_error. rewrite Hstack.
  destruct fuel as [|fuel]; [lia|]. cbn [pp_error_scan].
  destruct (Hframe state) as (_ & Hbase & _).
  destruct (lexer state) as [tok first]. cbn [fst snd] in *.
  destruct (ends_message_false tok Hfirst) as [-> ->].
  destruct (pp_error_scan_message lexer n first last Hframe Hrun (token first)
              fuel ltac:(lia)) as (fin & Hscan & Hfin).
  rewrite Hscan. cbn [bind].
  change (source (set_source (source last) fin)) with (source last).
  change (source_base (set_source (source last) fin)) with (source_base fin).
  set (len := source last - token first) in *.
  assert (Hmin : Min len (FAILSTR_SIZE - Z.of_nat (String.length ERROR_PREFIX)) = len).
  { unfold Min, FAILSTR_SIZE. simpl String.length.
    destruct (len <? 256 - Z.of_nat 7) eqn:E; [reflexivity|].
    apply Z.ltb_ge in E. lia. }
  rewrite Hmin.
  assert (Hin : ((len + Z.of_nat (String.length ERROR_PREFIX) <? 0)
                 || (FAILSTR_SIZE <=? len + Z.of_nat (String.length ERROR_PREFIX)))
                = false).
  { unfold FAILSTR_SIZE. simpl String.length. apply orb_false_intro.
    - apply Z.ltb_ge. lia.
    - apply Z.leb_gt. lia. }
  rewrite Hin.
  assert (Htext :
    (if 0 <? len
     then (ERROR_PREFIX ++ slice (source_base fin) (token first) len)%string
     else substring 0 (Z.to_nat (len + Z.of_nat (String.length ERROR_PREFIX)))
            ERROR_PREFIX)
    = (ERROR_PREFIX ++ slice (source_base state) (token first) len)%string).
  { rewrite Hfin, Hbase. destruct (0 <? len) eqn:E; [reflexivity|].
    apply Z.ltb_ge in E. assert (len = 0) as -> by lia.
    unfold slice. simpl Z.to_nat. rewrite substring_zero. reflexivity. }
  rewrite Htext.
  eexists. eexists. split; [reflexivity|]. split; [reflexivity|].
  split; [reflexivity|]. split.
  - cbn [failstr set_isfail set_failstr]. rewrite string_length_append.
    unfold slice, FAILSTR_SIZE.
    pose proof (substring_length_le (Z.to_nat (token first)) (Z.to_nat len)
                  (source_base state)).
    simpl String.length. lia.
  - split.
    + cbn [include_stack set_isfail set_failstr].
      eapply include_stack_set_state. exact Hstack.
    + reflexivity.
Qed.

Lemma error_directive_text_witness :
  exists ctx',
    handle_pp_error preprocessor_internal_lexer 4
      (after_keyword (start_on error_bad_thing [] [])) = Done ctx' /\
    isfail ctx' = true /\ failstr ctx' = "#error bad thing".
Proof.
  pose (state := mkIncludeState None false error_bad_thing 6 0 11 1 []).
  pose (last := mkIncludeState None false error_bad_thing 16 11 1 1 []).
  assert (Hrun : message_lexemes preprocessor_internal_lexer 1
                   (snd (preprocessor_internal_lexer state)) last).
  { apply message_more; [vm_compute; reflexivity|].
    change (message_lexemes preprocessor_internal_lexer 0 last last).
    apply message_end. vm_compute. reflexivity. }
  destruct (error_directive_text preprocessor_internal_lexer
              (after_keyword (start_on error_bad_thing [] []))
              state [] 1 last 4
              preprocessor_internal_lexer_frame eq_refl eq_refl Hrun
              ltac:(simpl; lia) ltac:(lia))
    as (ctx' & state' & Hdone & Hfail & Htext & _).
  exists ctx'. split; [exact Hdone|]. split; [exact Hfail | exact Htext].
Defined.

(** C6 as stated, refuted on [#error bad thing]: the latched string is
    ["#error bad thing"], while the bytes from just past the keyword (offset
    6) up to the newline (offset 16) start with the blank and would give
    ["#error  bad thing"]. *)
Lemma error_text_counterexample :
  exists ctx r ctx',
    start_on error_bad_thing [] [] = Some ctx /\
    _preprocessor_nexttoken preprocessor_internal_lexer 10 ctx = Done (r, ctx') /\
    tr_token r = TOKEN_PREPROCESSING_ERROR /\
    tr_bytes r = Some "#error bad thing" /\
    tr_bytes r <> Some (ERROR_PREFIX ++ slice error_bad_thing 6 (16 - 6))%string.
Proof.
  eexists. eexists. eexists.
  split; [vm_compute; reflexivity|].
  split; [vm_compute; reflexivity|].
  split; [reflexivity|]. split; [reflexivity|].
  vm_compute. discriminate.
Qed.

(** [#error] with nothing after it: [data] is still NULL when the length is
    computed from it. *)
Example error_without_text_undefined :
  handle_pp_error preprocessor_internal_lexer 4
    (after_keyword (start_on error_without_text [] [])) = Undefined.
Proof. vm_compute. reflexivity. Qed.

(** [#error] with 249 bytes of text: all of them are copied and the
    terminator is written at [failstr[256]]. *)
Example error_with_249_bytes_undefined :
  handle_pp_error preprocessor_internal_lexer 4
    (after_keyword (start_on error_with_249_bytes [] [])) = Undefined.
Proof. vm_compute. reflexivity. Qed.

(** ** Cursor bookkeeping *)

(** A frame pushed by [push_source] starts with the cursor fields in step. *)
Lemma push_source_cursor_inv (ctx ctx' : Context) (fname : option string)
    (src : string) (srclen : Z) (incl : bool) :
  0 <= srclen ->
  push_source ctx fname src srclen incl = (true, ctx') ->
  exists state,
    include_stack ctx' = state :: include_stack ctx /\ cursor_inv srclen state.
Proof.
  intros Hlen. unfold push_source.
  assert (HM : include_stack (snd (Malloc ctx 0)) = include_stack ctx).
  { unfold Malloc. destruct (heap_malloc 0 (malloc_data ctx)) as [[|] d]; reflexivity. }
  destruct (Malloc ctx 0) as [[|] c1]; simpl in *; [|discriminate].
  assert (HC : include_stack (snd (cache_filename c1 fname)) = include_stack c1).
  { unfold cache_filename, Malloc. destruct fname as [f|]; [|reflexivity].
    destruct (find_filename (filename_cache c1) f); [reflexivity|].
    destruct (heap_malloc 0 (malloc_data c1)) as [[|] d]; [|reflexivity].
    cbn [negb set_malloc_data malloc_data].
    destruct (heap_malloc _ _) as [[|] d2]; reflexivity. }
  destruct (cache_filename c1 fname) as [cached c2]; simpl in HC.
  intros H.
  assert (Hres : ctx' =
    set_include_stack
      (mkIncludeState cached incl src 0 0 srclen 1 [] :: include_stack c2) c2).
  { destruct fname, cached; try discriminate; now injection H as <-. }
  subst ctx'. eexists. split.
  - simpl. now rewrite HC, HM.
  - unfold cursor_inv. simpl. lia.
Qed.

(** The peek-and-rewind of [require_newline] puts [source] and [line] back
    but not [bytes_left]: whenever the peeked lexeme took bytes, the frame it
    leaves no longer relates the cursor to the bytes left. *)
Lemma require_newline_desync (lexer : IncludeState -> Token * IncludeState)
    (srclen : Z) (s : IncludeState) :
  cursor_inv srclen s ->
  bytes_left (snd (lexer s)) < bytes_left s ->
  source (snd (require_newline lexer s)) = source s /\
  bytes_left (snd (require_newline lexer s)) = bytes_left (snd (lexer s)) /\
  ~ cursor_inv srclen (snd (require_newline lexer s)).
Proof.
  intros [_ Hleft] Hlt. unfold require_newline.
  destruct (lexer s) as [tok s1]. simpl in Hlt.
  assert (H : source (set_line (line s) (set_source (source s) s1)) = source s /\
              bytes_left (set_line (line s) (set_source (source s) s1))
              = bytes_left s1) by (split; reflexivity).
  destruct H as [Hs Hb].
  destruct tok; simpl; (split; [reflexivity|]); (split; [reflexivity|]);
    unfold cursor_inv; simpl; lia.
Qed.

(** C7 (cursor invariant), evaluated on the 9-byte input
    [#endif], blank, newline, [X].  The frame [push_source] builds satisfies
    the relation, and a call of the lexer keeps it
    ([preprocessor_internal_lexer_cursor_inv]).  After the first pull, which runs [handle_pp_endif] and its
    [require_newline], the top frame has [source = 6], [token = 7] and
    [bytes_left = 1]: the token start lies past the cursor and one byte is
    left where three remain.  The lexer then stops before the newline and
    [X], which the caller never receives. *)
Theorem rewind_breaks_cursor_invariant :
  exists ctx state0 r ctx1 state1,
    start_on endif_then_identifier [] [] = Some ctx /\
    top_state ctx = Some state0 /\ cursor_inv 9 state0 /\
    _preprocessor_nexttoken preprocessor_internal_lexer 10 ctx = Done (r, ctx1) /\
    top_state ctx1 = Some state1 /\
    source state1 = 6 /\ token state1 = 7 /\ bytes_left state1 = 1 /\
    ~ cursor_inv 9 state1 /\
    tags_and_bytes (pull_tokens preprocessor_internal_lexer 10 5 ctx) =
      [Some (TOKEN_PREPROCESSING_ERROR, Some "Unmatched #endif");
       Some (TOKEN_EOI, None)].
Proof.
  eexists. eexists. eexists. eexists. eexists.
  split; [vm_compute; reflexivity|].
  split; [vm_compute; reflexivity|].
  split; [unfold cursor_inv; simpl; lia|].
  split; [vm_compute; reflexivity|].
  split; [vm_compute; reflexivity|].
  split; [reflexivity|]. split; [reflexivity|]. split; [reflexivity|].
  split; [unfold cursor_inv; simpl; lia|].
  vm_compute. reflexivity.
Qed.

(** ** The chunked buffer *)

Lemma size_t_wrap_small (z : Z) : 0 <= z < SIZE_T_MODULUS -> size_t_wrap z = z.
Proof. intros H. unfold size_t_wrap. now apply Z.mod_small. Qed.

Lemma stored_tail_app (total : Z) (chain : list (list ascii)) (t extra : list ascii) :
  stored (mkBuffer total chain (t ++ extra)) = stored (mkBuffer total chain t) ++ extra.
Proof.
  unfold stored, chunks. simpl. rewrite !concat_app. simpl.
  rewrite !app_nil_r. now rewrite app_assoc.
Qed.

Lemma stored_new_chunk (total : Z) (chain : list (list ascii)) (t : list ascii) :
  stored (mkBuffer total (chain ++ [t]) []) = stored (mkBuffer total chain t).
Proof.
  unfold stored, chunks. simpl. rewrite !concat_app. simpl.
  now rewrite !app_nil_r.
Qed.

(** The copy loop on a well-formed buffer: it comes back within
    [length data + 1] turns, keeps [total_bytes], and when it succeeds the
    buffer is well formed again and holds [data] after what it held. *)
Lemma add_to_buffer_loop_spec (fuel : nat) (buffer : Buffer) (data : list ascii)
    (d : Heap) :
  buffer_wf buffer -> (length data < fuel)%nat ->
  exists ok buffer' d',
    add_to_buffer_loop fuel buffer data d = Done (ok, buffer', d') /\
    total_bytes buffer' = total_bytes buffer /\
    (ok = true ->
     buffer_wf buffer' /\ stored buffer' = stored buffer ++ data).
Proof.
  revert buffer data d. induction fuel as [|fuel IH]; intros buffer data d Hwf Hfuel;
    [lia|].
  destruct data as [|c data].
  - exists true, buffer, d. simpl. split; [reflexivity|]. split; [reflexivity|].
    intros _. split; [exact Hwf | now rewrite app_nil_r].
  - destruct Hwf as [Hfull Htail].
    destruct buffer as [total chain t]. cbn [full tail total_bytes] in *.
    cbn [add_to_buffer_loop tail full total_bytes].
    set (all := c :: data) in *.
    assert (Hlen : Z.of_nat (length all) > 0) by (unfold all; simpl; lia).
    assert (Hbuf : BUFFER_LEN = 65536) by reflexivity.
    rewrite size_t_wrap_small
      by (unfold SIZE_T_MODULUS; lia).
    set (avail := BUFFER_LEN - Z.of_nat (length t)).
    set (cpy := if avail >? Z.of_nat (length all) then Z.of_nat (length all) else avail).
    assert (Hcpy : 0 < cpy <= avail /\ cpy <= Z.of_nat (length all)).
    { unfold cpy. destruct (avail >? Z.of_nat (length all)) eqn:E.
      - apply Z.gtb_lt in E. lia.
      - rewrite Z.gtb_ltb in E. apply Z.ltb_ge in E. unfold avail. lia. }
    assert (Hfilled : Z.of_nat (length (t ++ firstn (Z.to_nat cpy) all))
                      = Z.of_nat (length t) + cpy).
    { rewrite length_app, length_take. lia. }
    assert (Hrest : (length (skipn (Z.to_nat cpy) all) < fuel)%nat).
    { rewrite length_drop. simpl in Hfuel. unfold all in *. simpl. lia. }
    destruct (Z.of_nat (length (t ++ firstn (Z.to_nat cpy) all)) =? BUFFER_LEN) eqn:E.
    + apply Z.eqb_eq in E. destruct (heap_malloc 0 d) as [[|] d1].
      * cbn [negb].
        destruct (IH (mkBuffer total (chain ++ [t ++ firstn (Z.to_nat cpy) all]) [])
                     (skipn (Z.to_nat cpy) all) d1) as (ok & b' & d' & Hrun & Htot & Hok).
        { split; cbn [full tail].
          - apply Forall_app. split; [exact Hfull|]. now constructor.
          - simpl. lia. }
        { exact Hrest. }
        exists ok, b', d'. split; [exact Hrun|]. split; [exact Htot|].
        intros Hyes. destruct (Hok Hyes) as [Hwf' Hst]. split; [exact Hwf'|].
        rewrite Hst, stored_new_chunk, stored_tail_app.
        now rewrite <- app_assoc, firstn_skipn.
      * cbn [negb]. eexists. eexists. eexists. split; [reflexivity|].
        split; [reflexivity|]. discriminate.
    + apply Z.eqb_neq in E.
      destruct (IH (mkBuffer total chain (t ++ firstn (Z.to_nat cpy) all))
                   (skipn (Z.to_nat cpy) all) d) as (ok & b' & d' & Hrun & Htot & Hok).
      { split; cbn [full tail]; [exact Hfull|]. unfold avail in *. lia. }
      { exact Hrest. }
      exists ok, b', d'. split; [exact Hrun|]. split; [exact Htot|].
      intros Hyes. destruct (Hok Hyes) as [Hwf' Hst]. split; [exact Hwf'|].
      rewrite Hst, stored_tail_app. now rewrite <- app_assoc, firstn_skipn.
Qed.

(** [add_to_buffer] always comes back on a well-formed buffer; a successful
    call appends [data] and adds its length to [total_bytes]. *)
Lemma add_to_buffer_spec (buffer : Buffer) (data : list ascii) (d : Heap) :
  buffer_wf buffer ->
  exists ok buffer' d',
    add_to_buffer buffer data d = Done (ok, buffer', d') /\
    total_bytes buffer' =
      size_t_wrap (total_bytes buffer + Z.of_nat (length data)) /\
    (ok = true ->
     buffer_wf buffer' /\ stored buffer' = stored buffer ++ data).
Proof.
  intros Hwf. unfold add_to_buffer.
  destruct (add_to_buffer_loop_spec (S (length data))
              (mkBuffer (size_t_wrap (total_bytes buffer + Z.of_nat (length data)))
                 (full buffer) (tail buffer)) data d)
    as (ok & b' & d' & Hrun & Htot & Hok); [exact Hwf | lia |].
  exists ok, b', d'. split; [exact Hrun|]. split; [exact Htot|]. exact Hok.
Qed.

Lemma buffer_built_inv (buffer : Buffer) :
  buffer_built buffer ->
  buffer_wf buffer /\
  total_bytes buffer = size_t_wrap (Z.of_nat (length (stored buffer))).
Proof.
  induction 1 as [|b b' data d d' Hb [Hwf Htot] Hadd].
  - split; [split; [constructor | reflexivity] | reflexivity].
  - destruct (add_to_buffer_spec b data d Hwf) as (ok & b2 & d2 & Hrun & Ht & Hok).
    rewrite Hadd in Hrun. injection Hrun as <- <- <-.
    destruct (Hok eq_refl) as [Hwf' Hst]. split; [exact Hwf'|].
    rewrite Ht, Htot, Hst, length_app, Nat2Z.inj_add.
    unfold size_t_wrap. now rewrite Zplus_mod_idemp_l.
Qed.

Lemma flatten_fold (items : list (list ascii)) (ptr : list ascii) :
  fold_left (fun ptr item => ptr ++ item) items ptr = ptr ++ concat items.
Proof.
  revert ptr. induction items as [|item items IH]; intros ptr; simpl.
  - now rewrite app_nil_r.
  - rewrite IH. now rewrite app_assoc.
Qed.


Lemma two_adds_built : buffer_built two_adds.
Proof.
  apply (built_add (added buffer_init (list_ascii_of_string "float4 ")) two_adds
           (list_ascii_of_string "pos;") heap0 heap0);
    [|vm_compute; reflexivity].
  apply (built_add buffer_init (added buffer_init (list_ascii_of_string "float4 "))
           (list_ascii_of_string "float4 ") heap0 heap0);
    [apply built_init | vm_compute; reflexivity].
Qed.


(** ** Nested conditionals *)

Lemma require_newline_frame (lexer : IncludeState -> Token * IncludeState)
    (s : IncludeState) :
  lexer_frame lexer ->
  conditional_stack (snd (require_newline lexer s)) = conditional_stack s /\
  source_base (snd (require_newline lexer s)) = source_base s.
Proof.
  intros Hframe. unfold require_newline.
  destruct (Hframe s) as (Hc & Hb & _).
  destruct (lexer s) as [tok s']. simpl in *.
  destruct tok; simpl; auto.
Qed.

Lemma include_stack_get_conditional (ctx : Context) :
  include_stack (snd (get_conditional ctx)) = include_stack ctx.
Proof.
  unfold get_conditional, Malloc.
  destruct (conditional_pool ctx); [|reflexivity].
  destruct (heap_malloc 0 (malloc_data ctx)) as [[|] d]; reflexivity.
Qed.

(** C9 (outer-skip dominance).  When [#ifdef] or [#ifndef] is handled while
    the open conditional of the include frame is skipping, the frame that
    [_handle_pp_ifdef] pushes has [skipping] set and [chosen] clear, whatever
    the define table holds; it is pushed on top of the frames that were
    open. *)
Theorem outer_skip_dominance (lexer : IncludeState -> Token * IncludeState)
    (ctx ctx' : Context) (ifdef_type : Token) (state : IncludeState)
    (rest : list IncludeState) (cond : Conditional) :
  lexer_frame lexer ->
  include_stack ctx = state :: rest ->
  top_skipping (conditional_stack state) = true ->
  _handle_pp_ifdef lexer ctx ifdef_type = Done (Some cond, ctx') ->
  skipping cond = true /\ chosen cond = false /\ type cond = ifdef_type /\
  exists state',
    include_stack ctx' = state' :: rest /\
    conditional_stack state' = cond :: conditional_stack state.
Proof.
  intros Hframe Hstack Hskip. unfold _handle_pp_ifdef. rewrite Hstack.
  destruct (Hframe state) as (Hc1 & _).
  destruct (lexer state) as [tok s1]. simpl in Hc1.
  destruct tok; try discriminate.
  destruct (copy_token_but_last s1) as [sym|]; [|discriminate].
  destruct (require_newline_frame lexer s1 Hframe) as (Hc2 & _).
  destruct (require_newline lexer s1) as [eol s2]. simpl in Hc2.
  destruct eol; simpl; [|discriminate].
  pose proof (include_stack_get_conditional (set_state s2 ctx)) as Hinc.
  destruct (get_conditional (set_state s2 ctx)) as [[c|] ctx2]; [|discriminate].
  simpl in Hinc. rewrite (include_stack_set_state s2 state rest ctx Hstack) in Hinc.
  rewrite Hc2, Hc1, Hskip. intros H. injection H as <- <-.
  repeat split. eexists. split.
  - eapply include_stack_set_state. exact Hinc.
  - reflexivity.
Qed.

Lemma outer_skip_dominance_witness :
  find_define inside_skipped_group "B" = Some "1" /\
  exists cond ctx',
    _handle_pp_ifdef preprocessor_internal_lexer inside_skipped_group
      TOKEN_PP_IFDEF = Done (Some cond, ctx') /\
    skipping cond = true /\ chosen cond = false.
Proof.
  split; [reflexivity|].
  eexists. eexists. split; [vm_compute; reflexivity|].
  match goal with
  | |- skipping ?c = true /\ _ =>
      destruct (outer_skip_dominance preprocessor_internal_lexer
                  inside_skipped_group _ TOKEN_PP_IFDEF _ _ c
                  preprocessor_internal_lexer_frame eq_refl eq_refl eq_refl)
        as (Hs & Hc & _)
  end.
  split; [exact Hs | exact Hc].
Defined.

(** ** Start-up and teardown *)

Lemma find_define_add_other (ctx ctx1 : Context) (sym val other : string) :
  add_define ctx sym val = (true, ctx1) -> other <> sym ->
  find_define ctx1 other = find_define ctx other.
Proof.
  intros Hadd Hne. apply add_define_true in Hadd as [_ Htbl].
  unfold find_define, define_bucket. rewrite Htbl.
  destruct (decide (hash_define other = hash_define sym)) as [Heq|Hneq].
  - rewrite Heq.
    destruct (define_hashtable ctx !! hash_define sym) as [chain|] eqn:Hc.
    + rewrite list_lookup_insert_eq by (eapply lookup_lt_Some; eauto).
      unfold define_bucket. rewrite Hc. simpl.
      destruct (String.eqb_spec sym other); [congruence | reflexivity].
    + rewrite list_insert_ge by (now apply lookup_ge_None). now rewrite Hc.
  - now rewrite list_lookup_insert_ne by congruence.
Qed.

(** If every predefine is inserted, no identifier occurs twice among them. *)
Lemma add_defines_true (defines : list MOJOSHADER_preprocessorDefine)
    (ctx ctx' : Context) :
  defines_wf ctx -> add_defines ctx defines = (true, ctx') ->
  NoDup (map identifier defines) /\
  forall id, id ∈ map identifier defines -> find_define ctx id = None.
Proof.
  revert ctx. induction defines as [|d rest IH]; intros ctx Hwf H.
  - split; [apply NoDup_nil_2 | intros id Hid; now apply elem_of_nil in Hid].
  - cbn [add_defines] in H.
    destruct (add_define ctx (identifier d) (definition d)) as [[|] c1] eqn:Hadd;
      [|discriminate].
    destruct (IH c1 (defines_wf_add _ _ _ _ Hwf Hadd) H) as [Hnd Habsent].
    assert (Hnew : find_define c1 (identifier d) = Some (definition d))
      by (eapply find_define_added; eauto).
    assert (Hfresh : identifier d ∉ map identifier rest).
    { intros Hin. apply Habsent in Hin. congruence. }
    split.
    + simpl. apply NoDup_cons. split; assumption.
    + intros id Hid. simpl in Hid. apply elem_of_cons in Hid as [->|Hid].
      * now apply add_define_true in Hadd as [Hnone _].
      * rewrite <- (find_define_add_other ctx c1 (identifier d) (definition d) id Hadd).
        -- now apply Habsent.
        -- intros ->. contradiction.
Qed.

Lemma Malloc_effect (ctx : Context) (len : Z) :
  let r := Malloc ctx len in
  include_stack (snd r) = include_stack ctx /\
  filename_cache (snd r) = filename_cache ctx /\
  conditional_pool (snd r) = conditional_pool ctx /\
  define_hashtable (snd r) = define_hashtable ctx /\
  live (malloc_data (snd r)) = live (malloc_data ctx) + (if fst r then 1 else 0).
Proof.
  unfold Malloc, heap_malloc.
  destruct (script (malloc_data ctx)) as [|[|] rest]; simpl; repeat split; lia.
Qed.

Lemma Free_effect (ctx : Context) (ptr : bool) :
  include_stack (Free ctx ptr) = include_stack ctx /\
  filename_cache (Free ctx ptr) = filename_cache ctx /\
  conditional_pool (Free ctx ptr) = conditional_pool ctx /\
  define_hashtable (Free ctx ptr) = define_hashtable ctx /\
  live (malloc_data (Free ctx ptr)) = live (malloc_data ctx) - (if ptr then 1 else 0).
Proof. destruct ptr; simpl; repeat split; lia. Qed.

Lemma entries_insert (tbl : list (list MOJOSHADER_preprocessorDefine)) (h : nat)
    (chain new : list MOJOSHADER_preprocessorDefine) :
  tbl !! h = Some chain ->
  entries (<[h := new]> tbl) =
    entries tbl - Z.of_nat (length chain) + Z.of_nat (length new).
Proof.
  intros Hlook. unfold entries.
  rewrite <- (take_drop_middle tbl h chain Hlook) at 2.
  rewrite insert_take_drop by (eapply lookup_lt_Some; eauto).
  rewrite !concat_app, !length_app. simpl. rewrite !length_app. lia.
Qed.

Lemma add_define_start_inv (before : Z) (ctx : Context) (sym val : string) :
  start_inv before ctx -> start_inv before (snd (add_define ctx sym val)).
Proof.
  intros (Hinc & Hfc & Hpool & Hlen & Hlive). unfold add_define.
  destruct (find_in_chain (define_bucket ctx (hash_define sym)) sym);
    [repeat split; assumption|].
  pose proof (Malloc_effect ctx 0) as H1. cbv zeta in H1.
  destruct (Malloc ctx 0) as [b c1]. cbn [fst snd] in H1.
  destruct H1 as (I1 & F1 & P1 & T1 & L1).
  destruct b; cbn [negb snd]; [|repeat split; try congruence; rewrite ?T1; lia].
  pose proof (Malloc_effect c1 (Z.of_nat (String.length sym) + 1)) as H2.
  cbv zeta in H2.
  destruct (Malloc c1 (Z.of_nat (String.length sym) + 1)) as [i c2].
  cbn [fst snd] in H2. destruct H2 as (I2 & F2 & P2 & T2 & L2).
  pose proof (Malloc_effect c2 (Z.of_nat (String.length val) + 1)) as H3.
  cbv zeta in H3.
  destruct (Malloc c2 (Z.of_nat (String.length val) + 1)) as [dd c3].
  cbn [fst snd] in H3. destruct H3 as (I3 & F3 & P3 & T3 & L3).
  assert (Hsame : define_hashtable c3 = define_hashtable ctx) by congruence.
  destruct i, dd; cbn [negb orb snd].
  - (* the define is linked in *)
    assert (Hb : define_hashtable ctx !! hash_define sym
                 = Some (define_bucket ctx (hash_define sym))).
    { unfold define_bucket.
      destruct (define_hashtable ctx !! hash_define sym) eqn:E; [reflexivity|].
      apply lookup_ge_None in E. pose proof (hash_define_lt sym). lia. }
    repeat split; cbn [include_stack filename_cache conditional_pool
                       define_hashtable malloc_data set_define_hashtable];
      try congruence.
    + rewrite Hsame. now rewrite length_insert.
    + rewrite Hsame, (entries_insert _ _ _ _ Hb). simpl length. lia.
  - repeat split;
      rewrite ?(proj1 (Free_effect _ _));
      try (destruct (Free_effect (Free (Free c3 true) false) true) as (A1 & A2 & A3 & A4 & A5);
           destruct (Free_effect (Free c3 true) false) as (B1 & B2 & B3 & B4 & B5);
           destruct (Free_effect c3 true) as (C1 & C2 & C3 & C4 & C5);
           congruence).
    destruct (Free_effect (Free (Free c3 true) false) true) as (A1 & A2 & A3 & A4 & A5).
    destruct (Free_effect (Free c3 true) false) as (B1 & B2 & B3 & B4 & B5).
    destruct (Free_effect c3 true) as (C1 & C2 & C3 & C4 & C5).
    rewrite A5, B5, C5, A4, B4, C4, Hsame. lia.
  - destruct (Free_effect (Free (Free c3 false) true) true) as (A1 & A2 & A3 & A4 & A5).
    destruct (Free_effect (Free c3 false) true) as (B1 & B2 & B3 & B4 & B5).
    destruct (Free_effect c3 false) as (C1 & C2 & C3 & C4 & C5).
    repeat split; try congruence.
    rewrite A5, B5, C5, A4, B4, C4, Hsame. lia.
  - destruct (Free_effect (Free (Free c3 false) false) true) as (A1 & A2 & A3 & A4 & A5).
    destruct (Free_effect (Free c3 false) false) as (B1 & B2 & B3 & B4 & B5).
    destruct (Free_effect c3 false) as (C1 & C2 & C3 & C4 & C5).
    repeat split; try congruence.
    rewrite A5, B5, C5, A4, B4, C4, Hsame. lia.
Qed.

Lemma add_defines_start_inv (before : Z)
    (defines : list MOJOSHADER_preprocessorDefine) (ctx : Context) :
  start_inv before ctx -> start_inv before (snd (add_defines ctx defines)).
Proof.
  revert ctx. induction defines as [|d rest IH]; intros ctx Hinv; [exact Hinv|].
  cbn [add_defines].
  pose proof (add_define_start_inv before ctx (identifier d) (definition d) Hinv)
    as H1.
  destruct (add_define ctx (identifier d) (definition d)) as [[|] c1];
    cbn [snd] in *; auto.
Qed.

(** A failed [push_source] gives back what it allocated. *)
Lemma push_source_start_inv (before : Z) (ctx ctx' : Context)
    (fname : option string) (src : string) (srclen : Z) (incl : bool) :
  start_inv before ctx ->
  push_source ctx fname src srclen incl = (false, ctx') ->
  start_inv before ctx'.
Proof.
  intros (Hinc & Hfc & Hpool & Hlen & Hlive). unfold push_source.
  pose proof (Malloc_effect ctx 0) as H1. cbv zeta in H1.
  destruct (Malloc ctx 0) as [b c1]. cbn [fst snd] in H1.
  destruct H1 as (I1 & F1 & P1 & T1 & L1).
  destruct b; cbn [negb].
  2:{ intros H. injection H as <-. repeat split; try congruence.
      rewrite T1. lia. }
  unfold cache_filename. destruct fname as [f|]; [|discriminate].
  rewrite F1, Hfc. cbn [find_filename].
  pose proof (Malloc_effect c1 0) as H2. cbv zeta in H2.
  destruct (Malloc c1 0) as [item c2]. cbn [fst snd] in H2.
  destruct H2 as (I2 & F2 & P2 & T2 & L2).
  destruct item; cbn [negb].
  2:{ intros H. injection H as <-.
      unfold start_inv.
      cbn [include_stack filename_cache conditional_pool define_hashtable
           malloc_data set_malloc_data heap_free live].
      repeat split; try congruence. rewrite T2, T1. lia. }
  pose proof (Malloc_effect c2 (Z.of_nat (String.length f) + 1)) as H3.
  cbv zeta in H3.
  destruct (Malloc c2 (Z.of_nat (String.length f) + 1)) as [dup c3].
  cbn [fst snd] in H3. destruct H3 as (I3 & F3 & P3 & T3 & L3).
  destruct dup; cbn [negb]; [discriminate|].
  intros H. injection H as <-.
  unfold start_inv.
  cbn [include_stack filename_cache conditional_pool define_hashtable
       malloc_data set_malloc_data heap_free live].
  repeat split; try congruence. rewrite T3, T2, T1. lia.
Qed.

Lemma free_chain_effect (chain : list MOJOSHADER_preprocessorDefine) (ctx : Context) :
  let ctx' :=
    fold_left (fun c _ => Free (Free (Free c true) true) true) chain ctx in
  define_hashtable ctx' = define_hashtable ctx /\
  live (malloc_data ctx') = live (malloc_data ctx) - 3 * Z.of_nat (length chain).
Proof.
  revert ctx. induction chain as [|d chain IH]; intros ctx; cbv zeta.
  - cbn [fold_left length]. split; [reflexivity | lia].
  - cbn [fold_left]. destruct (IH (Free (Free (Free ctx true) true) true)) as [Ht Hl].
    split; [exact Ht|]. rewrite Hl. cbn [length]. simpl live. lia.
Qed.

(** [free_all_defines] from bucket [a] on, [n] buckets: three blocks go back
    per define found there. *)
Lemma free_buckets_effect (n a : nat) (ctx : Context) :
  let ctx' :=
    fold_left
      (fun ctx i =>
         let bucket := define_bucket ctx i in
         let ctx :=
           set_define_hashtable (<[i := []]> (define_hashtable ctx)) ctx in
         fold_left (fun c _ => Free (Free (Free c true) true) true) bucket ctx)
      (seq a n) ctx in
  live (malloc_data ctx') =
    live (malloc_data ctx)
    - 3 * entries (take n (drop a (define_hashtable ctx))).
Proof.
  revert a ctx. induction n as [|n IH]; intros a ctx; cbv zeta.
  - simpl. unfold entries. simpl. lia.
  - cbn [seq fold_left].
    set (c1 := fold_left _ (define_bucket ctx a) _).
    pose proof (free_chain_effect (define_bucket ctx a)
                  (set_define_hashtable (<[a := []]> (define_hashtable ctx)) ctx))
      as [Ht Hl]. fold c1 in Ht, Hl. cbn [define_hashtable malloc_data set_define_hashtable] in Ht, Hl.
    specialize (IH (S a) c1). cbv zeta in IH. rewrite IH, Hl, Ht.
    rewrite drop_insert_lt by lia.
    unfold define_bucket.
    destruct (define_hashtable ctx !! a) as [chain|] eqn:Hc.
    + rewrite (drop_S _ _ _ Hc). cbn [take default]. unfold entries.
      cbn [concat]. rewrite length_app. unfold id. lia.
    + rewrite (drop_ge _ a) by (now apply lookup_ge_None).
      rewrite (drop_ge _ (S a)) by (apply lookup_ge_None in Hc; lia).
      rewrite !take_nil. unfold entries. simpl. lia.
Qed.

Lemma free_all_defines_keeps (ctx : Context) :
  filename_cache ctx = [] -> conditional_pool ctx = [] ->
  filename_cache (free_all_defines ctx) = [] /\
  conditional_pool (free_all_defines ctx) = [].
Proof.
  unfold free_all_defines. generalize (seq 0 DEFINE_BUCKETS). intros l.
  revert ctx. induction l as [|i l IH]; intros ctx Hfc Hpool; [now split|].
  cbn [fold_left]. apply IH.
  - generalize (define_bucket ctx i). intros chain.
    set (c0 := set_define_hashtable _ ctx).
    assert (H0 : filename_cache c0 = []) by exact Hfc.
    clearbody c0. revert c0 H0. induction chain as [|d chain IHc]; intros c0 H0;
      [exact H0|]. cbn [fold_left]. apply IHc. exact H0.
  - generalize (define_bucket ctx i). intros chain.
    set (c0 := set_define_hashtable _ ctx).
    assert (H0 : conditional_pool c0 = []) by exact Hpool.
    clearbody c0. revert c0 H0. induction chain as [|d chain IHc]; intros c0 H0;
      [exact H0|]. cbn [fold_left]. apply IHc. exact H0.
Qed.

Lemma preprocessor_end_live (before : Z) (ctx : Context) :
  start_inv before ctx -> live (fst (preprocessor_end ctx)) = before.
Proof.
  intros (Hinc & Hfc & Hpool & Hlen & Hlive). unfold preprocessor_end.
  rewrite Hinc.
  change (pop_all_sources (length (@nil IncludeState)) ctx) with ctx.
  assert (Hfree : live (malloc_data (free_all_defines ctx)) =
                  live (malloc_data ctx)
                  - 3 * entries (take DEFINE_BUCKETS (drop 0 (define_hashtable ctx))))
    by exact (free_buckets_effect DEFINE_BUCKETS 0 ctx).
  rewrite drop_0 in Hfree.
  rewrite take_ge in Hfree by (rewrite Hlen; apply Nat.le_refl).
  destruct (free_all_defines_keeps ctx Hfc Hpool) as [Hfc' Hpool'].
  set (c1 := free_all_defines ctx) in *. clearbody c1.
  unfold free_filename_cache. rewrite Hfc'.
  change (fold_left (fun c (_ : string) => Free (Free c true) true) [] c1) with c1.
  unfold free_conditional_pool. rewrite Hpool'.
  change (fold_left (fun c (_ : Conditional) => Free c true) [] c1) with c1.
  cbv zeta.
  change (fst (malloc_data (Free c1 true), close_callback (Free c1 true)))
    with (malloc_data (Free c1 true)).
  rewrite (proj2 (proj2 (proj2 (proj2 (Free_effect c1 true))))).
  rewrite Hfree, Hlive. lia.
Qed.

Lemma fresh_context_start_inv (open : MOJOSHADER_includeOpen) (d d1 : Heap) :
  heap_malloc 0 d = (true, d1) -> start_inv (live d) (fresh_context open [] d1).
Proof.
  intros Hm. unfold start_inv, fresh_context.
  cbn [include_stack filename_cache conditional_pool define_hashtable malloc_data].
  split; [reflexivity|]. split; [reflexivity|]. split; [reflexivity|].
  split; [apply length_replicate|].
  assert (He : entries (replicate DEFINE_BUCKETS []) = 0).
  { unfold entries. generalize DEFINE_BUCKETS. intros n.
    induction n as [|n IH]; [reflexivity | exact IH]. }
  rewrite He. unfold heap_malloc in Hm.
  destruct (script d) as [|[|] rest]; try discriminate;
    injection Hm as <-; cbn [live]; lia.
Qed.

(** Whenever [preprocessor_start] returns NULL, every block it took from the
    allocator has been given back. *)
Lemma preprocessor_start_NULL_live (fname : option string) (src : string)
    (sourcelen : Z) (open : MOJOSHADER_includeOpen)
    (defines : list MOJOSHADER_preprocessorDefine) (d : Heap) :
  fst (preprocessor_start fname src sourcelen open defines d) = None ->
  live (snd (preprocessor_start fname src sourcelen open defines d)) = live d.
Proof.
  unfold preprocessor_start.
  destruct (heap_malloc 0 d) as [[|] d1] eqn:Hm; cbn [negb].
  2:{ intros _. cbn [snd]. unfold heap_malloc in Hm.
      destruct (script d) as [|[|] rest]; try discriminate;
        injection Hm as <-; reflexivity. }
  pose proof (add_defines_start_inv (live d) defines (fresh_context open [] d1)
                (fresh_context_start_inv open d d1 Hm)) as Hinv.
  destruct (add_defines (fresh_context open [] d1) defines) as [[|] c1];
    cbn [snd] in Hinv.
  - destruct (push_source c1 fname src sourcelen false) as [[|] c2] eqn:Hpush;
      [discriminate|].
    intros _. cbn [snd]. apply preprocessor_end_live.
    eapply push_source_start_inv; eauto.
  - intros _. cbn [snd]. now apply preprocessor_end_live.
Qed.

(** C10 (a failed predefine fails the start).  If two of the predefines
    handed to [preprocessor_start] share an identifier, or an [add_define]
    of the predefine loop fails for any reason, then [preprocessor_start]
    returns NULL, and the teardown has given back every block taken from
    the allocator: the caller sees what it sees when the allocation of the
    context itself fails. *)
Theorem start_fails_on_bad_predefine (fname : option string) (src : string)
    (sourcelen : Z) (open : MOJOSHADER_includeOpen)
    (defines : list MOJOSHADER_preprocessorDefine) (d : Heap) :
  (~ NoDup (map identifier defines) \/
   forall d1, heap_malloc 0 d = (true, d1) ->
              fst (add_defines (fresh_context open [] d1) defines) = false) ->
  preprocessor_start fname src sourcelen open defines d
  = (None, snd (preprocessor_start fname src sourcelen open defines d)) /\
  live (snd (preprocessor_start fname src sourcelen open defines d)) = live d /\
  (forall d1, heap_malloc 0 d = (false, d1) ->
     preprocessor_start fname src sourcelen open defines d = (None, d1) /\
     live d1 = live d).
Proof.
  intros Hbad.
  assert (Hnull : fst (preprocessor_start fname src sourcelen open defines d) = None).
  { unfold preprocessor_start.
    destruct (heap_malloc 0 d) as [[|] d1] eqn:Hm; cbn [negb]; [|reflexivity].
    destruct (add_defines (fresh_context open [] d1) defines) as [[|] c1] eqn:Hadd;
      [|reflexivity].
    exfalso. destruct Hbad as [Hdup|Hfail].
    - apply Hdup.
      exact (proj1 (add_defines_true defines _ _
                      (defines_wf_fresh open [] d1) Hadd)).
    - specialize (Hfail d1 eq_refl). rewrite Hadd in Hfail. discriminate. }
  split; [|split].
  - rewrite <- Hnull. now destruct (preprocessor_start _ _ _ _ _ _).
  - now apply preprocessor_start_NULL_live.
  - intros d1 Hm. unfold preprocessor_start. rewrite Hm. cbn [negb].
    split; [reflexivity|]. unfold heap_malloc in Hm.
    destruct (script d) as [|[|] rest]; try discriminate;
      injection Hm as <-; reflexivity.
Qed.

Lemma start_fails_on_bad_predefine_witness :
  ~ NoDup (map identifier duplicate_predefines) /\
  preprocessor_start None "X" 1 no_includes duplicate_predefines heap0
  = (None, heap0).
Proof.
  assert (Hdup : ~ NoDup (map identifier duplicate_predefines)).
  { intros H. apply NoDup_cons in H as [Hnotin _]. apply Hnotin.
    apply elem_of_cons. right. apply elem_of_cons. now left. }
  split; [exact Hdup|].
  exact (proj1 (start_fails_on_bad_predefine None "X" 1 no_includes
                  duplicate_predefines heap0 (or_introl Hdup))).
Defined.

(** ** More on the define table *)

Lemma hash_define_from_sum (sym : string) (acc : Z) :
  hash_define_from (acc mod 256) sym = (acc + byte_sum sym) mod 256.
Proof.
  revert acc. induction sym as [|c rest IH]; intros acc; simpl.
  - now rewrite Z.add_0_r.
  - rewrite Zplus_mod_idemp_l. rewrite IH. f_equal. lia.
Qed.

Lemma byte_sum_append (a b : string) :
  byte_sum (a ++ b)%string = byte_sum a + byte_sum b.
Proof. induction a as [|c a IH]; simpl; [reflexivity | rewrite IH; lia]. Qed.

(** X1.  The bucket of an identifier is the sum of its bytes modulo 256: it
    is below 256, and two identifiers made of the same pieces in another
    order fall into the same bucket. *)
Theorem hash_define_is_byte_sum (sym : string) :
  Z.of_nat (hash_define sym) = byte_sum sym mod 256 /\
  (hash_define sym < DEFINE_BUCKETS)%nat /\
  forall a b : string, hash_define (a ++ b)%string = hash_define (b ++ a)%string.
Proof.
  assert (H : forall s, Z.of_nat (hash_define s) = byte_sum s mod 256).
  { intros s. unfold hash_define.
    pose proof (hash_define_from_range s 0 ltac:(lia)).
    rewrite Z2Nat.id by lia.
    change 0 with (0 mod 256) at 1. rewrite hash_define_from_sum. f_equal. }
  split; [apply H|]. split; [apply hash_define_lt|].
  intros a b. apply Nat2Z.inj. rewrite !H, !byte_sum_append. f_equal. lia.
Qed.

Lemma Malloc_cases (ctx : Context) (len : Z) :
  exists d,
    (Malloc ctx len = (true, set_malloc_data d ctx) /\
     live d = live (malloc_data ctx) + 1) \/
    (Malloc ctx len = (false, set_out_of_memory true (set_malloc_data d ctx)) /\
     live d = live (malloc_data ctx)).
Proof.
  unfold Malloc, heap_malloc.
  destruct (script (malloc_data ctx)) as [|[|] rest]; eexists;
    (left; split; [reflexivity | simpl; lia]) ||
    (right; split; [reflexivity | simpl; lia]).
Qed.

Lemma remove_from_chain_other (chain chain' : list MOJOSHADER_preprocessorDefine)
    (sym other : string) :
  remove_from_chain chain sym = Some chain' -> other <> sym ->
  find_in_chain chain' other = find_in_chain chain other.
Proof.
  revert chain'. induction chain as [|d next IH]; simpl; intros chain' H Hne;
    [discriminate|].
  destruct (String.eqb_spec (identifier d) sym) as [Heq|Hn].
  - injection H as <-.
    destruct (String.eqb_spec (identifier d) other); [congruence | reflexivity].
  - destruct (remove_from_chain next sym) as [next'|]; [|discriminate].
    injection H as <-. simpl.
    destruct (String.eqb (identifier d) other); [reflexivity | now apply IH].
Qed.

Lemma remove_from_chain_length (chain chain' : list MOJOSHADER_preprocessorDefine)
    (sym : string) :
  remove_from_chain chain sym = Some chain' -> length chain = S (length chain').
Proof.
  revert chain'. induction chain as [|d next IH]; simpl; intros chain' H;
    [discriminate|].
  destruct (String.eqb (identifier d) sym).
  - now injection H as <-.
  - destruct (remove_from_chain next sym) as [next'|]; [|discriminate].
    injection H as <-. simpl. f_equal. now apply IH.
Qed.

Lemma remove_from_chain_found (chain : list MOJOSHADER_preprocessorDefine)
    (sym : string) :
  remove_from_chain chain sym = None <-> find_in_chain chain sym = None.
Proof.
  induction chain as [|d next IH]; simpl; [tauto|].
  destruct (String.eqb (identifier d) sym); [split; discriminate|].
  rewrite <- IH. destruct (remove_from_chain next sym); split; congruence.
Qed.

Lemma define_bucket_lookup (ctx : Context) (h : nat) :
  (h < length (define_hashtable ctx))%nat ->
  define_hashtable ctx !! h = Some (define_bucket ctx h).
Proof.
  intros Hlt. unfold define_bucket.
  destruct (define_hashtable ctx !! h) eqn:E; [reflexivity|].
  apply lookup_ge_None in E. lia.
Qed.

Lemma find_define_remove_other (ctx : Context) (sym other : string) :
  defines_wf ctx -> other <> sym ->
  find_define (snd (remove_define ctx sym)) other = find_define ctx other.
Proof.
  intros [Hlen _] Hne.
  assert (Hh : (hash_define sym < length (define_hashtable ctx))%nat)
    by (rewrite Hlen; apply hash_define_lt).
  unfold find_define, define_bucket at 1.
  rewrite remove_define_table.
  destruct (remove_from_chain (define_bucket ctx (hash_define sym)) sym)
    as [chain|] eqn:E; [|reflexivity].
  destruct (decide (hash_define other = hash_define sym)) as [Heq|Hneq].
  - rewrite Heq, list_lookup_insert_eq by exact Hh. simpl.
    now apply (remove_from_chain_other _ _ sym).
  - now rewrite list_lookup_insert_ne by congruence.
Qed.

(** X2.  [remove_define] in a well-formed table.  On a miss it returns 0 and
    changes nothing.  On a hit it returns 1, gives three blocks back, the
    table holds one define less, and the identifier is gone.  Either way
    every other identifier keeps its definition. *)
Theorem remove_define_effect (ctx : Context) (sym : string) :
  defines_wf ctx ->
  (find_define ctx sym = None -> remove_define ctx sym = (false, ctx)) /\
  (find_define ctx sym <> None ->
     fst (remove_define ctx sym) = true /\
     find_define (snd (remove_define ctx sym)) sym = None /\
     live_blocks (snd (remove_define ctx sym)) = live_blocks ctx - 3 /\
     entries (define_hashtable (snd (remove_define ctx sym)))
     = entries (define_hashtable ctx) - 1) /\
  (forall other, other <> sym ->
     find_define (snd (remove_define ctx sym)) other = find_define ctx other).
Proof.
  intros Hwf. pose proof Hwf as [Hlen _].
  assert (Hh : (hash_define sym < length (define_hashtable ctx))%nat)
    by (rewrite Hlen; apply hash_define_lt).
  split; [|split].
  - unfold find_define, remove_define. intros Hnone.
    apply remove_from_chain_found in Hnone. now rewrite Hnone.
  - intros Hsome. split; [|split; [now apply find_define_remove|]].
    + unfold find_define in Hsome. unfold remove_define.
      destruct (remove_from_chain (define_bucket ctx (hash_define sym)) sym) eqn:E;
        [reflexivity|].
      apply remove_from_chain_found in E. contradiction.
    + unfold find_define in Hsome. unfold remove_define, live_blocks.
      destruct (remove_from_chain (define_bucket ctx (hash_define sym)) sym)
        as [chain|] eqn:E.
      * cbn [snd Free malloc_data set_malloc_data set_define_hashtable heap_free
             live define_hashtable].
        split; [lia|].
        rewrite (entries_insert _ _ _ chain (define_bucket_lookup ctx _ Hh)).
        apply remove_from_chain_length in E. lia.
      * apply remove_from_chain_found in E. contradiction.
  - intros other Hne. unfold find_define, define_bucket at 1.
    rewrite remove_define_table.
    destruct (remove_from_chain (define_bucket ctx (hash_define sym)) sym)
      as [chain|] eqn:E; [|reflexivity].
    destruct (decide (hash_define other = hash_define sym)) as [Heq|Hneq].
    + rewrite Heq, list_lookup_insert_eq by exact Hh. simpl.
      now apply (remove_from_chain_other _ _ sym).
    + now rewrite list_lookup_insert_ne by congruence.
Qed.

Lemma two_defines_wf : defines_wf two_defines.
Proof.
  apply (defines_wf_add
           (snd (add_define (fresh_context no_includes [] heap0) "FOO" "1"))
           two_defines "BAR" "2"); [|vm_compute; reflexivity].
  apply (defines_wf_add (fresh_context no_includes [] heap0) _ "FOO" "1");
    [apply defines_wf_fresh | vm_compute; reflexivity].
Qed.

Lemma remove_define_effect_witness :
  defines_wf two_defines /\
  remove_define two_defines "BAZ" = (false, two_defines) /\
  fst (remove_define two_defines "FOO") = true /\
  find_define (snd (remove_define two_defines "FOO")) "BAR" = Some "2".
Proof.
  destruct (remove_define_effect two_defines "BAZ" two_defines_wf) as (Hmiss & _).
  destruct (remove_define_effect two_defines "FOO" two_defines_wf)
    as (_ & Hhit & Hother).
  split; [exact two_defines_wf|].
  split; [apply Hmiss; vm_compute; reflexivity|].
  split; [apply Hhit; vm_compute; discriminate|].
  rewrite (Hother "BAR" ltac:(discriminate)). vm_compute. reflexivity.
Defined.

(** X3.  The two ways [add_define] fails.  If the identifier is defined, the
    "already defined" error is latched and nothing is allocated.  Otherwise
    an allocation failed: the out-of-memory flag is set, no error is
    latched, the table is as it was and every block obtained on the way has
    been given back. *)
Theorem add_define_failure (ctx ctx' : Context) (sym val : string) :
  add_define ctx sym val = (false, ctx') ->
  (find_define ctx sym <> None /\ ctx' = failf ctx (already_defined sym) /\
   malloc_data ctx' = malloc_data ctx /\ out_of_memory ctx' = out_of_memory ctx) \/
  (find_define ctx sym = None /\ out_of_memory ctx' = true /\
   isfail ctx' = isfail ctx /\ failstr ctx' = failstr ctx /\
   define_hashtable ctx' = define_hashtable ctx /\
   live_blocks ctx' = live_blocks ctx).
Proof.
  unfold add_define, find_define, live_blocks.
  destruct (find_in_chain (define_bucket ctx (hash_define sym)) sym) eqn:Hfind.
  - intros H. injection H as <-. left. repeat split. discriminate.
  - intros H. right. split; [reflexivity|].
    destruct (Malloc_cases ctx 0) as (d1 & [[E1 L1]|[E1 L1]]); rewrite E1 in H;
      cbn [negb] in H.
    2:{ injection H as <-. repeat split. simpl. exact L1. }
    destruct (Malloc_cases (set_malloc_data d1 ctx)
                (Z.of_nat (String.length sym) + 1)) as (d2 & [[E2 L2]|[E2 L2]]);
      rewrite E2 in H.
    + destruct (Malloc_cases (set_malloc_data d2 (set_malloc_data d1 ctx))
                  (Z.of_nat (String.length val) + 1)) as (d3 & [[E3 L3]|[E3 L3]]);
        rewrite E3 in H; cbn [negb orb] in H; [discriminate|].
      injection H as <-. repeat split. simpl in *. lia.
    + destruct (Malloc_cases
                  (set_out_of_memory true
                     (set_malloc_data d2 (set_malloc_data d1 ctx)))
                  (Z.of_nat (String.length val) + 1)) as (d3 & [[E3 L3]|[E3 L3]]);
        rewrite E3 in H; cbn [negb orb] in H;
        injection H as <-; repeat split; simpl in *; lia.
Qed.

Lemma add_define_failure_witness :
  add_define (set_malloc_data (mkHeap [true; false] 0) two_defines) "BAZ" "3"
  = (false,
     set_out_of_memory true (set_malloc_data (mkHeap [] 0) two_defines)) /\
  find_define two_defines "BAZ" = None.
Proof.
  assert (E : add_define (set_malloc_data (mkHeap [true; false] 0) two_defines)
                "BAZ" "3"
              = (false,
                 set_out_of_memory true
                   (set_malloc_data (mkHeap [] 0) two_defines)))
    by (vm_compute; reflexivity).
  split; [exact E|].
  destruct (add_define_failure _ _ "BAZ" "3" E) as [(H & _)|(H & _)].
  - exfalso. apply H. vm_compute. reflexivity.
  - exact H.
Defined.

Lemma free_buckets_table (n a : nat) (ctx : Context) :
  let ctx' :=
    fold_left
      (fun ctx i =>
         let bucket := define_bucket ctx i in
         let ctx :=
           set_define_hashtable (<[i := []]> (define_hashtable ctx)) ctx in
         fold_left (fun c _ => Free (Free (Free c true) true) true) bucket ctx)
      (seq a n) ctx in
  length (define_hashtable ctx') = length (define_hashtable ctx) /\
  forall i,
    ((a <= i < a + n)%nat -> (i < length (define_hashtable ctx))%nat ->
     define_hashtable ctx' !! i = Some []) /\
    (~ (a <= i < a + n)%nat ->
     define_hashtable ctx' !! i = define_hashtable ctx !! i).
Proof.
  revert a ctx. induction n as [|n IH]; intros a ctx; cbv zeta.
  - cbn [seq fold_left]. split; [reflexivity|]. intros i. split; [lia | reflexivity].
  - cbn [seq fold_left].
    set (c1 := fold_left _ (define_bucket ctx a) _).
    pose proof (free_chain_effect (define_bucket ctx a)
                  (set_define_hashtable (<[a := []]> (define_hashtable ctx)) ctx))
      as [Ht _]. fold c1 in Ht. cbn [define_hashtable set_define_hashtable] in Ht.
    specialize (IH (S a) c1). cbv zeta in IH. destruct IH as [Hlen Hi].
    rewrite Ht, length_insert in Hlen. split; [exact Hlen|].
    intros i. destruct (Hi i) as [Hin Hout]. rewrite Ht in Hin, Hout.
    rewrite length_insert in Hin. split.
    + intros Hr Hlt. destruct (decide (i = a)) as [->|Hne].
      * rewrite Hout by lia. now apply list_lookup_insert_eq.
      * apply Hin; lia.
    + intros Hr. rewrite Hout by lia. apply list_lookup_insert_ne. lia.
Qed.

(** X4.  [free_all_defines] leaves no define behind: afterwards
    [find_define] finds nothing, the table still has its 256 chains, and
    three blocks have been given back for every define it held. *)
Theorem free_all_defines_clears (ctx : Context) :
  length (define_hashtable ctx) = DEFINE_BUCKETS ->
  (forall sym, find_define (free_all_defines ctx) sym = None) /\
  length (define_hashtable (free_all_defines ctx)) = DEFINE_BUCKETS /\
  live_blocks (free_all_defines ctx)
  = live_blocks ctx - 3 * entries (define_hashtable ctx).
Proof.
  intros Hlen.
  assert (Htbl :
    length (define_hashtable (free_all_defines ctx)) = length (define_hashtable ctx) /\
    forall i,
      ((0 <= i < 0 + DEFINE_BUCKETS)%nat -> (i < length (define_hashtable ctx))%nat ->
       define_hashtable (free_all_defines ctx) !! i = Some []) /\
      (~ (0 <= i < 0 + DEFINE_BUCKETS)%nat ->
       define_hashtable (free_all_defines ctx) !! i = define_hashtable ctx !! i))
    by exact (free_buckets_table DEFINE_BUCKETS 0 ctx).
  destruct Htbl as [Hl Hi].
  split; [|split].
  - intros sym. unfold find_define, define_bucket.
    destruct (Hi (hash_define sym)) as [Hin _].
    rewrite Hin; [reflexivity | | ].
    + pose proof (hash_define_lt sym). lia.
    + rewrite Hlen. apply hash_define_lt.
  - congruence.
  - unfold live_blocks.
    assert (Hfree : live (malloc_data (free_all_defines ctx)) =
                    live (malloc_data ctx)
                    - 3 * entries (take DEFINE_BUCKETS (drop 0 (define_hashtable ctx))))
      by exact (free_buckets_effect DEFINE_BUCKETS 0 ctx).
    rewrite drop_0 in Hfree.
    rewrite take_ge in Hfree by (rewrite Hlen; apply Nat.le_refl).
    exact Hfree.
Qed.

Lemma free_all_defines_clears_witness :
  length (define_hashtable two_defines) = DEFINE_BUCKETS /\
  find_define two_defines "FOO" = Some "1" /\
  find_define (free_all_defines two_defines) "FOO" = None.
Proof.
  assert (Hlen : length (define_hashtable two_defines) = DEFINE_BUCKETS)
    by exact (proj1 two_defines_wf).
  split; [exact Hlen|]. split; [vm_compute; reflexivity|].
  exact (proj1 (free_all_defines_clears two_defines Hlen) "FOO").
Defined.

(** ** Filename cache, conditional pool and include stack *)

Lemma find_filename_Some (l : list string) (fname g : string) :
  find_filename l fname = Some g -> g = fname /\ fname ∈ l.
Proof.
  induction l as [|f l IH]; simpl; [discriminate|].
  destruct (String.eqb_spec f fname) as [->|Hne].
  - intros H. injection H as <-. split; [reflexivity | apply elem_of_cons; now left].
  - intros H. destruct (IH H) as [-> Hin]. split; [reflexivity|].
    apply elem_of_cons. now right.
Qed.

Lemma find_filename_None (l : list string) (fname : string) :
  find_filename l fname = None <-> fname ∉ l.
Proof.
  induction l as [|f l IH]; simpl.
  - rewrite elem_of_nil. tauto.
  - rewrite elem_of_cons. destruct (String.eqb_spec f fname) as [->|Hne].
    + split; [discriminate | intros H; exfalso; apply H; now left].
    + rewrite IH. intuition congruence.
Qed.

Lemma find_filename_elem (l : list string) (fname : string) :
  fname ∈ l -> find_filename l fname = Some fname.
Proof.
  intros Hin. destruct (find_filename l fname) as [g|] eqn:E.
  - now destruct (find_filename_Some _ _ _ E) as [-> _].
  - apply find_filename_None in E. contradiction.
Qed.

(** X5.  [cache_filename] interns names.  A NULL name gives NULL and does
    nothing.  For a name already cached the call changes nothing, so the
    allocator is not asked.  A name that is returned is in the cache and a
    second request for it returns it again from the same context; the cache
    never loses a name and never holds one twice.  When NULL comes back for
    a name, an allocation failed: the cache is as it was, the out-of-memory
    flag is set and nothing is leaked. *)
Theorem cache_filename_interns (ctx ctx' : Context) (fname : string)
    (r : option string) :
  NoDup (filename_cache ctx) ->
  cache_filename ctx (Some fname) = (r, ctx') ->
  cache_filename ctx None = (None, ctx) /\
  NoDup (filename_cache ctx') /\
  (forall g, g ∈ filename_cache ctx -> g ∈ filename_cache ctx') /\
  (fname ∈ filename_cache ctx -> r = Some fname /\ ctx' = ctx) /\
  match r with
  | Some f =>
      f = fname /\ fname ∈ filename_cache ctx' /\
      cache_filename ctx' (Some fname) = (Some fname, ctx')
  | None =>
      filename_cache ctx' = filename_cache ctx /\
      out_of_memory ctx' = true /\ live_blocks ctx' = live_blocks ctx
  end.
Proof.
  intros Hnd. unfold cache_filename at 1. split; [reflexivity|].
  revert H. unfold live_blocks.
  destruct (find_filename (filename_cache ctx) fname) as [g|] eqn:Hfind.
  - intros H. injection H as <- <-.
    destruct (find_filename_Some _ _ _ Hfind) as [-> Hin].
    split; [exact Hnd|]. split; [auto|]. split; [auto|].
    split; [reflexivity|]. split; [exact Hin|].
    unfold cache_filename. now rewrite Hfind.
  - apply find_filename_None in Hfind.
    destruct (Malloc_cases ctx 0) as (d1 & [[E1 L1]|[E1 L1]]); rewrite E1;
      cbn [negb].
    2:{ intros H. injection H as <- <-. cbn.
        split; [exact Hnd|]. split; [auto|]. split; [intros; contradiction|].
        repeat split. exact L1. }
    destruct (Malloc_cases (set_malloc_data d1 ctx)
                (Z.of_nat (String.length fname) + 1)) as (d2 & [[E2 L2]|[E2 L2]]);
      rewrite E2; cbn [negb]; intros H; injection H as <- <-.
    + cbn [filename_cache set_filename_cache set_malloc_data].
      split; [apply NoDup_cons; split; assumption|].
      split; [intros g Hg; apply elem_of_cons; now right|].
      split; [intros; contradiction|].
      split; [reflexivity|]. split; [apply elem_of_cons; now left|].
      unfold cache_filename.
      cbn [filename_cache set_filename_cache set_malloc_data find_filename].
      now rewrite String.eqb_refl.
    + cbn. split; [exact Hnd|]. split; [auto|]. split; [intros; contradiction|].
      repeat split. simpl in *. lia.
Qed.

Lemma cache_filename_interns_witness :
  NoDup (filename_cache (fresh_context no_includes [] heap0)) /\
  cache_filename (fresh_context no_includes [] heap0) (Some "a.h")
  = (Some "a.h", cached_a_h) /\
  cache_filename cached_a_h (Some "a.h") = (Some "a.h", cached_a_h).
Proof.
  assert (Hnd : NoDup (filename_cache (fresh_context no_includes [] heap0)))
    by apply NoDup_nil_2.
  assert (E : cache_filename (fresh_context no_includes [] heap0) (Some "a.h")
              = (Some "a.h", cached_a_h)) by (vm_compute; reflexivity).
  split; [exact Hnd|]. split; [exact E|].
  exact (proj2 (proj2 (proj2 (proj2 (proj2 (proj2
           (cache_filename_interns _ _ "a.h" _ Hnd E))))))).
Defined.

Lemma put_conditionals_pool (item : list Conditional) (ctx : Context) :
  put_conditionals ctx item
  = set_conditional_pool (rev item ++ conditional_pool ctx) ctx.
Proof.
  revert ctx. induction item as [|c item IH]; intros ctx; simpl.
  - now destruct ctx.
  - rewrite IH. cbn [conditional_pool set_conditional_pool].
    rewrite <- app_assoc. reflexivity.
Qed.

(** X6.  Frames handed back with [put_conditionals] are what
    [get_conditional] issues next: the pool grows by the frames, last one
    first, and after a non-empty return the next [get_conditional] succeeds
    without asking the allocator, issues a zeroed frame whatever the
    returned frames held, and takes one frame off the pool. *)
Theorem conditional_pool_reuse (ctx : Context) (item : list Conditional) :
  item <> [] ->
  conditional_pool (put_conditionals ctx item) = rev item ++ conditional_pool ctx /\
  exists ctx',
    get_conditional (put_conditionals ctx item) = (Some zeroed_conditional, ctx') /\
    malloc_data ctx' = malloc_data ctx /\
    out_of_memory ctx' = out_of_memory ctx /\
    (length (conditional_pool ctx') + 1
     = length item + length (conditional_pool ctx))%nat.
Proof.
  intros Hne. rewrite put_conditionals_pool.
  cbn [conditional_pool set_conditional_pool]. split; [reflexivity|].
  unfold get_conditional. cbn [conditional_pool set_conditional_pool].
  destruct (rev item ++ conditional_pool ctx) as [|c rest] eqn:E.
  - exfalso. apply app_eq_nil in E as [E _].
    apply (f_equal (@rev _)) in E. rewrite rev_involutive in E. auto.
  - eexists. split; [reflexivity|]. repeat split.
    cbn [conditional_pool set_conditional_pool].
    apply (f_equal (@length _)) in E. rewrite length_app, length_rev in E.
    simpl in E. lia.
Qed.

Lemma conditional_pool_reuse_witness :
  used_frames <> [] /\
  get_conditional
    (put_conditionals
       (set_malloc_data (mkHeap [false] 0) (fresh_context no_includes [] heap0))
       used_frames)
  = (Some zeroed_conditional,
     set_conditional_pool [mkConditional TOKEN_PP_ELSE 7 true true]
       (set_malloc_data (mkHeap [false] 0) (fresh_context no_includes [] heap0))).
Proof.
  split; [discriminate|].
  destruct (conditional_pool_reuse
              (set_malloc_data (mkHeap [false] 0)
                 (fresh_context no_includes [] heap0))
              used_frames ltac:(discriminate)) as (_ & ctx' & E & _).
  reflexivity.
Defined.

Lemma cache_filename_keeps (ctx ctx' : Context) (fname : option string)
    (r : option string) :
  cache_filename ctx fname = (r, ctx') ->
  include_stack ctx' = include_stack ctx /\
  conditional_pool ctx' = conditional_pool ctx /\
  define_hashtable ctx' = define_hashtable ctx /\
  close_callback ctx' = close_callback ctx /\
  isfail ctx' = isfail ctx /\ failstr ctx' = failstr ctx /\
  open_callback ctx' = open_callback ctx /\
  (r <> None -> out_of_memory ctx' = out_of_memory ctx).
Proof.
  unfold cache_filename. destruct fname as [f|].
  2:{ intros H. injection H as <- <-. repeat split. }
  destruct (find_filename (filename_cache ctx) f).
  { intros H. injection H as <- <-. repeat split. }
  destruct (Malloc_cases ctx 0) as (d1 & [[E1 L1]|[E1 L1]]); rewrite E1;
    cbn [negb].
  2:{ intros H. injection H as <- <-. repeat split. intros C. now elim C. }
  destruct (Malloc_cases (set_malloc_data d1 ctx)
              (Z.of_nat (String.length f) + 1)) as (d2 & [[E2 L2]|[E2 L2]]);
    rewrite E2; cbn [negb]; intros H; injection H as <- <-; repeat split.
  intros C. now elim C.
Qed.

(** What a successful [push_source] builds. *)
Lemma push_source_true (ctx ctx' : Context) (fname : option string)
    (src : string) (srclen : Z) (incl : bool) :
  push_source ctx fname src srclen incl = (true, ctx') ->
  include_stack ctx' =
    mkIncludeState fname incl src 0 0 srclen 1 [] :: include_stack ctx /\
  conditional_pool ctx' = conditional_pool ctx /\
  define_hashtable ctx' = define_hashtable ctx /\
  close_callback ctx' = close_callback ctx /\
  isfail ctx' = isfail ctx /\ failstr ctx' = failstr ctx /\
  open_callback ctx' = open_callback ctx /\
  out_of_memory ctx' = out_of_memory ctx /\
  live_blocks ctx' =
    live_blocks ctx + 1 +
    match fname with
    | Some f =>
        match find_filename (filename_cache ctx) f with
        | Some _ => 0
        | None => 2
        end
    | None => 0
    end.
Proof.
  unfold push_source, live_blocks.
  destruct (Malloc_cases ctx 0) as (d1 & [[E1 L1]|[E1 L1]]); rewrite E1;
    cbn [negb]; [|discriminate].
  destruct (cache_filename (set_malloc_data d1 ctx) fname) as [cached c2] eqn:Hc.
  pose proof (cache_filename_keeps _ _ _ _ Hc) as
    (K1 & K2 & K3 & K4 & K5 & K6 & K7 & K8).
  cbn [include_stack conditional_pool define_hashtable close_callback isfail
       failstr open_callback out_of_memory set_malloc_data] in *.
  intros H.
  assert (Hres : ctx' =
            set_include_stack
              (mkIncludeState cached incl src 0 0 srclen 1 [] :: include_stack c2)
              c2 /\ (fname <> None -> cached <> None)).
  { destruct fname, cached; try discriminate; injection H as <-;
      split; congruence. }
  destruct Hres as [-> Hcn].
  cbn [include_stack conditional_pool define_hashtable close_callback isfail
       failstr open_callback out_of_memory malloc_data set_include_stack].
  unfold cache_filename in Hc. destruct fname as [f|].
  - specialize (Hcn ltac:(discriminate)).
    cbn [filename_cache set_malloc_data] in Hc.
    destruct (find_filename (filename_cache ctx) f) as [g|] eqn:Hf.
    + injection Hc as <- <-. destruct (find_filename_Some _ _ _ Hf) as [-> Hin].
      repeat split. simpl. lia.
    + destruct (Malloc_cases (set_malloc_data d1 ctx) 0)
        as (d2 & [[E2 L2]|[E2 L2]]); rewrite E2 in Hc; cbn [negb] in Hc.
      2:{ injection Hc as <- <-. now elim Hcn. }
      destruct (Malloc_cases (set_malloc_data d2 (set_malloc_data d1 ctx))
                  (Z.of_nat (String.length f) + 1))
        as (d3 & [[E3 L3]|[E3 L3]]); rewrite E3 in Hc; cbn [negb] in Hc;
        injection Hc as <- <-; [|now elim Hcn].
      repeat split. simpl in *. lia.
  - injection Hc as <- <-. repeat split. simpl. lia.
Qed.

(** X7.  A frame pushed by [push_source] and popped by [pop_source] before
    anything was read: the include stack and the conditional pool are as
    before the push, the buffer is handed to the close callback exactly when
    the frame was pushed as included, and the only blocks kept are the two
    of a file name that was not cached yet. *)
Theorem push_pop_source (ctx ctx' : Context) (fname : option string)
    (src : string) (srclen : Z) (incl : bool) :
  push_source ctx fname src srclen incl = (true, ctx') ->
  include_stack (pop_source ctx') = include_stack ctx /\
  conditional_pool (pop_source ctx') = conditional_pool ctx /\
  define_hashtable (pop_source ctx') = define_hashtable ctx /\
  close_callback (pop_source ctx') =
    (if incl then src :: close_callback ctx else close_callback ctx) /\
  live_blocks (pop_source ctx') =
    live_blocks ctx +
    match fname with
    | Some f =>
        match find_filename (filename_cache ctx) f with
        | Some _ => 0
        | None => 2
        end
    | None => 0
    end.
Proof.
  intros H. apply push_source_true in H
    as (Hs & Hp & Ht & Hc & _ & _ & _ & _ & Hl).
  unfold pop_source, live_blocks in *. rewrite Hs.
  cbn [included conditional_stack source_base put_conditionals].
  destruct incl;
    cbn [include_stack conditional_pool define_hashtable close_callback
         malloc_data Free set_include_stack set_close_callback set_malloc_data
         heap_free live];
    repeat split; try assumption; try congruence; lia.
Qed.

Lemma push_pop_source_witness :
  push_source (fresh_context no_includes [] heap0) (Some "a.h") "x" 1 true
  = (true,
     snd (push_source (fresh_context no_includes [] heap0) (Some "a.h") "x" 1 true))
  /\
  close_callback
    (pop_source
       (snd (push_source (fresh_context no_includes [] heap0) (Some "a.h") "x" 1
               true)))
  = ["x"].
Proof.
  assert (E : push_source (fresh_context no_includes [] heap0) (Some "a.h") "x" 1 true
              = (true,
                 snd (push_source (fresh_context no_includes [] heap0)
                        (Some "a.h") "x" 1 true))) by (vm_compute; reflexivity).
  split; [exact E|].
  exact (proj1 (proj2 (proj2 (proj2 (push_pop_source _ _ _ _ _ _ E))))).
Defined.

Lemma push_source_false (ctx ctx' : Context) (fname : option string)
    (src : string) (srclen : Z) (incl : bool) :
  push_source ctx fname src srclen incl = (false, ctx') ->
  include_stack ctx' = include_stack ctx /\
  close_callback ctx' = close_callback ctx /\
  out_of_memory ctx' = true.
Proof.
  unfold push_source.
  destruct (Malloc_cases ctx 0) as (d1 & [[E1 L1]|[E1 L1]]); rewrite E1; cbn [negb].
  2:{ intros H. injection H as <-. repeat split. }
  destruct (cache_filename (set_malloc_data d1 ctx) fname) as [cached c2] eqn:Hc.
  destruct (cache_filename_keeps _ _ _ _ Hc) as (K1 & _ & _ & K4 & _).
  destruct fname as [f|], cached as [g|]; try discriminate.
  intros H. injection H as <-.
  cbn [Free set_malloc_data include_stack close_callback out_of_memory].
  rewrite K1, K4. split; [reflexivity|]. split; [reflexivity|].
  unfold cache_filename in Hc.
  destruct (find_filename _ f); [discriminate|].
  destruct (Malloc_cases (set_malloc_data d1 ctx) 0) as (d2 & [[E2 L2]|[E2 L2]]);
    rewrite E2 in Hc; cbn [negb] in Hc.
  - destruct (Malloc_cases (set_malloc_data d2 (set_malloc_data d1 ctx))
                (Z.of_nat (String.length f) + 1)) as (d3 & [[E3 L3]|[E3 L3]]);
      rewrite E3 in Hc; cbn [negb] in Hc; [discriminate|].
    now injection Hc as <-.
  - now injection Hc as <-.
Qed.

(** ** A successful start *)

Lemma add_define_true_keeps (ctx ctx1 : Context) (sym val : string) :
  add_define ctx sym val = (true, ctx1) ->
  isfail ctx1 = isfail ctx /\ failstr ctx1 = failstr ctx /\
  out_of_memory ctx1 = out_of_memory ctx /\
  include_stack ctx1 = include_stack ctx /\
  conditional_pool ctx1 = conditional_pool ctx /\
  filename_cache ctx1 = filename_cache ctx /\
  close_callback ctx1 = close_callback ctx /\
  open_callback ctx1 = open_callback ctx /\
  live_blocks ctx1 = live_blocks ctx + 3.
Proof.
  unfold add_define, live_blocks.
  destruct (find_in_chain _ sym); [discriminate|].
  destruct (Malloc_cases ctx 0) as (d1 & [[E1 L1]|[E1 L1]]); rewrite E1;
    cbn [negb]; [|discriminate].
  destruct (Malloc_cases (set_malloc_data d1 ctx)
              (Z.of_nat (String.length sym) + 1)) as (d2 & [[E2 L2]|[E2 L2]]);
    rewrite E2.
  - destruct (Malloc_cases (set_malloc_data d2 (set_malloc_data d1 ctx))
                (Z.of_nat (String.length val) + 1)) as (d3 & [[E3 L3]|[E3 L3]]);
      rewrite E3; cbn [negb orb]; [|discriminate].
    intros H. injection H as <-. repeat split. simpl in *. lia.
  - destruct (Malloc _ (Z.of_nat (String.length val) + 1)) as [b c3].
    cbn [negb orb]. discriminate.
Qed.

(** The predefine loop, when every insertion succeeds. *)
Lemma add_defines_true_all (defines : list MOJOSHADER_preprocessorDefine)
    (ctx ctx' : Context) :
  defines_wf ctx -> add_defines ctx defines = (true, ctx') ->
  defines_wf ctx' /\
  (forall def, def ∈ defines ->
     find_define ctx' (identifier def) = Some (definition def)) /\
  (forall id, id ∉ map identifier defines ->
     find_define ctx' id = find_define ctx id) /\
  isfail ctx' = isfail ctx /\ out_of_memory ctx' = out_of_memory ctx /\
  include_stack ctx' = include_stack ctx /\
  conditional_pool ctx' = conditional_pool ctx /\
  filename_cache ctx' = filename_cache ctx /\
  live_blocks ctx' = live_blocks ctx + 3 * Z.of_nat (length defines).
Proof.
  revert ctx. induction defines as [|d rest IH]; intros ctx Hwf H.
  - injection H as <-. split; [exact Hwf|]. split; [|split].
    + intros def Hin. now apply elem_of_nil in Hin.
    + reflexivity.
    + repeat split. simpl. lia.
  - cbn [add_defines] in H.
    destruct (add_define ctx (identifier d) (definition d)) as [[|] c1] eqn:Hadd;
      [|discriminate].
    pose proof (defines_wf_add _ _ _ _ Hwf Hadd) as Hwf1.
    destruct (IH c1 Hwf1 H) as (Hwf' & Hall & Hframe & K1 & K2 & K3 & K4 & K5 & K6).
    destruct (add_define_true_keeps _ _ _ _ Hadd)
      as (A1 & _ & A3 & A4 & A5 & A6 & _ & _ & A9).
    destruct (add_defines_true rest c1 ctx' Hwf1 H) as [Hnd Habsent].
    assert (Hnew : find_define c1 (identifier d) = Some (definition d))
      by exact (find_define_added ctx c1 _ _ Hwf Hadd).
    assert (Hfresh : identifier d ∉ map identifier rest).
    { intros Hin. apply Habsent in Hin. congruence. }
    split; [exact Hwf'|]. split; [|split].
    + intros def Hin. apply elem_of_cons in Hin as [->|Hin]; [|now apply Hall].
      rewrite (Hframe _ Hfresh). exact Hnew.
    + intros id Hid. simpl in Hid. rewrite not_elem_of_cons in Hid.
      destruct Hid as [Hne Hid]. rewrite (Hframe _ Hid).
      now apply (find_define_add_other ctx c1 (identifier d) (definition d)).
    + repeat split; try congruence. cbn [length]. lia.
Qed.

Lemma find_define_fresh (open : MOJOSHADER_includeOpen) (closed : list string)
    (d : Heap) (sym : string) :
  find_define (fresh_context open closed d) sym = None.
Proof.
  unfold find_define, define_bucket, fresh_context. cbn [define_hashtable].
  rewrite lookup_replicate_2 by apply hash_define_lt. reflexivity.
Qed.

Lemma start_success_fields (fname : option string) (src : string) (sourcelen : Z)
    (open : MOJOSHADER_includeOpen)
    (defines : list MOJOSHADER_preprocessorDefine) (d d' : Heap) (ctx : Context) :
  preprocessor_start fname src sourcelen open defines d = (Some ctx, d') ->
  include_stack ctx = [mkIncludeState fname false src 0 0 sourcelen 1 []] /\
  exists c1,
    add_defines (fresh_context open [] (snd (heap_malloc 0 d))) defines = (true, c1) /\
    define_hashtable ctx = define_hashtable c1.
Proof.
  unfold preprocessor_start.
  destruct (heap_malloc 0 d) as [[|] d1] eqn:Hm; cbn [negb snd]; [|discriminate].
  destruct (add_defines (fresh_context open [] d1) defines) as [[|] c1] eqn:Hadd;
    [|discriminate].
  destruct (push_source c1 fname src sourcelen false) as [[|] c2] eqn:Hpush;
    [|discriminate].
  intros H. injection H as <- _.
  destruct (add_defines_true_all defines _ _ (defines_wf_fresh open [] d1) Hadd)
    as (_ & _ & _ & _ & _ & K3 & _).
  destruct (push_source_true _ _ _ _ _ _ Hpush) as (P1 & _ & P3 & _).
  rewrite K3 in P1. split; [exact P1|]. exists c1. split; [reflexivity | exact P3].
Qed.

(** X8.  What a non-NULL [preprocessor_start] hands over: the predefines
    have distinct names and each is found with its definition, no other
    identifier is defined, the include stack holds the root buffer alone with
    the cursor at its start on line 1, no error is latched, the out-of-memory
    flag is clear, and the blocks taken are one for the context, one for the
    frame, three per predefine and two for the file name when there is
    one. *)
Theorem start_success (fname : option string) (src : string) (sourcelen : Z)
    (open : MOJOSHADER_includeOpen)
    (defines : list MOJOSHADER_preprocessorDefine) (d d' : Heap) (ctx : Context) :
  preprocessor_start fname src sourcelen open defines d = (Some ctx, d') ->
  NoDup (map identifier defines) /\
  (forall def, def ∈ defines ->
     find_define ctx (identifier def) = Some (definition def)) /\
  (forall id, id ∉ map identifier defines -> find_define ctx id = None) /\
  include_stack ctx = [mkIncludeState fname false src 0 0 sourcelen 1 []] /\
  preprocessor_sourcepos ctx = (fname, 1) /\
  isfail ctx = false /\ preprocessor_outofmemory ctx = false /\
  conditional_pool ctx = [] /\
  d' = malloc_data ctx /\
  live d' =
    live d + 2 + 3 * Z.of_nat (length defines) +
    match fname with Some _ => 2 | None => 0 end.
Proof.
  unfold preprocessor_start.
  destruct (heap_malloc 0 d) as [[|] d1] eqn:Hm; cbn [negb]; [|discriminate].
  destruct (add_defines (fresh_context open [] d1) defines) as [[|] c1] eqn:Hadd.
  2:{ discriminate. }
  destruct (push_source c1 fname src sourcelen false) as [[|] c2] eqn:Hpush;
    [|discriminate].
  intros H. injection H as <- <-.
  destruct (add_defines_true_all defines _ _ (defines_wf_fresh open [] d1) Hadd)
    as (_ & Hall & Hframe & K1 & K2 & K3 & K4 & K5 & K6).
  destruct (add_defines_true defines _ _ (defines_wf_fresh open [] d1) Hadd)
    as [Hnd _].
  destruct (push_source_true _ _ _ _ _ _ Hpush)
    as (P1 & P2 & P3 & _ & P5 & _ & _ & P8 & P9).
  assert (Hfind : forall sym, find_define c2 sym = find_define c1 sym).
  { intros sym. unfold find_define, define_bucket. now rewrite P3. }
  split; [exact Hnd|]. split; [|split].
  - intros def Hin. rewrite Hfind. now apply Hall.
  - intros id Hid. rewrite Hfind, (Hframe id Hid). apply find_define_fresh.
  - rewrite K3 in P1. cbn [fresh_context include_stack] in P1.
    split; [exact P1|]. split; [unfold preprocessor_sourcepos; now rewrite P1|].
    split; [rewrite P5, K1; reflexivity|].
    split; [unfold preprocessor_outofmemory; rewrite P8, K2; reflexivity|].
    split; [rewrite P2, K4; reflexivity|]. split; [reflexivity|].
    unfold live_blocks in *. rewrite P9, K6, K5.
    cbn [fresh_context filename_cache malloc_data find_filename].
    assert (live d1 = live d + 1).
    { unfold heap_malloc in Hm. destruct (script d) as [|[|] rest];
        try discriminate; injection Hm as <-; simpl; lia. }
    destruct fname; lia.
Qed.

Lemma start_success_witness :
  exists ctx d',
    preprocessor_start (Some "main.hlsl") "x" 1 no_includes good_predefines heap0
    = (Some ctx, d') /\
    find_define ctx "BAR" = Some "2" /\ live d' = 10.
Proof.
  eexists. eexists.
  assert (E : preprocessor_start (Some "main.hlsl") "x" 1 no_includes
                good_predefines heap0
              = (Some (default (fresh_context no_includes [] heap0)
                         (start_on_named "main.hlsl" "x" good_predefines)),
                 malloc_data
                   (default (fresh_context no_includes [] heap0)
                      (start_on_named "main.hlsl" "x" good_predefines))))
    by (vm_compute; reflexivity).
  split; [exact E|].
  destruct (start_success _ _ _ _ _ _ _ _ E)
    as (_ & Hall & _ & _ & _ & _ & _ & _ & _ & Hlive).
  split; [|exact Hlive].
  apply (Hall (mkDefine "BAR" "2")).
  apply elem_of_cons. right. apply elem_of_cons. now left.
Defined.

(** ** Block accounting through the dispatcher *)

Lemma accounted_same (b : Z) (c1 c2 : Context) :
  define_hashtable c2 = define_hashtable c1 ->
  filename_cache c2 = filename_cache c1 ->
  conditional_pool c2 = conditional_pool c1 ->
  frames_blocks (include_stack c2) = frames_blocks (include_stack c1) ->
  malloc_data c2 = malloc_data c1 ->
  accounted b c1 -> accounted b c2.
Proof.
  unfold accounted, owned_blocks, live_blocks. intros -> -> -> -> ->. auto.
Qed.

Lemma accounted_fail (b : Z) (ctx : Context) (msg : string) :
  accounted b ctx -> accounted b (fail ctx msg).
Proof. apply accounted_same; reflexivity. Qed.

Lemma accounted_set_isfail (b : Z) (ctx : Context) (v : bool) :
  accounted b ctx -> accounted b (set_isfail v ctx).
Proof. apply accounted_same; reflexivity. Qed.

Lemma accounted_set_failstr (b : Z) (ctx : Context) (v : string) :
  accounted b ctx -> accounted b (set_failstr v ctx).
Proof. apply accounted_same; reflexivity. Qed.

Lemma accounted_set_close_callback (b : Z) (ctx : Context) (v : list string) :
  accounted b ctx -> accounted b (set_close_callback v ctx).
Proof. apply accounted_same; reflexivity. Qed.

Lemma accounted_set_state (b : Z) (ctx : Context) (state s : IncludeState)
    (rest : list IncludeState) :
  include_stack ctx = state :: rest ->
  length (conditional_stack s) = length (conditional_stack state) ->
  accounted b ctx -> accounted b (set_state s ctx).
Proof.
  intros Hs Hc. apply accounted_same; unfold set_state; rewrite Hs; try reflexivity.
  cbn [include_stack set_include_stack frames_blocks]. now rewrite Hc.
Qed.

(** Popping the open conditional of the top frame into the pool. *)
Lemma accounted_pop_cond (b : Z) (ctx : Context) (state s : IncludeState)
    (rest : list IncludeState) (c : Conditional) :
  include_stack ctx = state :: rest ->
  S (length (conditional_stack s)) = length (conditional_stack state) ->
  accounted b ctx -> accounted b (put_conditionals (set_state s ctx) [c]).
Proof.
  intros Hs Hc [Hlen Hlive]. cbn [put_conditionals]. unfold set_state. rewrite Hs.
  unfold accounted, owned_blocks, live_blocks in *. rewrite Hs in Hlive.
  cbn [set_include_stack set_conditional_pool define_hashtable malloc_data
       filename_cache conditional_pool include_stack frames_blocks length] in *.
  split; [exact Hlen|]. rewrite Hlive, <- Hc. lia.
Qed.

(** Taking a conditional and pushing it on the top frame. *)
Lemma accounted_push_cond (b : Z) (ctx c1 : Context) (state s : IncludeState)
    (rest : list IncludeState) (z : Conditional) :
  include_stack ctx = state :: rest ->
  get_conditional ctx = (Some z, c1) ->
  length (conditional_stack s) = S (length (conditional_stack state)) ->
  accounted b ctx -> accounted b (set_state s c1).
Proof.
  intros Hs Hget Hc [Hlen Hlive]. unfold get_conditional in Hget.
  unfold accounted, owned_blocks, live_blocks in *. rewrite Hs in Hlive.
  cbn [frames_blocks] in Hlive.
  destruct (conditional_pool ctx) as [|p pool] eqn:Hpool.
  - destruct (Malloc_cases ctx 0) as (d & [[E L]|[E L]]); rewrite E in Hget;
      [|discriminate].
    injection Hget as _ <-. unfold set_state.
    cbn [set_malloc_data include_stack]. rewrite Hs.
    cbn [set_include_stack set_malloc_data define_hashtable malloc_data
         filename_cache conditional_pool include_stack frames_blocks].
    split; [exact Hlen|]. rewrite Hpool, Hc, L, Hlive. cbn [length]. lia.
  - injection Hget as _ <-. unfold set_state.
    cbn [set_conditional_pool include_stack]. rewrite Hs.
    cbn [set_include_stack set_conditional_pool define_hashtable malloc_data
         filename_cache conditional_pool include_stack frames_blocks].
    split; [exact Hlen|]. rewrite Hc, Hlive. cbn [length]. lia.
Qed.

Lemma accounted_get_conditional_NULL (b : Z) (ctx c1 : Context) :
  get_conditional ctx = (None, c1) -> accounted b ctx -> accounted b c1.
Proof.
  unfold get_conditional. destruct (conditional_pool ctx) eqn:Hpool; [|discriminate].
  destruct (Malloc_cases ctx 0) as (d & [[E L]|[E L]]); rewrite E; [discriminate|].
  intros H. injection H as <-. unfold accounted, owned_blocks, live_blocks.
  cbn [set_out_of_memory set_malloc_data define_hashtable malloc_data
       filename_cache conditional_pool include_stack].
  now rewrite L.
Qed.

Lemma accounted_Malloc (b : Z) (ctx : Context) (len : Z) :
  accounted b ctx ->
  let r := Malloc ctx len in
  length (define_hashtable (snd r)) = DEFINE_BUCKETS /\
  live_blocks (snd r) = b + owned_blocks (snd r) + (if fst r then 1 else 0).
Proof.
  intros [Hlen Hlive]. cbv zeta.
  destruct (Malloc_effect ctx len) as (I & F & P & T & L).
  unfold owned_blocks, live_blocks in *. rewrite I, F, P, T, L.
  split; [exact Hlen|]. rewrite Hlive. lia.
Qed.

Lemma put_conditionals_effect (item : list Conditional) (ctx : Context) :
  define_hashtable (put_conditionals ctx item) = define_hashtable ctx /\
  filename_cache (put_conditionals ctx item) = filename_cache ctx /\
  include_stack (put_conditionals ctx item) = include_stack ctx /\
  malloc_data (put_conditionals ctx item) = malloc_data ctx /\
  length (conditional_pool (put_conditionals ctx item))
  = (length item + length (conditional_pool ctx))%nat.
Proof.
  rewrite put_conditionals_pool.
  cbn [set_conditional_pool define_hashtable filename_cache include_stack
       malloc_data conditional_pool].
  repeat split. now rewrite length_app, length_rev.
Qed.

Lemma accounted_pop_source (b : Z) (ctx : Context) :
  accounted b ctx -> accounted b (pop_source ctx).
Proof.
  intros [Hlen Hlive]. unfold pop_source.
  destruct (include_stack ctx) as [|state next] eqn:Hs; [now split|].
  set (c0 := if included state then _ else ctx).
  assert (H0 : define_hashtable c0 = define_hashtable ctx /\
               filename_cache c0 = filename_cache ctx /\
               conditional_pool c0 = conditional_pool ctx /\
               malloc_data c0 = malloc_data ctx)
    by (subst c0; destruct (included state); repeat split).
  clearbody c0. destruct H0 as (T0 & F0 & P0 & M0).
  destruct (put_conditionals_effect (conditional_stack state) c0)
    as (T1 & F1 & _ & M1 & P1).
  unfold accounted, owned_blocks, live_blocks in *. rewrite Hs in Hlive.
  cbn [frames_blocks] in Hlive.
  cbn [Free set_malloc_data set_include_stack define_hashtable malloc_data
       filename_cache conditional_pool include_stack heap_free live].
  rewrite T1, F1, M1, P1, T0, F0, P0, M0.
  split; [exact Hlen|]. rewrite Hlive. lia.
Qed.

Lemma accounted_cache_filename (b : Z) (ctx : Context) (fname : option string) :
  accounted b ctx -> accounted b (snd (cache_filename ctx fname)).
Proof.
  intros Ha. unfold cache_filename. destruct fname as [f|]; [|exact Ha].
  destruct (find_filename (filename_cache ctx) f); [exact Ha|].
  destruct Ha as [Hlen Hlive].
  destruct (Malloc_cases ctx 0) as (d1 & [[E1 L1]|[E1 L1]]); rewrite E1; cbn [negb].
  - destruct (Malloc_cases (set_malloc_data d1 ctx) (Z.of_nat (String.length f) + 1))
      as (d2 & [[E2 L2]|[E2 L2]]); rewrite E2; cbn [negb snd];
      unfold accounted, owned_blocks, live_blocks in *;
      cbn [Free set_out_of_memory set_malloc_data set_filename_cache
           define_hashtable malloc_data filename_cache conditional_pool
           include_stack heap_free live length] in *;
      (split; [exact Hlen|]); lia.
  - cbn [snd]. unfold accounted, owned_blocks, live_blocks in *.
    cbn [set_out_of_memory set_malloc_data define_hashtable malloc_data
         filename_cache conditional_pool include_stack] in *.
    split; [exact Hlen|]. lia.
Qed.

Lemma cache_filename_stack (ctx : Context) (fname : option string) :
  include_stack (snd (cache_filename ctx fname)) = include_stack ctx.
Proof.
  destruct (cache_filename ctx fname) as [r c] eqn:E.
  exact (proj1 (cache_filename_keeps _ _ _ _ E)).
Qed.

Lemma accounted_push_source (b : Z) (ctx : Context) (fname : option string)
    (src : string) (srclen : Z) (incl : bool) :
  accounted b ctx -> accounted b (snd (push_source ctx fname src srclen incl)).
Proof.
  intros Ha. unfold push_source.
  destruct (Malloc_cases ctx 0) as (d1 & [[E1 L1]|[E1 L1]]); rewrite E1; cbn [negb].
  2:{ cbn [snd]. destruct Ha as [Hlen Hlive].
      unfold accounted, owned_blocks, live_blocks in *.
      cbn [set_out_of_memory set_malloc_data define_hashtable malloc_data
           filename_cache conditional_pool include_stack] in *.
      split; [exact Hlen|]. lia. }
  assert (H1 : length (define_hashtable (set_malloc_data d1 ctx)) = DEFINE_BUCKETS /\
               live_blocks (set_malloc_data d1 ctx)
               = (b + 1) + owned_blocks (set_malloc_data d1 ctx)).
  { destruct Ha as [Hlen Hlive]. unfold owned_blocks, live_blocks in *.
    cbn [set_malloc_data define_hashtable malloc_data filename_cache
         conditional_pool include_stack] in *. split; [exact Hlen|]. lia. }
  pose proof (accounted_cache_filename (b + 1) _ fname H1) as H2.
  pose proof (cache_filename_stack (set_malloc_data d1 ctx) fname) as H3.
  destruct (cache_filename (set_malloc_data d1 ctx) fname) as [cached c2].
  cbn [snd] in H2, H3. destruct H2 as [Hlen Hlive].
  assert (Hfree : accounted b (Free c2 true)).
  { unfold accounted, owned_blocks, live_blocks in *.
    cbn [Free set_malloc_data define_hashtable malloc_data filename_cache
         conditional_pool include_stack heap_free live].
    split; [exact Hlen|]. lia. }
  assert (Hpush : accounted b
            (set_include_stack
               (mkIncludeState cached incl src 0 0 srclen 1 [] :: include_stack c2)
               c2)).
  { unfold accounted, owned_blocks, live_blocks in *.
    cbn [set_include_stack define_hashtable malloc_data filename_cache
         conditional_pool include_stack frames_blocks conditional_stack length].
    split; [exact Hlen|]. lia. }
  destruct fname, cached; cbn [snd]; assumption.
Qed.

Lemma accounted_remove_define (b : Z) (ctx : Context) (sym : string) :
  accounted b ctx -> accounted b (snd (remove_define ctx sym)).
Proof.
  intros [Hlen Hlive]. unfold remove_define.
  destruct (remove_from_chain (define_bucket ctx (hash_define sym)) sym)
    as [chain|] eqn:E; [|now split].
  cbn [snd]. apply remove_from_chain_length in E.
  assert (Hlt : (hash_define sym < length (define_hashtable ctx))%nat)
    by (rewrite Hlen; apply hash_define_lt).
  pose proof (entries_insert _ _ _ chain (define_bucket_lookup ctx _ Hlt)) as He.
  unfold accounted, owned_blocks, live_blocks in *.
  cbn [Free set_malloc_data set_define_hashtable define_hashtable malloc_data
       filename_cache conditional_pool include_stack heap_free live].
  rewrite length_insert. split; [exact Hlen|]. rewrite He, E. lia.
Qed.

Lemma accounted_add_define (b : Z) (ctx : Context) (sym val : string) :
  accounted b ctx -> accounted b (snd (add_define ctx sym val)).
Proof.
  intros [Hlen Hlive]. unfold add_define.
  destruct (find_in_chain _ sym); [now split|].
  assert (Hlt : (hash_define sym < length (define_hashtable ctx))%nat)
    by (rewrite Hlen; apply hash_define_lt).
  pose proof (fun new => entries_insert _ _ _ new (define_bucket_lookup ctx _ Hlt))
    as He.
  destruct (Malloc_cases ctx 0) as (d1 & [[E1 L1]|[E1 L1]]); rewrite E1;
    cbn [negb].
  2:{ cbn [snd]. unfold accounted, owned_blocks, live_blocks in *.
      cbn [set_out_of_memory set_malloc_data define_hashtable malloc_data
           filename_cache conditional_pool include_stack] in *.
      split; [exact Hlen|]. lia. }
  destruct (Malloc_cases (set_malloc_data d1 ctx)
              (Z.of_nat (String.length sym) + 1)) as (d2 & [[E2 L2]|[E2 L2]]);
    rewrite E2.
  - destruct (Malloc_cases (set_malloc_data d2 (set_malloc_data d1 ctx))
                (Z.of_nat (String.length val) + 1)) as (d3 & [[E3 L3]|[E3 L3]]);
      rewrite E3; cbn [negb orb snd];
      unfold accounted, owned_blocks, live_blocks in *;
      cbn [Free set_out_of_memory set_malloc_data set_define_hashtable
           define_hashtable malloc_data filename_cache conditional_pool
           include_stack heap_free live] in *;
      rewrite ?length_insert; (split; [exact Hlen|]); rewrite ?He;
      cbn [length]; lia.
  - destruct (Malloc_cases (set_out_of_memory true
                              (set_malloc_data d2 (set_malloc_data d1 ctx)))
                (Z.of_nat (String.length val) + 1)) as (d3 & [[E3 L3]|[E3 L3]]);
      rewrite E3; cbn [negb orb snd];
      unfold accounted, owned_blocks, live_blocks in *;
      cbn [Free set_out_of_memory set_malloc_data set_define_hashtable
           define_hashtable malloc_data filename_cache conditional_pool
           include_stack heap_free live] in *;
      (split; [exact Hlen|]); lia.
Qed.

Lemma accounted_add_defines (b : Z) (defines : list MOJOSHADER_preprocessorDefine)
    (ctx : Context) :
  accounted b ctx -> accounted b (snd (add_defines ctx defines)).
Proof.
  revert ctx. induction defines as [|d rest IH]; intros ctx Ha; [exact Ha|].
  cbn [add_defines].
  pose proof (accounted_add_define b ctx (identifier d) (definition d) Ha) as H1.
  destruct (add_define ctx (identifier d) (definition d)) as [[|] c1];
    cbn [snd] in *; [now apply IH | exact H1].
Qed.

Lemma system_filename_loop_frame (n : nat) (state : IncludeState) :
  conditional_stack (snd (system_filename_loop n state)) = conditional_stack state.
Proof.
  revert state. induction n as [|n IH]; intros state; simpl.
  - destruct (bytes_left state =? 0); reflexivity.
  - destruct (bytes_left state =? 0); [reflexivity|].
    destruct (_ || _); [reflexivity|].
    destruct (Ascii.eqb _ ">"); [reflexivity|]. now rewrite IH.
Qed.

Lemma system_filename_loop_base (n : nat) (state : IncludeState) :
  source_base (snd (system_filename_loop n state)) = source_base state.
Proof.
  revert state. induction n as [|n IH]; intros state; simpl.
  - destruct (bytes_left state =? 0); reflexivity.
  - destruct (bytes_left state =? 0); [reflexivity|].
    destruct (_ || _); [reflexivity|].
    destruct (Ascii.eqb _ ">"); [reflexivity|]. now rewrite IH.
Qed.

Lemma lexer_conds (lexer : IncludeState -> Token * IncludeState)
    (Hframe : lexer_frame lexer) (s : IncludeState) :
  conditional_stack (snd (lexer s)) = conditional_stack s.
Proof. exact (proj1 (Hframe s)). Qed.

Lemma require_newline_conds (lexer : IncludeState -> Token * IncludeState)
    (Hframe : lexer_frame lexer) (s : IncludeState) :
  conditional_stack (snd (require_newline lexer s)) = conditional_stack s.
Proof. exact (proj1 (require_newline_frame lexer s Hframe)). Qed.

(** Block accounting survives every operation of the dispatcher. *)
Lemma accounted_preserved (b : Z) : Preserved (accounted b).
Proof.
  constructor.
  - intros ctx v. apply accounted_set_isfail.
  - intros ctx v. apply accounted_set_failstr.
  - intros ctx v. apply accounted_set_close_callback.
  - intros ctx state rest s Hs Hc.
    apply (accounted_set_state b ctx state s rest Hs). now rewrite Hc.
  - intros ctx state rest z c1 s cond Hs Hget Hc _ _.
    apply (accounted_push_cond b ctx c1 state s rest z Hs Hget). now rewrite Hc.
  - intros ctx c1. apply accounted_get_conditional_NULL.
  - intros ctx state rest s c Hs Hc.
    apply (accounted_pop_cond b ctx state s rest c Hs). now rewrite Hc.
  - intros ctx state rest s c next Hs Hc Hs'.
    apply (accounted_set_state b ctx state s rest Hs). now rewrite Hc, Hs'.
  - intros ctx. apply accounted_pop_source.
  - intros ctx fname src srclen incl. apply accounted_push_source.
  - intros ctx fname. apply accounted_cache_filename.
  - intros ctx sym. apply accounted_remove_define.
Qed.

(** ** Invariants of a pull *)

Section Invariants.

Variable lexer : IncludeState -> Token * IncludeState.
Hypothesis Hframe : lexer_frame lexer.
Variable Inv : Context -> Prop.
Hypothesis HInv : Preserved Inv.

Lemma inv_fail (ctx : Context) (msg : string) : Inv ctx -> Inv (fail ctx msg).
Proof.
  intros H. unfold fail, failf.
  apply (inv_failstr Inv HInv), (inv_isfail Inv HInv), H.
Qed.

Lemma handle_pp_endif_inv (ctx ctx' : Context) :
  Inv ctx -> handle_pp_endif lexer ctx = Done ctx' -> Inv ctx'.
Proof.
  intros Ha. unfold handle_pp_endif.
  destruct (include_stack ctx) as [|state rest] eqn:Hs; [discriminate|].
  pose proof (require_newline_conds lexer Hframe state) as Hc.
  destruct (require_newline lexer state) as [eol s1]. cbn [snd] in Hc.
  pose proof (inv_cursor Inv HInv ctx state rest s1 Hs Hc Ha) as H1.
  destruct eol; cbn [negb].
  2:{ intros H. injection H as <-. now apply inv_fail. }
  destruct (conditional_stack state) as [|c next] eqn:Hcs;
    intros H; injection H as <-; [now apply inv_fail|].
  apply (inv_pop_cond Inv HInv (set_state s1 ctx) s1 rest _ c);
    [eapply include_stack_set_state; eauto | exact Hc | exact H1].
Qed.

Lemma handle_pp_else_inv (ctx ctx' : Context) :
  Inv ctx -> handle_pp_else lexer ctx = Done ctx' -> Inv ctx'.
Proof.
  intros Ha. unfold handle_pp_else.
  destruct (include_stack ctx) as [|state rest] eqn:Hs; [discriminate|].
  pose proof (require_newline_conds lexer Hframe state) as Hc.
  destruct (require_newline lexer state) as [eol s1]. cbn [snd] in Hc.
  pose proof (inv_cursor Inv HInv ctx state rest s1 Hs Hc Ha) as H1.
  destruct eol; cbn [negb].
  2:{ intros H. injection H as <-. now apply inv_fail. }
  destruct (conditional_stack state) as [|c next] eqn:Hcs;
    [intros H; injection H as <-; now apply inv_fail|].
  assert (Hok : Inv
            (set_state
               (set_conditional_stack
                  (mkConditional TOKEN_PP_ELSE (linenum c) (chosen c)
                     (if negb (chosen c) then true else chosen c) :: next) s1)
               (set_state s1 ctx))).
  { apply (inv_else Inv HInv (set_state s1 ctx) s1 rest _ c next);
      [eapply include_stack_set_state; eauto | exact Hc | | exact H1].
    cbn [set_conditional_stack conditional_stack]. now destruct (chosen c). }
  destruct (type c); intros H; injection H as <-;
    first [exact Hok | now apply inv_fail].
Qed.

Lemma _handle_pp_ifdef_inv (ctx ctx' : Context) (ty : Token)
    (r : option Conditional) :
  ty = TOKEN_PP_IFDEF \/ ty = TOKEN_PP_IFNDEF ->
  Inv ctx -> _handle_pp_ifdef lexer ctx ty = Done (r, ctx') -> Inv ctx'.
Proof.
  intros Hty Ha. unfold _handle_pp_ifdef.
  destruct (include_stack ctx) as [|state rest] eqn:Hs; [discriminate|].
  pose proof (lexer_conds lexer Hframe state) as Hc0.
  destruct (lexer state) as [tok s0]. cbn [snd] in Hc0.
  assert (Hbad : forall msg, Inv (fail (set_state s0 ctx) msg)).
  { intros msg. apply inv_fail.
    apply (inv_cursor Inv HInv ctx state rest s0 Hs Hc0 Ha). }
  destruct tok; try (intros H; injection H as <- <-; apply Hbad).
  destruct (copy_token_but_last s0) as [sym|]; [|discriminate].
  pose proof (require_newline_conds lexer Hframe s0) as Hc.
  destruct (require_newline lexer s0) as [eol s1]. cbn [snd] in Hc.
  rewrite Hc0 in Hc.
  pose proof (inv_cursor Inv HInv ctx state rest s1 Hs Hc Ha) as H1.
  pose proof (include_stack_set_state s1 state rest ctx Hs) as Hs1.
  destruct eol; cbn [negb].
  2:{ intros H. injection H as <- <-. destruct ty; now apply inv_fail. }
  destruct (get_conditional (set_state s1 ctx)) as [[z|] c1] eqn:Hget;
    intros H; injection H as <- <-.
  - eapply (inv_push_cond Inv HInv (set_state s1 ctx) s1 rest z c1);
      [exact Hs1 | exact Hget | reflexivity | exact Hty | reflexivity | exact H1].
  - exact (inv_no_cond Inv HInv _ _ Hget H1).
Qed.

Lemma unterminated_pp_condition_inv (ctx ctx' : Context) :
  Inv ctx -> unterminated_pp_condition ctx = Done ctx' -> Inv ctx'.
Proof.
  intros Ha. unfold unterminated_pp_condition.
  destruct (include_stack ctx) as [|state rest] eqn:Hs; [discriminate|].
  destruct (conditional_stack state) as [|cond next] eqn:Hcs; [discriminate|].
  intros H. injection H as <-.
  set (c0 := match type cond with TOKEN_PP_IF => _ | _ => _ end).
  assert (H0 : Inv c0 /\ include_stack c0 = state :: rest).
  { subst c0. destruct (type cond); split;
      first [exact Ha | exact Hs | now apply inv_fail]. }
  clearbody c0. destruct H0 as [H0 Hs0].
  apply (inv_pop_cond Inv HInv c0 state rest _ cond Hs0); [|exact H0].
  exact Hcs.
Qed.

Lemma handle_pp_undef_inv (ctx ctx' : Context) :
  Inv ctx -> handle_pp_undef lexer ctx = Done ctx' -> Inv ctx'.
Proof.
  intros Ha. unfold handle_pp_undef.
  destruct (include_stack ctx) as [|state rest] eqn:Hs; [discriminate|].
  pose proof (lexer_conds lexer Hframe state) as Hc0.
  destruct (lexer state) as [tok s0]. cbn [snd] in Hc0.
  assert (Hbad : forall msg, Inv (fail (set_state s0 ctx) msg)).
  { intros msg. apply inv_fail.
    apply (inv_cursor Inv HInv ctx state rest s0 Hs Hc0 Ha). }
  destruct tok; try (intros H; injection H as <-; apply Hbad).
  destruct (copy_token_but_last s0) as [sym|]; [|discriminate].
  pose proof (require_newline_conds lexer Hframe s0) as Hc.
  destruct (require_newline lexer s0) as [eol s1]. cbn [snd] in Hc.
  rewrite Hc0 in Hc.
  pose proof (inv_cursor Inv HInv ctx state rest s1 Hs Hc Ha) as H1.
  destruct eol; cbn [negb]; intros H; injection H as <-.
  - now apply (inv_remove_define Inv HInv).
  - now apply inv_fail.
Qed.

Lemma handle_pp_line_inv (ctx ctx' : Context) :
  Inv ctx -> handle_pp_line lexer ctx = Done ctx' -> Inv ctx'.
Proof.
  intros Ha. unfold handle_pp_line.
  destruct (include_stack ctx) as [|state rest] eqn:Hs; [discriminate|].
  pose proof (lexer_conds lexer Hframe state) as Hc0.
  destruct (lexer state) as [tok s0]. cbn [snd] in Hc0.
  assert (Hbad : forall s msg,
             conditional_stack s = conditional_stack state ->
             Inv (fail (set_state s ctx) msg)).
  { intros s msg Hc. apply inv_fail.
    apply (inv_cursor Inv HInv ctx state rest s Hs Hc Ha). }
  destruct tok; try (intros H; injection H as <-; now apply Hbad).
  pose proof (lexer_conds lexer Hframe s0) as Hc1.
  destruct (lexer s0) as [tok s1]. cbn [snd] in Hc1. rewrite Hc0 in Hc1.
  destruct tok; try (intros H; injection H as <-; now apply Hbad).
  destruct (copy_token_but_last _) as [fname|]; [|discriminate].
  pose proof (require_newline_conds lexer Hframe (set_token (token s1 + 1) s1)) as Hc2.
  destruct (require_newline lexer _) as [eol s2]. cbn [snd] in Hc2.
  change (conditional_stack (set_token (token s1 + 1) s1))
    with (conditional_stack s1) in Hc2. rewrite Hc1 in Hc2.
  destruct eol; cbn [negb]; [|intros H; injection H as <-; now apply Hbad].
  pose proof (inv_cache_filename Inv HInv ctx (Some fname) Ha) as H3.
  pose proof (cache_filename_stack ctx (Some fname)) as Hs3.
  destruct (cache_filename ctx (Some fname)) as [cached c3]. cbn [snd] in H3, Hs3.
  intros H. injection H as <-.
  rewrite Hs in Hs3.
  apply (inv_cursor Inv HInv c3 state rest _ Hs3); [|exact H3].
  cbn [set_line set_filename conditional_stack]. exact Hc2.
Qed.

Lemma pp_error_scan_conds (fuel : nat) (state s : IncludeState) (data data' : option Z)
    (src : Z) :
  pp_error_scan lexer fuel state data = Done (s, src, data') ->
  conditional_stack s = conditional_stack state.
Proof.
  revert state data. induction fuel as [|fuel IH]; intros state data; simpl;
    [discriminate|].
  pose proof (lexer_conds lexer Hframe state) as Hc.
  destruct (lexer state) as [tok s0]. cbn [snd] in Hc.
  destruct (Token_eqb tok TOKEN_NEWLINE).
  { intros H. injection H as <- _ _. exact Hc. }
  destruct (_ || _).
  { intros H. injection H as <- _ _. exact Hc. }
  intros H. apply IH in H. congruence.
Qed.

Lemma handle_pp_error_inv (fuel : nat) (ctx ctx' : Context) :
  Inv ctx -> handle_pp_error lexer fuel ctx = Done ctx' -> Inv ctx'.
Proof.
  intros Ha. unfold handle_pp_error.
  destruct (include_stack ctx) as [|state rest] eqn:Hs; [discriminate|].
  destruct (pp_error_scan lexer fuel state None) as [[[s src] data]| |] eqn:Hscan;
    cbn [bind]; try discriminate.
  apply pp_error_scan_conds in Hscan.
  destruct data as [data|]; [|discriminate].
  destruct (_ || _); [discriminate|].
  intros H. injection H as <-.
  apply (inv_isfail Inv HInv), (inv_failstr Inv HInv).
  apply (inv_cursor Inv HInv ctx state rest _ Hs); [|exact Ha].
  cbn [set_source conditional_stack]. exact Hscan.
Qed.

Lemma handle_pp_include_inv (ctx ctx' : Context) :
  Inv ctx -> handle_pp_include lexer ctx = Done ctx' -> Inv ctx'.
Proof.
  intros Ha. unfold handle_pp_include.
  destruct (include_stack ctx) as [|state rest] eqn:Hs; [discriminate|].
  pose proof (lexer_conds lexer Hframe state) as Hc0.
  destruct (lexer state) as [tok s0]. cbn [snd] in Hc0.
  set (triple := match tok with TOKEN_STRING_LITERAL => _ | _ => _ end).
  assert (Ht : conditional_stack (snd triple) = conditional_stack state).
  { subst triple. destruct tok; try exact Hc0.
    destruct (Ascii.eqb _ "<"); [|exact Hc0].
    pose proof (system_filename_loop_frame (Z.to_nat (bytes_left s0)) s0) as Hl.
    destruct (system_filename_loop _ s0) as [bogus s']. cbn [snd] in *. congruence. }
  clearbody triple. destruct triple as [[incltype bogus] s1]. cbn [snd] in Ht.
  destruct bogus.
  { intros H. injection H as <-. apply inv_fail.
    apply (inv_cursor Inv HInv ctx state rest s1 Hs Ht Ha). }
  destruct (copy_token_but_last _) as [fname|]; [|discriminate].
  pose proof (require_newline_conds lexer Hframe (set_token (token s1 + 1) s1)) as Hc2.
  destruct (require_newline lexer _) as [eol s2]. cbn [snd] in Hc2.
  change (conditional_stack (set_token (token s1 + 1) s1))
    with (conditional_stack s1) in Hc2. rewrite Ht in Hc2.
  pose proof (inv_cursor Inv HInv ctx state rest s2 Hs Hc2 Ha) as H2.
  destruct eol; cbn [negb]; [|intros H; injection H as <-; now apply inv_fail].
  destruct (open_callback _ incltype fname _) as [[newdata newbytes]|];
    [|intros H; injection H as <-; now apply inv_fail].
  pose proof (inv_push_source Inv HInv _ (Some fname) newdata newbytes true H2) as H3.
  destruct (push_source _ (Some fname) newdata newbytes true) as [[|] c3];
    cbn [snd] in H3; intros H; injection H as <-;
    [exact H3 | now apply (inv_close Inv HInv)].
Qed.

Lemma nexttoken_step_inv (fuel : nat) (ctx : Context) (s : Step) :
  Inv ctx -> nexttoken_step lexer fuel ctx = Done s ->
  match s with
  | Return _ ctx' => Inv ctx'
  | Continue ctx' => Inv ctx'
  end.
Proof.
  intros Ha. unfold nexttoken_step.
  destruct (isfail ctx).
  { intros H. injection H as <-. now apply (inv_isfail Inv HInv). }
  destruct (include_stack ctx) as [|state rest] eqn:Hs.
  { intros H. injection H as <-. exact Ha. }
  pose proof (lexer_conds lexer Hframe state) as Hc0.
  destruct (lexer state) as [tok s0]. cbn [snd] in Hc0.
  pose proof (inv_cursor Inv HInv ctx state rest s0 Hs Hc0 Ha) as H1.
  set (c1 := set_state s0 ctx) in *. clearbody c1.
  assert (Hcont : forall o, (forall c', o = Done c' -> Inv c') ->
            continue o = Done s ->
            match s with
            | Return _ ctx' => Inv ctx'
            | Continue ctx' => Inv ctx'
            end).
  { intros o Ho H. apply continue_Done in H as (c' & -> & ->). now apply Ho. }
  assert (Hrest :
            (if top_skipping (conditional_stack state)
             then Done (Continue c1)
             else
               Done (Return
                       (mkTokenResult
                          (Some (slice (source_base s0) (token s0)
                                   (uint32 (source s0 - token s0))))
                          (uint32 (source s0 - token s0)) tok) c1)) = Done s ->
            match s with
            | Return _ ctx' => Inv ctx'
            | Continue ctx' => Inv ctx'
            end).
  { destruct (top_skipping _); intros H; injection H as <-; exact H1. }
  destruct tok; try exact Hrest.
  - destruct (top_skipping _); [intros H; injection H as <-; exact H1|].
    apply Hcont. intros c'. now apply handle_pp_include_inv.
  - destruct (top_skipping _); [intros H; injection H as <-; exact H1|].
    apply Hcont. intros c'. now apply handle_pp_line_inv.
  - destruct (top_skipping _); [intros H; injection H as <-; exact H1|].
    apply Hcont. intros c'. now apply handle_pp_undef_inv.
  - apply Hcont. intros c'. unfold handle_pp_ifdef.
    destruct (_handle_pp_ifdef lexer c1 TOKEN_PP_IFDEF) as [[r c2]| |] eqn:E;
      cbn [bind snd]; try discriminate.
    intros H. injection H as <-.
    exact (_handle_pp_ifdef_inv _ _ _ _ (or_introl eq_refl) H1 E).
  - apply Hcont. intros c'. unfold handle_pp_ifndef.
    destruct (_handle_pp_ifdef lexer c1 TOKEN_PP_IFNDEF) as [[r c2]| |] eqn:E;
      cbn [bind snd]; try discriminate.
    intros H. injection H as <-.
    exact (_handle_pp_ifdef_inv _ _ _ _ (or_intror eq_refl) H1 E).
  - apply Hcont. intros c'. now apply handle_pp_else_inv.
  - apply Hcont. intros c'. now apply handle_pp_endif_inv.
  - destruct (top_skipping _); [intros H; injection H as <-; exact H1|].
    apply Hcont. intros c'. now apply handle_pp_error_inv.
  - intros H. injection H as <-. now apply inv_fail.
  - (* TOKEN_EOI *)
    destruct (conditional_stack s0).
    + intros H. injection H as <-. now apply (inv_pop_source Inv HInv).
    + apply Hcont. intros c'. now apply unterminated_pp_condition_inv.
Qed.

Lemma nexttoken_inv (fuel : nat) (ctx ctx' : Context) (r : TokenResult) :
  Inv ctx -> _preprocessor_nexttoken lexer fuel ctx = Done (r, ctx') -> Inv ctx'.
Proof.
  revert ctx. induction fuel as [|fuel IH]; intros ctx Ha; [discriminate|].
  cbn [_preprocessor_nexttoken].
  destruct (nexttoken_step lexer fuel ctx) as [[r1 c1|c1]| |] eqn:E;
    try discriminate; pose proof (nexttoken_step_inv _ _ _ Ha E) as H1.
  - intros H. injection H as <- <-. exact H1.
  - now apply IH.
Qed.

Lemma after_pulls_inv (fuel calls : nat) (ctx ctx' : Context) :
  Inv ctx -> after_pulls lexer fuel calls ctx = Done ctx' -> Inv ctx'.
Proof.
  revert ctx. induction calls as [|calls IH]; intros ctx Ha; cbn [after_pulls].
  - intros H. injection H as <-. exact Ha.
  - unfold preprocessor_nexttoken.
    destruct (_preprocessor_nexttoken lexer fuel ctx) as [[r c1]| |] eqn:E;
      cbn [bind snd]; try discriminate.
    apply IH. exact (nexttoken_inv _ _ _ _ Ha E).
Qed.

End Invariants.

(** ** Tearing a context down *)

Lemma pop_all_sources_accounted (b : Z) (n : nat) (ctx : Context) :
  accounted b ctx -> accounted b (pop_all_sources n ctx).
Proof.
  revert ctx. induction n as [|n IH]; intros ctx Ha; [exact Ha|].
  cbn [pop_all_sources]. now apply IH, accounted_pop_source.
Qed.

Lemma pop_source_stack (ctx : Context) :
  include_stack (pop_source ctx) = List.tl (include_stack ctx).
Proof.
  unfold pop_source. destruct (include_stack ctx) as [|state next] eqn:Hs;
    [now rewrite Hs|].
  reflexivity.
Qed.

Lemma pop_all_sources_empty (n : nat) (ctx : Context) :
  length (include_stack ctx) = n -> include_stack (pop_all_sources n ctx) = [].
Proof.
  revert ctx. induction n as [|n IH]; intros ctx Hn; cbn [pop_all_sources].
  - now destruct (include_stack ctx).
  - apply IH. rewrite pop_source_stack.
    destruct (include_stack ctx); simpl in *; congruence.
Qed.

Lemma free_chain_fields (chain : list MOJOSHADER_preprocessorDefine) (ctx : Context) :
  let ctx' :=
    fold_left (fun c _ => Free (Free (Free c true) true) true) chain ctx in
  filename_cache ctx' = filename_cache ctx /\
  conditional_pool ctx' = conditional_pool ctx /\
  include_stack ctx' = include_stack ctx /\
  close_callback ctx' = close_callback ctx.
Proof.
  cbv zeta. revert ctx. induction chain as [|d chain IH]; intros ctx;
    [now repeat split|].
  cbn [fold_left]. destruct (IH (Free (Free (Free ctx true) true) true))
    as (-> & -> & -> & ->). now repeat split.
Qed.

Lemma free_all_defines_fields (ctx : Context) :
  filename_cache (free_all_defines ctx) = filename_cache ctx /\
  conditional_pool (free_all_defines ctx) = conditional_pool ctx /\
  include_stack (free_all_defines ctx) = include_stack ctx /\
  close_callback (free_all_defines ctx) = close_callback ctx.
Proof.
  unfold free_all_defines. generalize (seq 0 DEFINE_BUCKETS). intros l.
  revert ctx. induction l as [|i l IH]; intros ctx; [now repeat split|].
  cbn [fold_left].
  destruct (IH (fold_left (fun c _ => Free (Free (Free c true) true) true)
                  (define_bucket ctx i)
                  (set_define_hashtable (<[i := []]> (define_hashtable ctx)) ctx)))
    as (-> & -> & -> & ->).
  destruct (free_chain_fields (define_bucket ctx i)
              (set_define_hashtable (<[i := []]> (define_hashtable ctx)) ctx))
    as (-> & -> & -> & ->).
  now repeat split.
Qed.

Lemma free_filename_cache_effect (ctx : Context) :
  conditional_pool (free_filename_cache ctx) = conditional_pool ctx /\
  close_callback (free_filename_cache ctx) = close_callback ctx /\
  live_blocks (free_filename_cache ctx)
  = live_blocks ctx - 2 * Z.of_nat (length (filename_cache ctx)).
Proof.
  unfold free_filename_cache. generalize (filename_cache ctx). intros l.
  revert ctx. induction l as [|f l IH]; intros ctx.
  - cbn [fold_left length]. repeat split. lia.
  - cbn [fold_left]. destruct (IH (Free (Free ctx true) true)) as (-> & -> & ->).
    repeat split. unfold live_blocks.
    cbn [Free set_malloc_data malloc_data heap_free live length]. lia.
Qed.

Lemma free_conditional_pool_effect (ctx : Context) :
  close_callback (free_conditional_pool ctx) = close_callback ctx /\
  live_blocks (free_conditional_pool ctx)
  = live_blocks ctx - Z.of_nat (length (conditional_pool ctx)).
Proof.
  unfold free_conditional_pool. generalize (conditional_pool ctx). intros l.
  revert ctx. induction l as [|c l IH]; intros ctx.
  - cbn [fold_left length]. split; [reflexivity | lia].
  - cbn [fold_left]. destruct (IH (Free ctx true)) as (-> & ->).
    split; [reflexivity|]. unfold live_blocks.
    cbn [Free set_malloc_data malloc_data heap_free live length]. lia.
Qed.

Lemma free_all_defines_live (ctx : Context) :
  length (define_hashtable ctx) = DEFINE_BUCKETS ->
  live_blocks (free_all_defines ctx)
  = live_blocks ctx - 3 * entries (define_hashtable ctx).
Proof.
  intros Hlen.
  assert (Hfree : live (malloc_data (free_all_defines ctx)) =
                  live (malloc_data ctx)
                  - 3 * entries (take DEFINE_BUCKETS (drop 0 (define_hashtable ctx))))
    by exact (free_buckets_effect DEFINE_BUCKETS 0 ctx).
  rewrite drop_0 in Hfree.
  rewrite take_ge in Hfree by (rewrite Hlen; apply Nat.le_refl).
  exact Hfree.
Qed.

Lemma teardown_balance (b : Z) (ctx : Context) :
  include_stack ctx = [] -> accounted b ctx ->
  live_blocks
    (Free (free_conditional_pool (free_filename_cache (free_all_defines ctx))) true)
  = b.
Proof.
  intros Hs [Hlen Hlive].
  pose proof (free_all_defines_live ctx Hlen) as Hfree.
  destruct (free_all_defines_fields ctx) as (Hfc & Hpool & _ & _).
  destruct (free_filename_cache_effect (free_all_defines ctx)) as (Hpool2 & _ & Hlive2).
  destruct (free_conditional_pool_effect (free_filename_cache (free_all_defines ctx)))
    as (_ & Hlive3).
  rewrite Hpool2, Hpool in Hlive3. rewrite Hfc, Hfree in Hlive2.
  unfold owned_blocks in Hlive. rewrite Hs in Hlive. cbn [frames_blocks] in Hlive.
  assert (HF : forall c, live_blocks (Free c true) = live_blocks c - 1)
    by reflexivity.
  rewrite HF, Hlive3, Hlive2, Hlive. clear.
  generalize (entries (define_hashtable ctx)). intros e. lia.
Qed.

Lemma end_shape (teardown : Context -> Context) (ctx : Context) :
  live (fst (let c := teardown ctx in
             (malloc_data (Free c true), close_callback (Free c true))))
  = live_blocks (Free (teardown ctx) true).
Proof. reflexivity. Qed.

Lemma preprocessor_end_unfold (ctx : Context) :
  live (fst (preprocessor_end ctx)) =
  live_blocks
    (Free (free_conditional_pool
             (free_filename_cache
                (free_all_defines
                   (pop_all_sources (length (include_stack ctx)) ctx)))) true).
Proof.
  exact (end_shape
           (fun c =>
              free_conditional_pool
                (free_filename_cache
                   (free_all_defines
                      (pop_all_sources (length (include_stack c)) c)))) ctx).
Qed.

Lemma preprocessor_end_balance (b : Z) (ctx : Context) :
  accounted b ctx -> live (fst (preprocessor_end ctx)) = b.
Proof.
  intros Ha. rewrite preprocessor_end_unfold.
  apply teardown_balance.
  - apply pop_all_sources_empty. reflexivity.
  - apply pop_all_sources_accounted. exact Ha.
Qed.

Lemma fresh_context_accounted (open : MOJOSHADER_includeOpen) (d d1 : Heap) :
  heap_malloc 0 d = (true, d1) -> accounted (live d) (fresh_context open [] d1).
Proof.
  intros Hm. destruct (fresh_context_start_inv open d d1 Hm)
    as (Hs & Hfc & Hpool & Hlen & Hlive).
  split; [exact Hlen|]. unfold live_blocks, owned_blocks.
  rewrite Hs, Hfc, Hpool, Hlive. cbn [frames_blocks length]. lia.
Qed.

Lemma preprocessor_start_accounted (fname : option string) (src : string)
    (sourcelen : Z) (open : MOJOSHADER_includeOpen)
    (defines : list MOJOSHADER_preprocessorDefine) (d d' : Heap) (ctx : Context) :
  preprocessor_start fname src sourcelen open defines d = (Some ctx, d') ->
  accounted (live d) ctx.
Proof.
  unfold preprocessor_start.
  destruct (heap_malloc 0 d) as [[|] d1] eqn:Hm; cbn [negb]; [|discriminate].
  pose proof (accounted_add_defines (live d) defines _
                (fresh_context_accounted open d d1 Hm)) as H1.
  destruct (add_defines (fresh_context open [] d1) defines) as [[|] c1];
    [|discriminate].
  cbn [snd] in H1.
  pose proof (accounted_push_source (live d) c1 fname src sourcelen false H1) as H2.
  destruct (push_source c1 fname src sourcelen false) as [[|] c2]; [|discriminate].
  intros H. injection H as <- _. exact H2.
Qed.


(** X10.  [preprocessor_end] gives back every block of an accounted context,
    whatever is still on the include stack, in the define table, in the file
    name cache and in the conditional pool. *)
Theorem preprocessor_end_releases (before : Z) (ctx : Context) :
  accounted before ctx -> live (fst (preprocessor_end ctx)) = before.
Proof.
  intros Ha. rewrite preprocessor_end_unfold.
  apply teardown_balance.
  - apply pop_all_sources_empty. reflexivity.
  - apply pop_all_sources_accounted. exact Ha.
Qed.


Lemma header_root_accounted : accounted 0 header_root.
Proof. split; vm_compute; reflexivity. Qed.


Lemma header_session_accounted : accounted 0 header_session.
Proof. split; vm_compute; reflexivity. Qed.

Lemma preprocessor_end_releases_witness :
  live (fst (preprocessor_end header_session)) = 0.
Proof. exact (preprocessor_end_releases 0 header_session header_session_accounted). Defined.


(** ** The conditional directives *)

Lemma set_state_fields (s : IncludeState) (ctx : Context) :
  malloc_data (set_state s ctx) = malloc_data ctx /\
  conditional_pool (set_state s ctx) = conditional_pool ctx /\
  define_hashtable (set_state s ctx) = define_hashtable ctx /\
  filename_cache (set_state s ctx) = filename_cache ctx /\
  isfail (set_state s ctx) = isfail ctx /\
  failstr (set_state s ctx) = failstr ctx /\
  out_of_memory (set_state s ctx) = out_of_memory ctx /\
  close_callback (set_state s ctx) = close_callback ctx.
Proof. unfold set_state. destruct (include_stack ctx); repeat split. Qed.

Lemma set_state_malloc_data (s : IncludeState) (ctx : Context) :
  malloc_data (set_state s ctx) = malloc_data ctx.
Proof. apply set_state_fields. Qed.

Lemma set_state_pool (s : IncludeState) (ctx : Context) :
  conditional_pool (set_state s ctx) = conditional_pool ctx.
Proof. apply set_state_fields. Qed.

Lemma set_state_table (s : IncludeState) (ctx : Context) :
  define_hashtable (set_state s ctx) = define_hashtable ctx.
Proof. apply set_state_fields. Qed.

Section Conditionals.

Variable lexer : IncludeState -> Token * IncludeState.
Hypothesis Hframe : lexer_frame lexer.

(** What [_handle_pp_ifdef] does when it pushes a frame. *)
Lemma _handle_pp_ifdef_pushed (ctx ctx' : Context) (ty : Token) (cond : Conditional)
    (state : IncludeState) (rest : list IncludeState) :
  include_stack ctx = state :: rest ->
  _handle_pp_ifdef lexer ctx ty = Done (Some cond, ctx') ->
  exists sym s1 c1,
    copy_token_but_last (snd (lexer state)) = Some sym /\
    require_newline lexer (snd (lexer state)) = (true, s1) /\
    get_conditional (set_state s1 ctx) = (Some zeroed_conditional, c1) /\
    cond =
      mkConditional ty (uint32 (line s1 - 1))
        (if top_skipping (conditional_stack state) then true
         else
           let found :=
             match find_define ctx sym with Some _ => true | None => false end in
           match ty with TOKEN_PP_IFDEF => negb found | _ => found end)
        (negb
           (if top_skipping (conditional_stack state) then true
            else
              let found :=
                match find_define ctx sym with Some _ => true | None => false end in
              match ty with TOKEN_PP_IFDEF => negb found | _ => found end)) /\
    ctx' = set_state (set_conditional_stack (cond :: conditional_stack state) s1) c1.
Proof.
  intros Hs. unfold _handle_pp_ifdef. rewrite Hs.
  pose proof (lexer_conds lexer Hframe state) as Hc0.
  destruct (lexer state) as [tok s0]. cbn [snd] in *.
  destruct tok; try discriminate.
  destruct (copy_token_but_last s0) as [sym|]; [|discriminate].
  pose proof (require_newline_conds lexer Hframe s0) as Hc.
  destruct (require_newline lexer s0) as [eol s1]. cbn [snd] in Hc.
  rewrite Hc0 in Hc.
  destruct eol; cbn [negb]; [|discriminate].
  assert (Hfind : forall c1 z, get_conditional (set_state s1 ctx) = (z, c1) ->
                    find_define c1 sym = find_define ctx sym).
  { intros c1 z Hget. unfold find_define, define_bucket.
    unfold get_conditional in Hget.
    destruct (conditional_pool (set_state s1 ctx)).
    - pose proof (define_hashtable_Malloc (set_state s1 ctx) 0) as HM.
      destruct (Malloc (set_state s1 ctx) 0) as [[|] c2]; injection Hget as _ <-;
        cbn [snd] in HM; rewrite HM; unfold set_state; rewrite Hs; reflexivity.
    - injection Hget as _ <-. unfold set_state. rewrite Hs. reflexivity. }
  destruct (get_conditional (set_state s1 ctx)) as [[z|] c1] eqn:Hget;
    [|discriminate].
  assert (Hz : z = zeroed_conditional).
  { unfold get_conditional in Hget.
    destruct (conditional_pool (set_state s1 ctx)); [|congruence].
    destruct (Malloc (set_state s1 ctx) 0) as [[|] c2]; congruence. }
  subst z. rewrite (Hfind c1 _ eq_refl), Hc.
  intros H. injection H as <- <-.
  exists sym, s1, c1. repeat split. exact Hget.
Qed.

(** X12.  [#ifdef] and [#ifndef] are complementary.  From the same context
    both push a frame or neither does; the two frames carry the same line,
    each is chosen exactly when it is not skipping, and both leave the same
    allocator state and pool.  Outside a skipped group exactly one of the two
    frames is skipping; inside a skipped group both are. *)
Theorem ifdef_ifndef_complementary (ctx ctx1 : Context) (c1 : Conditional)
    (state : IncludeState) (rest : list IncludeState) :
  include_stack ctx = state :: rest ->
  _handle_pp_ifdef lexer ctx TOKEN_PP_IFDEF = Done (Some c1, ctx1) ->
  exists c2 ctx2,
    _handle_pp_ifdef lexer ctx TOKEN_PP_IFNDEF = Done (Some c2, ctx2) /\
    type c1 = TOKEN_PP_IFDEF /\ type c2 = TOKEN_PP_IFNDEF /\
    linenum c2 = linenum c1 /\
    chosen c1 = negb (skipping c1) /\ chosen c2 = negb (skipping c2) /\
    malloc_data ctx2 = malloc_data ctx1 /\
    conditional_pool ctx2 = conditional_pool ctx1 /\
    define_hashtable ctx2 = define_hashtable ctx1 /\
    (if top_skipping (conditional_stack state)
     then skipping c1 = true /\ skipping c2 = true
     else skipping c2 = negb (skipping c1)).
Proof.
  intros Hs H1.
  destruct (_handle_pp_ifdef_pushed ctx ctx1 _ c1 state rest Hs H1)
    as (sym & s1 & d1 & Hsym & Hnl & Hget & Hc1 & Hctx1).
  unfold _handle_pp_ifdef. rewrite Hs.
  unfold _handle_pp_ifdef in H1. rewrite Hs in H1.
  pose proof (lexer_conds lexer Hframe state) as Hc0.
  destruct (lexer state) as [tok s0]. cbn [snd] in *.
  destruct tok; try discriminate.
  rewrite Hsym, Hnl in *. cbn [negb] in *. rewrite Hget in *.
  eexists. eexists. split; [reflexivity|].
  injection H1 as H1c H1x. subst ctx1.
  rewrite <- H1c. cbn [type linenum chosen skipping].
  repeat split; try reflexivity.
  1-3: now rewrite ?set_state_malloc_data, ?set_state_pool, ?set_state_table.
  assert (Ht : conditional_stack s1 = conditional_stack state).
  { pose proof (require_newline_conds lexer Hframe s0) as Hc.
    rewrite Hnl in Hc. cbn [snd] in Hc. congruence. }
  rewrite Ht. destruct (top_skipping (conditional_stack state)).
  - split; reflexivity.
  - now rewrite negb_involutive.
Qed.

End Conditionals.

Lemma ifdef_ifndef_complementary_witness :
  exists c1 c2 ctx1 ctx2,
    _handle_pp_ifdef preprocessor_internal_lexer at_ifdef TOKEN_PP_IFDEF
    = Done (Some c1, ctx1) /\
    _handle_pp_ifdef preprocessor_internal_lexer at_ifdef TOKEN_PP_IFNDEF
    = Done (Some c2, ctx2) /\
    skipping c1 = false /\ skipping c2 = true.
Proof.
  destruct (_handle_pp_ifdef preprocessor_internal_lexer at_ifdef TOKEN_PP_IFDEF)
    as [[[c1|] ctx1]| |] eqn:E1; try (vm_compute in E1; discriminate).
  assert (Hs : include_stack at_ifdef
               = [mkIncludeState None false ("#ifdef FOOX" ++ LF ++ "a" ++ LF)%string
                    6 0 8 1 []])
    by (vm_compute; reflexivity).
  destruct (ifdef_ifndef_complementary preprocessor_internal_lexer
              preprocessor_internal_lexer_frame at_ifdef ctx1 c1 _ _ Hs E1)
    as (c2 & ctx2 & E2 & _ & _ & _ & _ & _ & _ & _ & _ & Hskip).
  exists c1, c2, ctx1, ctx2. split; [reflexivity|]. split; [exact E2|].
  cbn [conditional_stack top_skipping] in Hskip.
  assert (H1 : skipping c1 = false).
  { vm_compute in E1. injection E1 as <- _. reflexivity. }
  split; [exact H1|]. rewrite Hskip, H1. reflexivity.
Defined.

(** ** The open conditionals of reachable contexts *)

Lemma conds_ok_same (c1 c2 : Context) :
  include_stack c2 = include_stack c1 -> conds_ok c1 -> conds_ok c2.
Proof. unfold conds_ok. now intros ->. Qed.

Lemma put_conditionals_stack (item : list Conditional) (ctx : Context) :
  include_stack (put_conditionals ctx item) = include_stack ctx.
Proof. exact (proj1 (proj2 (proj2 (put_conditionals_effect item ctx)))). Qed.

Lemma push_source_stack (ctx : Context) (fname : option string) (src : string)
    (srclen : Z) (incl : bool) :
  include_stack (snd (push_source ctx fname src srclen incl)) = include_stack ctx \/
  exists cached,
    include_stack (snd (push_source ctx fname src srclen incl))
    = mkIncludeState cached incl src 0 0 srclen 1 [] :: include_stack ctx.
Proof.
  unfold push_source.
  destruct (Malloc_effect ctx 0) as (I1 & _).
  destruct (Malloc ctx 0) as [[|] c1]; cbn [negb snd fst] in *; [|now left].
  pose proof (cache_filename_stack c1 fname) as I2.
  destruct (cache_filename c1 fname) as [cached c2]. cbn [snd] in I2.
  assert (Hfree : include_stack (Free c2 true) = include_stack ctx)
    by (rewrite <- I1, <- I2; reflexivity).
  destruct fname as [f|], cached as [g|]; cbn [snd];
    first [ now left
          | right; eexists; cbn [set_include_stack include_stack];
            rewrite I2, I1; reflexivity ].
Qed.

Lemma remove_define_stack (ctx : Context) (sym : string) :
  include_stack (snd (remove_define ctx sym)) = include_stack ctx.
Proof.
  unfold remove_define.
  destruct (remove_from_chain (define_bucket ctx (hash_define sym)) sym);
    reflexivity.
Qed.

(** The shape of the open conditionals survives every operation of the
    dispatcher. *)
Lemma conds_ok_preserved : Preserved conds_ok.
Proof.
  constructor.
  - intros ctx v. now apply conds_ok_same.
  - intros ctx v. now apply conds_ok_same.
  - intros ctx v. now apply conds_ok_same.
  - intros ctx state rest s Hs Hc H. unfold conds_ok in *.
    rewrite (include_stack_set_state s state rest ctx Hs). rewrite Hs in H.
    apply Forall_cons in H as [H0 H]. apply Forall_cons. split; [|exact H].
    now rewrite Hc.
  - intros ctx state rest z c1 s cond Hs Hget Hc Hty Hch H. unfold conds_ok in *.
    assert (Hs1 : include_stack c1 = state :: rest).
    { rewrite <- Hs. replace c1 with (snd (get_conditional ctx))
        by (now rewrite Hget). apply include_stack_get_conditional. }
    rewrite (include_stack_set_state s state rest c1 Hs1). rewrite Hs in H.
    apply Forall_cons in H as [H0 H]. apply Forall_cons. split; [|exact H].
    rewrite Hc. apply Forall_cons. split; [|exact H0]. split.
    + destruct Hty as [->| ->]; auto.
    + intros Hsk. now rewrite Hch, Hsk.
  - intros ctx c1 Hget. apply conds_ok_same.
    replace c1 with (snd (get_conditional ctx)) by (now rewrite Hget).
    apply include_stack_get_conditional.
  - intros ctx state rest s c Hs Hc H. unfold conds_ok in *.
    rewrite put_conditionals_stack, (include_stack_set_state s state rest ctx Hs).
    rewrite Hs in H. apply Forall_cons in H as [H0 H].
    apply Forall_cons. split; [|exact H].
    rewrite Hc in H0. now apply Forall_cons in H0 as [_ H0].
  - intros ctx state rest s c next Hs Hc Hs' H. unfold conds_ok in *.
    rewrite (include_stack_set_state s state rest ctx Hs). rewrite Hs in H.
    apply Forall_cons in H as [H0 H]. apply Forall_cons. split; [|exact H].
    rewrite Hs'. rewrite Hc in H0. apply Forall_cons in H0 as [_ H0].
    apply Forall_cons. split; [|exact H0]. split; [auto | reflexivity].
  - intros ctx H. unfold conds_ok in *. rewrite pop_source_stack.
    destruct (include_stack ctx); [exact H|].
    now apply Forall_cons in H as [_ H].
  - intros ctx fname src srclen incl H. unfold conds_ok in *.
    destruct (push_source_stack ctx fname src srclen incl) as [->|[cached ->]];
      [exact H|].
    apply Forall_cons. split; [constructor | exact H].
  - intros ctx fname. apply conds_ok_same, cache_filename_stack.
  - intros ctx sym. apply conds_ok_same, remove_define_stack.
Qed.

Lemma preprocessor_start_conds_ok (fname : option string) (src : string)
    (sourcelen : Z) (open : MOJOSHADER_includeOpen)
    (defines : list MOJOSHADER_preprocessorDefine) (d d' : Heap) (ctx : Context) :
  preprocessor_start fname src sourcelen open defines d = (Some ctx, d') ->
  conds_ok ctx.
Proof.
  intros H. destruct (start_success_fields _ _ _ _ _ _ _ _ H) as (Hs & _).
  unfold conds_ok. rewrite Hs. repeat constructor.
Qed.

(** X13.  The open conditionals of a context reached from
    [preprocessor_start] by pulls are always frames of [#ifdef], [#ifndef] or
    [#else], each chosen whenever it is not skipping.  So
    [unterminated_pp_condition] never meets a frame it has no message for:
    at the end of a buffer it latches one of its three messages for these
    types, and the branches for [#if] and [#elif] and the assertion are
    never taken. *)
Theorem open_conditionals_well_typed
    (lexer : IncludeState -> Token * IncludeState)
    (fname : option string) (src : string) (sourcelen : Z)
    (open : MOJOSHADER_includeOpen)
    (defines : list MOJOSHADER_preprocessorDefine) (d d' : Heap)
    (fuel calls : nat) (ctx ctx' : Context) :
  lexer_frame lexer ->
  preprocessor_start fname src sourcelen open defines d = (Some ctx, d') ->
  after_pulls lexer fuel calls ctx = Done ctx' ->
  conds_ok ctx' /\
  forall state rest cond next,
    include_stack ctx' = state :: rest ->
    conditional_stack state = cond :: next ->
    exists msg ctx'',
      unterminated_pp_condition ctx' = Done ctx'' /\
      unterminated_message (type cond) = Some msg /\
      (msg = "Unterminated #ifdef" \/ msg = "Unterminated #ifndef" \/
       msg = "Unterminated #else") /\
      isfail ctx'' = true /\ failstr ctx'' = msg.
Proof.
  intros Hframe Hstart Hpulls.
  assert (Hok : conds_ok ctx').
  { apply (after_pulls_inv lexer Hframe conds_ok conds_ok_preserved
             fuel calls ctx ctx'); [|exact Hpulls].
    exact (preprocessor_start_conds_ok _ _ _ _ _ _ _ _ Hstart). }
  split; [exact Hok|].
  intros state rest cond next Hs Hc. unfold conds_ok in Hok. rewrite Hs in Hok.
  apply Forall_cons in Hok as [Hok _]. rewrite Hc in Hok.
  apply Forall_cons in Hok as [[Hty _] _].
  unfold unterminated_pp_condition. rewrite Hs, Hc.
  destruct Hty as [Hty|[Hty|Hty]]; rewrite Hty; eexists; eexists;
    (split; [reflexivity|]); (split; [reflexivity|]);
    (split; [auto|]);
    rewrite put_conditionals_pool;
    cbn [set_conditional_pool isfail failstr];
    rewrite !(proj1 (proj2 (proj2 (proj2 (proj2 (set_state_fields _ _)))))),
            !(proj1 (proj2 (proj2 (proj2 (proj2 (proj2 (set_state_fields _ _)))))));
    split; reflexivity.
Qed.

Lemma open_conditionals_well_typed_witness :
  conds_ok undef_session /\
  exists ctx'',
    unterminated_pp_condition undef_session = Done ctx'' /\
    failstr ctx'' = "Unterminated #ifdef".
Proof.
  assert (E1 : preprocessor_start None undef_then_ifdef
                 (Z.of_nat (String.length undef_then_ifdef)) no_includes
                 good_predefines (mkHeap [] 0)
               = (Some undef_root, malloc_data undef_root))
    by (vm_compute; reflexivity).
  assert (E2 : after_pulls preprocessor_internal_lexer 30 2 undef_root
               = Done undef_session)
    by (vm_compute; reflexivity).
  destruct (open_conditionals_well_typed preprocessor_internal_lexer _ _ _ _ _ _ _
              30 2 _ _ preprocessor_internal_lexer_frame E1 E2) as [Hok Hunt].
  split; [exact Hok|].
  assert (Hs : include_stack undef_session
               = [mkIncludeState None false undef_then_ifdef 24 23 0 3
                    [mkConditional TOKEN_PP_IFDEF 1 false true]])
    by (vm_compute; reflexivity).
  destruct (Hunt _ _ _ _ Hs eq_refl) as (msg & ctx'' & Hrun & Hmsg & _ & _ & Hstr).
  exists ctx''. split; [exact Hrun|].
  rewrite Hstr. cbn [type unterminated_message] in Hmsg. now injection Hmsg as <-.
Defined.

(** ** The defines of reachable contexts *)

Lemma defines_within_same (c0 c1 c2 : Context) :
  define_hashtable c2 = define_hashtable c1 ->
  defines_within c0 c1 -> defines_within c0 c2.
Proof.
  unfold defines_within, defines_wf, find_define, define_bucket. now intros ->.
Qed.

Lemma get_conditional_table (ctx : Context) :
  define_hashtable (snd (get_conditional ctx)) = define_hashtable ctx.
Proof.
  unfold get_conditional. destruct (conditional_pool ctx); [|reflexivity].
  pose proof (define_hashtable_Malloc ctx 0) as H.
  destruct (Malloc ctx 0) as [[|] c1]; exact H.
Qed.

Lemma put_conditionals_table (item : list Conditional) (ctx : Context) :
  define_hashtable (put_conditionals ctx item) = define_hashtable ctx.
Proof. exact (proj1 (put_conditionals_effect item ctx)). Qed.

Lemma pop_source_table (ctx : Context) :
  define_hashtable (pop_source ctx) = define_hashtable ctx.
Proof.
  unfold pop_source. destruct (include_stack ctx) as [|state next]; [reflexivity|].
  cbn [Free set_malloc_data set_include_stack define_hashtable].
  rewrite put_conditionals_table. now destruct (included state).
Qed.

Lemma cache_filename_table (ctx : Context) (fname : option string) :
  define_hashtable (snd (cache_filename ctx fname)) = define_hashtable ctx.
Proof.
  destruct (cache_filename ctx fname) as [r c] eqn:E.
  exact (proj1 (proj2 (proj2 (cache_filename_keeps _ _ _ _ E)))).
Qed.

Lemma push_source_table (ctx : Context) (fname : option string) (src : string)
    (srclen : Z) (incl : bool) :
  define_hashtable (snd (push_source ctx fname src srclen incl))
  = define_hashtable ctx.
Proof.
  unfold push_source.
  pose proof (define_hashtable_Malloc ctx 0) as T1.
  destruct (Malloc ctx 0) as [[|] c1]; cbn [negb snd] in *; [|exact T1].
  pose proof (cache_filename_table c1 fname) as T2.
  destruct (cache_filename c1 fname) as [cached c2]. cbn [snd] in T2.
  destruct fname, cached; cbn [snd Free set_malloc_data set_include_stack
                                 define_hashtable]; congruence.
Qed.

(** No operation of the dispatcher adds to the define table. *)
Lemma defines_within_preserved (ctx0 : Context) : Preserved (defines_within ctx0).
Proof.
  constructor.
  - intros ctx v. now apply defines_within_same.
  - intros ctx v. now apply defines_within_same.
  - intros ctx v. now apply defines_within_same.
  - intros ctx state rest s _ _. apply defines_within_same, set_state_table.
  - intros ctx state rest z c1 s cond _ Hget _ _ _.
    apply defines_within_same. rewrite set_state_table.
    replace c1 with (snd (get_conditional ctx)) by (now rewrite Hget).
    apply get_conditional_table.
  - intros ctx c1 Hget. apply defines_within_same.
    replace c1 with (snd (get_conditional ctx)) by (now rewrite Hget).
    apply get_conditional_table.
  - intros ctx state rest s c _ _. apply defines_within_same.
    now rewrite put_conditionals_table, set_state_table.
  - intros ctx state rest s c next _ _ _.
    apply defines_within_same, set_state_table.
  - intros ctx. apply defines_within_same, pop_source_table.
  - intros ctx fname src srclen incl. apply defines_within_same, push_source_table.
  - intros ctx fname. apply defines_within_same, cache_filename_table.
  - intros ctx sym [Hwf Hle]. split; [now apply defines_wf_remove|].
    intros other val Hfind.
    destruct (String.eqb_spec other sym) as [->|Hne].
    + rewrite find_define_remove in Hfind by exact Hwf. discriminate.
    + rewrite find_define_remove_other in Hfind by assumption. now apply Hle.
Qed.

Lemma identifier_in_dec (sym : string) (defines : list MOJOSHADER_preprocessorDefine) :
  sym ∈ map identifier defines \/ sym ∉ map identifier defines.
Proof.
  induction defines as [|d rest IH]; [right; apply not_elem_of_nil|].
  cbn [map]. destruct (String.eqb_spec sym (identifier d)) as [->|Hne].
  - left. apply elem_of_cons. now left.
  - destruct IH as [IH|IH].
    + left. apply elem_of_cons. now right.
    + right. apply not_elem_of_cons. now split.
Qed.

Lemma preprocessor_start_defines (fname : option string) (src : string)
    (sourcelen : Z) (open : MOJOSHADER_includeOpen)
    (defines : list MOJOSHADER_preprocessorDefine) (d d' : Heap) (ctx : Context) :
  preprocessor_start fname src sourcelen open defines d = (Some ctx, d') ->
  defines_wf ctx /\
  forall sym val,
    find_define ctx sym = Some val ->
    exists def, def ∈ defines /\ identifier def = sym /\ definition def = val.
Proof.
  intros H. destruct (start_success_fields _ _ _ _ _ _ _ _ H)
    as (_ & c1 & Hadd & Htbl).
  destruct (add_defines_true_all defines _ _
              (defines_wf_fresh open [] (snd (heap_malloc 0 d))) Hadd)
    as (Hwf & Hall & Hframe & _).
  assert (Hfind : forall sym, find_define ctx sym = find_define c1 sym).
  { intros sym. unfold find_define, define_bucket. now rewrite Htbl. }
  split.
  { unfold defines_wf in *. now rewrite Htbl. }
  intros sym val Hsym. rewrite Hfind in Hsym.
  destruct (identifier_in_dec sym defines) as [Hin|Hout].
  - apply list_elem_of_In, in_map_iff in Hin as (def & <- & Hin).
    apply list_elem_of_In in Hin. exists def. split; [exact Hin|]. split; [reflexivity|].
    rewrite (Hall def Hin) in Hsym. now injection Hsym.
  - rewrite (Hframe sym Hout), find_define_fresh in Hsym. discriminate.
Qed.

(** X14.  Pulling tokens never defines a macro.  In a context reached from
    [preprocessor_start] by pulls, every identifier that is defined is one of
    the predefines handed to [preprocessor_start], with the text given
    there; the table keeps its 256 chains with no identifier twice in a
    chain. *)
Theorem pulls_never_define
    (lexer : IncludeState -> Token * IncludeState)
    (fname : option string) (src : string) (sourcelen : Z)
    (open : MOJOSHADER_includeOpen)
    (defines : list MOJOSHADER_preprocessorDefine) (d d' : Heap)
    (fuel calls : nat) (ctx ctx' : Context) :
  lexer_frame lexer ->
  preprocessor_start fname src sourcelen open defines d = (Some ctx, d') ->
  after_pulls lexer fuel calls ctx = Done ctx' ->
  defines_wf ctx' /\
  forall sym val,
    find_define ctx' sym = Some val ->
    find_define ctx sym = Some val /\
    exists def, def ∈ defines /\ identifier def = sym /\ definition def = val.
Proof.
  intros Hframe Hstart Hpulls.
  destruct (preprocessor_start_defines _ _ _ _ _ _ _ _ Hstart) as [Hwf Hpre].
  assert (Hin : defines_within ctx ctx').
  { apply (after_pulls_inv lexer Hframe (defines_within ctx)
             (defines_within_preserved ctx) fuel calls ctx ctx');
      [|exact Hpulls].
    split; [exact Hwf | auto]. }
  destruct Hin as [Hwf' Hle]. split; [exact Hwf'|].
  intros sym val Hfind. split; [now apply Hle|]. apply Hpre. now apply Hle.
Qed.

Lemma pulls_never_define_witness :
  find_define undef_session "BAR" = Some "2" /\
  find_define undef_root "BAR" = Some "2" /\
  find_define undef_session "FOO" = None.
Proof.
  assert (E1 : preprocessor_start None undef_then_ifdef
                 (Z.of_nat (String.length undef_then_ifdef)) no_includes
                 good_predefines (mkHeap [] 0)
               = (Some undef_root, malloc_data undef_root))
    by (vm_compute; reflexivity).
  assert (E2 : after_pulls preprocessor_internal_lexer 30 2 undef_root
               = Done undef_session)
    by (vm_compute; reflexivity).
  destruct (pulls_never_define preprocessor_internal_lexer _ _ _ _ _ _ _
              30 2 _ _ preprocessor_internal_lexer_frame E1 E2) as [_ Hle].
  assert (Hbar : find_define undef_session "BAR" = Some "2")
    by (vm_compute; reflexivity).
  split; [exact Hbar|]. split; [exact (proj1 (Hle _ _ Hbar))|].
  vm_compute. reflexivity.
Defined.

(** ** [#else], [#undef] and [#include] *)

Section Handlers.

Variable lexer : IncludeState -> Token * IncludeState.
Hypothesis Hframe : lexer_frame lexer.

(** X15.  [#else] on an open [#ifdef] or [#ifndef] frame, with the line
    properly ended: the frame becomes an [#else] frame on the same line that
    skips exactly when the frame had been chosen, and is chosen from now on;
    the frames below and the error latch are untouched.  For a frame pushed
    outside a skipped group this means the [#else] arm is read exactly when
    the first arm was not.  A second [#else] on the frame, wherever the
    cursor is by then, latches [#else after #else] and leaves the frame as it
    is. *)
Theorem else_switches_arm (ctx : Context) (state : IncludeState)
    (rest : list IncludeState) (cond : Conditional) (next : list Conditional) :
  include_stack ctx = state :: rest ->
  conditional_stack state = cond :: next ->
  type cond <> TOKEN_PP_ELSE ->
  fst (require_newline lexer state) = true ->
  exists ctx1 state1,
    handle_pp_else lexer ctx = Done ctx1 /\
    include_stack ctx1 = state1 :: rest /\
    conditional_stack state1 =
      mkConditional TOKEN_PP_ELSE (linenum cond) (chosen cond) true :: next /\
    isfail ctx1 = isfail ctx /\
    (chosen cond = negb (skipping cond) ->
     top_skipping (conditional_stack state1) = negb (skipping cond)) /\
    forall s,
      conditional_stack s = conditional_stack state1 ->
      fst (require_newline lexer s) = true ->
      exists ctx2 state2,
        handle_pp_else lexer (set_state s ctx1) = Done ctx2 /\
        isfail ctx2 = true /\ failstr ctx2 = "#else after #else" /\
        include_stack ctx2 = state2 :: rest /\
        conditional_stack state2 = conditional_stack state1.
Proof.
  intros Hs Hc Hty Hnl.
  pose proof (require_newline_conds lexer Hframe state) as Hc1.
  unfold handle_pp_else at 1. rewrite Hs.
  destruct (require_newline lexer state) as [eol s1] eqn:Hrn.
  cbn [fst snd] in Hnl, Hc1. subst eol. cbn [negb]. rewrite Hc.
  assert (Hnew : (if negb (chosen cond) then true else chosen cond) = true)
    by (now destruct (chosen cond)).
  rewrite Hnew.
  set (cond' := mkConditional TOKEN_PP_ELSE (linenum cond) (chosen cond) true).
  set (ctx1 := set_state (set_conditional_stack (cond' :: next) s1)
                 (set_state s1 ctx)).
  assert (Hs1 : include_stack ctx1
                = set_conditional_stack (cond' :: next) s1 :: rest).
  { unfold ctx1. eapply include_stack_set_state.
    eapply include_stack_set_state. exact Hs. }
  exists ctx1, (set_conditional_stack (cond' :: next) s1).
  split; [destruct (type cond); try reflexivity; congruence|].
  split; [exact Hs1|]. split; [reflexivity|].
  split; [unfold ctx1;
          now rewrite !(proj1 (proj2 (proj2 (proj2 (proj2 (set_state_fields _ _))))))|].
  split; [intros Hch; cbn [conditional_stack set_conditional_stack top_skipping
                           cond' skipping]; exact Hch|].
  intros s Hcs Hnl2.
  cbn [conditional_stack set_conditional_stack] in Hcs.
  pose proof (require_newline_conds lexer Hframe s) as Hc2.
  unfold handle_pp_else.
  rewrite (include_stack_set_state s _ rest ctx1 Hs1).
  destruct (require_newline lexer s) as [eol s2].
  cbn [fst snd] in Hnl2, Hc2. subst eol. cbn [negb]. rewrite Hcs.
  cbn [type cond'].
  exists (fail (set_state s2 (set_state s ctx1)) "#else after #else"), s2.
  split; [reflexivity|]. split; [reflexivity|]. split; [reflexivity|].
  split.
  - unfold fail, failf. cbn [include_stack set_failstr set_isfail].
    eapply include_stack_set_state. eapply include_stack_set_state. exact Hs1.
  - cbn [conditional_stack set_conditional_stack]. congruence.
Qed.

(** X16.  [#undef] removes the identifier it read, less its last byte.  When
    [handle_pp_undef] returns without latching an error, the name it took
    from the lexeme is strictly shorter than the lexeme, that name is not
    defined afterwards, and every other identifier is defined exactly as
    before. *)
Theorem undef_drops_last_byte (ctx ctx' : Context) (state : IncludeState)
    (rest : list IncludeState) :
  defines_wf ctx ->
  include_stack ctx = state :: rest ->
  isfail ctx = false ->
  handle_pp_undef lexer ctx = Done ctx' ->
  isfail ctx' = false ->
  fst (lexer state) = TOKEN_IDENTIFIER /\
  exists sym,
    copy_token_but_last (snd (lexer state)) = Some sym /\
    Z.of_nat (String.length sym)
    < uint32 (source (snd (lexer state)) - token (snd (lexer state))) /\
    find_define ctx' sym = None /\
    forall other, other <> sym -> find_define ctx' other = find_define ctx other.
Proof.
  intros Hwf Hs Hfail. unfold handle_pp_undef. rewrite Hs.
  destruct (lexer state) as [tok s0]. cbn [fst snd].
  destruct tok; try (intros H; injection H as <-; discriminate).
  unfold copy_token_but_last.
  destruct (uint32 (source s0 - token s0) =? 0) eqn:Hlen; [discriminate|].
  apply Z.eqb_neq in Hlen.
  destruct (require_newline lexer s0) as [eol s1].
  destruct eol; cbn [negb]; [|intros H; injection H as <-; discriminate].
  intros H _. injection H as <-.
  set (sym := cstr (slice (source_base s0) (token s0)
                      (uint32 (source s0 - token s0) - 1))).
  assert (Hwf1 : defines_wf (set_state s1 ctx)).
  { unfold defines_wf in *. now rewrite set_state_table. }
  assert (Hfind : forall id, find_define (set_state s1 ctx) id = find_define ctx id).
  { intros id. unfold find_define, define_bucket. now rewrite set_state_table. }
  split; [reflexivity|]. exists sym. split; [reflexivity|]. split.
  - assert (0 <= uint32 (source s0 - token s0))
      by (unfold uint32; apply Z.mod_pos_bound; lia).
    pose proof (cstr_length_le (slice (source_base s0) (token s0)
                                  (uint32 (source s0 - token s0) - 1))).
    pose proof (substring_length_le (Z.to_nat (token s0))
                  (Z.to_nat (uint32 (source s0 - token s0) - 1)) (source_base s0)).
    unfold sym, slice in *. lia.
  - split; [now apply find_define_remove|].
    intros other Hne. rewrite find_define_remove_other by assumption. apply Hfind.
Qed.


End Handlers.

Lemma else_switches_arm_witness :
  exists ctx1 state1,
    handle_pp_else preprocessor_internal_lexer (at_else skipping_ifdef_frame)
    = Done ctx1 /\
    include_stack ctx1 = [state1] /\
    top_skipping (conditional_stack state1) = false.
Proof.
  destruct (else_switches_arm preprocessor_internal_lexer
              preprocessor_internal_lexer_frame (at_else skipping_ifdef_frame)
              _ [] skipping_ifdef_frame [] eq_refl eq_refl)
    as (ctx1 & state1 & Hrun & Hs & _ & _ & Hskip & _).
  - discriminate.
  - vm_compute. reflexivity.
  - exists ctx1, state1. split; [exact Hrun|]. split; [exact Hs|].
    exact (Hskip eq_refl).
Defined.

Lemma after_keyword_defines_wf (ctx : Context) :
  defines_wf ctx -> defines_wf (after_keyword (Some ctx)).
Proof.
  intros H. cbn [after_keyword]. destruct (include_stack ctx); [exact H|].
  unfold defines_wf in *. now rewrite set_state_table.
Qed.

Lemma at_undef_wf : defines_wf at_undef.
Proof.
  assert (E : preprocessor_start None ("#undef FOOX" ++ LF ++ "a" ++ LF)%string 14
                no_includes good_predefines (mkHeap [] 0)
              = (Some (default at_undef
                         (start_on ("#undef FOOX" ++ LF ++ "a" ++ LF) good_predefines [])),
                 malloc_data
                   (default at_undef
                      (start_on ("#undef FOOX" ++ LF ++ "a" ++ LF) good_predefines []))))
    by (vm_compute; reflexivity).
  apply preprocessor_start_defines in E as [Hwf _].
  assert (E2 : start_on ("#undef FOOX" ++ LF ++ "a" ++ LF) good_predefines []
               = Some (default at_undef
                         (start_on ("#undef FOOX" ++ LF ++ "a" ++ LF) good_predefines [])))
    by (vm_compute; reflexivity).
  unfold at_undef at 1. rewrite E2. now apply after_keyword_defines_wf.
Qed.

Lemma undef_drops_last_byte_witness :
  find_define at_undef "FOO" = Some "1" /\
  find_define after_undef "FOO" = None /\
  find_define after_undef "BAR" = Some "2".
Proof.
  assert (Hs : include_stack at_undef
               = [mkIncludeState None false ("#undef FOOX" ++ LF ++ "a" ++ LF)%string
                    6 0 8 1 []])
    by (vm_compute; reflexivity).
  assert (E : handle_pp_undef preprocessor_internal_lexer at_undef = Done after_undef)
    by (vm_compute; reflexivity).
  destruct (undef_drops_last_byte preprocessor_internal_lexer at_undef after_undef
              _ _ at_undef_wf Hs eq_refl E eq_refl)
    as (_ & sym & Hsym & _ & Hgone & Hother).
  assert (Hname : sym = "FOO").
  { vm_compute in Hsym. now injection Hsym as <-. }
  subst sym. split; [vm_compute; reflexivity|]. split; [exact Hgone|].
  rewrite (Hother "BAR" ltac:(discriminate)). vm_compute. reflexivity.
Defined.


(** ** What a pull returns *)

Section Returned.

Variable lexer : IncludeState -> Token * IncludeState.

(** The three ways a turn of the dispatcher loop returns. *)
Lemma nexttoken_step_Return (fuel : nat) (ctx ctx' : Context) (r : TokenResult) :
  nexttoken_step lexer fuel ctx = Done (Return r ctx') ->
  (isfail ctx = true /\
   r = mkTokenResult (Some (failstr ctx)) (strlen (failstr ctx))
         TOKEN_PREPROCESSING_ERROR /\
   ctx' = set_isfail false ctx) \/
  (isfail ctx = false /\ include_stack ctx = [] /\
   r = mkTokenResult None 0 TOKEN_EOI /\ ctx' = ctx) \/
  (isfail ctx = false /\
   exists state rest,
     include_stack ctx = state :: rest /\
     top_skipping (conditional_stack state) = false /\
     handled_by_dispatcher (fst (lexer state)) = false /\
     r = mkTokenResult
           (Some (slice (source_base (snd (lexer state))) (token (snd (lexer state)))
                    (uint32 (source (snd (lexer state)) - token (snd (lexer state))))))
           (uint32 (source (snd (lexer state)) - token (snd (lexer state))))
           (fst (lexer state)) /\
     ctx' = set_state (snd (lexer state)) ctx).
Proof.
  unfold nexttoken_step. destruct (isfail ctx) eqn:Hfail.
  { intros H. injection H as <- <-. left. repeat split. }
  destruct (include_stack ctx) as [|state rest] eqn:Hs.
  { intros H. injection H as <- <-. right. left. repeat split. }
  destruct (lexer state) as [tok s0] eqn:El.
  intros H. right. right. split; [reflexivity|]. exists state, rest.
  rewrite El. cbn [fst snd]. split; [reflexivity|].
  destruct tok;
    try (exfalso; exact (continue_not_Return _ _ _ H));
    try discriminate H;
    try (destruct (conditional_stack s0);
         [discriminate H | exfalso; exact (continue_not_Return _ _ _ H)]);
    (destruct (top_skipping (conditional_stack state)); [discriminate H|]);
    try (exfalso; exact (continue_not_Return _ _ _ H));
    injection H as <- <-; repeat split.
Qed.

(** X18.  The caller's loop ends exactly at the end of input.
    [preprocessor_nexttoken] returns NULL if and only if the token is
    [TOKEN_EOI]; this happens only with the include stack empty and no error
    latched, with length 0, and from then on every pull returns the same
    again without changing the context. *)
Theorem null_exactly_at_eoi (fuel : nat) (ctx ctx' : Context) (r : TokenResult) :
  preprocessor_nexttoken lexer fuel ctx = Done (r, ctx') ->
  (tr_bytes r = None <-> tr_token r = TOKEN_EOI) /\
  (tr_token r = TOKEN_EOI ->
   tr_len r = 0 /\ include_stack ctx' = [] /\ isfail ctx' = false /\
   forall fuel',
     preprocessor_nexttoken lexer (S fuel') ctx' = Done (r, ctx')).
Proof.
  unfold preprocessor_nexttoken.
  revert ctx. induction fuel as [|fuel IH]; intros ctx; [discriminate|].
  cbn [_preprocessor_nexttoken].
  destruct (nexttoken_step lexer fuel ctx) as [[r1 c1|c1]| |] eqn:E;
    try discriminate; [|apply IH].
  intros H. injection H as <- <-.
  apply nexttoken_step_Return in E
    as [(Hf & -> & ->)|[(Hf & Hs & -> & ->)|(Hf & state & rest & Hs & _ & Hh & -> & ->)]];
    cbn [tr_bytes tr_token tr_len].
  - split; [split; discriminate | discriminate].
  - split; [split; reflexivity|]. intros _.
    split; [reflexivity|]. split; [exact Hs|]. split; [exact Hf|].
    intros fuel'. cbn [_preprocessor_nexttoken]. unfold nexttoken_step.
    now rewrite Hf, Hs.
  - split.
    + split; [discriminate|]. intros Ht. rewrite Ht in Hh. discriminate.
    + intros Ht. rewrite Ht in Hh. discriminate.
Qed.

(** X19.  What else a pull returns.  A token that is neither the end of
    input nor an error report is a lexeme of the top include frame: it is
    none of the tokens the dispatcher consumes itself (the conditional
    directives, [#include], [#line], [#error], [#undef], an incomplete
    comment), its bytes are the bytes of the frame between the start of the
    lexeme and the cursor, no error is latched, and, if the lexer leaves the
    conditional stack alone, the open conditional of that frame is not
    skipping. *)
Theorem returned_lexeme (fuel : nat) (ctx ctx' : Context) (r : TokenResult) :
  preprocessor_nexttoken lexer fuel ctx = Done (r, ctx') ->
  tr_token r <> TOKEN_EOI -> tr_token r <> TOKEN_PREPROCESSING_ERROR ->
  handled_by_dispatcher (tr_token r) = false /\
  isfail ctx' = false /\
  exists state rest,
    include_stack ctx' = state :: rest /\
    tr_len r = uint32 (source state - token state) /\
    tr_bytes r = Some (slice (source_base state) (token state) (tr_len r)) /\
    (lexer_frame lexer -> top_skipping (conditional_stack state) = false).
Proof.
  unfold preprocessor_nexttoken.
  revert ctx. induction fuel as [|fuel IH]; intros ctx; [discriminate|].
  cbn [_preprocessor_nexttoken].
  destruct (nexttoken_step lexer fuel ctx) as [[r1 c1|c1]| |] eqn:E;
    try discriminate; [|apply IH].
  intros H. injection H as <- <-.
  apply nexttoken_step_Return in E
    as [(Hf & -> & ->)|[(Hf & Hs & -> & ->)|(Hf & state & rest & Hs & Hsk & Hh & -> & ->)]];
    cbn [tr_bytes tr_token tr_len]; try congruence.
  intros _ _. split; [exact Hh|]. split.
  - now rewrite (proj1 (proj2 (proj2 (proj2 (proj2 (set_state_fields _ _)))))).
  - exists (snd (lexer state)), rest.
    split; [eapply include_stack_set_state; exact Hs|].
    split; [reflexivity|]. split; [reflexivity|].
    intros Hframe. now rewrite (proj1 (Hframe state)).
Qed.

End Returned.

Lemma null_exactly_at_eoi_witness :
  exists r ctx',
    preprocessor_nexttoken preprocessor_internal_lexer 30 undef_session = Done (r, ctx') /\
    tr_bytes r <> None /\ tr_token r <> TOKEN_EOI.
Proof.
  destruct (preprocessor_nexttoken preprocessor_internal_lexer 30 undef_session)
    as [[r ctx']| |] eqn:E; try (vm_compute in E; discriminate).
  exists r, ctx'. split; [reflexivity|].
  destruct (null_exactly_at_eoi preprocessor_internal_lexer 30 undef_session ctx' r E)
    as [[Hnull Heoi] _].
  assert (Hb : tr_bytes r <> None).
  { vm_compute in E. injection E as <- _. discriminate. }
  split; [exact Hb|]. intros Ht. apply Hb, Heoi, Ht.
Defined.

Lemma returned_lexeme_witness :
  exists state rest,
    include_stack (snd header_second_pull) = state :: rest /\
    tr_bytes (fst header_second_pull) = Some LF /\
    top_skipping (conditional_stack state) = false.
Proof.
  assert (E : preprocessor_nexttoken preprocessor_internal_lexer 30
                (snd header_first_pull)
              = Done (fst header_second_pull, snd header_second_pull))
    by (vm_compute; reflexivity).
  destruct (returned_lexeme preprocessor_internal_lexer 30 _ _ _ E)
    as (_ & _ & state & rest & Hs & _ & _ & Hskip).
  - vm_compute. discriminate.
  - vm_compute. discriminate.
  - exists state, rest. split; [exact Hs|]. split; [vm_compute; reflexivity|].
    exact (Hskip preprocessor_internal_lexer_frame).
Defined.

(** ** Closing included buffers *)

Lemma pop_source_close (ctx : Context) (state : IncludeState)
    (next : list IncludeState) :
  include_stack ctx = state :: next ->
  include_stack (pop_source ctx) = next /\
  close_callback (pop_source ctx)
  = if included state then source_base state :: close_callback ctx
    else close_callback ctx.
Proof.
  intros Hs. unfold pop_source. rewrite Hs.
  cbn [Free set_malloc_data set_include_stack include_stack close_callback].
  split; [reflexivity|].
  rewrite put_conditionals_pool. cbn [set_conditional_pool close_callback].
  now destruct (included state).
Qed.

Lemma pop_all_sources_close (n : nat) (ctx : Context) :
  length (include_stack ctx) = n ->
  close_callback (pop_all_sources n ctx)
  = rev (included_buffers (include_stack ctx)) ++ close_callback ctx.
Proof.
  revert ctx. induction n as [|n IH]; intros ctx Hn; cbn [pop_all_sources].
  - destruct (include_stack ctx); [reflexivity | discriminate].
  - destruct (include_stack ctx) as [|state next] eqn:Hs; [discriminate|].
    destruct (pop_source_close ctx state next Hs) as [Hs' Hc'].
    rewrite IH by (rewrite Hs'; simpl in Hn; congruence).
    rewrite Hs', Hc'. unfold included_buffers. cbn [List.filter].
    destruct (included state); cbn [map rev]; [|reflexivity].
    now rewrite <- app_assoc.
Qed.

Lemma end_shape_close (teardown : Context -> Context) (ctx : Context) :
  snd (let c := teardown ctx in
       (malloc_data (Free c true), close_callback (Free c true)))
  = close_callback (teardown ctx).
Proof. reflexivity. Qed.

Lemma preprocessor_end_close_unfold (ctx : Context) :
  snd (preprocessor_end ctx) =
  close_callback
    (free_conditional_pool
       (free_filename_cache
          (free_all_defines
             (pop_all_sources (length (include_stack ctx)) ctx)))).
Proof.
  exact (end_shape_close
           (fun c =>
              free_conditional_pool
                (free_filename_cache
                   (free_all_defines
                      (pop_all_sources (length (include_stack c)) c)))) ctx).
Qed.

(** X20.  [preprocessor_end] closes every included buffer still on the
    include stack, the innermost first, after those closed earlier; buffers
    of frames not pushed by [#include], the root buffer among them, are
    never handed to the close callback. *)
Theorem preprocessor_end_closes_included (ctx : Context) :
  snd (preprocessor_end ctx)
  = rev (included_buffers (include_stack ctx)) ++ close_callback ctx.
Proof.
  rewrite preprocessor_end_close_unfold.
  rewrite (proj1 (free_conditional_pool_effect _)).
  rewrite (proj1 (proj2 (free_filename_cache_effect _))).
  rewrite (proj2 (proj2 (proj2 (free_all_defines_fields _)))).
  now apply pop_all_sources_close.
Qed.

(** ** More on the chunked buffer *)

Lemma add_to_buffer_loop_eq (fuel : nat) (buffer : Buffer) (c : ascii)
    (data : list ascii) (d : Heap) :
  add_to_buffer_loop (S fuel) buffer (c :: data) d =
  let data := c :: data in
  let len := Z.of_nat (length data) in
  let avail := size_t_wrap (BUFFER_LEN - Z.of_nat (length (tail buffer))) in
  let cpy := if avail >? len then len else avail in
  let filled := tail buffer ++ firstn (Z.to_nat cpy) data in
  let data := skipn (Z.to_nat cpy) data in
  if Z.of_nat (length filled) =? BUFFER_LEN then
    let (item, d) := heap_malloc 0 d in
    if negb item then
      Done (false, mkBuffer (total_bytes buffer) (full buffer) filled, d)
    else
      add_to_buffer_loop fuel
        (mkBuffer (total_bytes buffer) (full buffer ++ [filled]) []) data d
  else
    add_to_buffer_loop fuel
      (mkBuffer (total_bytes buffer) (full buffer) filled) data d.
Proof. reflexivity. Qed.

(** X21.  Data that fits into the room left in the tail chunk is appended
    there: [add_to_buffer] succeeds at once, does not call the allocator and
    leaves the full chunks alone. *)
Theorem add_to_buffer_fits (buffer : Buffer) (data : list ascii) (d : Heap) :
  Z.of_nat (length (tail buffer)) + Z.of_nat (length data) < BUFFER_LEN ->
  add_to_buffer buffer data d =
    Done (true,
          mkBuffer (size_t_wrap (total_bytes buffer + Z.of_nat (length data)))
            (full buffer) (tail buffer ++ data),
          d).
Proof.
  intros Hfit. unfold add_to_buffer.
  destruct data as [|c data].
  - cbn [add_to_buffer_loop length]. now rewrite app_nil_r.
  - rewrite add_to_buffer_loop_eq. cbv zeta. cbn [tail full total_bytes].
    set (all := c :: data) in *.
    assert (Hlen : 0 < Z.of_nat (length all)) by (unfold all; simpl; lia).
    assert (Hbuf : BUFFER_LEN = 65536) by reflexivity.
    rewrite size_t_wrap_small by (unfold SIZE_T_MODULUS; lia).
    assert (Hgt : (BUFFER_LEN - Z.of_nat (length (tail buffer))
                   >? Z.of_nat (length all)) = true)
      by (apply Z.gtb_lt; lia).
    rewrite Hgt, Nat2Z.id, firstn_all, skipn_all.
    assert (Hne : (Z.of_nat (length (tail buffer ++ all)) =? BUFFER_LEN) = false)
      by (apply Z.eqb_neq; rewrite length_app; lia).
    rewrite Hne. unfold all at 1. reflexivity.
Qed.

Lemma add_to_buffer_fits_witness :
  add_to_buffer buffer_init spaces heap0
  = Done (true, mkBuffer 4 [] spaces, heap0).
Proof.
  exact (add_to_buffer_fits buffer_init spaces heap0 ltac:(vm_compute; reflexivity)).
Defined.

(** The chunks of a well-formed buffer are determined by the bytes stored. *)
Lemma buffer_wf_chunks (buffer : Buffer) :
  buffer_wf buffer ->
  Z.of_nat (length (stored buffer))
  = BUFFER_LEN * Z.of_nat (length (full buffer)) + Z.of_nat (length (tail buffer)).
Proof.
  intros [Hfull _]. unfold stored, chunks.
  rewrite concat_app, length_app. cbn [concat]. rewrite app_nil_r.
  induction Hfull as [|chunk chain Hc _ IH]; [simpl; lia|].
  cbn [concat length] in *. rewrite length_app. lia.
Qed.

(** The copy loop and the allocator: every chunk appended is one block
    taken, whether or not the loop succeeds in the end. *)
Lemma add_to_buffer_loop_blocks (fuel : nat) (buffer buffer' : Buffer)
    (data : list ascii) (d d' : Heap) (ok : bool) :
  add_to_buffer_loop fuel buffer data d = Done (ok, buffer', d') ->
  live d' - Z.of_nat (length (full buffer'))
  = live d - Z.of_nat (length (full buffer)).
Proof.
  revert buffer data d. induction fuel as [|fuel IH]; intros buffer data d.
  - destruct data; [|discriminate]. intros H. now injection H as _ <- <-.
  - destruct data as [|c data]; [intros H; now injection H as _ <- <-|].
    cbn [add_to_buffer_loop].
    destruct (_ =? BUFFER_LEN).
    + unfold heap_malloc. destruct (script d) as [|[|] rest]; cbn [negb].
      * intros H. apply IH in H. cbn [full live] in H.
        rewrite length_app in H. cbn [length] in H. lia.
      * intros H. apply IH in H. cbn [full live] in H.
        rewrite length_app in H. cbn [length] in H. lia.
      * intros H. injection H as _ <- <-. reflexivity.
    + intros H. apply IH in H. exact H.
Qed.

(** X22.  [add_to_buffer] on a buffer whose chunks before the tail are full
    and whose tail has room.  The call always returns; every chunk it
    appends is one block taken from the allocator, also when it fails; and
    when it succeeds the buffer holds one full chunk per 64 KiB of stored
    bytes, the rest being in the tail. *)
Theorem add_to_buffer_chunks (buffer : Buffer) (data : list ascii) (d : Heap) :
  buffer_wf buffer ->
  exists ok buffer' d',
    add_to_buffer buffer data d = Done (ok, buffer', d') /\
    live d' - Z.of_nat (length (full buffer'))
    = live d - Z.of_nat (length (full buffer)) /\
    (ok = true ->
     Z.of_nat (length (full buffer'))
     = (Z.of_nat (length (stored buffer)) + Z.of_nat (length data)) / BUFFER_LEN /\
     Z.of_nat (length (tail buffer'))
     = (Z.of_nat (length (stored buffer)) + Z.of_nat (length data)) mod BUFFER_LEN).
Proof.
  intros Hwf.
  destruct (add_to_buffer_spec buffer data d Hwf) as (ok & b' & d' & Hrun & _ & Hok).
  exists ok, b', d'. split; [exact Hrun|]. split.
  - unfold add_to_buffer in Hrun. apply add_to_buffer_loop_blocks in Hrun.
    exact Hrun.
  - intros Hyes. destruct (Hok Hyes) as [Hwf' Hst].
    pose proof (buffer_wf_chunks b' Hwf') as Hch.
    rewrite Hst, length_app, Nat2Z.inj_add in Hch.
    destruct Hwf' as [_ Htail].
    assert (Hbuf : BUFFER_LEN = 65536) by reflexivity.
    split.
    + apply (Z.div_unique_pos _ _ _ (Z.of_nat (length (tail b')))); lia.
    + apply (Z.mod_unique_pos _ _ (Z.of_nat (length (full b')))); lia.
Qed.

Lemma buffer_init_wf : buffer_wf buffer_init.
Proof. split; [constructor | reflexivity]. Qed.

Lemma add_to_buffer_chunks_witness :
  exists ok buffer' d',
    add_to_buffer buffer_init spaces heap0 = Done (ok, buffer', d') /\
    live d' - Z.of_nat (length (full buffer')) = 0.
Proof.
  destruct (add_to_buffer_chunks buffer_init spaces heap0 buffer_init_wf)
    as (ok & b' & d' & Hrun & Hblocks & _).
  exists ok, b', d'. split; [exact Hrun | exact Hblocks].
Defined.

Lemma free_buffer_live (buffer : Buffer) (d : Heap) :
  live (snd (free_buffer buffer d)) = live d - Z.of_nat (length (full buffer)).
Proof.
  unfold free_buffer. cbn [snd]. generalize (full buffer). intros chain.
  revert d. induction chain as [|chunk chain IH]; intros d; cbn [fold_left length].
  - lia.
  - rewrite IH. cbn [heap_free live]. lia.
Qed.

(** X23.  [free_buffer] after [add_to_buffer]: whether the call succeeded or
    ran out of memory half way, [free_buffer] leaves the buffer as
    [buffer_init] does and gives back every chunk block, those taken by the
    call and those the buffer held before. *)
Theorem free_buffer_releases (buffer buffer' : Buffer) (data : list ascii)
    (d d' : Heap) (ok : bool) :
  add_to_buffer buffer data d = Done (ok, buffer', d') ->
  fst (free_buffer buffer' d') = buffer_init /\
  live (snd (free_buffer buffer' d')) = live (snd (free_buffer buffer d)) /\
  live (snd (free_buffer buffer d)) = live d - Z.of_nat (length (full buffer)).
Proof.
  intros Hrun. split; [reflexivity|].
  rewrite !free_buffer_live. split; [|reflexivity].
  unfold add_to_buffer in Hrun. apply add_to_buffer_loop_blocks in Hrun.
  exact Hrun.
Qed.

Lemma free_buffer_releases_witness :
  live (snd (free_buffer (mkBuffer 4 [] spaces) heap0)) = 0.
Proof.
  assert (E : add_to_buffer buffer_init spaces heap0
              = Done (true, mkBuffer 4 [] spaces, heap0))
    by (vm_compute; reflexivity).
  destruct (free_buffer_releases _ _ _ _ _ _ E) as (_ & H1 & H2).
  rewrite H1, H2. reflexivity.
Defined.

(** ** Indentation *)

Lemma indent_buffer_loop_spec (n : nat) (fuel : nat) (buffer : Buffer) (d : Heap) :
  buffer_wf buffer -> (n < fuel)%nat ->
  exists ok buffer' d',
    indent_buffer_loop fuel buffer (Z.of_nat n) d = Done (ok, buffer', d') /\
    live d' - Z.of_nat (length (full buffer'))
    = live d - Z.of_nat (length (full buffer)) /\
    (ok = true ->
     buffer_wf buffer' /\ stored buffer' = stored buffer ++ indentation n).
Proof.
  revert fuel buffer d. induction n as [|n IH]; intros fuel buffer d Hwf Hfuel;
    (destruct fuel as [|fuel]; [lia|]).
  - exists true, buffer, d. cbn [indent_buffer_loop Z.of_nat Z.eqb].
    split; [reflexivity|]. split; [reflexivity|]. intros _.
    split; [exact Hwf|]. unfold indentation. cbn [replicate concat].
    now rewrite app_nil_r.
  - cbn [indent_buffer_loop].
    assert (Hz : (Z.of_nat (S n) =? 0) = false) by (apply Z.eqb_neq; lia).
    assert (Hm : (Z.of_nat (S n) =? INT_MIN) = false)
      by (apply Z.eqb_neq; unfold INT_MIN; lia).
    rewrite Hz, Hm.
    destruct (add_to_buffer_spec buffer spaces d Hwf)
      as (ok & b1 & d1 & Hrun & _ & Hok).
    pose proof Hrun as Hblocks. unfold add_to_buffer in Hblocks.
    apply add_to_buffer_loop_blocks in Hblocks. cbn [full] in Hblocks.
    rewrite Hrun. cbn [bind]. destruct ok; cbn [negb].
    + destruct (Hok eq_refl) as [Hwf1 Hst1].
      replace (Z.of_nat (S n) - 1) with (Z.of_nat n) by lia.
      destruct (IH fuel b1 d1 Hwf1 ltac:(lia))
        as (ok2 & b2 & d2 & Hrun2 & Hbl2 & Hok2).
      exists ok2, b2, d2. split; [exact Hrun2|]. split; [lia|].
      intros Hyes. destruct (Hok2 Hyes) as [Hwf2 Hst2]. split; [exact Hwf2|].
      rewrite Hst2, Hst1. unfold indentation. cbn [replicate concat].
      now rewrite <- app_assoc.
    + exists false, b1, d1. split; [reflexivity|]. split; [exact Hblocks|].
      discriminate.
Qed.

(** X24.  [indent_buffer] on a well-formed buffer with a count that is not
    negative.  With [newline] set it appends four spaces [n] times, within
    [n + 1] turns of its loop; with [newline] clear it appends a single
    space whatever [n] is.  It never loses track of a chunk block, also when
    it fails. *)
Theorem indent_buffer_appends (buffer : Buffer) (n : nat) (newline : bool)
    (d : Heap) :
  buffer_wf buffer ->
  exists ok buffer' d',
    indent_buffer (S n) buffer (Z.of_nat n) newline d = Done (ok, buffer', d') /\
    live d' - Z.of_nat (length (full buffer'))
    = live d - Z.of_nat (length (full buffer)) /\
    (ok = true ->
     buffer_wf buffer' /\
     stored buffer' =
       stored buffer ++ (if newline then indentation n else [" "%char])).
Proof.
  intros Hwf. unfold indent_buffer. destruct newline.
  - apply indent_buffer_loop_spec; [exact Hwf | lia].
  - destruct (add_to_buffer_spec buffer (firstn 1 spaces) d Hwf)
      as (ok & b1 & d1 & Hrun & _ & Hok).
    pose proof Hrun as Hblocks. unfold add_to_buffer in Hblocks.
    apply add_to_buffer_loop_blocks in Hblocks. cbn [full] in Hblocks.
    rewrite Hrun. cbn [bind]. exists ok, b1, d1.
    split; [now destruct ok|]. split; [exact Hblocks|]. exact Hok.
Qed.

Lemma indent_buffer_appends_witness :
  exists ok buffer' d',
    indent_buffer 3 buffer_init 2 true heap0 = Done (ok, buffer', d') /\
    (ok = true -> stored buffer' = indentation 2).
Proof.
  destruct (indent_buffer_appends buffer_init 2 true heap0 buffer_init_wf)
    as (ok & b' & d' & Hrun & _ & Hok).
  exists ok, b', d'. split; [exact Hrun|].
  intros Hyes. exact (proj2 (Hok Hyes)).
Defined.

(** The loop of [indent_buffer] from a negative count: it never ends by the
    count reaching zero. *)
Lemma indent_buffer_loop_negative (fuel : nat) (buffer buffer' : Buffer)
    (n : Z) (d d' : Heap) (ok : bool) :
  n < 0 ->
  indent_buffer_loop fuel buffer n d = Done (ok, buffer', d') -> ok = false.
Proof.
  revert buffer n d. induction fuel as [|fuel IH]; intros buffer n d Hn;
    [discriminate|].
  cbn [indent_buffer_loop].
  assert (Hz : (n =? 0) = false) by (apply Z.eqb_neq; lia).
  rewrite Hz. destruct (n =? INT_MIN); [discriminate|].
  destruct (add_to_buffer buffer spaces d) as [[[ok1 b1] d1]| |];
    cbn [bind]; try discriminate.
  destruct ok1; cbn [negb].
  - apply IH. lia.
  - intros H. now injection H as <- _ _.
Qed.

(** ** The entry point *)

Lemma free_error_list_effect (item : list MOJOSHADER_error) (d : Heap) :
  live (fst (free_error_list item d))
  = live d - error_blocks item - Z.of_nat (length item) /\
  snd (free_error_list item d) = without_filename item.
Proof.
  unfold free_error_list.
  assert (H : forall acc : Heap * Z,
            live (fst (fold_left free_error_item item acc))
            = live (fst acc) - error_blocks item - Z.of_nat (length item) /\
            snd (fold_left free_error_item item acc)
            = snd acc + without_filename item).
  { induction item as [|e item IH]; intros [d0 n0]; cbn [fold_left].
    - cbn [fst snd error_blocks without_filename fold_right length]. lia.
    - destruct (IH (free_error_item (d0, n0) e)) as [-> ->].
      cbn [error_blocks without_filename fold_right length].
      fold (error_blocks item). fold (without_filename item).
      unfold free_error_item.
      destruct (error_filename e); cbn [fst snd heap_free live]; lia. }
  destruct (H (d, 0)) as [H1 H2]. cbn [fst snd] in *. split; [exact H1 | lia].
Qed.

Lemma free_nodes_live (item : list MOJOSHADER_error) (d : Heap) :
  live (fold_left (fun d (_ : MOJOSHADER_error) => heap_free d) item d)
  = live d - Z.of_nat (length item).
Proof.
  revert d. induction item as [|e item IH]; intros d; cbn [fold_left length];
    [lia|]. rewrite IH. cbn [heap_free live]. lia.
Qed.

Lemma free_data_errors_live (item : list MOJOSHADER_error) (d : Heap) :
  live (fold_left
          (fun d e =>
             let d := heap_free d in
             match error_filename e with
             | Some _ => heap_free d
             | None => d
             end) item d)
  = live d - error_blocks item.
Proof.
  revert d. induction item as [|e item IH]; intros d;
    cbn [fold_left error_blocks fold_right]; [lia|].
  rewrite IH. fold (error_blocks item).
  destruct (error_filename e); cbn [heap_free live]; lia.
Qed.

Lemma heap_malloc_live (len : Z) (d d' : Heap) (ok : bool) :
  heap_malloc len d = (ok, d') -> live d' = live d + (if ok then 1 else 0).
Proof.
  unfold heap_malloc. destruct (script d) as [|[|] rest]; intros H;
    injection H as <- <-; cbn [live]; lia.
Qed.

Lemma free_data_live (item : list MOJOSHADER_error) (d : Heap) (output : Flat)
    (len : Z) :
  live (MOJOSHADER_freePreprocessData
          (preprocessData (Z.of_nat (length item)) item output len) d)
  = live d - 3 - error_blocks item.
Proof.
  cbn [MOJOSHADER_freePreprocessData].
  rewrite Nat2Z.id, firstn_all. cbn [heap_free live].
  rewrite free_data_errors_live. cbn [heap_free live]. lia.
Qed.

(** X27.  [free_error_list] gives back the node, the text and the file name
    of every error, and it hands the file name to [f] also when it is NULL:
    once for every error without a file name.
    [MOJOSHADER_freePreprocessData], which frees the same strings out of the
    array, tests the file name first. *)
Theorem free_error_list_passes_null (item : list MOJOSHADER_error) (d : Heap) :
  live (fst (free_error_list item d))
  = live d - error_blocks item - Z.of_nat (length item) /\
  snd (free_error_list item d) = without_filename item /\
  0 <= without_filename item <= Z.of_nat (length item) /\
  (without_filename item = 0 <->
   Forall (fun e => error_filename e <> None) item) /\
  forall (output : Flat) (len : Z),
    live (MOJOSHADER_freePreprocessData
            (preprocessData (Z.of_nat (length item)) item output len) d)
    = live d - 3 - error_blocks item.
Proof.
  destruct (free_error_list_effect item d) as [H1 H2].
  split; [exact H1|]. split; [exact H2|].
  assert (Hrange : 0 <= without_filename item <= Z.of_nat (length item)).
  { clear. induction item as [|e item IH]; cbn [without_filename fold_right length];
      [lia|]. fold (without_filename item). destruct (error_filename e); lia. }
  split; [exact Hrange|]. split.
  - clear H1 H2 Hrange. induction item as [|e item IH];
      cbn [without_filename fold_right]; [split; [constructor | reflexivity]|].
    fold (without_filename item).
    assert (0 <= without_filename item).
    { clear. induction item as [|e item IH]; cbn [without_filename fold_right];
        [lia|]. fold (without_filename item). destruct (error_filename e); lia. }
    destruct (error_filename e) eqn:Hf; split.
    + intros Hz. constructor; [congruence | now apply IH].
    + intros Hall. apply Forall_cons in Hall as [_ Hall]. now apply IH.
    + lia.
    + intros Hall. apply Forall_cons in Hall as [Hbad _]. congruence.
  - intros output len. cbn [MOJOSHADER_freePreprocessData].
    rewrite Nat2Z.id, firstn_all. cbn [heap_free live].
    rewrite free_data_errors_live. cbn [heap_free live]. lia.
Qed.

Lemma accounted_cast (b b' : Z) (ctx : Context) :
  b = b' -> accounted b ctx -> accounted b' ctx.
Proof. now intros ->. Qed.

Lemma accounted_set_malloc_data (b : Z) (ctx : Context) (d' : Heap) :
  accounted b ctx ->
  accounted (b + (live d' - live (malloc_data ctx))) (set_malloc_data d' ctx).
Proof.
  intros [Hlen Hlive]. split; [exact Hlen|].
  unfold live_blocks, owned_blocks in *.
  cbn [set_malloc_data malloc_data define_hashtable filename_cache
       conditional_pool include_stack]. lia.
Qed.

Lemma accounted_m_call (b : Z) (ctx ctx' : Context) (len : Z) (ok : bool) :
  m_call ctx len = (ok, ctx') -> accounted b ctx ->
  accounted (b + (if ok then 1 else 0)) ctx' /\
  include_stack ctx' = include_stack ctx.
Proof.
  unfold m_call. destruct (heap_malloc len (malloc_data ctx)) as [r d1] eqn:Hm.
  intros H Ha. injection H as <- <-. apply heap_malloc_live in Hm.
  split; [|reflexivity].
  apply (accounted_cast (b + (live d1 - live (malloc_data ctx)))); [lia|].
  now apply accounted_set_malloc_data.
Qed.

Lemma accounted_f_call (b : Z) (ctx : Context) :
  accounted b ctx -> accounted (b - 1) (f_call ctx).
Proof.
  intros Ha. unfold f_call.
  apply (accounted_cast
           (b + (live (heap_free (malloc_data ctx)) - live (malloc_data ctx))));
    [cbn [heap_free live]; lia|].
  now apply accounted_set_malloc_data.
Qed.

(** *** Buffer chains *)

Lemma add_to_buffer_blocks (b b' : Buffer) (data : list ascii) (d d' : Heap)
    (ok : bool) :
  add_to_buffer b data d = Done (ok, b', d') ->
  live d' - Z.of_nat (length (full b')) = live d - Z.of_nat (length (full b)).
Proof.
  unfold add_to_buffer. intros H. apply add_to_buffer_loop_blocks in H. exact H.
Qed.

Lemma indent_buffer_loop_blocks (fuel : nat) (b b' : Buffer) (n : Z) (d d' : Heap)
    (ok : bool) :
  indent_buffer_loop fuel b n d = Done (ok, b', d') ->
  live d' - Z.of_nat (length (full b')) = live d - Z.of_nat (length (full b)) /\
  (buffer_built b -> ok = true -> buffer_built b').
Proof.
  revert b n d. induction fuel as [|fuel IH]; intros b n d; [discriminate|].
  cbn [indent_buffer_loop]. destruct (n =? 0).
  { intros H. injection H as <- <- <-. split; [reflexivity | auto]. }
  destruct (n =? INT_MIN); [discriminate|].
  destruct (add_to_buffer b spaces d) as [[[ok1 b1] d1]| |] eqn:Hadd;
    cbn [bind]; try discriminate.
  pose proof (add_to_buffer_blocks _ _ _ _ _ _ Hadd) as Hbl.
  destruct ok1; cbn [negb].
  - intros H. destruct (IH _ _ _ H) as [Hbl2 Hbuilt]. split; [lia|].
    intros Hb. apply Hbuilt. exact (built_add b b1 spaces d d1 Hb Hadd).
  - intros H. injection H as <- <- <-. split; [exact Hbl | discriminate].
Qed.

Lemma indent_buffer_blocks (fuel : nat) (b b' : Buffer) (n : Z) (newline : bool)
    (d d' : Heap) (ok : bool) :
  indent_buffer fuel b n newline d = Done (ok, b', d') ->
  live d' - Z.of_nat (length (full b')) = live d - Z.of_nat (length (full b)) /\
  (buffer_built b -> ok = true -> buffer_built b').
Proof.
  unfold indent_buffer. destruct newline; [apply indent_buffer_loop_blocks|].
  destruct (add_to_buffer b (firstn 1 spaces) d) as [[[ok1 b1] d1]| |] eqn:Hadd;
    cbn [bind]; try discriminate.
  pose proof (add_to_buffer_blocks _ _ _ _ _ _ Hadd) as Hbl.
  destruct ok1; cbn [negb]; intros H; injection H as <- <- <-;
    (split; [exact Hbl|]); [|discriminate].
  intros Hb _. exact (built_add b b1 _ d d1 Hb Hadd).
Qed.

Lemma add_to_buffer_step (b b' : Buffer) (data : list ascii) (d d' : Heap)
    (ok : bool) :
  add_to_buffer b data d = Done (ok, b', d') ->
  live d' - Z.of_nat (length (full b')) = live d - Z.of_nat (length (full b)) /\
  (buffer_built b -> ok = true -> buffer_built b').
Proof.
  intros H. split; [exact (add_to_buffer_blocks _ _ _ _ _ _ H)|].
  intros Hb ->. exact (built_add b b' data d d' Hb H).
Qed.

Lemma add_token_step (b b' : Buffer) (tokstr : string) (len : Z) (d d' : Heap)
    (ok : bool) :
  add_token b tokstr len d = Done (ok, b', d') ->
  live d' - Z.of_nat (length (full b')) = live d - Z.of_nat (length (full b)) /\
  (buffer_built b -> ok = true -> buffer_built b').
Proof.
  unfold add_token. destruct (token_data tokstr len); [|discriminate].
  apply add_to_buffer_step.
Qed.

(** A chain [(!a) || (!b)]: the blocks stay accounted for, and the buffer
    stays built when every operand succeeded. *)
Lemma and_then_step (o : Outcome (bool * Buffer * Heap))
    (k : Buffer -> Heap -> Outcome (bool * Buffer * Heap))
    (b b' : Buffer) (d d' : Heap) (ok : bool) :
  (forall ok1 b1 d1, o = Done (ok1, b1, d1) ->
     live d1 - Z.of_nat (length (full b1)) = live d - Z.of_nat (length (full b)) /\
     (buffer_built b -> ok1 = true -> buffer_built b1)) ->
  (forall b1 d1 ok2 b2 d2, k b1 d1 = Done (ok2, b2, d2) ->
     live d2 - Z.of_nat (length (full b2)) = live d1 - Z.of_nat (length (full b1)) /\
     (buffer_built b1 -> ok2 = true -> buffer_built b2)) ->
  and_then o k = Done (ok, b', d') ->
  live d' - Z.of_nat (length (full b')) = live d - Z.of_nat (length (full b)) /\
  (buffer_built b -> ok = true -> buffer_built b').
Proof.
  intros Ho Hk. unfold and_then.
  destruct o as [[[ok1 b1] d1]| |]; cbn [bind]; try discriminate.
  destruct (Ho _ _ _ eq_refl) as [Hbl1 Hb1].
  destruct ok1.
  - intros H. destruct (Hk _ _ _ _ _ H) as [Hbl2 Hb2]. split; [lia|].
    intros Hb Hyes. apply Hb2; [now apply Hb1 | exact Hyes].
  - intros H. injection H as <- <- <-. split; [exact Hbl1 | discriminate].
Qed.

Lemma with_buffer_inv (before : Z) (ctx ctx' : Context) (st st' : PreprocessState)
    (n : Z) (isnewline oom : bool) (o : Outcome (bool * Buffer * Heap)) :
  (forall ok1 b1 d1, o = Done (ok1, b1, d1) ->
     live d1 - Z.of_nat (length (full b1))
     = live (malloc_data ctx) - Z.of_nat (length (full (st_buffer st))) /\
     (buffer_built (st_buffer st) -> ok1 = true -> buffer_built b1)) ->
  driver_inv before ctx st -> driver_wf st -> 0 <= n ->
  with_buffer ctx st n isnewline o = Done (oom, ctx', st') ->
  driver_inv before ctx' st' /\ (oom = false -> driver_wf st').
Proof.
  intros Ho Hinv (Hb & Hi & Hc) Hn. unfold with_buffer.
  destruct o as [[[ok1 b1] d1]| |]; cbn [bind]; try discriminate.
  destruct (Ho _ _ _ eq_refl) as [Hbl Hbuilt].
  intros H. injection H as <- <- <-. split.
  - unfold driver_inv, driver_blocks in *. cbn [st_buffer st_errors].
    apply (accounted_cast
             (before
              + (Z.of_nat (length (full (st_buffer st))) + error_blocks (st_errors st)
                 + Z.of_nat (length (st_errors st)))
              + (live d1 - live (malloc_data ctx)))); [lia|].
    now apply accounted_set_malloc_data.
  - intros Hok. apply negb_false_iff in Hok. subst ok1.
    split; [now apply Hbuilt|]. split; [exact Hn | exact Hc].
Qed.

Lemma preprocess_token_inv (before : Z) (endline : list ascii) (r : TokenResult)
    (tokstr : string) (ctx ctx' : Context) (st st' : PreprocessState) (oom : bool) :
  driver_inv before ctx st -> driver_wf st ->
  preprocess_token endline r tokstr ctx st = Done (oom, ctx', st') ->
  driver_inv before ctx' st' /\ (oom = false -> driver_wf st').
Proof.
  intros Hinv Hwf. pose proof Hwf as (Hb & Hi & Hc). unfold preprocess_token.
  assert (Hskip : forall isnewline,
            Done (true, ctx,
                  mkPreprocessState (st_buffer st) (st_errors st)
                    (st_error_count st) isnewline (st_indent st))
            = Done (oom, ctx', st') ->
            driver_inv before ctx' st' /\ (oom = false -> driver_wf st')).
  { intros isnewline H. injection H as <- <- <-.
    split; [exact Hinv | discriminate]. }
  destruct (Token_eqb (tr_token r) (TOKEN_CHAR NEWLINE)).
  { intros H. injection H as <- <- <-. split; [exact Hinv | intros _; exact Hwf]. }
  destruct (_ || _).
  { destruct (preprocessor_outofmemory ctx); [apply Hskip|].
    apply (with_buffer_inv before); try assumption.
    - intros ok1 b1 d1 H.
      eapply (and_then_step _ _ (st_buffer st) b1 (malloc_data ctx) d1 ok1);
        [| |exact H].
      + intros ok2 b2 d2. apply indent_buffer_blocks.
      + intros b2 d2 ok3 b3 d3 H3.
        eapply (and_then_step _ _ b2 b3 d2 d3 ok3); [| |exact H3].
        * intros ok4 b4 d4. apply add_token_step.
        * intros b4 d4 ok5 b5 d5. apply add_to_buffer_step.
    - destruct (_ && _) eqn:E; [|exact Hi].
      apply andb_true_iff in E as [_ E]. apply Z.ltb_lt in E. lia. }
  destruct (Token_eqb (tr_token r) (TOKEN_CHAR "{")).
  { destruct (preprocessor_outofmemory ctx); [apply Hskip|].
    destruct (st_indent st =? INT_MAX); [discriminate|].
    apply (with_buffer_inv before); try assumption; [|lia].
    intros ok1 b1 d1 H.
    eapply (and_then_step _ _ (st_buffer st) b1 (malloc_data ctx) d1 ok1);
      [| |exact H].
    - intros ok2 b2 d2. apply add_to_buffer_step.
    - intros b2 d2 ok3 b3 d3 H3.
      eapply (and_then_step _ _ b2 b3 d2 d3 ok3); [| |exact H3].
      + intros ok4 b4 d4. apply indent_buffer_blocks.
      + intros b4 d4 ok5 b5 d5 H5.
        eapply (and_then_step _ _ b4 b5 d4 d5 ok5); [| |exact H5].
        * intros ok6 b6 d6. apply add_to_buffer_step.
        * intros b6 d6 ok7 b7 d7. apply add_to_buffer_step. }
  destruct (Token_eqb (tr_token r) TOKEN_PREPROCESSING_ERROR).
  { destruct (preprocessor_outofmemory ctx); [apply Hskip|].
    destruct (m_call ctx 0) as [error c1] eqn:E1.
    destruct (accounted_m_call _ _ _ _ _ E1 Hinv) as [A1 S1].
    destruct (preprocessor_sourcepos c1) as [str pos] eqn:Hpos.
    set (second := match str with
                   | Some str0 => m_call c1 (strlen str0 + 1)
                   | None => (false, c1)
                   end).
    assert (A2 : accounted
                   (before + driver_blocks st + (if error then 1 else 0)
                    + (if fst second then 1 else 0)) (snd second) /\
                 (str = None -> fst second = false)).
    { subst second. destruct str as [str0|].
      - destruct (m_call c1 (strlen str0 + 1)) as [fname c2] eqn:E2.
        destruct (accounted_m_call _ _ _ _ _ E2 A1) as [A2 _].
        split; [exact A2 | discriminate].
      - cbn [fst snd]. split; [|reflexivity].
        eapply accounted_cast; [|exact A1]. lia. }
    clearbody second. destruct second as [fname c2]. cbn [fst snd] in A2.
    destruct A2 as [A2 Hnone].
    destruct (m_call c2 (tr_len r + 1)) as [errstr c3] eqn:E3.
    destruct (accounted_m_call _ _ _ _ _ E3 A2) as [A3 _].
    destruct (errstr && _); [discriminate|].
    destruct (_ || _) eqn:Hoom.
    - intros H. injection H as <- <- <-. split; [|discriminate].
      unfold driver_inv, driver_blocks. cbn [st_buffer st_errors].
      fold (driver_blocks st).
      assert (A4 : accounted
                     (before + driver_blocks st + (if error then 1 else 0)
                      + (if fname then 1 else 0))
                     (if errstr then f_call c3 else c3)).
      { destruct errstr.
        - eapply accounted_cast; [|exact (accounted_f_call _ _ A3)]. lia.
        - eapply accounted_cast; [|exact A3]. lia. }
      assert (A5 : accounted
                     (before + driver_blocks st + (if error then 1 else 0))
                     (if fname then f_call (if errstr then f_call c3 else c3)
                      else if errstr then f_call c3 else c3)).
      { destruct fname.
        - eapply accounted_cast; [|exact (accounted_f_call _ _ A4)]. lia.
        - eapply accounted_cast; [|exact A4]. lia. }
      destruct error.
      + eapply accounted_cast; [|exact (accounted_f_call _ _ A5)]. lia.
      + eapply accounted_cast; [|exact A5]. lia.
    - destruct (st_error_count st =? INT_MAX); [discriminate|].
      intros H. injection H as <- <- <-.
      apply orb_false_iff in Hoom as [Hoom He3].
      apply orb_false_iff in Hoom as [He1 He2].
      apply negb_false_iff in He1, He3. subst error errstr.
      split.
      + unfold driver_inv, driver_blocks in *. cbn [st_buffer st_errors].
        eapply accounted_cast; [|exact A3].
        rewrite length_app. cbn [length].
        assert (He : error_blocks
                       (st_errors st ++
                        [mkError (cstr tokstr)
                           match str with
                           | Some str0 => Some (cstr str0)
                           | None => None
                           end pos])
                     = error_blocks (st_errors st) + 1 + (if fname then 1 else 0)).
        { unfold error_blocks. rewrite fold_right_app.
          cbn [fold_right error_filename].
          generalize (st_errors st). intros l.
          assert (Hf : match
                         match str with
                         | Some str0 => Some (cstr str0)
                         | None => None
                         end
                       with
                       | Some _ => 1
                       | None => 0
                       end = (if fname then 1 else 0)).
          { destruct str; destruct fname; try reflexivity.
            - cbn in He2. discriminate.
            - now specialize (Hnone eq_refl). }
          rewrite Hf. induction l as [|e l IH]; cbn [fold_right]; lia. }
        rewrite He. lia.
      + intros _. split; [exact Hb|]. split; [exact Hi|].
        cbn [st_error_count st_errors]. rewrite length_app. cbn [length]. lia. }
  destruct (preprocessor_outofmemory ctx); [apply Hskip|].
  apply (with_buffer_inv before); try assumption.
  intros ok1 b1 d1 H.
  eapply (and_then_step _ _ (st_buffer st) b1 (malloc_data ctx) d1 ok1);
    [| |exact H].
  - intros ok2 b2 d2. apply indent_buffer_blocks.
  - intros b2 d2 ok3 b3 d3. apply add_token_step.
Qed.

Lemma preprocess_bail_live (before : Z) (ctx : Context) (st : PreprocessState)
    (d : Heap) (closed : list string) (nulls : Z) :
  driver_inv before ctx st ->
  preprocess_bail ctx st = (d, closed, nulls) -> live d = before.
Proof.
  intros Hinv. unfold preprocess_bail.
  pose proof (preprocessor_end_balance _ _ Hinv) as Hend.
  destruct (preprocessor_end ctx) as [d0 closed0]. cbn [fst] in Hend.
  pose proof (free_buffer_live (st_buffer st) d0) as Hfb.
  set (d1 := snd (free_buffer (st_buffer st) d0)) in *. clearbody d1.
  destruct (free_error_list_effect (st_errors st) d1) as [Hfe _].
  destruct (free_error_list (st_errors st) d1) as [d2 n2]. cbn [fst] in Hfe.
  intros H. injection H as <- _ _. unfold driver_blocks in Hend. lia.
Qed.

Lemma flatten_buffer_shape (b : Buffer) (d d' : Heap) (output : Flat) :
  buffer_built b ->
  flatten_buffer b d = (Done (Some output), d') ->
  live d' = live d + 1 /\
  flat_bytes output = stored b ++ [NUL] /\
  total_bytes b = Z.of_nat (length (stored b)) /\
  flat_size output = total_bytes b + 1.
Proof.
  intros Hb. destruct (buffer_built_inv b Hb) as [_ Htot].
  unfold flatten_buffer.
  destruct (heap_malloc (size_t_wrap (total_bytes b + 1)) d) as [[|] d1] eqn:Hm;
    cbn [negb]; [|discriminate].
  apply heap_malloc_live in Hm.
  rewrite flatten_fold. cbn [app]. change (concat (chunks b)) with (stored b).
  destruct (_ <=? _) eqn:Hfit; [|discriminate].
  intros H. injection H as <- <-. cbn [flat_bytes flat_size].
  apply Z.leb_le in Hfit. rewrite length_app in Hfit. cbn [length] in Hfit.
  assert (HM : SIZE_T_MODULUS = 18446744073709551616) by reflexivity.
  assert (Hs : 0 <= size_t_wrap (total_bytes b + 1) < SIZE_T_MODULUS)
    by (unfold size_t_wrap; apply Z.mod_pos_bound; lia).
  assert (Hsmall : Z.of_nat (length (stored b)) < SIZE_T_MODULUS - 1) by lia.
  assert (Ht : total_bytes b = Z.of_nat (length (stored b))).
  { rewrite Htot. apply size_t_wrap_small. lia. }
  split; [lia|]. split; [reflexivity|]. split; [exact Ht|].
  apply size_t_wrap_small. lia.
Qed.

Lemma flatten_buffer_live (b : Buffer) (d d' : Heap)
    (o : Outcome (option Flat)) :
  flatten_buffer b d = (o, d') ->
  live d' = live d + match o with Done (Some _) => 1 | Undefined => 1 | _ => 0 end.
Proof.
  unfold flatten_buffer.
  destruct (heap_malloc (size_t_wrap (total_bytes b + 1)) d) as [[|] d1] eqn:Hm;
    cbn [negb]; apply heap_malloc_live in Hm.
  - destruct (_ <=? _); intros H; injection H as <- <-; lia.
  - intros H. injection H as <- <-. lia.
Qed.

Lemma preprocess_finish_post (before : Z) (ctx : Context) (st : PreprocessState)
    (data : MOJOSHADER_preprocessData) (d : Heap) (closed : list string)
    (nulls : Z) :
  driver_inv before ctx st -> driver_wf st ->
  preprocess_finish ctx st = Done (data, d, closed, nulls) ->
  preprocess_post before data d nulls.
Proof.
  intros Hinv (Hb & _ & Hc). unfold preprocess_finish.
  pose proof (preprocessor_end_balance _ _ Hinv) as Hend.
  destruct (preprocessor_end ctx) as [d0 closed0]. cbn [fst] in Hend.
  unfold driver_blocks in Hend.
  destruct (flatten_buffer (st_buffer st) d0) as [output d1] eqn:Hflat.
  pose proof (flatten_buffer_live _ _ _ _ Hflat) as Hfl.
  pose proof (free_buffer_live (st_buffer st) d1) as Hfb.
  set (d2 := snd (free_buffer (st_buffer st) d1)) in *. clearbody d2.
  destruct output as [[output|]| |]; cbn [bind]; try discriminate.
  - pose proof (flatten_buffer_shape _ _ _ _ Hb Hflat) as (_ & Hbytes & Htot & Hsize).
    destruct (heap_malloc 0 d2) as [[|] d3] eqn:Hm; cbn [negb];
      apply heap_malloc_live in Hm.
    + unfold build_errors.
      destruct (heap_malloc _ d3) as [[|] d4] eqn:Hm2; cbn [negb];
        apply heap_malloc_live in Hm2.
      * destruct (_ <? _); cbn [bind]; [discriminate|].
        intros H. injection H as <- <- _ <-. cbn [preprocess_post].
        rewrite free_nodes_live.
        split; [lia|]. split; [exact Hc|]. split; [reflexivity|].
        exists (stored (st_buffer st)). split; [exact Hbytes|].
        split; [exact Htot | exact Hsize].
      * cbn [bind].
        destruct (free_error_list_effect (st_errors st) d4) as [Hfe _].
        destruct (free_error_list (st_errors st) d4) as [d5 n5]. cbn [fst] in Hfe.
        intros H. injection H as <- <- _ _. cbn [preprocess_post heap_free live].
        lia.
    + destruct (free_error_list_effect (st_errors st) d3) as [Hfe _].
      destruct (free_error_list (st_errors st) d3) as [d5 n5]. cbn [fst] in Hfe.
      intros H. injection H as <- <- _ _. cbn [preprocess_post heap_free live].
      lia.
  - destruct (free_error_list_effect (st_errors st) d2) as [Hfe _].
    destruct (free_error_list (st_errors st) d2) as [d5 n5]. cbn [fst] in Hfe.
    intros H. injection H as <- <- _ _. cbn [preprocess_post]. lia.
Qed.

Lemma preprocess_loop_post (lexer : IncludeState -> Token * IncludeState)
    (before : Z) (fuel calls : nat) (endline : list ascii) (ctx : Context)
    (st : PreprocessState) (data : MOJOSHADER_preprocessData) (d : Heap)
    (closed : list string) (nulls : Z) :
  lexer_frame lexer ->
  driver_inv before ctx st -> driver_wf st ->
  preprocess_loop lexer fuel calls endline ctx st = Done (data, d, closed, nulls) ->
  preprocess_post before data d nulls.
Proof.
  intros Hframe. revert ctx st.
  induction calls as [|calls IH]; intros ctx st Hinv Hwf; [discriminate|].
  cbn [preprocess_loop]. unfold preprocessor_nexttoken.
  destruct (_preprocessor_nexttoken lexer fuel ctx) as [[r c1]| |] eqn:Hpull;
    cbn [bind]; try discriminate.
  assert (H1 : driver_inv before c1 st).
  { unfold driver_inv in *.
    exact (nexttoken_inv lexer Hframe _ (accounted_preserved _) _ _ _ _ Hinv Hpull). }
  destruct (tr_bytes r) as [tokstr|]; [|now apply preprocess_finish_post].
  destruct (Token_eqb (tr_token r) TOKEN_EOI); [discriminate|].
  destruct (preprocess_token endline r tokstr c1 st) as [[[oom c2] st2]| |] eqn:Htok;
    cbn [bind]; try discriminate.
  destruct (preprocess_token_inv _ _ _ _ _ _ _ _ _ H1 Hwf Htok) as [H2 Hwf2].
  destruct oom.
  - destruct (preprocess_bail c2 st2) as [[d2 closed2] nulls2] eqn:Hbail.
    intros H. injection H as <- <- _ _. cbn [preprocess_post].
    exact (preprocess_bail_live _ _ _ _ _ _ H2 Hbail).
  - apply IH; [exact H2 | now apply Hwf2].
Qed.

Lemma driver_start (before : Z) (ctx : Context) :
  accounted before ctx ->
  driver_inv before ctx (mkPreprocessState buffer_init [] 0 true 0) /\
  driver_wf (mkPreprocessState buffer_init [] 0 true 0).
Proof.
  intros Ha. split.
  - unfold driver_inv, driver_blocks.
    cbn [st_buffer st_errors buffer_init full length error_blocks fold_right].
    eapply accounted_cast; [|exact Ha]. lia.
  - split; [constructor|]. split; [cbn; lia | reflexivity].
Qed.





(** ** [#line] *)

Section Line.

Variable lexer : IncludeState -> Token * IncludeState.
Hypothesis Hframe : lexer_frame lexer.


End Line.


(** ** The lexer instance takes a byte for every lexeme *)

Lemma scan_string_ge_within (k : nat) (s : string) (n : nat) :
  (String.length s <= k)%nat -> (n <= snd (scan_string s n))%nat.
Proof.
  revert s n. induction k as [|k IH]; intros s n Hk;
    destruct s as [|c s]; try (simpl in Hk; lia); simpl; try lia.
  destruct (Ascii.eqb c DQUOTE); [simpl; lia|].
  destruct (Ascii.eqb c NEWLINE); [simpl; lia|].
  destruct (Ascii.eqb c "\").
  - destruct s as [|c2 s2]; [simpl; lia|].
    destruct (Ascii.eqb c2 NEWLINE); [simpl; lia|].
    specialize (IH s2 (S (S n)) ltac:(simpl in Hk; lia)). simpl. lia.
  - specialize (IH s (S n) ltac:(simpl in Hk; lia)). lia.
Qed.

Lemma lex_decimal_pos (c : ascii) (rest : string) :
  is_digit c = true \/ c = "."%char ->
  (1 <= snd (lex_decimal (String c rest)))%nat.
Proof.
  intros [Hd | ->]; unfold lex_decimal.
  - assert (E : span is_digit (String c rest) = S (span is_digit rest))
      by (cbn [span]; now rewrite Hd).
    rewrite E. cbn [string_drop].
    destruct (string_drop (span is_digit rest) rest) as [|c' r1];
      [cbn [snd]; lia|].
    destruct (Ascii.eqb c' "."); [cbn [snd]; lia|].
    destruct (0 <? exponent_len _)%nat; cbn [snd]; lia.
  - assert (E : span is_digit (String "." rest) = 0%nat) by reflexivity.
    rewrite E. cbn [string_drop].
    change (Ascii.eqb "." ".") with true. cbv iota. cbn [snd]. lia.
Qed.

Lemma lex_number_pos (c : ascii) (rest : string) :
  is_digit c = true -> (1 <= snd (lex_number (String c rest)))%nat.
Proof.
  intros Hd. unfold lex_number.
  destruct rest as [|x rest]; [apply lex_decimal_pos; now left|].
  destruct (_ && _); [cbn [snd]; lia | apply lex_decimal_pos; now left].
Qed.

Lemma lex_at_pos (line_start : bool) (c : ascii) (rest : string) :
  (1 <= snd (lex_at line_start (String c rest)))%nat.
Proof.
  unfold lex_at.
  destruct (Ascii.eqb c NEWLINE); [cbn [snd]; lia|].
  destruct (is_ident_start c) eqn:Ei.
  { cbn [snd span]. unfold is_ident_char. rewrite Ei. cbn [orb]. lia. }
  destruct (is_digit c) eqn:Ed; [now apply lex_number_pos|].
  destruct (Ascii.eqb c "." && (0 <? span is_digit rest)%nat) eqn:Edot.
  { apply andb_prop in Edot as [Edot _]. apply Ascii.eqb_eq in Edot.
    apply lex_decimal_pos. now right. }
  destruct (Ascii.eqb c DQUOTE).
  { pose proof (scan_string_ge_within (String.length rest) rest 1 (le_n _)).
    destruct (scan_string rest 1) as [closed n]. cbn [snd] in *. lia. }
  destruct (Ascii.eqb c "#" && line_start
            && (0 <? span is_ident_char (string_drop (span is_space rest) rest))%nat);
    [cbn [snd]; lia|].
  destruct rest as [|c2 rest2]; [cbn [snd]; lia|].
  destruct (two_char_operator c c2); cbn [snd]; lia.
Qed.

Lemma preprocessor_internal_lexer_progress :
  lexer_progress preprocessor_internal_lexer.
Proof.
  intros s Hleft. unfold preprocessor_internal_lexer.
  set (w := slice (source_base s) (source s) (bytes_left s)).
  assert (Hw : Z.of_nat (String.length w) <= bytes_left s).
  { unfold w, slice.
    pose proof (substring_length_le (Z.to_nat (source s)) (Z.to_nat (bytes_left s))
                  (source_base s)). lia. }
  destruct (skip_blank_bounds w InCode 0 0 0 ltac:(discriminate)) as [Hpos Hopen].
  destruct (skip_blank InCode w 0 0 0) as [[pos lines] unclosed].
  cbn [fst snd] in Hpos, Hopen.
  destruct unclosed as [start|].
  - cbn [fst snd bytes_left set_line set_bytes_left set_token set_source].
    split; [lia|]. intros _ H. now contradiction H.
  - pose proof (lex_at_le (starts_line (source_base s) (source s + Z.of_nat pos))
                  (string_drop pos w)) as Hlen.
    pose proof (string_drop_length pos w) as Hdrop.
    assert (Hone : fst (lex_at (starts_line (source_base s) (source s + Z.of_nat pos))
                          (string_drop pos w)) <> TOKEN_EOI ->
                   (1 <= snd (lex_at (starts_line (source_base s)
                                        (source s + Z.of_nat pos))
                                (string_drop pos w)))%nat).
    { destruct (string_drop pos w) as [|c rest];
        [intros H; now contradiction H | intros _; apply lex_at_pos]. }
    destruct (lex_at _ (string_drop pos w)) as [tok len]. cbn [fst snd] in Hlen, Hone.
    cbn [fst snd bytes_left set_line set_bytes_left set_token set_source].
    split; [lia|]. intros T _. specialize (Hone T). lia.
Qed.

(** ** Termination of a pull *)

Lemma Token_eqb_neq (a b : Token) : Token_eqb a b = false -> a <> b.
Proof. unfold Token_eqb. destruct (Token_eq_dec a b); [discriminate | auto]. Qed.

Ltac moved :=
  unfold cursor_moved in *;
  cbn [conditional_stack bytes_left set_token set_source set_line set_filename
       set_bytes_left set_conditional_stack] in *;
  repeat match goal with H : _ /\ _ |- _ => destruct H end;
  split; [congruence | lia].

Lemma ends_with_impl {A : Type} (Q Q' : A -> Prop) (o : Outcome A) :
  (forall a, Q a -> Q' a) -> ends_with Q o -> ends_with Q' o.
Proof. destruct o; simpl; auto. Qed.

Lemma ends_with_continue (Q : Context -> Prop) (R : Step -> Prop)
    (o : Outcome Context) :
  (forall c, Q c -> R (Continue c)) -> ends_with Q o -> ends_with R (continue o).
Proof. destruct o; simpl; auto. Qed.

(** *** Operations that leave the include stack alone *)

Lemma same_frames_refl (ctx : Context) : same_frames ctx ctx.
Proof. split; reflexivity. Qed.

Lemma same_frames_fail (ctx : Context) (msg : string) :
  same_frames ctx (fail ctx msg).
Proof. split; reflexivity. Qed.

Lemma same_frames_Malloc (ctx : Context) (len : Z) :
  same_frames ctx (snd (Malloc ctx len)).
Proof.
  unfold Malloc. destruct (heap_malloc len (malloc_data ctx)) as [[|] d];
    split; reflexivity.
Qed.

Lemma same_frames_remove_define (ctx : Context) (sym : string) :
  same_frames ctx (snd (remove_define ctx sym)).
Proof.
  unfold remove_define. destruct (remove_from_chain _ _); split; reflexivity.
Qed.

Lemma same_frames_cache_filename (ctx : Context) (fname : option string) :
  same_frames ctx (snd (cache_filename ctx fname)).
Proof.
  unfold cache_filename. destruct fname as [fname|]; [|apply same_frames_refl].
  destruct (find_filename _ _); [apply same_frames_refl|].
  unfold Malloc.
  destruct (heap_malloc 0 (malloc_data ctx)) as [[|] d1]; cbn [negb];
    [|split; reflexivity].
  destruct (heap_malloc _ _) as [[|] d2]; split; reflexivity.
Qed.

Lemma same_frames_get_conditional (ctx : Context) :
  same_frames ctx (snd (get_conditional ctx)).
Proof.
  unfold get_conditional. destruct (conditional_pool ctx); [|split; reflexivity].
  unfold Malloc. destruct (heap_malloc 0 (malloc_data ctx)) as [[|] d];
    split; reflexivity.
Qed.

Lemma same_frames_put_conditionals (ctx : Context) (item : list Conditional) :
  same_frames ctx (put_conditionals ctx item).
Proof. rewrite put_conditionals_pool. split; reflexivity. Qed.

Lemma open_callback_set_state (s : IncludeState) (ctx : Context) :
  open_callback (set_state s ctx) = open_callback ctx.
Proof. unfold set_state. destruct (include_stack ctx); reflexivity. Qed.

Lemma top_moved_intro (n : nat) (ctx c1 : Context) (s y X : IncludeState)
    (rest : list IncludeState) :
  include_stack ctx = s :: rest -> include_stack c1 = y :: rest ->
  open_callback c1 = open_callback ctx ->
  (0 <= bytes_left s -> 0 <= bytes_left X <= bytes_left s) ->
  (length (conditional_stack X) <= n + length (conditional_stack s))%nat ->
  top_moved n ctx (set_state X c1).
Proof.
  intros Hs Hs1 Ho Hb Hl. split.
  - rewrite open_callback_set_state. exact Ho.
  - exists s, X, rest. split; [exact Hs|].
    split; [exact (include_stack_set_state X y rest c1 Hs1)|].
    split; assumption.
Qed.

Lemma top_moved_cursor (n : nat) (ctx : Context) (s X : IncludeState)
    (rest : list IncludeState) :
  include_stack ctx = s :: rest -> cursor_moved s X ->
  top_moved n ctx (set_state X ctx).
Proof.
  intros Hs [Hc Hb].
  apply (top_moved_intro n ctx ctx s s X rest Hs Hs eq_refl Hb).
  rewrite Hc. lia.
Qed.

Lemma top_moved_same (n : nat) (ctx c1 c2 : Context) :
  same_frames c1 c2 -> top_moved n ctx c1 -> top_moved n ctx c2.
Proof.
  intros [Hs Ho] [Ho1 (s & s' & rest & H1 & H2 & H3)]. split; [congruence|].
  exists s, s', rest. rewrite Hs. auto.
Qed.

Lemma top_moved_fail (n : nat) (ctx : Context) (s X : IncludeState)
    (rest : list IncludeState) (msg : string) :
  include_stack ctx = s :: rest -> cursor_moved s X ->
  top_moved n ctx (fail (set_state X ctx) msg).
Proof.
  intros Hs Hm. apply (top_moved_same n ctx (set_state X ctx));
    [apply same_frames_fail | now apply (top_moved_cursor n ctx s X rest)].
Qed.

Lemma system_filename_loop_moved (n : nat) (state : IncludeState) :
  cursor_moved state (snd (system_filename_loop n state)).
Proof.
  revert state. induction n as [|n IH]; intros state;
    cbn [system_filename_loop].
  - destruct (bytes_left state =? 0); split; cbn [snd]; (reflexivity || lia).
  - destruct (bytes_left state =? 0) eqn:E;
      [split; cbn [snd]; (reflexivity || lia)|].
    apply Z.eqb_neq in E.
    destruct (_ || _); [split; cbn [snd]; (reflexivity || lia)|].
    assert (Hm : cursor_moved state
                   (set_bytes_left (uint32 (bytes_left state - 1))
                      (set_source (source state + 1) state))).
    { split; [reflexivity|]. intros H0.
      cbn [set_bytes_left set_source bytes_left]. unfold uint32.
      pose proof (Z.mod_pos_bound (bytes_left state - 1) (2 ^ 32) ltac:(lia)).
      pose proof (Z.mod_le (bytes_left state - 1) (2 ^ 32) ltac:(lia) ltac:(lia)).
      lia. }
    destruct (Ascii.eqb _ ">"); [exact Hm|].
    cbv zeta.
    specialize (IH (set_bytes_left (uint32 (bytes_left state - 1))
                      (set_source (source state + 1) state))).
    destruct Hm as [Hc Hb], IH as [Hc' Hb']. split; [congruence | lia].
Qed.

Section Termination.

Variable lexer : IncludeState -> Token * IncludeState.
Hypothesis Hframe : lexer_frame lexer.
Hypothesis Hprogress : lexer_progress lexer.

Lemma lexer_moved (s : IncludeState) : cursor_moved s (snd (lexer s)).
Proof.
  split; [exact (proj1 (Hframe s))|].
  intros H0. exact (proj1 (Hprogress s H0)).
Qed.

Lemma require_newline_moved (s : IncludeState) :
  cursor_moved s (snd (require_newline lexer s)).
Proof.
  pose proof (lexer_moved s) as Hm. unfold require_newline.
  destruct (lexer s) as [tok s']. cbn [snd] in Hm.
  assert (E : forall (b1 b2 : bool) (x : IncludeState),
             snd (match tok with
                  | TOKEN_INCOMPLETE_COMMENT => (b1, x)
                  | _ => (b2, x)
                  end) = x) by (intros; destruct tok; reflexivity).
  rewrite E. moved.
Qed.

(** *** The handlers *)

Lemma handle_pp_endif_moved (ctx : Context) :
  ends_with (top_moved 0 ctx) (handle_pp_endif lexer ctx).
Proof.
  unfold handle_pp_endif.
  destruct (include_stack ctx) as [|state rest] eqn:Hs; [exact I|].
  pose proof (require_newline_moved state) as Hm.
  destruct (require_newline lexer state) as [eol s1]. cbn [snd] in Hm.
  destruct eol; cbn [negb ends_with];
    [|now apply (top_moved_fail 0 ctx state s1 rest)].
  destruct (conditional_stack state) as [|c next] eqn:Hc; cbn [ends_with];
    [now apply (top_moved_fail 0 ctx state s1 rest)|].
  eapply top_moved_same; [apply same_frames_put_conditionals|].
  apply (top_moved_intro 0 ctx (set_state s1 ctx) state s1 _ rest Hs
           (include_stack_set_state s1 state rest ctx Hs)
           (open_callback_set_state s1 ctx)).
  - destruct Hm as [_ Hb]. exact Hb.
  - cbn [set_conditional_stack conditional_stack]. rewrite Hc. simpl. lia.
Qed.

Lemma handle_pp_else_moved (ctx : Context) :
  ends_with (top_moved 0 ctx) (handle_pp_else lexer ctx).
Proof.
  unfold handle_pp_else.
  destruct (include_stack ctx) as [|state rest] eqn:Hs; [exact I|].
  pose proof (require_newline_moved state) as Hm.
  destruct (require_newline lexer state) as [eol s1]. cbn [snd] in Hm.
  destruct eol; cbn [negb ends_with];
    [|now apply (top_moved_fail 0 ctx state s1 rest)].
  destruct (conditional_stack state) as [|c next] eqn:Hc; cbn [ends_with];
    [now apply (top_moved_fail 0 ctx state s1 rest)|].
  assert (Hok : forall c',
             top_moved 0 ctx
               (set_state (set_conditional_stack (c' :: next) s1)
                  (set_state s1 ctx))).
  { intros c'.
    apply (top_moved_intro 0 ctx (set_state s1 ctx) state s1 _ rest Hs
             (include_stack_set_state s1 state rest ctx Hs)
             (open_callback_set_state s1 ctx)).
    - destruct Hm as [_ Hb]. exact Hb.
    - cbn [set_conditional_stack conditional_stack]. rewrite Hc. simpl. lia. }
  assert (Hbad : forall msg, top_moved 0 ctx (fail (set_state s1 ctx) msg))
    by (intros msg; now apply (top_moved_fail 0 ctx state s1 rest)).
  destruct (type c); cbn [ends_with]; first [apply Hok | apply Hbad].
Qed.

Lemma _handle_pp_ifdef_moved (ctx : Context) (ty : Token) :
  ends_with (fun r => top_moved 1 ctx (snd r)) (_handle_pp_ifdef lexer ctx ty).
Proof.
  unfold _handle_pp_ifdef.
  destruct (include_stack ctx) as [|state rest] eqn:Hs; [exact I|].
  pose proof (lexer_moved state) as M0.
  destruct (lexer state) as [tok s0]. cbn [snd] in M0.
  assert (Hbad : forall X msg, cursor_moved state X ->
                   top_moved 1 ctx (fail (set_state X ctx) msg))
    by (intros X msg HX; now apply (top_moved_fail 1 ctx state X rest)).
  destruct tok; cbn [ends_with snd]; try (now apply Hbad).
  destruct (copy_token_but_last s0) as [sym|]; [|exact I].
  pose proof (require_newline_moved s0) as M1.
  destruct (require_newline lexer s0) as [eol s1]. cbn [snd] in M1.
  assert (M : cursor_moved state s1) by moved.
  destruct eol; cbn [negb ends_with snd].
  2:{ destruct ty; now apply Hbad. }
  pose proof (same_frames_get_conditional (set_state s1 ctx)) as [Hg1 Hg2].
  destruct (get_conditional (set_state s1 ctx)) as [[z|] c1];
    cbn [snd ends_with] in *.
  - rewrite (include_stack_set_state s1 state rest ctx Hs) in Hg1.
    rewrite open_callback_set_state in Hg2.
    apply (top_moved_intro 1 ctx c1 state s1 _ rest Hs Hg1 Hg2).
    + destruct M as [_ Hb]. exact Hb.
    + cbn [set_conditional_stack conditional_stack length].
      destruct M as [Hc _]. rewrite Hc. lia.
  - apply (top_moved_same 1 ctx (set_state s1 ctx)); [split; assumption|].
    now apply (top_moved_cursor 1 ctx state s1 rest).
Qed.

Lemma handle_pp_ifdef_moved (ctx : Context) :
  ends_with (top_moved 1 ctx) (handle_pp_ifdef lexer ctx).
Proof.
  unfold handle_pp_ifdef. pose proof (_handle_pp_ifdef_moved ctx TOKEN_PP_IFDEF) as H.
  destruct (_handle_pp_ifdef lexer ctx TOKEN_PP_IFDEF); exact H.
Qed.

Lemma handle_pp_ifndef_moved (ctx : Context) :
  ends_with (top_moved 1 ctx) (handle_pp_ifndef lexer ctx).
Proof.
  unfold handle_pp_ifndef.
  pose proof (_handle_pp_ifdef_moved ctx TOKEN_PP_IFNDEF) as H.
  destruct (_handle_pp_ifdef lexer ctx TOKEN_PP_IFNDEF); exact H.
Qed.

Lemma handle_pp_undef_moved (ctx : Context) :
  ends_with (top_moved 0 ctx) (handle_pp_undef lexer ctx).
Proof.
  unfold handle_pp_undef.
  destruct (include_stack ctx) as [|state rest] eqn:Hs; [exact I|].
  pose proof (lexer_moved state) as M0.
  destruct (lexer state) as [tok s0]. cbn [snd] in M0.
  assert (Hbad : forall X msg, cursor_moved state X ->
                   top_moved 0 ctx (fail (set_state X ctx) msg))
    by (intros X msg HX; now apply (top_moved_fail 0 ctx state X rest)).
  destruct tok; cbn [ends_with]; try (now apply Hbad).
  destruct (copy_token_but_last s0) as [sym|]; [|exact I].
  pose proof (require_newline_moved s0) as M1.
  destruct (require_newline lexer s0) as [eol s1]. cbn [snd] in M1.
  assert (M : cursor_moved state s1) by moved.
  destruct eol; cbn [negb ends_with]; [|now apply Hbad].
  eapply top_moved_same; [apply same_frames_remove_define|].
  now apply (top_moved_cursor 0 ctx state s1 rest).
Qed.

Lemma handle_pp_line_moved (ctx : Context) :
  ends_with (top_moved 0 ctx) (handle_pp_line lexer ctx).
Proof.
  unfold handle_pp_line.
  destruct (include_stack ctx) as [|state rest] eqn:Hs; [exact I|].
  pose proof (lexer_moved state) as M0.
  destruct (lexer state) as [tok s0]. cbn [snd] in M0.
  assert (Hbad : forall X msg, cursor_moved state X ->
                   top_moved 0 ctx (fail (set_state X ctx) msg))
    by (intros X msg HX; now apply (top_moved_fail 0 ctx state X rest)).
  destruct tok; cbn [ends_with]; try (now apply Hbad).
  pose proof (lexer_moved s0) as M1.
  destruct (lexer s0) as [tok s1]. cbn [snd] in M1.
  assert (M01 : cursor_moved state s1) by moved.
  destruct tok; cbn [ends_with]; try (now apply Hbad).
  destruct (copy_token_but_last _) as [fname|]; [|exact I].
  pose proof (require_newline_moved (set_token (token s1 + 1) s1)) as M2.
  destruct (require_newline lexer _) as [eol s2]. cbn [snd] in M2.
  assert (M : cursor_moved state s2) by moved.
  destruct eol; cbn [negb ends_with]; [|now apply Hbad].
  pose proof (same_frames_cache_filename ctx (Some fname)) as [Hc1 Hc2].
  destruct (cache_filename ctx (Some fname)) as [cached c3].
  cbn [snd ends_with] in *. rewrite Hs in Hc1.
  apply (top_moved_intro 0 ctx c3 state state _ rest Hs Hc1 Hc2).
  - destruct M as [_ Hb]. exact Hb.
  - cbn [set_line set_filename conditional_stack].
    destruct M as [Hc _]. rewrite Hc. lia.
Qed.

Lemma handle_pp_include_moved (ctx : Context) :
  never_includes ctx ->
  ends_with (top_moved 0 ctx) (handle_pp_include lexer ctx).
Proof.
  intros Hni. unfold handle_pp_include.
  destruct (include_stack ctx) as [|state rest] eqn:Hs; [exact I|].
  pose proof (lexer_moved state) as M0.
  destruct (lexer state) as [tok s0]. cbn [snd] in M0.
  assert (Hbad : forall X msg, cursor_moved state X ->
                   top_moved 0 ctx (fail (set_state X ctx) msg))
    by (intros X msg HX; now apply (top_moved_fail 0 ctx state X rest)).
  set (triple := match tok with TOKEN_STRING_LITERAL => _ | _ => _ end).
  assert (Ht : cursor_moved state (snd triple)).
  { subst triple. destruct tok; try exact M0.
    destruct (Ascii.eqb _ "<"); [|exact M0].
    pose proof (system_filename_loop_moved (Z.to_nat (bytes_left s0)) s0) as Ml.
    destruct (system_filename_loop _ s0) as [bogus s']. cbn [snd] in *. moved. }
  clearbody triple. destruct triple as [[incltype bogus] s1]. cbn [snd] in Ht.
  destruct bogus; cbn [ends_with]; [now apply Hbad|].
  destruct (copy_token_but_last _) as [fname|]; [|exact I].
  pose proof (require_newline_moved (set_token (token s1 + 1) s1)) as M2.
  destruct (require_newline lexer _) as [eol s2]. cbn [snd] in M2.
  assert (M : cursor_moved state s2) by moved.
  destruct eol; cbn [negb ends_with]; [|now apply Hbad].
  rewrite open_callback_set_state, Hni. cbn [ends_with]. now apply Hbad.
Qed.

Lemma pp_error_scan_ends (fuel : nat) (state : IncludeState) (data : option Z) :
  0 <= bytes_left state -> (Z.to_nat (bytes_left state) < fuel)%nat ->
  exists s src d,
    pp_error_scan lexer fuel state data = Done (s, src, d) /\
    cursor_moved state s.
Proof.
  revert state data. induction fuel as [|fuel IH]; intros state data H0 Hf; [lia|].
  cbn [pp_error_scan].
  pose proof (lexer_moved state) as M0.
  pose proof (proj2 (Hprogress state H0)) as P.
  destruct (lexer state) as [tok s0]. cbn [fst snd] in M0, P.
  destruct (Token_eqb tok TOKEN_NEWLINE).
  { eexists _, _, _. split; [reflexivity|]. moved. }
  destruct (Token_eqb tok TOKEN_INCOMPLETE_COMMENT) eqn:E2; cbn [orb].
  { eexists _, _, _. split; [reflexivity|]. exact M0. }
  destruct (Token_eqb tok TOKEN_EOI) eqn:E3.
  { eexists _, _, _. split; [reflexivity|]. exact M0. }
  apply Token_eqb_neq in E2, E3. specialize (P E3 E2).
  destruct M0 as [Hc Hb]. specialize (Hb H0).
  destruct (IH s0 (match data with None => Some (token s0) | Some _ => data end))
    as (s & src & d & E & [Hc' Hb']); [lia | lia |].
  exists s, src, d. split; [exact E|]. split; [congruence | lia].
Qed.

Lemma handle_pp_error_moved (fuel : nat) (ctx : Context) (state : IncludeState)
    (rest : list IncludeState) :
  include_stack ctx = state :: rest ->
  0 <= bytes_left state -> (Z.to_nat (bytes_left state) < fuel)%nat ->
  ends_with (top_moved 0 ctx) (handle_pp_error lexer fuel ctx).
Proof.
  intros Hs H0 Hf. unfold handle_pp_error. rewrite Hs.
  destruct (pp_error_scan_ends fuel state None H0 Hf) as (s & src & d & E & M).
  rewrite E. cbn [bind].
  destruct d as [data|]; [|exact I].
  destruct (_ || _); [exact I|]. cbn [ends_with].
  apply (top_moved_same 0 ctx (set_state (set_source src s) ctx));
    [split; reflexivity|].
  apply (top_moved_cursor 0 ctx state _ rest Hs). moved.
Qed.

Lemma unterminated_pp_condition_pops (ctx : Context) (state : IncludeState)
    (rest : list IncludeState) :
  include_stack ctx = state :: rest ->
  ends_with
    (fun ctx' =>
       open_callback ctx' = open_callback ctx /\
       exists s,
         include_stack ctx' = s :: rest /\
         bytes_left s = bytes_left state /\
         S (length (conditional_stack s)) = length (conditional_stack state))
    (unterminated_pp_condition ctx).
Proof.
  intros Hs. unfold unterminated_pp_condition. rewrite Hs.
  destruct (conditional_stack state) as [|cond next] eqn:Hc; [exact I|].
  cbn [ends_with].
  set (c0 := match type cond with TOKEN_PP_IF => _ | _ => _ end).
  assert (H0 : same_frames ctx c0)
    by (subst c0; destruct (type cond); split; reflexivity).
  clearbody c0. destruct H0 as [H1 H2]. rewrite Hs in H1.
  pose proof (same_frames_put_conditionals
                (set_state (set_conditional_stack next state) c0) [cond])
    as [P1 P2].
  rewrite (include_stack_set_state _ state rest c0 H1) in P1.
  rewrite open_callback_set_state in P2.
  split; [congruence|].
  eexists. split; [exact P1|]. split; reflexivity.
Qed.

(** *** The loop *)

Lemma top_moved_turn (n : nat) (ctx ctx' : Context) (state : IncludeState)
    (rest : list IncludeState) :
  include_stack ctx = state :: rest ->
  frames_nonneg ctx -> never_includes ctx ->
  top_moved n ctx ctx' ->
  frames_nonneg ctx' /\ never_includes ctx' /\
  (stack_fuel (include_stack ctx') <= n + stack_fuel (include_stack ctx))%nat.
Proof.
  intros Hs Hnn Hni [Ho (s & s' & rest' & H1 & H2 & Hb & Hl)].
  rewrite Hs in H1. injection H1 as <- <-.
  unfold frames_nonneg in *. rewrite Hs in Hnn.
  apply Forall_cons in Hnn as [H0 Hnn]. specialize (Hb H0).
  split; [|split].
  - rewrite H2. apply Forall_cons. split; [lia | exact Hnn].
  - unfold never_includes. rewrite Ho. exact Hni.
  - rewrite H2, Hs. cbn [stack_fuel]. unfold frame_fuel. lia.
Qed.

Lemma pop_source_frames (ctx : Context) (state : IncludeState)
    (rest : list IncludeState) :
  include_stack ctx = state :: rest ->
  include_stack (pop_source ctx) = rest /\
  open_callback (pop_source ctx) = open_callback ctx.
Proof.
  intros Hs. unfold pop_source. rewrite Hs.
  set (c0 := if included state then _ else _).
  assert (H0 : same_frames ctx c0)
    by (subst c0; destruct (included state); split; reflexivity).
  clearbody c0.
  rewrite put_conditionals_pool. destruct H0 as [_ H0]. split; [reflexivity|].
  exact H0.
Qed.

Lemma nexttoken_step_turn (fuel : nat) (ctx : Context) :
  frames_nonneg ctx -> never_includes ctx ->
  (stack_fuel (include_stack ctx) <= fuel)%nat ->
  ends_with (next_turn lexer ctx) (nexttoken_step lexer fuel ctx).
Proof.
  intros Hnn Hni Hfuel. unfold nexttoken_step.
  destruct (isfail ctx) eqn:Efail.
  { cbn [ends_with next_turn]. split; [exact Hnn|]. split; [exact Hni|].
    right. unfold turn_measure. rewrite Efail. cbn [set_isfail isfail include_stack].
    lia. }
  destruct (include_stack ctx) as [|state rest] eqn:Hs.
  { cbn [ends_with next_turn tr_bytes]. split; [exact Hnn|].
    split; [exact Hni | now left]. }
  assert (H0 : 0 <= bytes_left state).
  { unfold frames_nonneg in Hnn. rewrite Hs in Hnn.
    now apply Forall_cons in Hnn as [H0 _]. }
  pose proof (lexer_moved state) as M0.
  pose proof (proj2 (Hprogress state H0)) as P.
  destruct (lexer state) as [tok s0] eqn:El. cbn [fst snd] in M0, P.
  pose proof (include_stack_set_state s0 state rest ctx Hs) as Hs1.
  destruct (top_moved_turn 0 ctx (set_state s0 ctx) state rest Hs
              Hnn Hni
              (top_moved_cursor 0 ctx state s0 rest Hs M0))
    as (Hnn1 & Hni1 & Hle1).
  rewrite Hs in Hle1. rewrite Hs1 in Hle1. cbn [stack_fuel] in Hle1, Hfuel.
  destruct M0 as [Hc0 Hb0]. specialize (Hb0 H0).
  assert (Hfail1 : isfail (set_state s0 ctx) = false).
  { destruct (set_state_fields s0 ctx) as (_ & _ & _ & _ & E & _). congruence. }
  set (c1 := set_state s0 ctx) in *.
  (* a handler that may push one conditional, after a lexeme that took a byte *)
  assert (Hhandler : forall n o,
            (n <= 1)%nat ->
            tok <> TOKEN_EOI -> tok <> TOKEN_INCOMPLETE_COMMENT ->
            ends_with (top_moved n c1) o ->
            ends_with (next_turn lexer ctx) (continue o)).
  { intros n o Hn T1 T2. specialize (P T1 T2).
    apply ends_with_continue. intros c Hc. cbn [next_turn].
    destruct (top_moved_turn n c1 c s0 rest Hs1 Hnn1 Hni1 Hc) as (A & B & C).
    split; [exact A|]. split; [exact B|]. left.
    rewrite Hs1 in C. rewrite Hs. cbn [stack_fuel] in *. unfold frame_fuel in *.
    rewrite Hc0 in C. lia. }
  assert (Hless : tok <> TOKEN_EOI -> tok <> TOKEN_INCOMPLETE_COMMENT ->
            (stack_fuel (include_stack c1) + 2 <= stack_fuel (include_stack ctx))%nat).
  { intros T1 T2. specialize (P T1 T2).
    rewrite Hs1, Hs. cbn [stack_fuel]. unfold frame_fuel. rewrite Hc0. lia. }
  assert (Hskip : tok <> TOKEN_EOI -> tok <> TOKEN_INCOMPLETE_COMMENT ->
            next_turn lexer ctx (Continue c1)).
  { intros T1 T2. specialize (Hless T1 T2). cbn [next_turn].
    split; [exact Hnn1|]. split; [exact Hni1|]. left. lia. }
  assert (Hrest :
            tok <> TOKEN_EOI -> tok <> TOKEN_INCOMPLETE_COMMENT ->
            ends_with (next_turn lexer ctx)
              (if top_skipping (conditional_stack state)
               then Done (Continue c1)
               else
                 Done (Return
                         (mkTokenResult
                            (Some (slice (source_base s0) (token s0)
                                     (uint32 (source s0 - token s0))))
                            (uint32 (source s0 - token s0)) tok) c1))).
  { intros T1 T2. destruct (top_skipping _); cbn [ends_with];
      [now apply Hskip|].
    specialize (Hless T1 T2). cbn [next_turn].
    split; [exact Hnn1|]. split; [exact Hni1|]. right.
    unfold turn_measure. rewrite Hfail1, Efail. lia. }
  destruct tok; try (apply Hrest; discriminate).
  - destruct (top_skipping _); [apply Hskip; discriminate|].
    apply (Hhandler 0%nat); [lia | discriminate | discriminate|].
    now apply handle_pp_include_moved.
  - destruct (top_skipping _); [apply Hskip; discriminate|].
    apply (Hhandler 0%nat); [lia | discriminate | discriminate|].
    apply handle_pp_line_moved.
  - destruct (top_skipping _); [apply Hskip; discriminate|].
    apply (Hhandler 0%nat); [lia | discriminate | discriminate|].
    apply handle_pp_undef_moved.
  - apply (Hhandler 1%nat); [lia | discriminate | discriminate|].
    apply handle_pp_ifdef_moved.
  - apply (Hhandler 1%nat); [lia | discriminate | discriminate|].
    apply handle_pp_ifndef_moved.
  - apply (Hhandler 0%nat); [lia | discriminate | discriminate|].
    apply handle_pp_else_moved.
  - apply (Hhandler 0%nat); [lia | discriminate | discriminate|].
    apply handle_pp_endif_moved.
  - destruct (top_skipping _); [apply Hskip; discriminate|].
    apply (Hhandler 0%nat); [lia | discriminate | discriminate|].
    apply (handle_pp_error_moved fuel c1 s0 rest Hs1); unfold frame_fuel in *; lia.
  - (* TOKEN_INCOMPLETE_COMMENT *)
    cbn [ends_with next_turn].
    split; [exact Hnn1|]. split; [exact Hni1|]. right. split; [reflexivity|].
    exists state, rest. rewrite El. cbn [fst snd].
    split; [exact Hs|]. split; [reflexivity | exact Hs1].
  - (* TOKEN_EOI *)
    destruct (conditional_stack s0) as [|c next] eqn:Hcs0.
    + cbn [ends_with next_turn].
      destruct (pop_source_frames c1 s0 rest Hs1) as [Q1 Q2].
      unfold frames_nonneg, never_includes. rewrite Q1, Q2.
      unfold frames_nonneg in Hnn1. rewrite Hs1 in Hnn1.
      apply Forall_cons in Hnn1 as [_ Hnn1].
      split; [exact Hnn1|]. split; [exact Hni1|]. left.
      rewrite Hs. cbn [stack_fuel]. unfold frame_fuel. lia.
    + apply (ends_with_continue
               (fun ctx' =>
                  open_callback ctx' = open_callback c1 /\
                  exists s,
                    include_stack ctx' = s :: rest /\
                    bytes_left s = bytes_left s0 /\
                    S (length (conditional_stack s)) = length (conditional_stack s0)));
        [|now apply unterminated_pp_condition_pops].
      intros c' (Q2 & s & Q1 & Qb & Ql). cbn [next_turn].
      unfold frames_nonneg, never_includes. rewrite Q1, Q2.
      unfold frames_nonneg in Hnn1. rewrite Hs1 in Hnn1.
      apply Forall_cons in Hnn1 as [_ Hnn1].
      split; [apply Forall_cons; split; [lia | exact Hnn1]|].
      split; [exact Hni1|]. left.
      rewrite Hs. cbn [stack_fuel]. unfold frame_fuel.
      rewrite Hcs0 in Ql. rewrite <- Hc0. cbn [length] in *. lia.
Qed.

Lemma nexttoken_ends (fuel : nat) (ctx : Context) :
  frames_nonneg ctx -> never_includes ctx ->
  ((if isfail ctx then 1 else stack_fuel (include_stack ctx) + 2) <= fuel)%nat ->
  _preprocessor_nexttoken lexer fuel ctx <> OutOfFuel.
Proof.
  revert ctx. induction fuel as [|fuel IH]; intros ctx Hnn Hni Hf.
  { destruct (isfail ctx); lia. }
  cbn [_preprocessor_nexttoken].
  destruct (isfail ctx) eqn:Efail.
  { unfold nexttoken_step. rewrite Efail. discriminate. }
  pose proof (nexttoken_step_turn fuel ctx Hnn Hni ltac:(lia)) as Hturn.
  destruct (nexttoken_step lexer fuel ctx) as [[r c1|c1]| |];
    cbn [ends_with next_turn] in Hturn; try discriminate; [|contradiction].
  destruct Hturn as (A & B & C). apply IH; [exact A | exact B|].
  destruct C as [C|[C _]]; [destruct (isfail c1); lia | rewrite C; lia].
Qed.

(** *** More fuel changes nothing *)

Lemma pp_error_scan_mono (f f' : nat) (state : IncludeState) (data : option Z) :
  (f <= f')%nat -> pp_error_scan lexer f state data <> OutOfFuel ->
  pp_error_scan lexer f' state data = pp_error_scan lexer f state data.
Proof.
  revert f' state data. induction f as [|f IH]; intros f' state data Hle H;
    [now contradiction H|].
  destruct f' as [|f']; [lia|]. cbn [pp_error_scan] in *.
  destruct (lexer state) as [tok s0].
  destruct (Token_eqb tok TOKEN_NEWLINE); [reflexivity|].
  destruct (_ || _); [reflexivity|].
  apply IH; [lia | exact H].
Qed.

Lemma handle_pp_error_mono (f f' : nat) (ctx : Context) :
  (f <= f')%nat -> handle_pp_error lexer f ctx <> OutOfFuel ->
  handle_pp_error lexer f' ctx = handle_pp_error lexer f ctx.
Proof.
  intros Hle. unfold handle_pp_error.
  destruct (include_stack ctx) as [|state rest]; [reflexivity|].
  intros H. rewrite (pp_error_scan_mono f f' state None Hle); [reflexivity|].
  intros E. apply H. rewrite E. reflexivity.
Qed.

Lemma nexttoken_step_mono (f f' : nat) (ctx : Context) :
  (f <= f')%nat -> nexttoken_step lexer f ctx <> OutOfFuel ->
  nexttoken_step lexer f' ctx = nexttoken_step lexer f ctx.
Proof.
  intros Hle. unfold nexttoken_step.
  destruct (isfail ctx); [reflexivity|].
  destruct (include_stack ctx) as [|state rest]; [reflexivity|].
  destruct (lexer state) as [tok s0].
  destruct tok; try reflexivity.
  destruct (top_skipping _); [reflexivity|].
  intros H. rewrite (handle_pp_error_mono f f' _ Hle); [reflexivity|].
  intros E. apply H. rewrite E. reflexivity.
Qed.

Lemma nexttoken_mono (f f' : nat) (ctx : Context) :
  (f <= f')%nat -> _preprocessor_nexttoken lexer f ctx <> OutOfFuel ->
  _preprocessor_nexttoken lexer f' ctx = _preprocessor_nexttoken lexer f ctx.
Proof.
  revert f' ctx. induction f as [|f IH]; intros f' ctx Hle H;
    [now contradiction H|].
  destruct f' as [|f']; [lia|]. cbn [_preprocessor_nexttoken] in *.
  rewrite (nexttoken_step_mono f f' ctx ltac:(lia)).
  - destruct (nexttoken_step lexer f ctx) as [[r c1|c1]| |]; try reflexivity.
    apply IH; [lia | exact H].
  - intros E. rewrite E in H. now apply H.
Qed.

End Termination.



(** ** Termination of the entry point *)

Lemma lexer_consumes_progress (lexer : IncludeState -> Token * IncludeState) :
  lexer_consumes lexer -> lexer_progress lexer.
Proof.
  intros H s H0. destruct (H s H0) as [A B].
  split; [exact A | intros T _; exact (B T)].
Qed.

(** An unclosed block comment lies before the place where the bytes ran
    out. *)
Lemma skip_blank_open_within (n : nat) (s : string) (mode : Blank)
    (pos lines start : nat) :
  (String.length s <= n)%nat ->
  (mode = InBlockComment -> start < pos)%nat ->
  forall at_, snd (skip_blank mode s pos lines start) = Some at_ ->
    (at_ < fst (fst (skip_blank mode s pos lines start)))%nat.
Proof.
  revert s mode pos lines start.
  induction n as [|n IH]; intros s mode pos lines start Hn Hstart;
    destruct s as [|c s]; try (simpl in Hn; lia).
  - destruct mode; simpl; intros at_ H; try discriminate.
    injection H as <-. auto.
  - destruct mode; simpl; intros at_ H; try discriminate.
    injection H as <-. auto.
  - assert (IH1 : forall mode pos lines start,
               (mode = InBlockComment -> start < pos)%nat ->
               forall at_, snd (skip_blank mode s pos lines start) = Some at_ ->
                 (at_ < fst (fst (skip_blank mode s pos lines start)))%nat).
    { intros. eapply IH; [simpl in Hn; lia | eassumption | assumption]. }
    assert (IH2 : forall c2 s2, s = String c2 s2 ->
               forall mode pos lines start,
               (mode = InBlockComment -> start < pos)%nat ->
               forall at_, snd (skip_blank mode s2 pos lines start) = Some at_ ->
                 (at_ < fst (fst (skip_blank mode s2 pos lines start)))%nat).
    { intros c2 s2 -> ? ? ? ? ? ? ?.
      eapply IH; [simpl in Hn; lia | eassumption | assumption]. }
    destruct mode; cbn [skip_blank].
    + destruct (is_space c); [apply IH1; discriminate|].
      destruct (Ascii.eqb c "/"); [|simpl; discriminate].
      destruct s as [|c2 s2]; [simpl; discriminate|].
      destruct (Ascii.eqb c2 "/"); [apply (IH2 c2 s2 eq_refl); discriminate|].
      destruct (Ascii.eqb c2 "*"); [apply (IH2 c2 s2 eq_refl); intros _; lia|].
      simpl. discriminate.
    + destruct (Ascii.eqb c NEWLINE); [simpl; discriminate|].
      apply IH1. discriminate.
    + specialize (Hstart eq_refl).
      destruct (Ascii.eqb c "*").
      { destruct s as [|c2 s2]; [apply IH1; intros _; lia|].
        destruct (Ascii.eqb c2 "/");
          [apply (IH2 c2 s2 eq_refl); discriminate | apply IH1; intros _; lia]. }
      destruct (Ascii.eqb c NEWLINE); apply IH1; intros _; lia.
Qed.

Lemma preprocessor_internal_lexer_consumes :
  lexer_consumes preprocessor_internal_lexer.
Proof.
  intros s Hleft.
  destruct (preprocessor_internal_lexer_progress s Hleft) as [Hrange Hless].
  split; [exact Hrange|]. intros Heoi.
  destruct (Token_eq_dec (fst (preprocessor_internal_lexer s))
              TOKEN_INCOMPLETE_COMMENT) as [Hic|Hic]; [|now apply Hless].
  clear Hless Heoi Hrange. revert Hic. unfold preprocessor_internal_lexer.
  set (w := slice (source_base s) (source s) (bytes_left s)).
  pose proof (skip_blank_open_within (String.length w) w InCode 0 0 0 (le_n _)
                ltac:(discriminate)) as Hopen.
  destruct (skip_blank InCode w 0 0 0) as [[pos lines] unclosed].
  cbn [fst snd] in Hopen.
  destruct unclosed as [start|].
  - specialize (Hopen start eq_refl). intros _.
    cbn [fst snd bytes_left set_line set_bytes_left set_token set_source]. lia.
  - pose proof (lex_at_pos (starts_line (source_base s) (source s + Z.of_nat pos)))
      as Hone.
    destruct (string_drop pos w) as [|c rest]; [cbn; discriminate|].
    specialize (Hone c rest).
    destruct (lex_at _ (String c rest)) as [tok len]. cbn [fst snd] in *.
    intros _.
    cbn [fst snd bytes_left set_line set_bytes_left set_token set_source]. lia.
Qed.

Lemma same_latch_refl (ctx : Context) : same_latch ctx ctx.
Proof. repeat split. Qed.

Lemma same_latch_trans (a b c : Context) :
  same_latch a b -> same_latch b c -> same_latch a c.
Proof.
  intros [[A1 A2] A3] [[B1 B2] B3]. repeat split; congruence.
Qed.

Lemma m_call_latch (ctx : Context) (len : Z) :
  same_latch ctx (snd (m_call ctx len)).
Proof.
  unfold m_call. destruct (heap_malloc len (malloc_data ctx)). repeat split.
Qed.

Lemma f_call_latch (ctx : Context) : same_latch ctx (f_call ctx).
Proof. repeat split. Qed.

(** *** The buffer chains of [preprocess_token] *)

Lemma add_to_buffer_ends (b : Buffer) (data : list ascii) (d : Heap) :
  buffer_built b -> ends_with built_if_ok (add_to_buffer b data d).
Proof.
  intros Hb. destruct (buffer_built_inv b Hb) as [Hwf _].
  destruct (add_to_buffer_spec b data d Hwf) as (ok & b' & d' & Hrun & _).
  rewrite Hrun. cbn [ends_with]. unfold built_if_ok. cbn [fst snd].
  intros ->. exact (built_add b b' data d d' Hb Hrun).
Qed.

Lemma add_token_ends (b : Buffer) (tokstr : string) (len : Z) (d : Heap) :
  buffer_built b -> ends_with built_if_ok (add_token b tokstr len d).
Proof.
  intros Hb. unfold add_token.
  destruct (token_data tokstr len); [now apply add_to_buffer_ends | exact I].
Qed.

Lemma indent_buffer_ends (fuel : nat) (b : Buffer) (n : Z) (newline : bool)
    (d : Heap) :
  buffer_built b -> 0 <= n -> (Z.to_nat n < fuel)%nat ->
  ends_with built_if_ok (indent_buffer fuel b n newline d).
Proof.
  intros Hb Hn Hf. unfold indent_buffer. destruct newline.
  - destruct (buffer_built_inv b Hb) as [Hwf _].
    destruct (indent_buffer_loop_spec (Z.to_nat n) fuel b d Hwf Hf)
      as (ok & b' & d' & Hrun & _).
    rewrite Z2Nat.id in Hrun by lia. rewrite Hrun.
    cbn [ends_with]. unfold built_if_ok. cbn [fst snd]. intros ->.
    exact (proj2 (indent_buffer_loop_blocks _ _ _ _ _ _ _ Hrun) Hb eq_refl).
  - pose proof (add_to_buffer_ends b (firstn 1 spaces) d Hb) as H.
    destruct (add_to_buffer b (firstn 1 spaces) d) as [[[ok1 b1] d1]| |];
      cbn [bind ends_with] in *; try assumption.
    unfold built_if_ok in *. cbn [fst snd] in *.
    destruct ok1; cbn [negb ends_with fst snd]; [exact H | discriminate].
Qed.

Lemma and_then_ends (o : Outcome (bool * Buffer * Heap))
    (k : Buffer -> Heap -> Outcome (bool * Buffer * Heap)) :
  ends_with built_if_ok o ->
  (forall b d, buffer_built b -> ends_with built_if_ok (k b d)) ->
  ends_with built_if_ok (and_then o k).
Proof.
  unfold and_then. destruct o as [[[ok b] d]| |]; cbn [bind ends_with]; auto.
  unfold built_if_ok at 1. cbn [fst snd]. intros H Hk.
  destruct ok; [apply Hk, H; reflexivity|].
  cbn [ends_with]. unfold built_if_ok. cbn [fst snd]. discriminate.
Qed.

Lemma with_buffer_ends (ctx : Context) (st : PreprocessState) (indent : Z)
    (isnewline : bool) (o : Outcome (bool * Buffer * Heap)) :
  driver_wf st -> 0 <= indent -> ends_with built_if_ok o ->
  ends_with (token_written ctx) (with_buffer ctx st indent isnewline o).
Proof.
  intros (Hb & Hi & Hc) Hn. unfold with_buffer.
  destruct o as [[[ok b] d]| |]; cbn [bind ends_with]; auto.
  unfold built_if_ok, token_written. cbn [fst snd]. intros H.
  split; [|repeat split].
  intros Hok. apply negb_false_iff in Hok.
  split; [exact (H Hok)|]. split; [exact Hn | exact Hc].
Qed.

Lemma preprocess_token_ends (endline : list ascii) (r : TokenResult)
    (tokstr : string) (ctx : Context) (st : PreprocessState) :
  driver_wf st ->
  ends_with (token_written ctx) (preprocess_token endline r tokstr ctx st).
Proof.
  intros Hwf. pose proof Hwf as (Hb & Hi & Hc). unfold preprocess_token.
  cbv zeta.
  assert (Hskip : forall isnewline,
            ends_with (token_written ctx)
              (Done (true, ctx,
                     mkPreprocessState (st_buffer st) (st_errors st)
                       (st_error_count st) isnewline (st_indent st)))).
  { intros isnewline. cbn [ends_with]. unfold token_written. cbn [fst snd].
    split; [discriminate | apply same_latch_refl]. }
  destruct (Token_eqb (tr_token r) (TOKEN_CHAR NEWLINE)).
  { cbn [ends_with]. unfold token_written. cbn [fst snd].
    split; [intros _; exact Hwf | apply same_latch_refl]. }
  destruct (_ || _).
  { destruct (preprocessor_outofmemory ctx); [apply Hskip|].
    assert (Hn : 0 <= (if Token_eqb (tr_token r) (TOKEN_CHAR "}")
                          && (0 <? st_indent st)
                       then st_indent st - 1 else st_indent st)).
    { destruct (_ && _) eqn:E; [|exact Hi].
      apply andb_true_iff in E as [_ E]. apply Z.ltb_lt in E. lia. }
    apply with_buffer_ends; [exact Hwf | exact Hn|].
    apply and_then_ends; [apply indent_buffer_ends; [exact Hb | exact Hn | lia]|].
    intros b1 d1 Hb1. apply and_then_ends; [now apply add_token_ends|].
    intros b2 d2 Hb2. now apply add_to_buffer_ends. }
  destruct (Token_eqb (tr_token r) (TOKEN_CHAR "{")).
  { destruct (preprocessor_outofmemory ctx); [apply Hskip|].
    destruct (st_indent st =? INT_MAX); [exact I|].
    apply with_buffer_ends; [exact Hwf | lia|].
    apply and_then_ends; [now apply add_to_buffer_ends|].
    intros b1 d1 Hb1.
    apply and_then_ends; [apply indent_buffer_ends; [exact Hb1 | exact Hi | lia]|].
    intros b2 d2 Hb2. apply and_then_ends; [now apply add_to_buffer_ends|].
    intros b3 d3 Hb3. now apply add_to_buffer_ends. }
  destruct (Token_eqb (tr_token r) TOKEN_PREPROCESSING_ERROR).
  { destruct (preprocessor_outofmemory ctx); [apply Hskip|].
    pose proof (m_call_latch ctx 0) as L1.
    destruct (m_call ctx 0) as [error c1]. cbn [snd] in L1.
    destruct (preprocessor_sourcepos c1) as [str pos].
    set (second := match str with
                   | Some str0 => m_call c1 (strlen str0 + 1)
                   | None => (false, c1)
                   end).
    assert (L2 : same_latch ctx (snd second)).
    { subst second. destruct str as [str0|]; [|exact L1].
      eapply same_latch_trans; [exact L1 | apply m_call_latch]. }
    clearbody second. destruct second as [fname c2]. cbn [snd] in L2.
    pose proof (m_call_latch c2 (tr_len r + 1)) as L3.
    destruct (m_call c2 (tr_len r + 1)) as [errstr c3]. cbn [snd] in L3.
    pose proof (same_latch_trans _ _ _ L2 L3) as L.
    destruct (errstr && _); [exact I|].
    destruct (_ || _).
    - cbn [ends_with]. unfold token_written. cbn [fst snd].
      split; [discriminate|].
      destruct errstr, fname, error;
        repeat (eapply same_latch_trans; [|apply f_call_latch]); exact L.
    - destruct (st_error_count st =? INT_MAX); [exact I|].
      cbn [ends_with]. unfold token_written. cbn [fst snd].
      split; [|exact L]. intros _.
      split; [exact Hb|]. split; [exact Hi|].
      cbn [st_error_count st_errors]. rewrite length_app. cbn [length]. lia. }
  destruct (preprocessor_outofmemory ctx); [apply Hskip|].
  apply with_buffer_ends; [exact Hwf | exact Hi|].
  apply and_then_ends; [apply indent_buffer_ends; [exact Hb | exact Hi | lia]|].
  intros b1 d1 Hb1. now apply add_token_ends.
Qed.

Lemma preprocess_finish_ends (ctx : Context) (st : PreprocessState) :
  preprocess_finish ctx st <> OutOfFuel.
Proof.
  unfold preprocess_finish.
  destruct (preprocessor_end ctx) as [d0 closed0].
  unfold flatten_buffer.
  destruct (heap_malloc _ d0) as [[|] d1]; cbn [negb].
  2:{ cbn [bind]. destruct (free_error_list _ _). discriminate. }
  destruct (_ <=? _); cbn [bind]; [|discriminate].
  destruct (heap_malloc 0 _) as [[|] d3]; cbn [negb].
  2:{ destruct (free_error_list _ _). discriminate. }
  unfold build_errors.
  destruct (heap_malloc _ d3) as [[|] d4]; cbn [negb bind].
  - destruct (_ <? _); cbn [bind]; discriminate.
  - destruct (free_error_list _ _). discriminate.
Qed.

Lemma add_defines_true_latch (defines : list MOJOSHADER_preprocessorDefine)
    (ctx ctx' : Context) :
  add_defines ctx defines = (true, ctx') -> same_latch ctx ctx'.
Proof.
  revert ctx. induction defines as [|def rest IH]; intros ctx; cbn [add_defines].
  - intros H. injection H as <-. apply same_latch_refl.
  - destruct (add_define ctx (identifier def) (definition def)) as [[|] c1] eqn:E;
      [|discriminate].
    intros H. apply IH in H.
    destruct (add_define_true_keeps _ _ _ _ E)
      as (K1 & _ & _ & K2 & _ & _ & _ & K3 & _).
    eapply same_latch_trans; [|exact H]. repeat split; assumption.
Qed.

Lemma preprocessor_start_shape (fname : option string) (src : string)
    (sourcelen : Z) (open : MOJOSHADER_includeOpen)
    (defines : list MOJOSHADER_preprocessorDefine) (d d' : Heap) (ctx : Context) :
  preprocessor_start fname src sourcelen open defines d = (Some ctx, d') ->
  include_stack ctx = [mkIncludeState fname false src 0 0 sourcelen 1 []] /\
  open_callback ctx = open /\ isfail ctx = false.
Proof.
  unfold preprocessor_start.
  destruct (heap_malloc 0 d) as [[|] d1]; cbn [negb]; [|discriminate].
  destruct (add_defines (fresh_context open [] d1) defines) as [[|] c1] eqn:Hadd;
    [|discriminate].
  destruct (push_source c1 fname src sourcelen false) as [[|] c2] eqn:Hpush;
    [|discriminate].
  intros H. injection H as <- _.
  destruct (add_defines_true_latch _ _ _ Hadd) as [[A1 A2] A3].
  destruct (push_source_true _ _ _ _ _ _ Hpush)
    as (P1 & _ & _ & _ & P2 & _ & P3 & _).
  rewrite A1 in P1. rewrite A3 in P2. rewrite A2 in P3.
  repeat split; assumption.
Qed.

Section Entry.

Variable lexer : IncludeState -> Token * IncludeState.
Hypothesis Hframe : lexer_frame lexer.
Hypothesis Hconsumes : lexer_consumes lexer.

Lemma nexttoken_step_less (fuel : nat) (ctx : Context) :
  frames_nonneg ctx -> never_includes ctx ->
  (stack_fuel (include_stack ctx) <= fuel)%nat ->
  ends_with
    (fun s =>
       match s with
       | Return r c' => next_pull ctx (r, c')
       | Continue c' =>
           frames_nonneg c' /\ never_includes c' /\
           (turn_measure c' < turn_measure ctx)%nat
       end)
    (nexttoken_step lexer fuel ctx).
Proof.
  intros Hnn Hni Hfuel.
  apply (ends_with_impl (next_turn lexer ctx));
    [|exact (nexttoken_step_turn lexer Hframe
               (lexer_consumes_progress lexer Hconsumes) fuel ctx Hnn Hni Hfuel)].
  intros [r c'|c']; cbn [next_turn]; [intros H; exact H|].
  intros (A & B & C). split; [exact A|]. split; [exact B|].
  unfold turn_measure. destruct C as [C|(C & state & rest & Hs & Htok & Hs')].
  - destruct (isfail c'), (isfail ctx); lia.
  - assert (H0 : 0 <= bytes_left state).
    { unfold frames_nonneg in Hnn. rewrite Hs in Hnn.
      now apply Forall_cons in Hnn as [H0 _]. }
    destruct (Hconsumes state H0) as [Hrange Hless].
    specialize (Hless ltac:(rewrite Htok; discriminate)).
    pose proof (proj1 (Hframe state)) as Hc.
    rewrite Hs, Hs', C. cbn [stack_fuel]. unfold frame_fuel. rewrite Hc.
    destruct (isfail ctx); lia.
Qed.

Lemma nexttoken_less (fuel : nat) (ctx : Context) :
  frames_nonneg ctx -> never_includes ctx ->
  ((if isfail ctx then 1 else stack_fuel (include_stack ctx) + 2) <= fuel)%nat ->
  ends_with (next_pull ctx) (_preprocessor_nexttoken lexer fuel ctx).
Proof.
  revert ctx. induction fuel as [|fuel IH]; intros ctx Hnn Hni Hf.
  { destruct (isfail ctx); lia. }
  cbn [_preprocessor_nexttoken].
  destruct (isfail ctx) eqn:Efail.
  { unfold nexttoken_step. rewrite Efail. cbn [ends_with].
    unfold next_pull. cbn [fst snd]. split; [exact Hnn|]. split; [exact Hni|].
    right. unfold turn_measure. rewrite Efail.
    cbn [set_isfail isfail include_stack]. lia. }
  pose proof (nexttoken_step_less fuel ctx Hnn Hni ltac:(lia)) as Hturn.
  destruct (nexttoken_step lexer fuel ctx) as [[r c1|c1]| |];
    cbn [ends_with] in Hturn |- *; try assumption.
  destruct Hturn as (A & B & C). unfold turn_measure in C. rewrite Efail in C.
  apply (ends_with_impl (next_pull c1)); [|apply IH; [exact A | exact B|]].
  - intros p (P1 & P2 & P3). split; [exact P1|]. split; [exact P2|].
    destruct P3 as [P3|P3]; [now left | right].
    unfold turn_measure in *. rewrite Efail. lia.
  - destruct (isfail c1); lia.
Qed.

Lemma preprocess_loop_ends (fuel calls : nat) (endline : list ascii)
    (ctx : Context) (st : PreprocessState) :
  frames_nonneg ctx -> never_includes ctx -> driver_wf st ->
  (pull_fuel ctx <= fuel)%nat -> (turn_measure ctx < calls)%nat ->
  preprocess_loop lexer fuel calls endline ctx st <> OutOfFuel.
Proof.
  revert ctx st. induction calls as [|calls IH]; intros ctx st Hnn Hni Hwf Hf Hc;
    [lia|].
  cbn [preprocess_loop]. unfold preprocessor_nexttoken.
  pose proof (nexttoken_less fuel ctx Hnn Hni
                ltac:(unfold pull_fuel in Hf; destruct (isfail ctx); lia))
    as Hpull.
  destruct (_preprocessor_nexttoken lexer fuel ctx) as [[r c1]| |];
    cbn [bind ends_with] in *; [|contradiction | discriminate].
  destruct Hpull as (A & B & C). cbn [fst snd] in A, B, C.
  destruct (tr_bytes r) as [tokstr|]; [|apply preprocess_finish_ends].
  destruct C as [C|C]; [discriminate|].
  destruct (Token_eqb (tr_token r) TOKEN_EOI); [discriminate|].
  pose proof (preprocess_token_ends endline r tokstr c1 st Hwf) as Htok.
  destruct (preprocess_token endline r tokstr c1 st) as [[[oom c2] st2]| |];
    cbn [bind ends_with] in *; [|contradiction | discriminate].
  destruct Htok as (W & [S1 S2] & S3). cbn [fst snd] in W, S1, S2, S3.
  destruct oom.
  - destruct (preprocess_bail c2 st2) as [[d2 closed2] nulls2]. discriminate.
  - apply IH.
    + unfold frames_nonneg. rewrite S1. exact A.
    + unfold never_includes. rewrite S2. exact B.
    + now apply W.
    + unfold pull_fuel, turn_measure in *. rewrite S1.
      destruct (isfail c1), (isfail ctx); lia.
    + unfold turn_measure in *. rewrite S1, S3. lia.
Qed.

End Entry.


